(** * Lock-free stacks of Cpp-Concurrency-in-Action-2ed

    A shallow embedding of the two lock-free stacks of the repository,

    - [src/lock_free_stack_hazard_pointer.hpp]: the stack whose popped nodes
      are reclaimed through a table of hazard pointers (module [Hazard]);
    - the stack with split (external / inner) reference counts
      (module [SplitRef]),

    as small-step machines.  Every access to a shared atomic object is one
    step of the thread that performs it; the steps of different threads are
    interleaved by a schedule, a list of actions.  A call that runs alone is
    a schedule in which only one thread moves.

    Addresses are natural numbers, [nullptr] is 0.  [new] hands out the
    addresses 1, 2, 3, ... and never hands one out twice; it throws
    [bad_alloc] when the free store has no room left ([mem_avail] counts the
    objects that still fit).  A spurious failure of [compare_exchange_weak]
    changes nothing and re-enters the same loop: it is the same as not
    scheduling the thread, so it needs no step of its own.

    The other classes of these two files follow: [HierarchicalMutex] with
    the functions that use it (module [HierarchicalMutex]), and
    [ConcurrentQueue], the queue with a mutex at each end: its member
    functions as the calls of one thread (module [ConcurrentQueue]) and as
    the steps of any number of threads (module [ConcurrentQueueThreads]). *)

From stdpp Require Import gmap list.
From Stdlib Require Import ZArith Lia.

Abbreviation ptr := nat (only parsing).

Definition nullptr : nat := 0.

(** What a call leaves to its caller. *)
Inductive exception :=
| runtime_error_no_hazard_pointers   (* std::runtime_error("No hazard pointers available") *)
| bad_alloc.                         (* std::bad_alloc of a failed new *)

Inductive outcome (T : Type) :=
| Void                               (* push returned *)
| Value (r : option T)               (* pop returned a shared_ptr<T>; None is nullptr *)
| Threw (e : exception).

Arguments Void {T}.
Arguments Value {T} r.
Arguments Threw {T} e.

(* ===================================================================== *)
(** * The stack with hazard pointers *)
(* ===================================================================== *)

Module Hazard.

(** [static constexpr std::size_t MaxSize = 100;] *)
Definition MaxSize : nat := 100.

(** [struct HazardPointer { std::atomic<std::thread::id> id; std::atomic<void*> p; }].
    A default-constructed [std::thread::id] is [None]; the id of the running
    thread [tid] is [Some tid].  The fields are [hp_id] and [hp_p] because
    [id] is the identity function of the library. *)
Record HazardPointer := { hp_id : option nat; hp_p : ptr }.

(** [static HazardPointer HazardPointers[MaxSize];], zero-initialised. *)
Definition HazardPointers_init : list HazardPointer :=
  replicate MaxSize {| hp_id := None; hp_p := nullptr |}.

(** [bool is_existing(void* p)], the whole scan at once. *)
Definition is_existing (hps : list HazardPointer) (p : ptr) : bool :=
  existsb (fun x => Nat.eqb (hp_p x) p) hps.

(** The loop of the constructor of [HazardPointerHelper], the whole scan at
    once: the index of the first slot whose [id] is the default id, counting
    from [j]. *)
Fixpoint find_unowned (hps : list HazardPointer) (j : nat) : option nat :=
  match hps with
  | [] => None
  | x :: rest =>
      match hp_id x with
      | None => Some j
      | Some _ => find_unowned rest (S j)
      end
  end.

(** The lambda stored in [DataToDelete::deleter] is
    [delete static_cast<U*>(p)] for the [U] the constructor was called at. *)
Inductive deleter_kind := DelNode | DelDataToDelete.

(** [struct DataToDelete { void* data; std::function deleter; DataToDelete* next; }] *)
Record DataToDelete := { data : ptr; deleter : deleter_kind; d_next : ptr }.

(** [std::atomic<Node*> head_; std::atomic<std::size_t> pop_cnt_;
     std::atomic<DataToDelete*> to_delete_list_;] *)
Record LockFreeStack := { head_ : ptr; pop_cnt_ : nat; to_delete_list_ : ptr }.

Section WithT.
Context {T : Type}.

(** [struct Node { std::shared_ptr<T> v; Node* next = nullptr; }] *)
Record Node := { v : option T; next : ptr }.

Inductive cell := CNode (n : Node) | CData (d : DataToDelete).

(** Where a thread stands, with the local variables that are live there.
    The numbers are the lines of lock_free_stack_hazard_pointer.hpp. *)
Inductive pc :=
| Idle                                    (* not inside a call *)
| Exited                                  (* the thread has ended *)
| Fault                                   (* undefined behaviour: a freed or foreign object was used *)
| PushNew (x : T)                         (* 67  Node* t = new Node(x) *)
| PushLoad (t : ptr)                      (* 68  t->next = head_.load() *)
| PushCas (t : ptr)                       (* 69  head_.compare_exchange_weak(t->next, t) *)
| PopHelper                               (* 74, 50  static thread_local HazardPointerHelper t *)
| HelperCtor (i : nat)                    (* 21-31  the constructor at HazardPointers[i] *)
| PopLoad                                 (* 75  Node* t = head_.load() *)
| PopStore (t : ptr)                      (* 79-80  t2 = t; hazard_pointer.store(t) *)
| PopReload (t2 : ptr)                    (* 81-82  t = head_.load(); while (t != t2) *)
| PopNext (t : ptr)                       (* 83  t && ... t->next *)
| PopCas (t nx : ptr)                     (* 83  head_.compare_exchange_strong(t, t->next) *)
| PopClear (t : ptr)                      (* 84  hazard_pointer.store(nullptr) *)
| PopSwap (t : ptr)                       (* 85-87  res.swap(t->v) *)
| PopIsExisting (t : ptr) (res : option T) (i : nat)   (* 88, 55-60  is_existing(t) at slot i *)
| PopNewData (t : ptr) (res : option T)   (* 89  new DataToDelete{t} *)
| PopAppendLoad (d : ptr) (res : option T)  (* 120  t->next = to_delete_list_.load() *)
| PopAppendCas (d : ptr) (res : option T)   (* 121  to_delete_list_.compare_exchange_weak *)
| PopDelete (t : ptr) (res : option T)    (* 91  delete t *)
| TdExchange (res : option T)             (* 126  cur = to_delete_list_.exchange(nullptr) *)
| TdLoop (cur : ptr) (res : option T)     (* 127-128  while (cur) { t = cur->next *)
| TdIsExisting (cur tn dat : ptr) (res : option T) (i : nat)  (* 129, 55-60  is_existing(cur->data) *)
| TdDelete (cur tn : ptr) (res : option T)   (* 130  delete cur *)
| TdNewData (cur tn : ptr) (res : option T)  (* 132  new DataToDelete{cur} *)
| TdAppendLoad (d tn : ptr) (res : option T) (* 120 *)
| TdAppendCas (d tn : ptr) (res : option T)  (* 121, then 134  cur = t *)
| PopRet (res : option T)                 (* 95  return res *)
| HelperDtorP                             (* 35  hazard_pointer->p.store(nullptr) *)
| HelperDtorId.                           (* 36  hazard_pointer->id.store(std::thread::id{}) *)

(** A thread: where it stands, the stack it was called on, the slot its
    [thread_local HazardPointerHelper] owns ([HazardPointer* hazard_pointer],
    as an index into the table; [None] before the helper is constructed),
    and what its last call left. *)
Record thread := {
  at_pc : pc;
  this : nat;
  hazard_pointer : option nat;
  ret : option (outcome T)
}.

Definition fresh_thread : thread :=
  {| at_pc := Idle; this := 0; hazard_pointer := None; ret := None |}.

(** The memory all threads share: the table, the stack objects and the
    free store ([brk] is the next address [new] hands out, [freed] the
    addresses that were deleted, in order). *)
Record memory := {
  HazardPointers : list HazardPointer;
  stacks : gmap nat LockFreeStack;
  heap : gmap nat cell;
  brk : nat;
  mem_avail : nat;
  freed : list nat
}.

(** The process: the shared memory and the threads. *)
Record state := {
  shared : memory;
  threads : gmap nat thread
}.

Definition init (mem : nat) : state :=
  {| shared := {| HazardPointers := HazardPointers_init; stacks := ∅; heap := ∅;
                  brk := 1; mem_avail := mem; freed := [] |};
     threads := ∅ |}.

Definition thread_of (Σ : state) (tid : nat) : thread :=
  default fresh_thread (threads Σ !! tid).

(** ** Updates *)

Definition goto (k : pc) (L : thread) : thread :=
  {| at_pc := k; this := this L; hazard_pointer := hazard_pointer L; ret := ret L |}.

Definition leave (o : outcome T) (L : thread) : thread :=
  {| at_pc := Idle; this := this L; hazard_pointer := hazard_pointer L; ret := Some o |}.

Definition set_helper (h : option nat) (L : thread) : thread :=
  {| at_pc := at_pc L; this := this L; hazard_pointer := h; ret := ret L |}.

Definition set_HazardPointers (hps : list HazardPointer) (σ : memory) : memory :=
  {| HazardPointers := hps; stacks := stacks σ; heap := heap σ; brk := brk σ;
     mem_avail := mem_avail σ; freed := freed σ |}.

Definition set_stacks (ss : gmap nat LockFreeStack) (σ : memory) : memory :=
  {| HazardPointers := HazardPointers σ; stacks := ss; heap := heap σ; brk := brk σ;
     mem_avail := mem_avail σ; freed := freed σ |}.

Definition set_heap (h : gmap nat cell) (σ : memory) : memory :=
  {| HazardPointers := HazardPointers σ; stacks := stacks σ; heap := h; brk := brk σ;
     mem_avail := mem_avail σ; freed := freed σ |}.

Definition set_head (s : nat) (st : LockFreeStack) (h : ptr) (σ : memory) : memory :=
  set_stacks (<[s := {| head_ := h; pop_cnt_ := pop_cnt_ st;
                        to_delete_list_ := to_delete_list_ st |}]> (stacks σ)) σ.

Definition set_to_delete_list (s : nat) (st : LockFreeStack) (d : ptr) (σ : memory) : memory :=
  set_stacks (<[s := {| head_ := head_ st; pop_cnt_ := pop_cnt_ st;
                        to_delete_list_ := d |}]> (stacks σ)) σ.

Definition store_p (i : nat) (p : ptr) (σ : memory) : memory :=
  match HazardPointers σ !! i with
  | Some x => set_HazardPointers (<[i := {| hp_id := hp_id x; hp_p := p |}]> (HazardPointers σ)) σ
  | None => σ
  end.

Definition store_id (i : nat) (o : option nat) (σ : memory) : memory :=
  match HazardPointers σ !! i with
  | Some x => set_HazardPointers (<[i := {| hp_id := o; hp_p := hp_p x |}]> (HazardPointers σ)) σ
  | None => σ
  end.

(** ** The free store *)

Definition load_node (σ : memory) (a : ptr) : option Node :=
  match heap σ !! a with Some (CNode n) => Some n | _ => None end.

Definition load_data (σ : memory) (a : ptr) : option DataToDelete :=
  match heap σ !! a with Some (CData d) => Some d | _ => None end.

(** [new]: the next address, or nothing when the free store is exhausted. *)
Definition new (c : cell) (σ : memory) : option (ptr * memory) :=
  match mem_avail σ with
  | O => None
  | S m =>
      Some (brk σ,
            {| HazardPointers := HazardPointers σ; stacks := stacks σ;
               heap := <[brk σ := c]> (heap σ); brk := S (brk σ);
               mem_avail := m; freed := freed σ |})
  end.

Definition release (a : ptr) (σ : memory) : memory :=
  {| HazardPointers := HazardPointers σ; stacks := stacks σ;
     heap := delete a (heap σ); brk := brk σ;
     mem_avail := S (mem_avail σ); freed := freed σ ++ [a] |}.

(** [delete static_cast<U*>(a)].  For a [Node] the object is released; for
    a [DataToDelete] the destructor first runs [deleter(data)] and then the
    object is released.  [None] is undefined behaviour: no such object at
    [a].  A chain of wrappers is at most as long as the heap has cells, so
    [delete_obj] is called with more fuel than that. *)
Fixpoint delete_rec (fuel : nat) (k : deleter_kind) (a : ptr) (σ : memory) : option memory :=
  match fuel with
  | O => None
  | S f =>
      match k, heap σ !! a with
      | DelNode, Some (CNode _) => Some (release a σ)
      | DelDataToDelete, Some (CData d) =>
          match delete_rec f (deleter d) (data d) σ with
          | Some σ' => Some (release a σ')
          | None => None
          end
      | _, _ => None
      end
  end.

Definition delete_obj (k : deleter_kind) (a : ptr) (σ : memory) : option memory :=
  delete_rec (S (size (heap σ))) k a σ.

(** ** One step of a thread *)

Definition fault (L : thread) (σ : memory) : thread * memory := (goto Fault L, σ).

Definition throw (e : exception) (L : thread) (σ : memory) : thread * memory :=
  (leave (Threw e) L, σ).

(** Lines 120-121 of [append_to_delete_list], shared by its two callers. *)
Definition append_load (s : nat) (d : ptr) (σ : memory) : option memory :=
  match stacks σ !! s, load_data σ d with
  | Some st, Some dd =>
      Some (set_heap (<[d := CData {| data := data dd; deleter := deleter dd;
                                      d_next := to_delete_list_ st |}]> (heap σ)) σ)
  | _, _ => None
  end.

(** [Some (true, _)]: the exchange happened; [Some (false, _)]: it failed
    and [t->next] was reloaded. *)
Definition append_cas (s : nat) (d : ptr) (σ : memory) : option (bool * memory) :=
  match stacks σ !! s, load_data σ d with
  | Some st, Some dd =>
      if decide (to_delete_list_ st = d_next dd)
      then Some (true, set_to_delete_list s st d σ)
      else Some (false,
                 set_heap (<[d := CData {| data := data dd; deleter := deleter dd;
                                           d_next := to_delete_list_ st |}]> (heap σ)) σ)
  | _, _ => None
  end.

Definition step_thread (tid : nat) (L : thread) (σ : memory) : thread * memory :=
  match at_pc L with
  | Idle | Exited | Fault => (L, σ)
  (* void push(const T& x) *)
  | PushNew x =>
      match new (CNode {| v := Some x; next := nullptr |}) σ with
      | Some (t, σ') => (goto (PushLoad t) L, σ')
      | None => throw bad_alloc L σ
      end
  | PushLoad t =>
      match stacks σ !! this L, load_node σ t with
      | Some st, Some n =>
          (goto (PushCas t) L,
           set_heap (<[t := CNode {| v := v n; next := head_ st |}]> (heap σ)) σ)
      | _, _ => fault L σ
      end
  | PushCas t =>
      match stacks σ !! this L, load_node σ t with
      | Some st, Some n =>
          if decide (head_ st = next n)
          then (leave Void L, set_head (this L) st t σ)
          else (L, set_heap (<[t := CNode {| v := v n; next := head_ st |}]> (heap σ)) σ)
      | _, _ => fault L σ
      end
  (* std::atomic<void*>& hazard_pointer_for_this_thread() *)
  | PopHelper =>
      match hazard_pointer L with
      | Some _ => (goto PopLoad L, σ)
      | None => (goto (HelperCtor 0) L, σ)
      end
  | HelperCtor i =>
      match HazardPointers σ !! i with
      | Some x =>
          match hp_id x with
          | None => (goto PopLoad (set_helper (Some i) L), store_id i (Some tid) σ)
          | Some _ => (goto (HelperCtor (S i)) L, σ)
          end
      | None => throw runtime_error_no_hazard_pointers L σ
      end
  (* std::shared_ptr<T> pop() *)
  | PopLoad =>
      match stacks σ !! this L with
      | Some st => (goto (PopStore (head_ st)) L, σ)
      | None => fault L σ
      end
  | PopStore t =>
      match hazard_pointer L with
      | Some i => (goto (PopReload t) L, store_p i t σ)
      | None => fault L σ
      end
  | PopReload t2 =>
      match stacks σ !! this L with
      | Some st =>
          if decide (head_ st = t2)
          then (goto (PopNext (head_ st)) L, σ)
          else (goto (PopStore (head_ st)) L, σ)
      | None => fault L σ
      end
  | PopNext t =>
      if decide (t = nullptr) then (goto (PopClear t) L, σ)
      else match load_node σ t with
           | Some n => (goto (PopCas t (next n)) L, σ)
           | None => fault L σ
           end
  | PopCas t nx =>
      match stacks σ !! this L with
      | Some st =>
          if decide (head_ st = t)
          then (goto (PopClear t) L, set_head (this L) st nx σ)
          else (goto (PopStore (head_ st)) L, σ)
      | None => fault L σ
      end
  | PopClear t =>
      match hazard_pointer L with
      | Some i => (goto (PopSwap t) L, store_p i nullptr σ)
      | None => fault L σ
      end
  | PopSwap t =>
      if decide (t = nullptr) then (goto (PopRet None) L, σ)
      else match load_node σ t with
           | Some n =>
               (goto (PopIsExisting t (v n) 0) L,
                set_heap (<[t := CNode {| v := None; next := next n |}]> (heap σ)) σ)
           | None => fault L σ
           end
  | PopIsExisting t res i =>
      match HazardPointers σ !! i with
      | Some x =>
          if decide (hp_p x = t) then (goto (PopNewData t res) L, σ)
          else (goto (PopIsExisting t res (S i)) L, σ)
      | None => (goto (PopDelete t res) L, σ)
      end
  | PopNewData t res =>
      match new (CData {| data := t; deleter := DelNode; d_next := nullptr |}) σ with
      | Some (d, σ') => (goto (PopAppendLoad d res) L, σ')
      | None => throw bad_alloc L σ
      end
  | PopAppendLoad d res =>
      match append_load (this L) d σ with
      | Some σ' => (goto (PopAppendCas d res) L, σ')
      | None => fault L σ
      end
  | PopAppendCas d res =>
      match append_cas (this L) d σ with
      | Some (true, σ') => (goto (TdExchange res) L, σ')
      | Some (false, σ') => (L, σ')
      | None => fault L σ
      end
  | PopDelete t res =>
      match delete_obj DelNode t σ with
      | Some σ' => (goto (TdExchange res) L, σ')
      | None => fault L σ
      end
  (* void try_delete() *)
  | TdExchange res =>
      match stacks σ !! this L with
      | Some st => (goto (TdLoop (to_delete_list_ st) res) L,
                   set_to_delete_list (this L) st nullptr σ)
      | None => fault L σ
      end
  | TdLoop cur res =>
      if decide (cur = nullptr) then (goto (PopRet res) L, σ)
      else match load_data σ cur with
           | Some dd => (goto (TdIsExisting cur (d_next dd) (data dd) res 0) L, σ)
           | None => fault L σ
           end
  | TdIsExisting cur tn dat res i =>
      match HazardPointers σ !! i with
      | Some x =>
          if decide (hp_p x = dat) then (goto (TdNewData cur tn res) L, σ)
          else (goto (TdIsExisting cur tn dat res (S i)) L, σ)
      | None => (goto (TdDelete cur tn res) L, σ)
      end
  | TdDelete cur tn res =>
      match delete_obj DelDataToDelete cur σ with
      | Some σ' => (goto (TdLoop tn res) L, σ')
      | None => fault L σ
      end
  | TdNewData cur tn res =>
      match new (CData {| data := cur; deleter := DelDataToDelete; d_next := nullptr |}) σ with
      | Some (d, σ') => (goto (TdAppendLoad d tn res) L, σ')
      | None => throw bad_alloc L σ
      end
  | TdAppendLoad d tn res =>
      match append_load (this L) d σ with
      | Some σ' => (goto (TdAppendCas d tn res) L, σ')
      | None => fault L σ
      end
  | TdAppendCas d tn res =>
      match append_cas (this L) d σ with
      | Some (true, σ') => (goto (TdLoop tn res) L, σ')
      | Some (false, σ') => (L, σ')
      | None => fault L σ
      end
  | PopRet res => (leave (Value res) L, σ)
  (* ~HazardPointerHelper(), when the thread ends *)
  | HelperDtorP =>
      match hazard_pointer L with
      | Some i => (goto HelperDtorId L, store_p i nullptr σ)
      | None => fault L σ
      end
  | HelperDtorId =>
      match hazard_pointer L with
      | Some i => (goto Exited (set_helper None L), store_id i None σ)
      | None => fault L σ
      end
  end.

Definition running (k : pc) : bool :=
  match k with Idle | Exited | Fault => false | _ => true end.

Definition step (tid : nat) (Σ : state) : state :=
  let '(L', σ') := step_thread tid (thread_of Σ tid) (shared Σ) in
  {| shared := σ'; threads := <[tid := L']> (threads Σ) |}.

(** ** Schedules *)

Inductive call := Push (s : nat) (x : T) | Pop (s : nat).

Inductive action :=
| Construct (s : nat)                 (* a LockFreeStack<T> object comes to life *)
| Destruct (s : nat)                  (* its (implicit) destructor runs *)
| Invoke (tid : nat) (c : call)       (* an idle thread enters push or pop *)
| Step (tid : nat)                    (* a thread inside a call performs its next step *)
| ThreadExit (tid : nat).             (* an idle thread ends: its thread_local helper is destroyed *)

Definition enter (c : call) (L : thread) : thread :=
  match c with
  | Push s x => {| at_pc := PushNew x; this := s; hazard_pointer := hazard_pointer L; ret := None |}
  | Pop s => {| at_pc := PopHelper; this := s; hazard_pointer := hazard_pointer L; ret := None |}
  end.

(** The thread ends: [~HazardPointerHelper] runs if the helper was constructed. *)
Definition leave_thread (L : thread) : thread :=
  goto (match hazard_pointer L with Some _ => HelperDtorP | None => Exited end) L.

Definition set_thread (tid : nat) (L : thread) (Σ : state) : state :=
  {| shared := shared Σ; threads := <[tid := L]> (threads Σ) |}.

(** [None]: the action is not possible in this state. *)
Definition exec (a : action) (Σ : state) : option state :=
  match a with
  | Construct s =>
      (* the class declares no constructor: the atomics are value-initialised *)
      match stacks (shared Σ) !! s with
      | None =>
          Some {| shared := set_stacks (<[s := {| head_ := nullptr; pop_cnt_ := 0;
                                                  to_delete_list_ := nullptr |}]>
                                          (stacks (shared Σ))) (shared Σ);
                  threads := threads Σ |}
      | Some _ => None
      end
  | Destruct s =>
      (* the class declares no destructor: the members are trivially destroyed *)
      match stacks (shared Σ) !! s with
      | Some _ => Some {| shared := set_stacks (delete s (stacks (shared Σ))) (shared Σ);
                          threads := threads Σ |}
      | None => None
      end
  | Invoke tid c =>
      match at_pc (thread_of Σ tid) with
      | Idle => Some (set_thread tid (enter c (thread_of Σ tid)) Σ)
      | _ => None
      end
  | Step tid =>
      if running (at_pc (thread_of Σ tid)) then Some (step tid Σ) else None
  | ThreadExit tid =>
      match at_pc (thread_of Σ tid) with
      | Idle => Some (set_thread tid (leave_thread (thread_of Σ tid)) Σ)
      | _ => None
      end
  end.

Fixpoint run (sched : list action) (Σ : state) : option state :=
  match sched with
  | [] => Some Σ
  | a :: rest => match exec a Σ with Some Σ' => run rest Σ' | None => None end
  end.

(** ** A thread that runs alone *)

(** The thread steps until it is no longer inside a call; nobody else moves. *)
Fixpoint run_thread (fuel : nat) (tid : nat) (L : thread) (σ : memory)
  : option (thread * memory) :=
  if running (at_pc L) then
    match fuel with
    | O => None
    | S f => let '(L', σ') := step_thread tid L σ in run_thread f tid L' σ'
    end
  else Some (L, σ).

(** [n] steps of a thread, nobody else moving (a thread that is not inside
    a call stays where it is). *)
Fixpoint steps (n : nat) (tid : nat) (L : thread) (σ : memory) : thread * memory :=
  match n with
  | O => (L, σ)
  | S n' => let '(L', σ') := step_thread tid L σ in steps n' tid L' σ'
  end.

Definition finish (fuel : nat) (tid : nat) (Σ : state) : option state :=
  match run_thread fuel tid (thread_of Σ tid) (shared Σ) with
  | Some (L', σ') => Some {| shared := σ'; threads := <[tid := L']> (threads Σ) |}
  | None => None
  end.

Definition do_call (fuel : nat) (tid : nat) (c : call) (Σ : state) : option state :=
  match exec (Invoke tid c) Σ with
  | Some Σ' => finish fuel tid Σ'
  | None => None
  end.

Definition do_exit (fuel : nat) (tid : nat) (Σ : state) : option state :=
  match exec (ThreadExit tid) Σ with
  | Some Σ' => finish fuel tid Σ'
  | None => None
  end.

(** The outcomes of a list of calls made one after the other by one thread. *)
Fixpoint do_calls (fuel : nat) (tid : nat) (cs : list call) (Σ : state)
  : option (list (option (outcome T)) * state) :=
  match cs with
  | [] => Some ([], Σ)
  | c :: rest =>
      match do_call fuel tid c Σ with
      | Some Σ' =>
          match do_calls fuel tid rest Σ' with
          | Some (rs, Σ'') => Some (ret (thread_of Σ' tid) :: rs, Σ'')
          | None => None
          end
      | None => None
      end
  end.

(** ** What holds in every state that can be reached *)

Implicit Types (Σ : state) (σ : memory) (L : thread) (k : pc).

Definition slot_ok k (q : nat) : Prop :=
  match k with
  | PopStore _ | HelperDtorP | Fault => True
  | PopReload t2 => q = t2
  | PopNext t | PopCas t _ | PopClear t => q = t
  | _ => q = nullptr
  end.

Definition uses_slot k : Prop :=
  match k with
  | PopLoad | PopStore _ | PopReload _ | PopNext _ | PopCas _ _ | PopClear _
  | HelperDtorP | HelperDtorId => True
  | _ => False
  end.

Definition no_slot k : Prop := match k with HelperCtor _ | Exited => True | _ => False end.

Record inv Σ : Prop := {
  inv_length : length (HazardPointers (shared Σ)) = MaxSize;
  inv_free : ∀ i x, HazardPointers (shared Σ) !! i = Some x → hp_id x = None → hp_p x = nullptr;
  inv_owner : ∀ tid i, hazard_pointer (thread_of Σ tid) = Some i →
      ∃ x, HazardPointers (shared Σ) !! i = Some x ∧ hp_id x = Some tid ∧
           slot_ok (at_pc (thread_of Σ tid)) (hp_p x);
  inv_uses : ∀ tid, uses_slot (at_pc (thread_of Σ tid)) →
      is_Some (hazard_pointer (thread_of Σ tid));
  inv_no_slot : ∀ tid, no_slot (at_pc (thread_of Σ tid)) →
      hazard_pointer (thread_of Σ tid) = None
}.

(** What a step does to the table and to the helper of the thread. *)
Inductive hp_effect (tid : nat) L σ L' σ' : Prop :=
| eff_frame :
    HazardPointers σ' = HazardPointers σ →
    hazard_pointer L' = hazard_pointer L →
    (hazard_pointer L = None ∨ ∀ q, slot_ok (at_pc L) q → slot_ok (at_pc L') q) →
    (uses_slot (at_pc L') → is_Some (hazard_pointer L)) →
    (no_slot (at_pc L') → hazard_pointer L = None) →
    hp_effect tid L σ L' σ'
| eff_store i q :
    hazard_pointer L = Some i → hazard_pointer L' = Some i →
    HazardPointers σ' = HazardPointers (store_p i q σ) →
    slot_ok (at_pc L') q → ¬ no_slot (at_pc L') →
    hp_effect tid L σ L' σ'
| eff_claim i x :
    hazard_pointer L = None → HazardPointers σ !! i = Some x → hp_id x = None →
    HazardPointers σ' = <[i := {| hp_id := Some tid; hp_p := hp_p x |}]> (HazardPointers σ) →
    hazard_pointer L' = Some i → at_pc L' = PopLoad →
    hp_effect tid L σ L' σ'
| eff_release i :
    hazard_pointer L = Some i → at_pc L = HelperDtorId →
    HazardPointers σ' = HazardPointers (store_id i None σ) →
    hazard_pointer L' = None → at_pc L' = Exited →
    hp_effect tid L σ L' σ'.

(** The slot each thread owns. *)
Definition slot_of Σ : gmap nat nat := omap hazard_pointer (threads Σ).


(** ** The stack when one thread runs alone *)

(** The nodes linked from [a], top first, each with its address and its
    value. *)
Fixpoint linked_values (h : gmap nat cell) (a : ptr) (l : list (nat * T)) : Prop :=
  match l with
  | [] => a = nullptr
  | (b, x) :: l' =>
      a = b ∧ b ≠ nullptr ∧
      ∃ nx, h !! b = Some (CNode {| v := Some x; next := nx |}) ∧ linked_values h nx l'
  end.

(** Stack [s] at rest, seen by thread [tid]: the thread is outside a call;
    the stack holds [l]; no node waits to be deleted; no slot of the table
    holds a pointer; and the thread owns a slot or can get one. *)
Record at_rest (tid s : nat) Σ (l : list (nat * T)) : Prop := {
  rest_idle : at_pc (thread_of Σ tid) = Idle;
  rest_stack : ∃ st, stacks (shared Σ) !! s = Some st ∧
                 linked_values (heap (shared Σ)) (head_ st) l ∧
                 to_delete_list_ st = nullptr;
  rest_nodup : NoDup l.*1;
  rest_dom : ∀ a, is_Some (heap (shared Σ) !! a) → a < brk (shared Σ);
  rest_brk : 0 < brk (shared Σ);
  rest_clean : ∀ x, x ∈ HazardPointers (shared Σ) → hp_p x = nullptr;
  rest_slot : is_Some (hazard_pointer (thread_of Σ tid)) ∨
              is_Some (find_unowned (HazardPointers (shared Σ)) 0)
}.

(** A stack as a list with room for [mem] more elements. *)
Fixpoint lifo_model (s : nat) (cs : list call) (xs : list T) (mem : nat)
  : list (option (outcome T)) * list T * nat :=
  match cs with
  | [] => ([], xs, mem)
  | Push _ x :: cs' =>
      match mem with
      | O => let '(rs, ys, m) := lifo_model s cs' xs mem in
             (Some (Threw bad_alloc) :: rs, ys, m)
      | S m' => let '(rs, ys, m) := lifo_model s cs' (x :: xs) m' in (Some Void :: rs, ys, m)
      end
  | Pop _ :: cs' =>
      match xs with
      | [] => let '(rs, ys, m) := lifo_model s cs' [] mem in (Some (Value None) :: rs, ys, m)
      | x :: xs' =>
          let '(rs, ys, m) := lifo_model s cs' xs' (S mem) in
          (Some (Value (Some x)) :: rs, ys, m)
      end
  end.

(** The call is made on stack [s]. *)
Definition on_stack (s : nat) (c : call) : Prop :=
  match c with Push s' _ | Pop s' => s' = s end.

End WithT.

Arguments Node : clear implicits.
Arguments cell : clear implicits.
Arguments pc : clear implicits.
Arguments thread : clear implicits.
Arguments memory : clear implicits.
Arguments state : clear implicits.
Arguments call : clear implicits.
Arguments action : clear implicits.
Arguments inv {T} Σ.
Arguments at_rest {T} tid s Σ l.

End Hazard.

(* ===================================================================== *)
(** * The stack with split reference counts *)
(* ===================================================================== *)

Module SplitRef.

(** [int]: 32 bits, two's complement. *)
Definition wrap (z : Z) : Z := ((z + 2 ^ 31) mod 2 ^ 32 - 2 ^ 31)%Z.

(** [struct ReferenceCount { int external_cnt; Node* p = nullptr; }] *)
Record ReferenceCount := { external_cnt : Z; p : ptr }.

#[global] Instance ReferenceCount_eq_dec : EqDecision ReferenceCount.
Proof. solve_decision. Defined.

(** The order argument of an atomic operation. *)
Inductive memory_order :=
| memory_order_relaxed | memory_order_acquire | memory_order_release | memory_order_seq_cst.

(** What a thread did to shared memory, in the order it happened. *)
Inductive event :=
| EvHeadLoad (tid : nat) (mo : memory_order)
| EvHeadCas (tid : nat) (ok : bool) (mo : memory_order)   (* mo: the order that applied *)
| EvFetchAdd (tid : nat) (a : ptr) (arg prior : Z) (mo : memory_order)
| EvFetchSub (tid : nat) (a : ptr) (arg prior : Z) (mo : memory_order)
| EvInnerLoad (tid : nat) (a : ptr) (mo : memory_order)
| EvDelete (tid : nat) (a : ptr).

Section WithT.
Context {T : Type}.

(** [struct Node { std::shared_ptr<T> v; std::atomic<int> inner_cnt = 0; ReferenceCount next; }] *)
Record Node := { v : option T; inner_cnt : Z; next : ReferenceCount }.

(** The lines are those of the split-reference-count header (part_000, 91-172). *)
Inductive pc :=
| Idle
| Fault                                   (* a deleted node was used or deleted again *)
| PushNew (x : T)                         (* 105-107  t.p = new Node(x); t.external_cnt = 1 *)
| PushLoad (a : ptr)                      (* 109  t.p->next = head_.load(relaxed) *)
| PushCas (a : ptr)                       (* 110  head_.compare_exchange_weak(t.p->next, t, release, relaxed) *)
| PopLoad                                 (* 116  t = head_.load(relaxed) *)
| PopIncrease (old_cnt : ReferenceCount)  (* 161-166  compare_exchange_strong(old_cnt, new_cnt, acquire, relaxed) *)
| PopNext (t : ReferenceCount)            (* 123  p->next *)
| PopCas (t nx : ReferenceCount)          (* 123  head_.compare_exchange_strong(t, p->next, relaxed) *)
| PopSwap (t : ReferenceCount)            (* 125-126  res.swap(p->v) *)
| PopFetchAdd (t : ReferenceCount) (res : option T)   (* 129-131  p->inner_cnt.fetch_add(cnt, release) == -cnt *)
| PopDeleteAdd (a : ptr) (res : option T) (* 132  delete p *)
| PopFetchSub (a : ptr) (t : ReferenceCount)    (* 136  p->inner_cnt.fetch_sub(1, relaxed) == 1 *)
| PopLoadInner (a : ptr) (t : ReferenceCount)   (* 137  p->inner_cnt.load(acquire) *)
| PopDeleteSub (a : ptr) (t : ReferenceCount)   (* 139  delete p *)
| PopRet (res : option T).                (* 121, 134  return *)

(** [in_dtor]: the thread is inside [~LockFreeStack], whose loop calls [pop]. *)
Record thread := {
  at_pc : pc;
  in_dtor : bool;
  ret : option (outcome T)
}.

Definition fresh_thread : thread :=
  {| at_pc := Idle; in_dtor := false; ret := None |}.

(** The memory all threads share: one stack object ([head_], and whether
    its destructor has returned), the free store, and the trace. *)
Record memory := {
  head_ : ReferenceCount;
  destroyed : bool;
  heap : gmap nat Node;
  brk : nat;
  mem_avail : nat;
  trace : list event
}.

Record state := {
  shared : memory;
  threads : gmap nat thread
}.

(** [std::atomic<ReferenceCount> head_;] is value-initialised. *)
Definition init (mem : nat) : state :=
  {| shared := {| head_ := {| external_cnt := 0; p := nullptr |}; destroyed := false;
                  heap := ∅; brk := 1; mem_avail := mem; trace := [] |};
     threads := ∅ |}.

Definition thread_of (Σ : state) (tid : nat) : thread :=
  default fresh_thread (threads Σ !! tid).

(** The addresses that were deleted, in order. *)
Definition freed (σ : memory) : list nat :=
  omap (fun e => match e with EvDelete _ a => Some a | _ => None end) (trace σ).

Definition goto (k : pc) (L : thread) : thread :=
  {| at_pc := k; in_dtor := in_dtor L; ret := ret L |}.

Definition leave (o : outcome T) (L : thread) : thread :=
  {| at_pc := Idle; in_dtor := false; ret := Some o |}.

Definition set_head (h : ReferenceCount) (σ : memory) : memory :=
  {| head_ := h; destroyed := destroyed σ; heap := heap σ; brk := brk σ;
     mem_avail := mem_avail σ; trace := trace σ |}.

Definition set_destroyed (b : bool) (σ : memory) : memory :=
  {| head_ := head_ σ; destroyed := b; heap := heap σ; brk := brk σ;
     mem_avail := mem_avail σ; trace := trace σ |}.

Definition set_heap (h : gmap nat Node) (σ : memory) : memory :=
  {| head_ := head_ σ; destroyed := destroyed σ; heap := h; brk := brk σ;
     mem_avail := mem_avail σ; trace := trace σ |}.

Definition emit (e : event) (σ : memory) : memory :=
  {| head_ := head_ σ; destroyed := destroyed σ; heap := heap σ; brk := brk σ;
     mem_avail := mem_avail σ; trace := trace σ ++ [e] |}.

Definition new (n : Node) (σ : memory) : option (ptr * memory) :=
  match mem_avail σ with
  | O => None
  | S m =>
      Some (brk σ,
            {| head_ := head_ σ; destroyed := destroyed σ;
               heap := <[brk σ := n]> (heap σ); brk := S (brk σ);
               mem_avail := m; trace := trace σ |})
  end.

(** [delete p]: [None] when there is no node at [a] (it was deleted before). *)
Definition delete_node (tid : nat) (a : ptr) (σ : memory) : option memory :=
  match heap σ !! a with
  | Some _ =>
      Some {| head_ := head_ σ; destroyed := destroyed σ;
              heap := delete a (heap σ); brk := brk σ;
              mem_avail := S (mem_avail σ); trace := trace σ ++ [EvDelete tid a] |}
  | None => None
  end.

Definition set_inner (a : ptr) (n : Node) (z : Z) (σ : memory) : memory :=
  set_heap (<[a := {| v := v n; inner_cnt := z; next := next n |}]> (heap σ)) σ.

Definition set_next (a : ptr) (n : Node) (r : ReferenceCount) (σ : memory) : memory :=
  set_heap (<[a := {| v := v n; inner_cnt := inner_cnt n; next := r |}]> (heap σ)) σ.

Definition fault (L : thread) (σ : memory) : thread * memory := (goto Fault L, σ).

(** [return res] of [pop]: to the caller, or to the loop of the destructor. *)
Definition pop_return (res : option T) (L : thread) (σ : memory) : thread * memory :=
  if in_dtor L then
    match res with
    | Some _ => (goto PopLoad L, σ)                     (* 100  while (pop()) *)
    | None => (leave Void L, set_destroyed true σ)
    end
  else (leave (Value res) L, σ).

Definition step_thread (tid : nat) (L : thread) (σ : memory) : thread * memory :=
  match at_pc L with
  | Idle | Fault => (L, σ)
  (* void push(const T& x) *)
  | PushNew x =>
      match new {| v := Some x; inner_cnt := 0;
                   next := {| external_cnt := 0; p := nullptr |} |} σ with
      | Some (a, σ') => (goto (PushLoad a) L, σ')
      | None => (leave (Threw bad_alloc) L, σ)
      end
  | PushLoad a =>
      match heap σ !! a with
      | Some n =>
          (goto (PushCas a) L,
           emit (EvHeadLoad tid memory_order_relaxed) (set_next a n (head_ σ) σ))
      | None => fault L σ
      end
  | PushCas a =>
      match heap σ !! a with
      | Some n =>
          if decide (head_ σ = next n)
          then (leave Void L,
                emit (EvHeadCas tid true memory_order_release)
                     (set_head {| external_cnt := 1; p := a |} σ))
          else (L, emit (EvHeadCas tid false memory_order_relaxed)
                        (set_next a n (head_ σ) σ))
      | None => fault L σ
      end
  (* std::shared_ptr<T> pop() *)
  | PopLoad =>
      (goto (PopIncrease (head_ σ)) L, emit (EvHeadLoad tid memory_order_relaxed) σ)
  | PopIncrease old_cnt =>
      let new_cnt := {| external_cnt := wrap (external_cnt old_cnt + 1); p := p old_cnt |} in
      if decide (head_ σ = old_cnt)
      then
        let σ' := emit (EvHeadCas tid true memory_order_acquire) (set_head new_cnt σ) in
        (* 167  old_cnt.external_cnt = new_cnt.external_cnt;  119-122 *)
        if decide (p new_cnt = nullptr) then (goto (PopRet None) L, σ')
        else (goto (PopNext new_cnt) L, σ')
      else (goto (PopIncrease (head_ σ)) L,
            emit (EvHeadCas tid false memory_order_relaxed) σ)
  | PopNext t =>
      match heap σ !! p t with
      | Some n => (goto (PopCas t (next n)) L, σ)
      | None => fault L σ
      end
  | PopCas t nx =>
      if decide (head_ σ = t)
      then (goto (PopSwap t) L,
            emit (EvHeadCas tid true memory_order_relaxed) (set_head nx σ))
      else (goto (PopFetchSub (p t) (head_ σ)) L,
            emit (EvHeadCas tid false memory_order_relaxed) σ)
  | PopSwap t =>
      match heap σ !! p t with
      | Some n =>
          (goto (PopFetchAdd t (v n)) L,
           set_heap (<[p t := {| v := None; inner_cnt := inner_cnt n; next := next n |}]>
                       (heap σ)) σ)
      | None => fault L σ
      end
  | PopFetchAdd t res =>
      let cnt := wrap (external_cnt t - 2) in
      match heap σ !! p t with
      | Some n =>
          let σ' := emit (EvFetchAdd tid (p t) cnt (inner_cnt n) memory_order_release)
                         (set_inner (p t) n (wrap (inner_cnt n + cnt)) σ) in
          if decide (inner_cnt n = wrap (- cnt))
          then (goto (PopDeleteAdd (p t) res) L, σ')
          else (goto (PopRet res) L, σ')
      | None => fault L σ
      end
  | PopDeleteAdd a res =>
      match delete_node tid a σ with
      | Some σ' => (goto (PopRet res) L, σ')
      | None => fault L σ
      end
  | PopFetchSub a t =>
      match heap σ !! a with
      | Some n =>
          let σ' := emit (EvFetchSub tid a 1 (inner_cnt n) memory_order_relaxed)
                         (set_inner a n (wrap (inner_cnt n - 1)) σ) in
          if decide (inner_cnt n = 1%Z)
          then (goto (PopLoadInner a t) L, σ')
          else (goto (PopIncrease t) L, σ')
      | None => fault L σ
      end
  | PopLoadInner a t =>
      match heap σ !! a with
      | Some _ => (goto (PopDeleteSub a t) L, emit (EvInnerLoad tid a memory_order_acquire) σ)
      | None => fault L σ
      end
  | PopDeleteSub a t =>
      match delete_node tid a σ with
      | Some σ' => (goto (PopIncrease t) L, σ')
      | None => fault L σ
      end
  | PopRet res => pop_return res L σ
  end.

Definition running (k : pc) : bool :=
  match k with Idle | Fault => false | _ => true end.

Definition step (tid : nat) (Σ : state) : state :=
  let '(L', σ') := step_thread tid (thread_of Σ tid) (shared Σ) in
  {| shared := σ'; threads := <[tid := L']> (threads Σ) |}.

(** ** Schedules *)

Inductive call := Push (x : T) | Pop | Destroy.

Inductive action :=
| Invoke (tid : nat) (c : call)       (* an idle thread enters push, pop or the destructor *)
| Step (tid : nat).                   (* a thread inside a call performs its next step *)

Definition enter (c : call) : thread :=
  match c with
  | Push x => {| at_pc := PushNew x; in_dtor := false; ret := None |}
  | Pop => {| at_pc := PopLoad; in_dtor := false; ret := None |}
  | Destroy => {| at_pc := PopLoad; in_dtor := true; ret := None |}   (* 99-102 *)
  end.

Definition set_thread (tid : nat) (L : thread) (Σ : state) : state :=
  {| shared := shared Σ; threads := <[tid := L]> (threads Σ) |}.

(** [None]: the action is not possible: the thread is busy (or idle, for a
    step), or the stack object no longer exists. *)
Definition exec (a : action) (Σ : state) : option state :=
  match a with
  | Invoke tid c =>
      match at_pc (thread_of Σ tid), destroyed (shared Σ) with
      | Idle, false => Some (set_thread tid (enter c) Σ)
      | _, _ => None
      end
  | Step tid =>
      if running (at_pc (thread_of Σ tid)) then Some (step tid Σ) else None
  end.

Fixpoint run (sched : list action) (Σ : state) : option state :=
  match sched with
  | [] => Some Σ
  | a :: rest => match exec a Σ with Some Σ' => run rest Σ' | None => None end
  end.

(** ** A thread that runs alone *)

Fixpoint run_thread (fuel : nat) (tid : nat) (L : thread) (σ : memory)
  : option (thread * memory) :=
  if running (at_pc L) then
    match fuel with
    | O => None
    | S f => let '(L', σ') := step_thread tid L σ in run_thread f tid L' σ'
    end
  else Some (L, σ).

(** [n] steps of a thread, nobody else moving (a thread that is not inside
    a call stays where it is). *)
Fixpoint steps (n : nat) (tid : nat) (L : thread) (σ : memory) : thread * memory :=
  match n with
  | O => (L, σ)
  | S n' => let '(L', σ') := step_thread tid L σ in steps n' tid L' σ'
  end.

Definition finish (fuel : nat) (tid : nat) (Σ : state) : option state :=
  match run_thread fuel tid (thread_of Σ tid) (shared Σ) with
  | Some (L', σ') => Some {| shared := σ'; threads := <[tid := L']> (threads Σ) |}
  | None => None
  end.

Definition do_call (fuel : nat) (tid : nat) (c : call) (Σ : state) : option state :=
  match exec (Invoke tid c) Σ with
  | Some Σ' => finish fuel tid Σ'
  | None => None
  end.

Fixpoint do_calls (fuel : nat) (tid : nat) (cs : list call) (Σ : state)
  : option (list (option (outcome T)) * state) :=
  match cs with
  | [] => Some ([], Σ)
  | c :: rest =>
      match do_call fuel tid c Σ with
      | Some Σ' =>
          match do_calls fuel tid rest Σ' with
          | Some (rs, Σ'') => Some (ret (thread_of Σ' tid) :: rs, Σ'')
          | None => None
          end
      | None => None
      end
  end.

(** ** What holds in every state that can be reached *)

Implicit Types (Σ : state) (σ : memory) (L : thread) (k : pc)
  (ths : gmap nat thread) (h : gmap nat Node).

(** The part a thread plays for the node at [a]. *)
Definition pusher (a : nat) k : bool :=
  match k with
  | PushLoad b | PushCas b => bool_decide (b = a)
  | _ => false
  end.

Definition holder (a : nat) k : bool :=
  match k with
  | PopNext t | PopCas t _ => bool_decide (p t = a)
  | PopFetchSub b _ => bool_decide (b = a)
  | _ => false
  end.

Definition detacher (a : nat) k : bool :=
  match k with
  | PopSwap t | PopFetchAdd t _ => bool_decide (p t = a)
  | _ => false
  end.

Definition reaper (a : nat) k : bool :=
  match k with
  | PopDeleteAdd b _ | PopLoadInner b _ | PopDeleteSub b _ => bool_decide (b = a)
  | _ => false
  end.

Definition detach_cnt k : Z :=
  match k with
  | PopSwap t | PopFetchAdd t _ => external_cnt t
  | _ => 0
  end.

Definition b2n (b : bool) : nat := if b then 1 else 0.

(** How many threads stand at a place that satisfies [f]. *)
Definition count (f : pc → bool) ths : nat :=
  sum_list_with (λ kv, b2n (f (at_pc kv.2))) (map_to_list ths).

(** The bound on every count so far: one more than the number of events. *)
Definition bound σ : Z := 1 + Z.of_nat (length (trace σ)).

(** The nodes linked from [r], in order, each with its counts in balance:
    the external count of the pair that points to the node plus its inner
    count is one (for the stack itself) plus the number of threads that hold
    the node. *)
Fixpoint chain h ths (B : Z) (r : ReferenceCount) (l : list nat) : Prop :=
  match l with
  | [] => p r = nullptr ∧ (0 ≤ external_cnt r ≤ B)%Z
  | a :: l' =>
      p r = a ∧
      ∃ n, h !! a = Some n ∧ is_Some (v n) ∧
        (external_cnt r + inner_cnt n = 1 + Z.of_nat (count (holder a) ths))%Z ∧
        (inner_cnt n ≤ 0)%Z ∧ (external_cnt r ≤ B)%Z ∧
        count (pusher a) ths = 0 ∧ count (detacher a) ths = 0 ∧ count (reaper a) ths = 0 ∧
        chain h ths B (next n) l'
  end.

(** A node that is not linked: it is being pushed, or was detached and is
    being counted down, or is about to be deleted. *)
Definition detached ths (B : Z) (a : nat) (n : Node) : Prop :=
  count (pusher a) ths + count (detacher a) ths + count (reaper a) ths ≤ 1 ∧
  (count (pusher a) ths = 1 →
     count (holder a) ths = 0 ∧ inner_cnt n = 0%Z ∧ is_Some (v n)) ∧
  (count (reaper a) ths = 1 → count (holder a) ths = 0) ∧
  (∀ tid L, ths !! tid = Some L → detacher a (at_pc L) = true →
     (detach_cnt (at_pc L) + inner_cnt n = 2 + Z.of_nat (count (holder a) ths))%Z ∧
     (inner_cnt n ≤ 0)%Z ∧ (detach_cnt (at_pc L) ≤ B)%Z) ∧
  (count (pusher a) ths = 0 → count (detacher a) ths = 0 → count (reaper a) ths = 0 →
     inner_cnt n = Z.of_nat (count (holder a) ths) ∧ 1 ≤ count (holder a) ths ∧
     (inner_cnt n ≤ B)%Z).

(** The free store: addresses below [brk] were handed out; each is either
    still allocated or was deleted, once. *)
Record alloc_inv σ : Prop := {
  alloc_dom : ∀ a, is_Some (heap σ !! a) → 0 < a < brk σ;
  alloc_freed : ∀ a, a ∈ freed σ → heap σ !! a = None ∧ 0 < a < brk σ;
  alloc_all : ∀ a, 0 < a < brk σ → is_Some (heap σ !! a) ∨ a ∈ freed σ;
  alloc_nodup : NoDup (freed σ);
  alloc_brk : 0 < brk σ
}.

Record inv_with (l : list nat) Σ : Prop := {
  inv_nodup : NoDup l;
  inv_chain : chain (heap (shared Σ)) (threads Σ) (bound (shared Σ)) (head_ (shared Σ)) l;
  inv_gone : ∀ a, heap (shared Σ) !! a = None →
      count (pusher a) (threads Σ) = 0 ∧ count (holder a) (threads Σ) = 0 ∧
      count (detacher a) (threads Σ) = 0 ∧ count (reaper a) (threads Σ) = 0;
  inv_detached : ∀ a n, heap (shared Σ) !! a = Some n → a ∉ l →
      detached (threads Σ) (bound (shared Σ)) a n;
  inv_next : ∀ tid L t nx, threads Σ !! tid = Some L → at_pc L = PopCas t nx →
      ∃ n, heap (shared Σ) !! p t = Some n ∧ next n = nx;
  inv_no_fault : ∀ tid L, threads Σ !! tid = Some L → at_pc L ≠ Fault;
  inv_alloc : alloc_inv (shared Σ)
}.

Definition inv Σ : Prop := ∃ l, inv_with l Σ.

(** The step leaves the part of the thread for node [a] as it was. *)
Definition same_role (a : nat) k k' : Prop :=
  pusher a k' = pusher a k ∧ holder a k' = holder a k ∧
  detacher a k' = detacher a k ∧ reaper a k' = reaper a k ∧
  (detacher a k' = true → detach_cnt k' = detach_cnt k).

(** The nodes linked from [r], in order. *)
Fixpoint linked h (r : ReferenceCount) (l : list nat) : Prop :=
  match l with
  | [] => p r = nullptr
  | a :: l' => p r = a ∧ ∃ n, h !! a = Some n ∧ linked h (next n) l'
  end.

(** No thread is inside a call. *)
Definition quiescent Σ : Prop := ∀ tid, at_pc (thread_of Σ tid) = Idle.

(** The node a thread is about to delete, at lines 132 and 139. *)
Definition deleting k : option nat :=
  match k with
  | PopDeleteAdd a _ | PopDeleteSub a _ => Some a
  | _ => None
  end.


(** ** The stack when one thread runs alone *)

(** The stack at rest: the nodes linked from [r], top first, each with its
    address and its value; nobody but the stack refers to a node (external
    count plus inner count is 1), and the external count is not about to
    overflow. *)
Fixpoint settled h (r : ReferenceCount) (l : list (nat * T)) : Prop :=
  match l with
  | [] => p r = nullptr
  | (a, x) :: l' =>
      p r = a ∧ a ≠ nullptr ∧
      ∃ n, h !! a = Some n ∧ v n = Some x ∧
        (external_cnt r + inner_cnt n = 1)%Z ∧ (1 ≤ external_cnt r < 2 ^ 31 - 1)%Z ∧
        settled h (next n) l'
  end.

Record at_rest (tid : nat) Σ (l : list (nat * T)) : Prop := {
  rest_idle : at_pc (thread_of Σ tid) = Idle;
  rest_alive : destroyed (shared Σ) = false;
  rest_settled : settled (heap (shared Σ)) (head_ (shared Σ)) l;
  rest_nodup : NoDup l.*1;
  rest_dom : ∀ a, is_Some (heap (shared Σ) !! a) → a < brk (shared Σ);
  rest_brk : 0 < brk (shared Σ);
  rest_closed : ∀ a, is_Some (heap (shared Σ) !! a) → a ∈ l.*1
}.

(** A stack as a list with room for [mem] more elements: what each call of
    a list of calls gives, the list afterwards and the room afterwards. *)
Fixpoint lifo_model (cs : list call) (xs : list T) (mem : nat)
  : list (option (outcome T)) * list T * nat :=
  match cs with
  | [] => ([], xs, mem)
  | Push x :: cs' =>
      match mem with
      | O => let '(rs, ys, m) := lifo_model cs' xs mem in (Some (Threw bad_alloc) :: rs, ys, m)
      | S m' => let '(rs, ys, m) := lifo_model cs' (x :: xs) m' in (Some Void :: rs, ys, m)
      end
  | Pop :: cs' =>
      match xs with
      | [] => let '(rs, ys, m) := lifo_model cs' [] mem in (Some (Value None) :: rs, ys, m)
      | x :: xs' =>
          let '(rs, ys, m) := lifo_model cs' xs' (S mem) in (Some (Value (Some x)) :: rs, ys, m)
      end
  | Destroy :: _ => ([], xs, mem)
  end.

End WithT.

Arguments Node : clear implicits.
Arguments pc : clear implicits.
Arguments thread : clear implicits.
Arguments memory : clear implicits.
Arguments state : clear implicits.
Arguments call : clear implicits.
Arguments action : clear implicits.
Arguments at_rest {T} tid Σ l.

End SplitRef.

(* ===================================================================== *)
(** * The hierarchical mutex *)
(* ===================================================================== *)

(** [class HierarchicalMutex] (part_000, lines 5-55).  A call of [lock],
    [try_lock] or [unlock] reads and writes the [thread_local] hierarchy
    value of the calling thread, the constant [cur_hierarchy_], and, only
    while the thread owns [m_], the member [prev_hierarchy_]; its one
    access to shared state is the operation on [m_].  So a call is one
    action of the thread. *)
Module HierarchicalMutex.

(** [INT_MAX] for the 32-bit [int]. *)
Definition INT_MAX : Z := (2 ^ 31 - 1)%Z.

(** [std::mutex m_] (the thread that owns it, if any),
    [const int cur_hierarchy_], [int prev_hierarchy_]. *)
Record Mutex := { m_ : option nat; cur_hierarchy_ : Z; prev_hierarchy_ : Z }.

(** The mutex objects, and [static thread_local int thread_hierarchy_] of
    each thread that has used it. *)
Record state := { mutexes : gmap nat Mutex; thread_hierarchy_ : gmap nat Z }.

Definition init : state := {| mutexes := ∅; thread_hierarchy_ := ∅ |}.

(** [thread_local int HierarchicalMutex::thread_hierarchy_(INT_MAX);] *)
Definition hierarchy_of (Σ : state) (tid : nat) : Z :=
  default INT_MAX (thread_hierarchy_ Σ !! tid).

Inductive result :=
| Returned                           (* a void function returned *)
| ReturnedBool (b : bool)            (* try_lock returned *)
| Threw_logic_error                  (* std::logic_error("mutex hierarchy violated") *)
| Blocked                            (* m_.lock() has to wait: the call does not happen now *)
| Terminated                         (* an exception left a destructor: std::terminate *)
| Undefined.                         (* undefined behaviour of std::mutex, or no such object *)

(** [validate_hierarchy]: [true] when it throws. *)
Definition validate_hierarchy (Σ : state) (tid : nat) (mu : Mutex) : bool :=
  (hierarchy_of Σ tid <=? cur_hierarchy_ mu)%Z.

(** [update_hierarchy], with [m_] now owned by [tid]. *)
Definition update_hierarchy (Σ : state) (tid m : nat) (mu : Mutex) : state :=
  {| mutexes := <[m := {| m_ := Some tid; cur_hierarchy_ := cur_hierarchy_ mu;
                          prev_hierarchy_ := hierarchy_of Σ tid |}]> (mutexes Σ);
     thread_hierarchy_ := <[tid := cur_hierarchy_ mu]> (thread_hierarchy_ Σ) |}.

(** [explicit HierarchicalMutex(int hierarchy_value)] *)
Definition construct (m : nat) (hierarchy_value : Z) (Σ : state) : result * state :=
  match mutexes Σ !! m with
  | None =>
      (Returned,
       {| mutexes := <[m := {| m_ := None; cur_hierarchy_ := hierarchy_value;
                               prev_hierarchy_ := 0 |}]> (mutexes Σ);
          thread_hierarchy_ := thread_hierarchy_ Σ |})
  | Some _ => (Undefined, Σ)
  end.

(** [void lock()] *)
Definition lock (tid m : nat) (Σ : state) : result * state :=
  match mutexes Σ !! m with
  | None => (Undefined, Σ)
  | Some mu =>
      if validate_hierarchy Σ tid mu then (Threw_logic_error, Σ)
      else match m_ mu with
           | None => (Returned, update_hierarchy Σ tid m mu)
           | Some owner => if decide (owner = tid) then (Undefined, Σ) else (Blocked, Σ)
           end
  end.

(** [bool try_lock()].  [std::mutex::try_lock] may fail although nobody
    owns the mutex: [spurious] says whether it does so this time. *)
Definition try_lock (spurious : bool) (tid m : nat) (Σ : state) : result * state :=
  match mutexes Σ !! m with
  | None => (Undefined, Σ)
  | Some mu =>
      if validate_hierarchy Σ tid mu then (Threw_logic_error, Σ)
      else match m_ mu with
           | None => if spurious then (ReturnedBool false, Σ)
                     else (ReturnedBool true, update_hierarchy Σ tid m mu)
           | Some owner =>
               if decide (owner = tid) then (Undefined, Σ) else (ReturnedBool false, Σ)
           end
  end.

(** [void unlock()] *)
Definition unlock (tid m : nat) (Σ : state) : result * state :=
  match mutexes Σ !! m with
  | None => (Undefined, Σ)
  | Some mu =>
      if decide (hierarchy_of Σ tid = cur_hierarchy_ mu)
      then if decide (m_ mu = Some tid)
           then (Returned,
                 {| mutexes := <[m := {| m_ := None; cur_hierarchy_ := cur_hierarchy_ mu;
                                         prev_hierarchy_ := prev_hierarchy_ mu |}]> (mutexes Σ);
                    thread_hierarchy_ := <[tid := prev_hierarchy_ mu]> (thread_hierarchy_ Σ) |})
           else (Undefined, Σ)
      else (Threw_logic_error, Σ)
  end.

Inductive action :=
| Construct (m : nat) (hierarchy_value : Z)
| Lock (tid m : nat)
| TryLock (spurious : bool) (tid m : nat)
| Unlock (tid m : nat).

Definition exec (a : action) (Σ : state) : result * state :=
  match a with
  | Construct m h => construct m h Σ
  | Lock tid m => lock tid m Σ
  | TryLock sp tid m => try_lock sp tid m Σ
  | Unlock tid m => unlock tid m Σ
  end.

(** What the actions of a schedule give, one after the other; [None] when
    one of them has undefined behaviour. *)
Fixpoint run (sched : list action) (Σ : state) : option (list result * state) :=
  match sched with
  | [] => Some ([], Σ)
  | a :: rest =>
      match exec a Σ with
      | (Undefined, _) => None
      | (r, Σ') =>
          match run rest Σ' with
          | Some (rs, Σ'') => Some (r :: rs, Σ'')
          | None => None
          end
      end
  end.

(** [{ std::lock_guard<HierarchicalMutex> l(m); body }]: the constructor of
    the guard locks; if that throws, nothing else happens.  Then [body]
    runs, and the destructor of the guard unlocks, also when [body] threw;
    an exception that leaves the destructor ends the program. *)
Definition lock_guard (tid m : nat) (body : state → result * state) (Σ : state)
  : result * state :=
  match lock tid m Σ with
  | (Returned, Σ1) =>
      let '(r, Σ2) := body Σ1 in
      match r with
      | Returned | ReturnedBool _ | Threw_logic_error =>
          match unlock tid m Σ2 with
          | (Returned, Σ3) => (r, Σ3)
          | (Threw_logic_error, Σ3) => (Terminated, Σ3)
          | other => other
          end
      | _ => (r, Σ2)
      end
  | other => other
  end.

(** Lines 57-80, for mutexes [high], [mid] and [low] and a thread [tid]. *)
Definition lf (tid low : nat) : state → result * state :=
  lock_guard tid low (λ Σ, (Returned, Σ)).

Definition hf (tid high low : nat) : state → result * state :=
  lock_guard tid high (lf tid low).

Definition mf (tid high mid low : nat) : state → result * state :=
  lock_guard tid mid (hf tid high low).

(** What [main] writes to [std::cout]. *)
Inductive output :=
| mutex_hierarchy_violated.          (* ex.what() of the std::logic_error of lines 27 and 36 *)

(** [main], lines 82-90: what it prints, and how it ends. *)
Definition main (tid high mid low : nat) (Σ : state) : list output * result * state :=
  match lf tid low Σ with
  | (Returned, Σ1) =>
      match hf tid high low Σ1 with
      | (Returned, Σ2) =>
          match mf tid high mid low Σ2 with
          | (Threw_logic_error, Σ3) => ([mutex_hierarchy_violated], Returned, Σ3)
          | (r, Σ3) => ([], r, Σ3)
          end
      | other => ([], other.1, other.2)
      end
  | other => ([], other.1, other.2)
  end.

(** The mutexes thread [tid] holds, the last one locked first, from the
    hierarchy value [h] of the thread upwards: each has level [h], and the
    value it will restore is the level of the next one, which is higher;
    the last one restores [INT_MAX]. *)
Fixpoint held_chain (Σ : state) (tid : nat) (h : Z) (hs : list nat) : Prop :=
  match hs with
  | [] => h = INT_MAX
  | m :: rest =>
      ∃ mu, mutexes Σ !! m = Some mu ∧ m_ mu = Some tid ∧ cur_hierarchy_ mu = h ∧
            (h < prev_hierarchy_ mu)%Z ∧ held_chain Σ tid (prev_hierarchy_ mu) rest
  end.

Definition inv (Σ : state) : Prop :=
  ∀ tid, ∃ hs, held_chain Σ tid (hierarchy_of Σ tid) hs ∧
    ∀ m mu, mutexes Σ !! m = Some mu → m_ mu = Some tid → m ∈ hs.

(** Thread [t1] is blocked by thread [t2]: [t2] owns a mutex that [t1] can
    only wait for. *)
Definition waits_for (Σ : state) (t1 t2 : nat) : Prop :=
  ∃ m mu, mutexes Σ !! m = Some mu ∧ m_ mu = Some t2 ∧ (lock t1 m Σ).1 = Blocked.

(** The state after [unlock] of a mutex that [update_hierarchy] gave to the
    thread when its hierarchy value was [h]. *)
Definition released (Σ : state) (tid m : nat) (c h : Z) : state :=
  {| mutexes := <[m := {| m_ := None; cur_hierarchy_ := c; prev_hierarchy_ := h |}]> (mutexes Σ);
     thread_hierarchy_ := <[tid := h]> (thread_hierarchy_ Σ) |}.

(** What a state looks like from outside: the hierarchy value of every
    thread, and of every mutex its owner and its level; and, while a mutex
    is owned, the value it will restore. *)
Definition same_locks (Σ Σ' : state) : Prop :=
  (∀ tid, hierarchy_of Σ' tid = hierarchy_of Σ tid) ∧
  (∀ m, match mutexes Σ !! m, mutexes Σ' !! m with
        | Some mu, Some mu' =>
            m_ mu' = m_ mu ∧ cur_hierarchy_ mu' = cur_hierarchy_ mu ∧
            (is_Some (m_ mu) → prev_hierarchy_ mu' = prev_hierarchy_ mu)
        | None, None => True
        | _, _ => False
        end).

End HierarchicalMutex.

(* ===================================================================== *)
(** * The queue with a lock at each end *)
(* ===================================================================== *)

(** [class ConcurrentQueue] (the second header of
    lock_free_stack_hazard_pointer.hpp, lines 150-252), as the calls of one
    thread: state passing in a small monad whose failures are an exception,
    a wait that nobody ends, undefined behaviour, and a call stack that
    runs out.  A [std::shared_ptr<T>]
    is its value ([None] when empty); a [std::unique_ptr<Node>] is the
    address of the node it owns ([nullptr] when empty).  Only nodes count
    against the free store.  [empty() const] is left out: it locks
    [head_mutex_], which is not [mutable], and so cannot be instantiated. *)
Module ConcurrentQueue.

Inductive failure :=
| bad_alloc_thrown                   (* std::bad_alloc left the call *)
| blocks                             (* the call waits: for a mutex, or in cv_.wait *)
| undefined                          (* a null or dangling pointer was used *)
| stack_overflow.                    (* the call stack ran out: the process is lost *)

Section WithT.
Context {T : Type}.

(** [struct Node { std::shared_ptr<T> v; std::unique_ptr<Node> next; }] *)
Record Node := { v : option T; next : ptr }.

(** The members (lines 247-251; [cv_] has no state of its own when one
    thread runs), and the free store. *)
Record memory := {
  head_ : ptr;
  tail_ : ptr;
  head_mutex_ : bool;                (* locked? *)
  tail_mutex_ : bool;
  heap : gmap nat Node;
  brk : nat;
  mem_avail : nat;
  freed : list nat
}.

Definition M (A : Type) : Type := memory → (A + failure) * memory.

#[global] Instance M_ret : MRet M := λ A a σ, (inl a, σ).

#[global] Instance M_bind : MBind M :=
  λ A B k m σ, match m σ with
               | (inl a, σ') => k a σ'
               | (inr e, σ') => (inr e, σ')
               end.

Definition fail {A} (e : failure) : M A := λ σ, (inr e, σ).

Definition get {A} (f : memory → A) : M A := λ σ, (inl (f σ), σ).

Definition set_head_ (a : ptr) : M unit :=
  λ σ, (inl (), {| head_ := a; tail_ := tail_ σ; head_mutex_ := head_mutex_ σ;
                   tail_mutex_ := tail_mutex_ σ; heap := heap σ; brk := brk σ;
                   mem_avail := mem_avail σ; freed := freed σ |}).

Definition set_tail_ (a : ptr) : M unit :=
  λ σ, (inl (), {| head_ := head_ σ; tail_ := a; head_mutex_ := head_mutex_ σ;
                   tail_mutex_ := tail_mutex_ σ; heap := heap σ; brk := brk σ;
                   mem_avail := mem_avail σ; freed := freed σ |}).

Definition set_head_mutex_ (b : bool) : M unit :=
  λ σ, (inl (), {| head_ := head_ σ; tail_ := tail_ σ; head_mutex_ := b;
                   tail_mutex_ := tail_mutex_ σ; heap := heap σ; brk := brk σ;
                   mem_avail := mem_avail σ; freed := freed σ |}).

Definition set_tail_mutex_ (b : bool) : M unit :=
  λ σ, (inl (), {| head_ := head_ σ; tail_ := tail_ σ; head_mutex_ := head_mutex_ σ;
                   tail_mutex_ := b; heap := heap σ; brk := brk σ;
                   mem_avail := mem_avail σ; freed := freed σ |}).

(** [std::mutex::lock] by the one thread there is: it waits for ever if
    the mutex is locked. *)
Definition lock_head : M unit :=
  λ σ, if head_mutex_ σ then (inr blocks, σ) else set_head_mutex_ true σ.

Definition lock_tail : M unit :=
  λ σ, if tail_mutex_ σ then (inr blocks, σ) else set_tail_mutex_ true σ.

Definition unlock_head : M unit := set_head_mutex_ false.
Definition unlock_tail : M unit := set_tail_mutex_ false.

(** [p->...]: the node at [a]. *)
Definition load (a : ptr) : M Node :=
  λ σ, match heap σ !! a with Some n => (inl n, σ) | None => (inr undefined, σ) end.

Definition store (a : ptr) (n : Node) : M unit :=
  λ σ, match heap σ !! a with
       | Some _ =>
           (inl (), {| head_ := head_ σ; tail_ := tail_ σ; head_mutex_ := head_mutex_ σ;
                       tail_mutex_ := tail_mutex_ σ; heap := <[a := n]> (heap σ);
                       brk := brk σ; mem_avail := mem_avail σ; freed := freed σ |})
       | None => (inr undefined, σ)
       end.

(** [new Node] / [std::make_unique<Node>()]: an empty node. *)
Definition new_Node : M ptr :=
  λ σ, match mem_avail σ with
       | O => (inr bad_alloc_thrown, σ)
       | S m =>
           (inl (brk σ),
            {| head_ := head_ σ; tail_ := tail_ σ; head_mutex_ := head_mutex_ σ;
               tail_mutex_ := tail_mutex_ σ;
               heap := <[brk σ := {| v := None; next := nullptr |}]> (heap σ);
               brk := S (brk σ); mem_avail := m; freed := freed σ |})
       end.

(** The destructor of a [std::unique_ptr<Node>]: nothing for the null
    pointer; else [delete] of the node, whose destructor first destroys
    [next] (the member declared last), by a nested call of this
    destructor, and only then gives the node back.  A chain of n nodes
    takes n calls, one inside the other; [depth] is the number of nested
    calls the call stack has room for.  When it runs out nothing has been
    given back yet. *)
Fixpoint delete_chain (depth : nat) (a : ptr) (σ : memory) : (unit + failure) * memory :=
  if decide (a = nullptr) then (inl (), σ)
  else match depth with
       | O => (inr stack_overflow, σ)
       | S f =>
           match heap σ !! a with
           | None => (inr undefined, σ)
           | Some n =>
               match delete_chain f (next n) σ with
               | (inl _, σ') =>
                   (inl (), {| head_ := head_ σ'; tail_ := tail_ σ';
                               head_mutex_ := head_mutex_ σ'; tail_mutex_ := tail_mutex_ σ';
                               heap := delete a (heap σ'); brk := brk σ';
                               mem_avail := S (mem_avail σ'); freed := freed σ' ++ [a] |})
               | other => other
               end
           end
       end.

(** Inside the member functions.  What is destroyed there is a pointer
    that has been moved from, or the node [pop_head] has taken out, whose
    [next] has been moved from: at most one node.  The depth is no
    matter there; it is taken as large as the heap has nodes. *)
Definition delete_unique_ptr (a : ptr) : M unit :=
  λ σ, delete_chain (S (size (heap σ))) a σ.

(** [ConcurrentQueue() : head_(new Node), tail_(head_.get()) {}], in a
    process whose free store has room for [mem] nodes. *)
Definition ConcurrentQueue_ctor (mem : nat) : (unit + failure) * memory :=
  (a ← new_Node; set_head_ a;; set_tail_ a)
    {| head_ := nullptr; tail_ := nullptr; head_mutex_ := false; tail_mutex_ := false;
       heap := ∅; brk := 1; mem_avail := mem; freed := [] |}.

(** The destructor is the implicit one: the destructor of [head_] deletes
    the nodes, each from inside the destructor of the one before it, on a
    call stack with room for [depth] nested calls. *)
Definition ConcurrentQueue_dtor (depth : nat) : M unit :=
  a ← get head_; set_head_ nullptr;; delete_chain depth a.

(** [Node* get_tail()], lines 241-244 *)
Definition get_tail : M ptr :=
  lock_tail;; t ← get tail_; unlock_tail;; mret t.

(** [std::unique_ptr<Node> pop_head()], lines 235-239: the node that was
    the head, now owned by the caller, its [next] moved out. *)
Definition pop_head : M ptr :=
  head_node ← get head_;
  n ← load head_node;
  store head_node {| v := v n; next := nullptr |};;
  set_head_ (next n);;
  mret head_node.

(** [std::unique_ptr<Node> try_pop_head()], lines 201-207 *)
Definition try_pop_head : M ptr :=
  lock_head;;
  h ← get head_;
  t ← get_tail;
  if decide (h = t) then unlock_head;; mret nullptr
  else head_node ← pop_head; unlock_head;; mret head_node.

(** [*head_->v]: the value a non-empty [shared_ptr] points to. *)
Definition deref (o : option T) : M T :=
  match o with Some x => mret x | None => fail undefined end.

(** [std::unique_ptr<Node> try_pop_head(T& res)], lines 209-216: the node
    and what was assigned to [res]. *)
Definition try_pop_head_res : M (ptr * option T) :=
  lock_head;;
  h ← get head_;
  t ← get_tail;
  if decide (h = t) then unlock_head;; mret (nullptr, None)
  else
    n ← load h;
    x ← deref (v n);
    head_node ← pop_head;
    unlock_head;;
    mret (head_node, Some x).

(** [std::unique_lock<std::mutex> wait_for_data()], lines 229-233: with one
    thread, [cv_.wait] returns at once when there is data and never
    otherwise (it gives [head_mutex_] up while it waits). *)
Definition wait_for_data : M unit :=
  lock_head;;
  h ← get head_;
  t ← get_tail;
  if decide (h = t) then unlock_head;; fail blocks else mret ().

(** [wait_pop_head()], lines 218-221, and [wait_pop_head(T& res)], 223-227 *)
Definition wait_pop_head : M ptr :=
  wait_for_data;; head_node ← pop_head; unlock_head;; mret head_node.

Definition wait_pop_head_res : M (ptr * T) :=
  wait_for_data;;
  h ← get head_;
  n ← load h;
  x ← deref (v n);
  head_node ← pop_head;
  unlock_head;;
  mret (head_node, x).

(** [void push(T x)], lines 159-170 *)
Definition push (x : T) : M unit :=
  new_node ← new_Node;
  lock_tail;;
  t ← get tail_;
  n ← load t;
  store t {| v := Some x; next := new_node |};;
  delete_unique_ptr (next n);;       (* what tail_->next owned before, if anything *)
  set_tail_ new_node;;
  unlock_tail.

(** [std::shared_ptr<T> try_pop()], lines 172-175 *)
Definition try_pop : M (option T) :=
  head_node ← try_pop_head;
  if decide (head_node = nullptr) then mret None
  else n ← load head_node; delete_unique_ptr head_node;; mret (v n).

(** [bool try_pop(T& res)], lines 177-180: the result and what was
    assigned to [res], if anything. *)
Definition try_pop_res : M (bool * option T) :=
  r ← try_pop_head_res;
  if decide (r.1 = nullptr) then mret (false, r.2)
  else delete_unique_ptr r.1;; mret (true, r.2).

(** [std::shared_ptr<T> wait_and_pop()], lines 182-185 *)
Definition wait_and_pop : M (option T) :=
  head_node ← wait_pop_head;
  n ← load head_node; delete_unique_ptr head_node;; mret (v n).

(** [void wait_and_pop(T& res)], line 187: what was assigned to [res]. *)
Definition wait_and_pop_res : M T :=
  r ← wait_pop_head_res; delete_unique_ptr r.1;; mret r.2.

(** ** Calls *)

Inductive call :=
| Push (x : T) | TryPop | TryPopRes | WaitAndPop | WaitAndPopRes.

Inductive answer :=
| Void                               (* push returned *)
| Ptr (r : option T)                 (* try_pop() or wait_and_pop() returned a shared_ptr *)
| Bool (b : bool) (res : option T)   (* try_pop(res) returned; [res] if it was assigned *)
| Res (res : T).                     (* wait_and_pop(res) returned *)

Definition do_call (c : call) : M answer :=
  match c with
  | Push x => push x;; mret Void
  | TryPop => r ← try_pop; mret (Ptr r)
  | TryPopRes => r ← try_pop_res; mret (Bool r.1 r.2)
  | WaitAndPop => r ← wait_and_pop; mret (Ptr r)
  | WaitAndPopRes => r ← wait_and_pop_res; mret (Res r)
  end.

(** The answers to a list of calls made one after the other.  The caller
    catches an exception and goes on; a call that waits for ever is the
    last one. *)
Fixpoint do_calls (cs : list call) (σ : memory) : list (answer + failure) * memory :=
  match cs with
  | [] => ([], σ)
  | c :: rest =>
      let '(r, σ') := do_call c σ in
      match r with
      | inr blocks => ([r], σ')
      | _ => let '(rs, σ'') := do_calls rest σ' in (r :: rs, σ'')
      end
  end.

(** ** The queue as a list *)

(** The nodes from [a] to the node [t] : each holds a value and owns the
    next; [t] is the node [tail_] points to, it holds no value yet. *)
Fixpoint chain (h : gmap nat Node) (a t : ptr) (l : list (nat * T)) : Prop :=
  match l with
  | [] => a = t
  | (b, x) :: l' => a = b ∧ ∃ nx, h !! b = Some {| v := Some x; next := nx |} ∧ chain h nx t l'
  end.

(** The queue holds the values of [l], the oldest first; [t] is its last
    node; both mutexes are free; every node that is allocated belongs to
    the queue. *)
Record queue_rep (σ : memory) (l : list (nat * T)) : Prop := {
  rep_chain : chain (heap σ) (head_ σ) (tail_ σ) l;
  rep_tail : ∃ o, heap σ !! tail_ σ = Some {| v := o; next := nullptr |};
  rep_nodup : NoDup (l.*1 ++ [tail_ σ]);
  rep_nonnull : nullptr ∉ l.*1 ++ [tail_ σ];
  rep_closed : ∀ a, is_Some (heap σ !! a) → a ∈ l.*1 ++ [tail_ σ];
  rep_dom : ∀ a, is_Some (heap σ !! a) → a < brk σ;
  rep_head_mutex : head_mutex_ σ = false;
  rep_tail_mutex : tail_mutex_ σ = false
}.

(** A first-in first-out list with room for [mem] more elements; taking
    from the empty list with [wait_and_pop] never ends. *)
Fixpoint fifo_model (cs : list call) (xs : list T) (mem : nat)
  : list (answer + failure) * list T * nat :=
  match cs with
  | [] => ([], xs, mem)
  | c :: cs' =>
      let '(r, ys, m) :=
        match c, xs, mem with
        | Push x, _, O => (inr bad_alloc_thrown, xs, mem)
        | Push x, _, S m' => (inl Void, xs ++ [x], m')
        | TryPop, [], _ => (inl (Ptr None), xs, mem)
        | TryPop, x :: xs', _ => (inl (Ptr (Some x)), xs', S mem)
        | TryPopRes, [], _ => (inl (Bool false None), xs, mem)
        | TryPopRes, x :: xs', _ => (inl (Bool true (Some x)), xs', S mem)
        | WaitAndPop, [], _ => (inr blocks, xs, mem)
        | WaitAndPop, x :: xs', _ => (inl (Ptr (Some x)), xs', S mem)
        | WaitAndPopRes, [], _ => (inr blocks, xs, mem)
        | WaitAndPopRes, x :: xs', _ => (inl (Res x), xs', S mem)
        end in
      match r with
      | inr blocks => ([r], ys, m)
      | _ => let '(rs, zs, m') := fifo_model cs' ys m in (r :: rs, zs, m')
      end
  end.

End WithT.

Arguments Node : clear implicits.
Arguments memory : clear implicits.
Arguments M : clear implicits.
Arguments call : clear implicits.
Arguments answer : clear implicits.

End ConcurrentQueue.

(* ===================================================================== *)
(** * The queue, with any number of threads *)
(* ===================================================================== *)

(** The member functions of [class ConcurrentQueue] (lines 159-244) as the
    steps of threads: one step for each statement, made of the operations
    of [ConcurrentQueue] on the shared memory.  A thread that has to wait
    for a mutex cannot step; a thread inside [cv_.wait] has released
    [head_mutex_] and steps again after it was woken, by [cv_.notify_one]
    or spuriously. *)
Module ConcurrentQueueThreads.
Import ConcurrentQueue.

Section WithT.
Context {T : Type}.

(** Who called [try_pop_head] or [wait_pop_head]. *)
Inductive caller :=
| ByTryPop                           (* try_pop(), through try_pop_head() *)
| ByTryPopRes                        (* try_pop(res), through try_pop_head(res) *)
| ByWaitAndPop                       (* wait_and_pop(), through wait_pop_head() *)
| ByWaitAndPopRes.                   (* wait_and_pop(res), through wait_pop_head(res) *)

Definition waits (c : caller) : bool :=
  match c with ByWaitAndPop | ByWaitAndPopRes => true | _ => false end.

Definition with_res (c : caller) : bool :=
  match c with ByTryPopRes | ByWaitAndPopRes => true | _ => false end.

Inductive pc :=
| Idle
| Fault                                     (* a null or dangling pointer was used,
                                              or the call stack ran out *)
| Push161 (x : T)                           (* 160-162  make_shared, make_unique<Node>() *)
| Push164 (x : T) (new_node : ptr)          (* 164  lock_guard l(tail_mutex_) *)
| Push165 (x : T) (new_node : ptr)          (* 165  tail_->v = new_val *)
| Push166 (x : T) (new_node : ptr)          (* 166  tail_->next = std::move(new_node) *)
| Push167 (x : T) (new_tail_node : ptr)     (* 167  tail_ = new_tail_node *)
| Push168                                   (* 168  the guard unlocks tail_mutex_ *)
| Push169                                   (* 169  cv_.notify_one() *)
| LockHead (c : caller)                     (* 202, 210, 230  lock head_mutex_ *)
| GetTail242 (c : caller)                   (* 242  lock_guard l(tail_mutex_) *)
| GetTail243 (c : caller)                   (* 243  return tail_ *)
| GetTail244 (c : caller) (t : ptr)         (* 244  the guard unlocks tail_mutex_ *)
| Compare (c : caller) (t : ptr)            (* 203, 211, 231  head_.get() against get_tail() *)
| Waiting (c : caller)                      (* 231  inside cv_.wait, head_mutex_ released *)
| Relock (c : caller)                       (* 231  woken: cv_.wait locks head_mutex_ again *)
| MoveRes (c : caller)                      (* 214, 225  res = std::move( *head_->v) *)
| PopHead236 (c : caller) (res : option T)  (* 236  head_node = std::move(head_) *)
| PopHead237 (c : caller) (res : option T) (head_node : ptr)
                                            (* 237  head_ = std::move(head_node->next) *)
| UnlockHead (c : caller) (res : option T) (head_node : ptr)
                                            (* 204-207, 212-216, 221, 227  head_mutex_ unlocked *)
| Finish (c : caller) (res : option T) (head_node : ptr).
                                            (* 174, 179, 184, 187  the result; head_node destroyed *)

(** What a call gave: [res] is what was assigned to the caller's [res]. *)
Inductive result :=
| Returned                           (* push *)
| ReturnedPtr (r : option T)         (* try_pop(), wait_and_pop() *)
| ReturnedBool (b : bool) (res : option T)    (* try_pop(res) *)
| Assigned (res : option T)          (* wait_and_pop(res) *)
| Threw_bad_alloc.

Record thread := { at_pc : pc; ret : option result }.

Definition fresh_thread : thread := {| at_pc := Idle; ret := None |}.

(** When a value came into the queue (line 167) and when it left (237). *)
Inductive event :=
| EvPush (tid : nat) (x : T)
| EvPop (tid : nat) (o : option T).

Record state := {
  shared : memory T;
  threads : gmap nat thread;
  history : list event
}.

(** The queue after its constructor. *)
Definition init (mem : nat) : option state :=
  match ConcurrentQueue_ctor mem with
  | (inl _, σ) => Some {| shared := σ; threads := ∅; history := [] |}
  | (inr _, _) => None
  end.

Definition thread_of (Σ : state) (tid : nat) : thread :=
  default fresh_thread (threads Σ !! tid).

Definition pushed (Σ : state) : list T :=
  omap (λ e, match e with EvPush _ x => Some x | _ => None end) (history Σ).

Definition popped (Σ : state) : list (option T) :=
  omap (λ e, match e with EvPop _ o => Some o | _ => None end) (history Σ).

Definition goto (k : pc) (L : thread) : thread := {| at_pc := k; ret := ret L |}.

Definition leave (r : result) (L : thread) : thread := {| at_pc := Idle; ret := Some r |}.

(** One step: an operation on the shared memory, and where the thread goes
    on.  [None]: the thread has to wait for a mutex. *)
Definition perform {A} (m : M T A) (k : A → thread * list event) (L : thread) (σ : memory T)
  : option (thread * memory T * list event) :=
  match m σ with
  | (inl a, σ') => Some ((k a).1, σ', (k a).2)
  | (inr blocks, _) => None
  | (inr bad_alloc_thrown, σ') => Some (leave Threw_bad_alloc L, σ', [])
  | (inr undefined, σ') | (inr stack_overflow, σ') => Some (goto Fault L, σ', [])
  end.

(** What the caller of [try_pop_head] / [wait_pop_head] returns. *)
Definition result_of (c : caller) (res : option T) (head_node : ptr) (v : option T) : result :=
  match c with
  | ByTryPop | ByWaitAndPop => ReturnedPtr v
  | ByTryPopRes => ReturnedBool (bool_decide (head_node ≠ nullptr)) res
  | ByWaitAndPopRes => Assigned res
  end.

Definition step_thread (tid : nat) (L : thread) : memory T → option (thread * memory T * list event) :=
  match at_pc L with
  | Idle | Fault | Waiting _ | Push169 => λ _, None
  (* void push(T x) *)
  | Push161 x =>
      perform new_Node (λ a, (goto (Push164 x a) L, [])) L
  | Push164 x a =>
      perform lock_tail (λ _, (goto (Push165 x a) L, [])) L
  | Push165 x a =>
      perform (t ← get tail_; n ← load t; store t {| v := Some x; next := next n |})
        (λ _, (goto (Push166 x a) L, [])) L
  | Push166 x a =>
      perform (t ← get tail_; n ← load t; store t {| v := v n; next := a |};;
               delete_unique_ptr (next n))
        (λ _, (goto (Push167 x a) L, [])) L
  | Push167 x a =>
      perform (set_tail_ a) (λ _, (goto Push168 L, [EvPush tid x])) L
  | Push168 =>
      perform unlock_tail (λ _, (goto Push169 L, [])) L
  (* try_pop_head, wait_for_data *)
  | LockHead c | Relock c =>
      perform lock_head (λ _, (goto (GetTail242 c) L, [])) L
  (* Node* get_tail() *)
  | GetTail242 c =>
      perform lock_tail (λ _, (goto (GetTail243 c) L, [])) L
  | GetTail243 c =>
      perform (get tail_) (λ t, (goto (GetTail244 c t) L, [])) L
  | GetTail244 c t =>
      perform unlock_tail (λ _, (goto (Compare c t) L, [])) L
  | Compare c t =>
      perform (h ← get head_;
               if decide (h = t)
               then (if waits c then unlock_head else mret ());; mret true
               else mret false)
        (λ empty : bool,
           (goto (if empty then (if waits c then Waiting c else UnlockHead c None nullptr)
                  else (if with_res c then MoveRes c else PopHead236 c None)) L, [])) L
  | MoveRes c =>
      perform (h ← get head_; n ← load h; deref (v n))
        (λ x, (goto (PopHead236 c (Some x)) L, [])) L
  (* std::unique_ptr<Node> pop_head() *)
  | PopHead236 c res =>
      perform (a ← get head_; set_head_ nullptr;; mret a)
        (λ a, (goto (PopHead237 c res a) L, [])) L
  | PopHead237 c res a =>
      perform (n ← load a; store a {| v := v n; next := nullptr |};;
               old ← get head_; set_head_ (next n);; delete_unique_ptr old;; mret (v n))
        (λ o, (goto (UnlockHead c res a) L, [EvPop tid o])) L
  | UnlockHead c res a =>
      perform unlock_head (λ _, (goto (Finish c res a) L, [])) L
  (* try_pop, wait_and_pop: the result, and the destructor of head_node *)
  | Finish c res a =>
      perform (match c with
               | ByTryPop =>                    (* 174  return head_node ? head_node->v : nullptr *)
                   if decide (a = nullptr) then mret None
                   else n ← load a; delete_unique_ptr a;; mret (v n)
               | ByWaitAndPop =>                (* 184  return head_node->v *)
                   n ← load a; delete_unique_ptr a;; mret (v n)
               | ByTryPopRes | ByWaitAndPopRes =>    (* 179, 187 *)
                   delete_unique_ptr a;; mret None
               end)
        (λ o, (leave (result_of c res a o) L, [])) L
  end.

Definition running (k : pc) : bool :=
  match k with Idle | Fault => false | _ => true end.

Definition waiting (k : pc) : bool :=
  match k with Waiting _ => true | _ => false end.

Definition enter (c : call T) : thread :=
  {| at_pc := match c with
              | Push x => Push161 x
              | TryPop => LockHead ByTryPop
              | TryPopRes => LockHead ByTryPopRes
              | WaitAndPop => LockHead ByWaitAndPop
              | WaitAndPopRes => LockHead ByWaitAndPopRes
              end;
     ret := None |}.

Definition wake (L : thread) : thread :=
  match at_pc L with Waiting c => goto (Relock c) L | _ => L end.

Definition set_thread (tid : nat) (L : thread) (Σ : state) : state :=
  {| shared := shared Σ; threads := <[tid := L]> (threads Σ); history := history Σ |}.

(** ** Schedules *)

Inductive action :=
| Invoke (tid : nat) (c : call T)    (* an idle thread calls a member function *)
| Step (tid : nat)                   (* a thread performs its next statement *)
| Notify (tid : nat) (w : option nat)
                                     (* 169: cv_.notify_one() wakes the waiting thread [w];
                                        nobody, if nobody waits *)
| Wake (tid : nat).                  (* a spurious wake-up of a thread in cv_.wait *)

(** [None]: the action is not possible in this state. *)
Definition exec (a : action) (Σ : state) : option state :=
  match a with
  | Invoke tid c =>
      match at_pc (thread_of Σ tid) with
      | Idle => Some (set_thread tid (enter c) Σ)
      | _ => None
      end
  | Step tid =>
      match step_thread tid (thread_of Σ tid) (shared Σ) with
      | Some (L', σ', es) =>
          Some {| shared := σ'; threads := <[tid := L']> (threads Σ);
                  history := history Σ ++ es |}
      | None => None
      end
  | Notify tid w =>
      match at_pc (thread_of Σ tid) with
      | Push169 =>
          let Σ' := set_thread tid (leave Returned (thread_of Σ tid)) Σ in
          match w with
          | Some t =>
              if waiting (at_pc (thread_of Σ t))
              then Some (set_thread t (wake (thread_of Σ t)) Σ')
              else None
          | None =>
              if bool_decide (map_Forall (λ _ L, waiting (at_pc L) = false) (threads Σ))
              then Some Σ'
              else None
          end
      | _ => None
      end
  | Wake tid =>
      if waiting (at_pc (thread_of Σ tid))
      then Some (set_thread tid (wake (thread_of Σ tid)) Σ)
      else None
  end.

Fixpoint run (sched : list action) (Σ : state) : option state :=
  match sched with
  | [] => Some Σ
  | a :: rest => match exec a Σ with Some Σ' => run rest Σ' | None => None end
  end.


(** ** What every reachable state has *)

(** The thread is between lock and unlock of [head_mutex_], of [tail_mutex_]. *)
Definition holds_head (k : pc) : bool :=
  match k with
  | GetTail242 _ | GetTail243 _ | GetTail244 _ _ | Compare _ _ | MoveRes _
  | PopHead236 _ _ | PopHead237 _ _ _ | UnlockHead _ _ _ => true
  | _ => false
  end.

Definition holds_tail (k : pc) : bool :=
  match k with
  | Push165 _ _ | Push166 _ _ | Push167 _ _ | Push168 | GetTail243 _ | GetTail244 _ _ => true
  | _ => false
  end.

(** The node that only this thread can reach: the new node of a push, up
    to line 167; the old head of a pop, from line 237. *)
Definition owned (k : pc) : option ptr :=
  match k with
  | Push164 _ a | Push165 _ a | Push166 _ a | Push167 _ a => Some a
  | UnlockHead _ _ a | Finish _ _ a => if decide (a = nullptr) then None else Some a
  | _ => None
  end.

(** The node the next step of the thread reads or writes. *)
Definition accesses (k : pc) (σ : memory T) : option ptr :=
  match k with
  | Push165 _ _ | Push166 _ _ => Some (tail_ σ)
  | MoveRes _ => Some (head_ σ)
  | PopHead237 _ _ a => Some a
  | Finish _ _ a => if decide (a = nullptr) then None else Some a
  | _ => None
  end.

(** What [pop_head] moved out of the queue last, by thread [tid]. *)
Definition last_pop (tid : nat) (h : list event) : option (option T) :=
  last (omap (λ e, match e with
                   | EvPop t o => if decide (t = tid) then Some o else None
                   | _ => None
                   end) h).

(** What the thread knows at its place in the code, of a queue whose nodes
    are [l] (oldest first; [hd] is the first node or, if there is none, the
    node [tail_] points to) and whose last node is [n]. *)
Definition pc_ok (tid : nat) (σ : memory T) (h : list event) (hd : ptr) (l : list (nat * T))
    (n : Node T) (k : pc) : Prop :=
  match k with
  | Fault => False
  | Push164 _ a | Push165 _ a =>
      heap σ !! a = Some {| v := None; next := nullptr |}
  | Push166 x a =>
      heap σ !! a = Some {| v := None; next := nullptr |} ∧ v n = Some x
  | Push167 x a =>
      heap σ !! a = Some {| v := None; next := nullptr |} ∧ v n = Some x ∧ next n = a
  | GetTail244 _ t | Compare _ t => l = [] → t = tail_ σ
  | MoveRes _ => l ≠ []
  | PopHead236 c res =>
      ∃ a x l', l = (a, x) :: l' ∧ (with_res c = true → res = Some x)
  | PopHead237 c res a =>
      hd = a ∧ head_ σ = nullptr ∧ ∃ x l', l = (a, x) :: l' ∧ (with_res c = true → res = Some x)
  | UnlockHead c res a | Finish c res a =>
      if decide (a = nullptr) then waits c = false ∧ res = None
      else ∃ y, heap σ !! a = Some {| v := Some y; next := nullptr |} ∧
                last_pop tid h = Some (Some y) ∧
                (with_res c = true → res = Some y)
  | _ => True
  end.

Record inv_with (hd : ptr) (l : list (nat * T)) (n : Node T) (Σ : state) : Prop := {
  inv_chain : chain (heap (shared Σ)) hd (tail_ (shared Σ)) l;
  inv_tail : heap (shared Σ) !! tail_ (shared Σ) = Some n;
  inv_pc : ∀ tid, pc_ok tid (shared Σ) (history Σ) hd l n (at_pc (thread_of Σ tid));
  inv_head : (∀ tid c res a, at_pc (thread_of Σ tid) ≠ PopHead237 c res a) →
             head_ (shared Σ) = hd;
  inv_next : (∀ tid x a, at_pc (thread_of Σ tid) ≠ Push167 x a) → next n = nullptr;
  inv_nodup : NoDup (l.*1 ++ [tail_ (shared Σ)]);
  inv_nonnull : nullptr ∉ l.*1 ++ [tail_ (shared Σ)];
  inv_owned : ∀ tid a, owned (at_pc (thread_of Σ tid)) = Some a →
      a ≠ nullptr ∧ (a ∉ l.*1 ++ [tail_ (shared Σ)]) ∧ is_Some (heap (shared Σ) !! a);
  inv_owned_inj : ∀ tid1 tid2 a,
      owned (at_pc (thread_of Σ tid1)) = Some a → owned (at_pc (thread_of Σ tid2)) = Some a →
      tid1 = tid2;
  inv_closed : ∀ a, is_Some (heap (shared Σ) !! a) →
      a ∈ l.*1 ++ [tail_ (shared Σ)] ∨ ∃ tid, owned (at_pc (thread_of Σ tid)) = Some a;
  inv_dom : ∀ a, is_Some (heap (shared Σ) !! a) → a < brk (shared Σ);
  inv_head_locked : head_mutex_ (shared Σ) = true ↔
                    ∃ tid, holds_head (at_pc (thread_of Σ tid)) = true;
  inv_head_excl : ∀ tid1 tid2, holds_head (at_pc (thread_of Σ tid1)) = true →
                    holds_head (at_pc (thread_of Σ tid2)) = true → tid1 = tid2;
  inv_tail_locked : tail_mutex_ (shared Σ) = true ↔
                    ∃ tid, holds_tail (at_pc (thread_of Σ tid)) = true;
  inv_tail_excl : ∀ tid1 tid2, holds_tail (at_pc (thread_of Σ tid1)) = true →
                    holds_tail (at_pc (thread_of Σ tid2)) = true → tid1 = tid2;
  inv_history : Some <$> pushed Σ = popped Σ ++ (Some <$> l.*2)
}.

Definition inv (Σ : state) : Prop := ∃ hd l n, inv_with hd l n Σ.

(** No thread is inside a call. *)
Definition quiescent (Σ : state) : Prop := ∀ tid, at_pc (thread_of Σ tid) = Idle.

(** The thread is inside a call and waits for a mutex. *)
Definition blocked (Σ : state) (tid : nat) : Prop :=
  running (at_pc (thread_of Σ tid)) = true ∧
  waiting (at_pc (thread_of Σ tid)) = false ∧
  at_pc (thread_of Σ tid) ≠ Push169 ∧
  step_thread tid (thread_of Σ tid) (shared Σ) = None.

(** Where a thread is, and what it has got, once it has made the call [c]
    and the call, taken as one sequential function, has given [r]: back
    with the result, or asleep in [cv_.wait]. *)
Definition rest_of (c : call T) (r : answer T + failure) : option (pc * option result) :=
  match r with
  | inl Void => Some (Idle, Some Returned)
  | inl (Ptr r) => Some (Idle, Some (ReturnedPtr r))
  | inl (Bool b res) => Some (Idle, Some (ReturnedBool b res))
  | inl (Res x) => Some (Idle, Some (Assigned (Some x)))
  | inr bad_alloc_thrown => Some (Idle, Some Threw_bad_alloc)
  | inr blocks =>
      match c with
      | WaitAndPop => Some (Waiting ByWaitAndPop, None)
      | WaitAndPopRes => Some (Waiting ByWaitAndPopRes, None)
      | _ => None
      end
  | inr undefined | inr stack_overflow => None
  end.

End WithT.

Arguments pc : clear implicits.
Arguments thread : clear implicits.
Arguments event : clear implicits.
Arguments state : clear implicits.
Arguments action : clear implicits.
Arguments result : clear implicits.

End ConcurrentQueueThreads.

(* ===================================================================== *)
(** * Scenarios *)
(* ===================================================================== *)

Module Scenario.

(** One stack object (number 0) of [LockFreeStack<int>] with hazard
    pointers, in a process that has room for [mem] objects. *)
Definition hp_one_stack (mem : nat) : option (Hazard.state nat) :=
  Hazard.run [Hazard.Construct 0] (Hazard.init mem).

(** push 1, 2, 3, then three pops, by one thread. *)
Definition hp_lifo (mem : nat) : option (list (option (outcome nat))) :=
  match hp_one_stack mem with
  | Some Σ =>
      fst <$> Hazard.do_calls 1000 1
        [Hazard.Push 0 1; Hazard.Push 0 2; Hazard.Push 0 3;
         Hazard.Pop 0; Hazard.Pop 0; Hazard.Pop 0] Σ
  | None => None
  end.

Definition rc_lifo (mem : nat) : option (list (option (outcome nat))) :=
  fst <$> SplitRef.do_calls 1000 1
    [SplitRef.Push 1; SplitRef.Push 2; SplitRef.Push 3;
     SplitRef.Pop; SplitRef.Pop; SplitRef.Pop] (SplitRef.init mem).

(** Thread 1 pushes 5.  Thread 2 enters pop and stops at line 83, after its
    hazard pointer was set to the head node and checked, before it reads
    [t->next]. *)
Definition hp_reader_schedule : list (Hazard.action nat) :=
  [Hazard.Construct 0;
   Hazard.Invoke 1 (Hazard.Push 0 5); Hazard.Step 1; Hazard.Step 1; Hazard.Step 1;
   Hazard.Invoke 2 (Hazard.Pop 0);
   Hazard.Step 2; Hazard.Step 2;              (* 74, 23: thread 2 takes slot 0 *)
   Hazard.Step 2; Hazard.Step 2; Hazard.Step 2].   (* 75, 80, 81-82 *)

Definition hp_reader_at_line_83 : option (Hazard.state nat) :=
  Hazard.run hp_reader_schedule (Hazard.init 10).

Definition hp_reader_state : Hazard.state nat :=
  default (Hazard.init 10) hp_reader_at_line_83.

(** Thread 2 goes on alone, to the end of its pop. *)
Definition hp_reader_returns_schedule : list (Hazard.action nat) :=
  hp_reader_schedule ++ repeat (Hazard.Step 2) 109.

Definition hp_reader_returned_state : Hazard.state nat :=
  default (Hazard.init 10) (Hazard.run hp_reader_returns_schedule (Hazard.init 10)).

(** Thread 2 has gone on alone to line 84: it has taken node 1 off the
    stack, and its hazard pointer still holds that node. *)
Definition hp_reader_clears_schedule : list (Hazard.action nat) :=
  hp_reader_schedule ++ repeat (Hazard.Step 2) 2.

Definition hp_reader_clears_state : Hazard.state nat :=
  default (Hazard.init 10) (Hazard.run hp_reader_clears_schedule (Hazard.init 10)).

(** Then thread 1 pops (the node is protected by thread 2: it goes to the
    list of nodes to delete), ... *)
Definition hp_after_first_pop : option (Hazard.state nat) :=
  match hp_reader_at_line_83 with
  | Some Σ => Hazard.do_call 1000 1 (Hazard.Pop 0) Σ
  | None => None
  end.

(** ... pushes 7 and pops again, while thread 2 has not moved. *)
Definition hp_after_second_pop : option (Hazard.state nat) :=
  match hp_after_first_pop with
  | Some Σ =>
      match Hazard.do_call 1000 1 (Hazard.Push 0 7) Σ with
      | Some Σ' => Hazard.do_call 1000 1 (Hazard.Pop 0) Σ'
      | None => None
      end
  | None => None
  end.

(** The threads [tids] pop from stack 0, one after the other. *)
Fixpoint hp_pops (tids : list nat) (Σ : Hazard.state nat) : option (Hazard.state nat) :=
  match tids with
  | [] => Some Σ
  | tid :: rest =>
      match Hazard.do_call 1000 tid (Hazard.Pop 0) Σ with
      | Some Σ' => hp_pops rest Σ'
      | None => None
      end
  end.

(** The threads 1, ..., 100 have each popped once from the empty stack 0:
    every slot of the table is owned. *)
Definition hp_all_slots_owned : option (Hazard.state nat) :=
  match hp_one_stack 0 with
  | Some Σ => hp_pops (seq 1 Hazard.MaxSize) Σ
  | None => None
  end.

(** Then thread 101 calls pop for the first time, ... *)
Definition hp_pop_of_thread_101 : option (Hazard.state nat) :=
  Σ ← hp_all_slots_owned;
  Hazard.do_call 1000 101 (Hazard.Pop 0) Σ.

(** ... thread 1 ends, and thread 101 calls pop again. *)
Definition hp_retry_after_exit : option (Hazard.state nat) :=
  Σ1 ← hp_pop_of_thread_101;
  Σ2 ← Hazard.do_exit 10 1 Σ1;
  Hazard.do_call 1000 101 (Hazard.Pop 0) Σ2.

Definition hp_full_state : Hazard.state nat :=
  default (Hazard.init 0) hp_all_slots_owned.

(** One thread pushes [xs]; then the stack object is destroyed. *)
Definition hp_destroyed (xs : list nat) : option (Hazard.state nat) :=
  Σ0 ← hp_one_stack 10;
  Σ1 ← snd <$> Hazard.do_calls 1000 1 (Hazard.Push 0 <$> xs) Σ0;
  Hazard.run [Hazard.Destruct 0] Σ1.

Definition rc_destroyed (xs : list nat) : option (SplitRef.state nat) :=
  Σ1 ← snd <$> SplitRef.do_calls 1000 1 (SplitRef.Push <$> xs) (SplitRef.init 10);
  SplitRef.do_call 1000 1 SplitRef.Destroy Σ1.

(** A stack object that was just constructed, in a process whose free store
    has room for [mem] objects. *)
Definition hp_fresh (mem : nat) : Hazard.state nat :=
  default (Hazard.init mem) (hp_one_stack mem).

(** Two threads pop the only element at the same time.  Both have counted
    themselves in (line 118); the exchange of thread 1 (line 123) fails,
    because thread 2 has changed the count in [head_], and thread 2 takes
    the node. *)
Definition rc_two_poppers : list (SplitRef.action nat) :=
  [SplitRef.Invoke 1 (SplitRef.Push 5); SplitRef.Step 1; SplitRef.Step 1; SplitRef.Step 1;
   SplitRef.Invoke 1 SplitRef.Pop; SplitRef.Invoke 2 SplitRef.Pop;
   SplitRef.Step 1; SplitRef.Step 1;          (* 116, 118: thread 1 holds the node *)
   SplitRef.Step 2; SplitRef.Step 2;          (* 116, 118: thread 2 holds it too *)
   SplitRef.Step 1; SplitRef.Step 1;          (* 123: thread 1 fails *)
   SplitRef.Step 2; SplitRef.Step 2].         (* 123: thread 2 takes the node *)

Definition rc_two_poppers_state : SplitRef.state nat :=
  default (SplitRef.init 3) (SplitRef.run rc_two_poppers (SplitRef.init 3)).

End Scenario.

(* ===================================================================== *)
(** * More scenarios *)
(* ===================================================================== *)

Module MoreScenarios.

(** The two poppers of [Scenario.rc_two_poppers] run to the end of their
    pops (thread 1 finds the stack empty, thread 2 returns the 5); then
    thread 2 pushes 9. *)
Definition rc_two_poppers_done : list (SplitRef.action nat) :=
  Scenario.rc_two_poppers ++ replicate 4 (SplitRef.Step 1) ++ replicate 4 (SplitRef.Step 2)
    ++ [SplitRef.Invoke 2 (SplitRef.Push 9);
        SplitRef.Step 2; SplitRef.Step 2; SplitRef.Step 2].

Definition rc_two_poppers_done_state : SplitRef.state nat :=
  default (SplitRef.init 3) (SplitRef.run rc_two_poppers_done (SplitRef.init 3)).

(** One thread has pushed 1, 2 and 3. *)
Definition rc_three_pushed_state : SplitRef.state nat :=
  default (SplitRef.init 3)
    (snd <$> SplitRef.do_calls 8 1 (SplitRef.Push <$> [1; 2; 3]) (SplitRef.init 3)).

(** Three mutexes with the levels of lines 53-55: number 0 is [high],
    1 is [mid], 2 is [low]. *)
Definition hm_three_mutexes : list HierarchicalMutex.action :=
  [HierarchicalMutex.Construct 0 10000; HierarchicalMutex.Construct 1 6000;
   HierarchicalMutex.Construct 2 5000].

Definition hm_three_mutexes_state : HierarchicalMutex.state :=
  default HierarchicalMutex.init
    (snd <$> HierarchicalMutex.run hm_three_mutexes HierarchicalMutex.init).

(** Thread 1 locks [mid]. *)
Definition hm_mid_locked : list HierarchicalMutex.action :=
  hm_three_mutexes ++ [HierarchicalMutex.Lock 1 1].

Definition hm_mid_locked_state : HierarchicalMutex.state :=
  default HierarchicalMutex.init
    (snd <$> HierarchicalMutex.run hm_mid_locked HierarchicalMutex.init).

(** Thread 1 locks [high] and then [low]. *)
Definition hm_high_low_locked : list HierarchicalMutex.action :=
  hm_three_mutexes ++ [HierarchicalMutex.Lock 1 0; HierarchicalMutex.Lock 1 2].

Definition hm_high_low_locked_state : HierarchicalMutex.state :=
  default HierarchicalMutex.init
    (snd <$> HierarchicalMutex.run hm_high_low_locked HierarchicalMutex.init).

(** A queue after its constructor, in a process whose free store has room
    for three nodes. *)
Definition cq_new_state : ConcurrentQueueThreads.state nat :=
  {| ConcurrentQueueThreads.shared := (ConcurrentQueue.ConcurrentQueue_ctor 3).2;
     ConcurrentQueueThreads.threads := ∅;
     ConcurrentQueueThreads.history := [] |}.

(** Thread 2 calls wait_and_pop() on the empty queue and waits in
    [cv_.wait]; thread 1 pushes 5 and wakes it; thread 2 locks
    [head_mutex_] again ... *)
Definition cq_woken : list (ConcurrentQueueThreads.action nat) :=
  [ConcurrentQueueThreads.Invoke 2 ConcurrentQueue.WaitAndPop]
    ++ replicate 5 (ConcurrentQueueThreads.Step 2)
    ++ [ConcurrentQueueThreads.Invoke 1 (ConcurrentQueue.Push 5)]
    ++ replicate 6 (ConcurrentQueueThreads.Step 1)
    ++ [ConcurrentQueueThreads.Notify 1 (Some 2); ConcurrentQueueThreads.Step 2].

Definition cq_woken_state : ConcurrentQueueThreads.state nat :=
  default cq_new_state (ConcurrentQueueThreads.run cq_woken cq_new_state).

(** ... while thread 3 calls try_pop() and finds [head_mutex_] locked. *)
Definition cq_contended : list (ConcurrentQueueThreads.action nat) :=
  cq_woken ++ [ConcurrentQueueThreads.Invoke 3 ConcurrentQueue.TryPop].

Definition cq_contended_state : ConcurrentQueueThreads.state nat :=
  default cq_new_state (ConcurrentQueueThreads.run cq_contended cq_new_state).

(** Thread 2 goes on to line 184, with the node it has taken out. *)
Definition cq_taken : list (ConcurrentQueueThreads.action nat) :=
  cq_contended ++ replicate 7 (ConcurrentQueueThreads.Step 2).

Definition cq_taken_state : ConcurrentQueueThreads.state nat :=
  default cq_new_state (ConcurrentQueueThreads.run cq_taken cq_new_state).

End MoreScenarios.

(* ===================================================================== *)
(** * Facts about the stack with hazard pointers *)
(* ===================================================================== *)

Section HazardFacts.
Import Hazard.
Context {T : Type}.
Implicit Types (Σ : state T) (σ : memory T) (L : thread T) (k : pc T).

Lemma hp_new_frame (c : cell T) σ a σ' :
  new c σ = Some (a, σ') →
  HazardPointers σ' = HazardPointers σ ∧ stacks σ' = stacks σ.
Proof. unfold new. destruct (mem_avail σ); [done|]. by intros [= <- <-]. Qed.

Lemma hp_delete_rec_frame fuel : ∀ d a σ σ',
  delete_rec fuel d a σ = Some σ' →
  HazardPointers σ' = HazardPointers σ ∧ stacks σ' = stacks σ.
Proof.
  induction fuel as [|f IH]; intros d a σ σ'; simpl; [done|].
  destruct d, (heap σ !! a) as [[n|dd]|]; try done.
  - by intros [= <-].
  - destruct (delete_rec f (deleter dd) (data dd) σ) as [σ1|] eqn:E; [|done].
    intros [= <-]. apply IH in E. by simpl.
Qed.

Lemma hp_delete_obj_frame d a σ σ' :
  delete_obj d a σ = Some σ' →
  HazardPointers σ' = HazardPointers σ ∧ stacks σ' = stacks σ.
Proof. apply hp_delete_rec_frame. Qed.

Lemma hp_append_load_frame s d σ σ' :
  append_load s d σ = Some σ' →
  HazardPointers σ' = HazardPointers σ ∧ stacks σ' = stacks σ.
Proof. unfold append_load. repeat case_match; try done. by intros [= <-]. Qed.

Lemma hp_append_cas_frame s d σ b σ' :
  append_cas s d σ = Some (b, σ') → HazardPointers σ' = HazardPointers σ.
Proof. unfold append_cas. repeat case_match; try done; by intros [= <- <-]. Qed.

Ltac frame_facts :=
  repeat match goal with
  | E : new _ _ = Some _ |- _ => apply hp_new_frame in E
  | E : delete_obj _ _ _ = Some _ |- _ => apply hp_delete_obj_frame in E
  | E : append_load _ _ _ = Some _ |- _ => apply hp_append_load_frame in E
  | E : append_cas _ _ _ = Some _ |- _ => apply hp_append_cas_frame in E
  end.

Lemma hp_step_thread_effect tid L σ L' σ' :
  (uses_slot (at_pc L) → is_Some (hazard_pointer L)) →
  (no_slot (at_pc L) → hazard_pointer L = None) →
  step_thread tid L σ = (L', σ') → hp_effect tid L σ L' σ'.
Proof.
  unfold step_thread, fault, throw. intros Hu Hc Hs.
  destruct (at_pc L) eqn:Hpc; simpl in *;
    repeat case_match; simplify_eq; frame_facts;
    try (destruct Hu as [? ?]; [done|]; simplify_eq).
  all: try solve [ eapply eff_frame; simpl; rewrite ?Hpc; simpl;
                   first [done|tauto|intuition (eauto; congruence)] ].
  all: try solve [ eapply eff_store; simpl; rewrite ?Hpc; simpl; eauto; naive_solver ].
  all: try solve [ eapply eff_claim; simpl; rewrite ?Hpc; simpl; eauto;
                   unfold store_id; simplify_option_eq; naive_solver ].
  all: try solve [ eapply eff_release; simpl; rewrite ?Hpc; simpl; eauto; naive_solver ].
Qed.

Lemma hp_thread_of_insert σ ths tid tid' L' :
  thread_of {| shared := σ; threads := <[tid := L']> ths |} tid' =
  if decide (tid = tid') then L' else default fresh_thread (ths !! tid').
Proof.
  unfold thread_of. simpl.
  destruct (decide (tid = tid')) as [->|Hne].
  - by rewrite lookup_insert_eq.
  - by rewrite lookup_insert_ne.
Qed.

Lemma hp_effect_inv tid Σ L' σ' :
  inv Σ →
  hp_effect tid (thread_of Σ tid) (shared Σ) L' σ' →
  inv {| shared := σ'; threads := <[tid := L']> (threads Σ) |}.
Proof.
  intros [Hlen Hfree Hown Huse Hctor] Heff.
  assert (Hto := hp_thread_of_insert σ' (threads Σ) tid).
  fold (thread_of Σ) in Hto.
  destruct Heff as [Hhp Hh Hok Hu Hc | i q Hh Hh' Hhp Hok Hnc | i x Hh Hx Hid Hhp Hh' Hpc
                   | i Hh Hpc Hhp Hh' Hpc'].
  - split; simpl; rewrite ?Hhp; try done.
    + intros tid' i. rewrite Hto. case_decide as Ht; [subst tid'|by apply Hown].
      rewrite Hh. intros Hi. destruct (Hown _ _ Hi) as (x & ? & ? & ?).
      exists x. destruct Hok as [?|Hok]; [congruence|]. eauto.
    + intros tid'. rewrite Hto. case_decide; [subst; rewrite Hh; auto | apply Huse].
    + intros tid'. rewrite Hto. case_decide; [subst; rewrite Hh; auto | apply Hctor].
  - destruct (Hown _ _ Hh) as (x & Hx & Hidx & _).
    assert (Hhp' : HazardPointers σ' =
                   <[i := {| hp_id := hp_id x; hp_p := q |}]> (HazardPointers (shared Σ))).
    { rewrite Hhp. unfold store_p. by rewrite Hx. }
    split; simpl; rewrite ?Hhp'; try done.
    + by rewrite length_insert.
    + intros j y. destruct (decide (i = j)) as [<-|Hne].
      * rewrite list_lookup_insert_eq by (by eapply lookup_lt_Some). intros [= <-]. simpl. congruence.
      * rewrite list_lookup_insert_ne by done. apply Hfree.
    + intros tid' j. rewrite Hto. case_decide as Ht; [subst tid'|].
      * rewrite Hh'. intros [= <-]. eexists.
        rewrite list_lookup_insert_eq by (by eapply lookup_lt_Some). by split.
      * intros Hj. destruct (Hown _ _ Hj) as (y & Hy & Hidy & Hoky).
        assert (i ≠ j) by (intros <-; congruence).
        exists y. by rewrite list_lookup_insert_ne.
    + intros tid'. rewrite Hto. case_decide; [subst; rewrite Hh'; eauto | apply Huse].
    + intros tid'. rewrite Hto. case_decide; [subst; done | apply Hctor].
  - split; simpl; rewrite ?Hhp; try done.
    + by rewrite length_insert.
    + intros j y. destruct (decide (i = j)) as [<-|Hne].
      * rewrite list_lookup_insert_eq by (by eapply lookup_lt_Some). by intros [= <-].
      * rewrite list_lookup_insert_ne by done. apply Hfree.
    + intros tid' j. rewrite Hto. case_decide as Ht; [subst tid'|].
      * rewrite Hh'. intros [= <-]. eexists.
        rewrite list_lookup_insert_eq by (by eapply lookup_lt_Some).
        split; [done|]. simpl. rewrite Hpc. simpl. eauto.
      * intros Hj. destruct (Hown _ _ Hj) as (y & Hy & Hidy & Hoky).
        assert (i ≠ j) by (intros <-; congruence).
        exists y. by rewrite list_lookup_insert_ne.
    + intros tid'. rewrite Hto. case_decide; [subst; rewrite Hh'; eauto | apply Huse].
    + intros tid'. rewrite Hto. case_decide; [subst; by rewrite Hpc | apply Hctor].
  - destruct (Hown _ _ Hh) as (x & Hx & Hidx & Hokx). rewrite Hpc in Hokx. simpl in Hokx.
    assert (Hhp' : HazardPointers σ' =
                   <[i := {| hp_id := None; hp_p := hp_p x |}]> (HazardPointers (shared Σ))).
    { rewrite Hhp. unfold store_id. by rewrite Hx. }
    split; simpl; rewrite ?Hhp'; try done.
    + by rewrite length_insert.
    + intros j y. destruct (decide (i = j)) as [<-|Hne].
      * rewrite list_lookup_insert_eq by (by eapply lookup_lt_Some). by intros [= <-].
      * rewrite list_lookup_insert_ne by done. apply Hfree.
    + intros tid' j. rewrite Hto. case_decide as Ht; [subst tid'; congruence|].
      intros Hj. destruct (Hown _ _ Hj) as (y & Hy & Hidy & Hoky).
      assert (i ≠ j) by (intros <-; congruence).
      exists y. by rewrite list_lookup_insert_ne.
    + intros tid'. rewrite Hto. case_decide; [subst; by rewrite Hpc' | apply Huse].
    + intros tid'. rewrite Hto. case_decide; [subst; done | apply Hctor].
Qed.

Lemma hp_step_inv tid Σ : inv Σ → inv (step tid Σ).
Proof.
  intros Hinv. unfold step.
  destruct (step_thread tid (thread_of Σ tid) (shared Σ)) as [L' σ'] eqn:E.
  apply hp_effect_inv; [done|].
  eapply hp_step_thread_effect; [apply Hinv|apply Hinv|done].
Qed.

Lemma hp_set_thread_inv tid Σ L' :
  inv Σ →
  hazard_pointer L' = hazard_pointer (thread_of Σ tid) →
  at_pc (thread_of Σ tid) = Idle →
  (∀ q, q = nullptr → slot_ok (at_pc L') q) →
  (uses_slot (at_pc L') → is_Some (hazard_pointer L')) →
  (no_slot (at_pc L') → hazard_pointer L' = None) →
  inv (set_thread tid L' Σ).
Proof.
  intros Hinv Hh Hpc Hok Hu Hn. apply hp_effect_inv; [done|].
  apply eff_frame; rewrite ?Hpc, <-?Hh; auto.
Qed.

Lemma hp_exec_inv a Σ Σ' : inv Σ → exec a Σ = Some Σ' → inv Σ'.
Proof.
  intros Hinv. destruct a as [s|s|tid c|tid|tid]; simpl.
  - case_match; [done|]. intros [= <-]. by destruct Hinv.
  - case_match; [|done]. intros [= <-]. by destruct Hinv.
  - destruct (at_pc (thread_of Σ tid)) eqn:Hpc; try done. intros [= <-].
    apply hp_set_thread_inv; try done; destruct c; simpl; done.
  - case_match; [|done]. intros [= <-]. by apply hp_step_inv.
  - destruct (at_pc (thread_of Σ tid)) eqn:Hpc; try done. intros [= <-].
    apply hp_set_thread_inv; try done; unfold leave_thread;
      destruct (hazard_pointer (thread_of Σ tid)) eqn:Hh; simpl; rewrite ?Hh; eauto; done.
Qed.

Lemma hp_init_inv mem : inv (init (T:=T) mem).
Proof.
  split.
  - apply length_replicate.
  - intros i x [-> _]%lookup_replicate. done.
  - done.
  - done.
  - done.
Qed.

Lemma hp_run_inv sched : ∀ Σ Σ', inv Σ → run sched Σ = Some Σ' → inv Σ'.
Proof.
  induction sched as [|a sched IH]; intros Σ Σ' Hinv; simpl.
  - by intros [= <-].
  - destruct (exec a Σ) as [Σ1|] eqn:E; [|done]. eauto using hp_exec_inv.
Qed.


Lemma hp_slot_of_lookup Σ tid i :
  slot_of Σ !! tid = Some i ↔ hazard_pointer (thread_of Σ tid) = Some i.
Proof.
  unfold slot_of, thread_of. rewrite lookup_omap.
  destruct (threads Σ !! tid) as [L|]; simpl; [done|]. split; [done|]. done.
Qed.

Lemma hp_inv_slot_inj Σ tid tid' i :
  inv Σ → hazard_pointer (thread_of Σ tid) = Some i →
  hazard_pointer (thread_of Σ tid') = Some i → tid = tid'.
Proof.
  intros Hinv H1 H2.
  destruct (inv_owner _ Hinv _ _ H1) as (x & Hx & Hid & _).
  destruct (inv_owner _ Hinv _ _ H2) as (y & Hy & Hid' & _).
  congruence.
Qed.

Lemma hp_inv_slot_bound Σ tid i :
  inv Σ → hazard_pointer (thread_of Σ tid) = Some i → i < MaxSize.
Proof.
  intros Hinv H1. destruct (inv_owner _ Hinv _ _ H1) as (x & Hx & _).
  rewrite <-(inv_length _ Hinv). by eapply lookup_lt_Some.
Qed.

(** Pigeonhole: a finite map that sends distinct keys to distinct numbers
    below [n] has at most [n] keys. *)
Lemma hp_injective_map_size (g : gmap nat nat) (n : nat) :
  (∀ t1 t2 i, g !! t1 = Some i → g !! t2 = Some i → t1 = t2) →
  (∀ t i, g !! t = Some i → i < n) →
  size g ≤ n.
Proof.
  intros Hinj Hlt. rewrite <-length_map_to_list.
  rewrite <-(length_fmap snd).
  transitivity (length (seq 0 n)); [|by rewrite length_seq].
  apply submseteq_length, NoDup_submseteq.
  - apply NoDup_fmap_2_strong; [|apply NoDup_map_to_list].
    intros [t1 i1] [t2 i2] H1%elem_of_map_to_list H2%elem_of_map_to_list.
    cbn [snd]. intros <-. f_equal. by eapply Hinj.
  - intros i ([t i'] & -> & Hi%elem_of_map_to_list)%list_elem_of_fmap.
    cbn [snd]. apply elem_of_seq. split; [lia|]. cbn [plus]. by eapply Hlt.
Qed.

Lemma hp_inv_owners_size Σ : inv Σ → size (slot_of Σ) ≤ MaxSize.
Proof.
  intros Hinv. apply hp_injective_map_size.
  - intros t1 t2 i H1%hp_slot_of_lookup H2%hp_slot_of_lookup. by eapply hp_inv_slot_inj.
  - intros t i H1%hp_slot_of_lookup. by eapply hp_inv_slot_bound.
Qed.


Lemma hp_run_thread_stop f tid L σ :
  running (at_pc L) = false → run_thread f tid L σ = Some (L, σ).
Proof. intros E. destruct f; simpl; by rewrite E. Qed.

Lemma hp_step_thread_stopped tid L σ :
  running (at_pc L) = false → step_thread tid L σ = (L, σ).
Proof. unfold step_thread. by destruct (at_pc L). Qed.

Lemma hp_steps_stopped n tid L σ :
  running (at_pc L) = false → steps n tid L σ = (L, σ).
Proof.
  intros E. induction n as [|n IH]; [done|]. simpl.
  by rewrite hp_step_thread_stopped.
Qed.

Lemma hp_steps_add n m tid L σ :
  steps (n + m) tid L σ = let '(L', σ') := steps n tid L σ in steps m tid L' σ'.
Proof.
  revert L σ. induction n as [|n IH]; intros L σ; simpl; [done|].
  destruct (step_thread tid L σ) as [L1 σ1]. apply IH.
Qed.

Lemma hp_run_thread_steps n : ∀ f tid L σ,
  n ≤ f → running (at_pc (steps n tid L σ).1) = false →
  run_thread f tid L σ = Some (steps n tid L σ).
Proof.
  induction n as [|n IH]; intros f tid L σ Hf Hstop.
  - by apply hp_run_thread_stop.
  - destruct f as [|f]; [lia|]. simpl in *.
    destruct (running (at_pc L)) eqn:Hr.
    + destruct (step_thread tid L σ) as [L1 σ1]. apply IH; [lia|done].
    + rewrite hp_step_thread_stopped in * by done. by rewrite hp_steps_stopped.
Qed.

Ltac hstep :=
  repeat progress (
    unfold new, load_node, load_data, append_load, append_cas, store_p, store_id,
           fault, throw, set_head, set_to_delete_list, set_heap, set_stacks, set_HazardPointers;
    cbn [steps running at_pc this hazard_pointer ret step_thread goto leave set_helper
         heap stacks HazardPointers brk mem_avail freed v next data deleter d_next
         head_ to_delete_list_ pop_cnt_ fst snd Nat.add]).

Ltac hrun := repeat progress (hstep; try (rewrite decide_True by done)).

(** push, run alone: lines 66-71. *)
Lemma hp_push_steps tid L σ s x :
  at_pc L = PushNew x → this L = s →
  steps 3 tid L σ =
  match mem_avail σ with
  | O => (leave (Threw bad_alloc) L, σ)
  | S m =>
      match stacks σ !! s with
      | Some st =>
          (leave Void L,
           {| HazardPointers := HazardPointers σ;
              stacks := <[s := {| head_ := brk σ; pop_cnt_ := pop_cnt_ st;
                                  to_delete_list_ := to_delete_list_ st |}]> (stacks σ);
              heap := <[brk σ := CNode {| v := Some x; next := head_ st |}]> (heap σ);
              brk := S (brk σ); mem_avail := m; freed := freed σ |})
      | None =>
          (goto Fault L,
           {| HazardPointers := HazardPointers σ; stacks := stacks σ;
              heap := <[brk σ := CNode {| v := Some x; next := nullptr |}]> (heap σ);
              brk := S (brk σ); mem_avail := m; freed := freed σ |})
      end
  end.
Proof.
  intros Hpc Hs. destruct L as [k s' h r]. simpl in *. subst k s'.
  hstep.
  destruct (mem_avail σ) as [|m] eqn:Hm; hstep; [done|].
  destruct (stacks σ !! s) as [st|] eqn:Hst; hstep; [|done].
  rewrite (lookup_insert_eq (M:=gmap nat)). hstep. rewrite Hst. hstep.
  rewrite (lookup_insert_eq (M:=gmap nat)). hstep.
  rewrite decide_True by done. hstep.
  by rewrite (insert_insert_eq (M:=gmap nat)).
Qed.

Lemma hp_find_unowned_ge hps : ∀ j i, find_unowned hps j = Some i → j ≤ i.
Proof.
  induction hps as [|x r IH]; intros j i; simpl; [done|].
  destruct (hp_id x); [|intros [= ->]; lia]. intros H%IH. lia.
Qed.

Lemma hp_find_unowned_lookup hps : ∀ j i,
  find_unowned hps j = Some i → ∃ x, hps !! (i - j) = Some x ∧ hp_id x = None.
Proof.
  induction hps as [|x r IH]; intros j i; simpl; [done|].
  destruct (hp_id x) eqn:E.
  - intros H. assert (Hge := hp_find_unowned_ge _ _ _ H). apply IH in H as (y & Hy & ?).
    exists y. split; [|done]. replace (i - j) with (S (i - S j)) by lia. done.
  - intros [= ->]. exists x. by rewrite Nat.sub_diag.
Qed.

Lemma hp_find_unowned_None hps : ∀ j,
  find_unowned hps j = None ↔ ∀ x, x ∈ hps → hp_id x ≠ None.
Proof.
  induction hps as [|x r IH]; intros j; simpl.
  - split; [|done]. intros _ x Hx. by apply elem_of_nil in Hx.
  - destruct (hp_id x) eqn:E.
    + rewrite IH. split.
      * intros H y [->|Hy]%elem_of_cons; [congruence|auto].
      * intros H y Hy. apply H. by right.
    + split; [done|]. intros H. exfalso. eapply H; [by left|done].
Qed.

(** The constructor of the helper, run alone: lines 20-32. *)
Lemma hp_ctor_steps tid suffix : ∀ j L σ,
  at_pc L = HelperCtor j → drop j (HazardPointers σ) = suffix →
  match find_unowned suffix j with
  | Some i =>
      steps (S (i - j)) tid L σ =
      (goto PopLoad (set_helper (Some i) L), store_id i (Some tid) σ)
  | None =>
      steps (S (length suffix)) tid L σ =
      (leave (Threw runtime_error_no_hazard_pointers) L, σ)
  end.
Proof.
  induction suffix as [|x r IH]; intros j L σ Hpc Hdrop.
  - cbn [find_unowned length steps]. unfold step_thread. rewrite Hpc.
    assert (HazardPointers σ !! j = None) as ->; [|done].
    apply lookup_ge_None. apply drop_nil_inv in Hdrop; lia || done.
  - assert (Hj : HazardPointers σ !! j = Some x).
    { rewrite <-(Nat.add_0_r j), <-lookup_drop, Hdrop. done. }
    assert (Hr : drop (S j) (HazardPointers σ) = r).
    { rewrite <-(Nat.add_1_r j), <-drop_drop, Hdrop. done. }
    cbn [find_unowned]. destruct (hp_id x) eqn:Hid.
    + specialize (IH (S j) (goto (HelperCtor (S j)) L) σ eq_refl Hr).
      destruct (find_unowned r (S j)) as [i|] eqn:Hf.
      * assert (Hge := hp_find_unowned_ge _ _ _ Hf).
        replace (S (i - j)) with (S (S (i - S j))) by lia.
        cbn [steps] in *. unfold step_thread at 1. rewrite Hpc, Hj, Hid.
        destruct L; exact IH.
      * cbn [length steps] in *. unfold step_thread at 1. rewrite Hpc, Hj, Hid.
        destruct L; exact IH.
    + rewrite Nat.sub_diag. cbn [steps]. unfold step_thread. rewrite Hpc, Hj, Hid. done.
Qed.

(** pop on a stack whose head is null, from line 75 on, run alone. *)
Lemma hp_pop_null_steps tid L σ i st :
  at_pc L = PopLoad → hazard_pointer L = Some i →
  stacks σ !! this L = Some st → head_ st = nullptr →
  steps 7 tid L σ = (leave (Value None) L, store_p i nullptr σ).
Proof.
  intros Hpc Hh Hst Hnull. destruct L as [k s h r]. simpl in *. subst k h.
  hrun. rewrite Hst, Hnull. hrun.
  destruct (HazardPointers σ !! i) as [x|] eqn:Hx; hrun; rewrite Hst, Hnull; hrun.
  - rewrite list_lookup_insert_eq by (by eapply lookup_lt_Some). hrun.
    by rewrite list_insert_insert_eq.
  - by rewrite Hx.
Qed.


Lemma hp_steps_first n tid L σ L1 σ1 :
  step_thread tid L σ = (L1, σ1) → steps (S n) tid L σ = steps n tid L1 σ1.
Proof. intros E. cbn [steps]. by rewrite E. Qed.

Lemma hp_steps_trans n m tid L σ L1 σ1 :
  steps n tid L σ = (L1, σ1) → steps (n + m) tid L σ = steps m tid L1 σ1.
Proof. intros E. by rewrite hp_steps_add, E. Qed.

Lemma hp_step_PopHelper tid L σ :
  at_pc L = PopHelper →
  step_thread tid L σ =
  (goto (match hazard_pointer L with Some _ => PopLoad | None => HelperCtor 0 end) L, σ).
Proof. intros E. unfold step_thread. rewrite E. by destruct (hazard_pointer L). Qed.

Lemma hp_step_PopHelper_Some tid L σ i :
  at_pc L = PopHelper → hazard_pointer L = Some i →
  step_thread tid L σ = (goto PopLoad L, σ).
Proof. intros E H. unfold step_thread. by rewrite E, H. Qed.

Lemma hp_step_PopHelper_None tid L σ :
  at_pc L = PopHelper → hazard_pointer L = None →
  step_thread tid L σ = (goto (HelperCtor 0) L, σ).
Proof. intros E H. unfold step_thread. by rewrite E, H. Qed.

(** A call by a thread that runs alone, as steps of that thread. *)
Lemma hp_do_call_steps n fuel tid c Σ :
  at_pc (thread_of Σ tid) = Idle → n ≤ fuel →
  running (at_pc (steps n tid (enter c (thread_of Σ tid)) (shared Σ)).1) = false →
  do_call fuel tid c Σ =
  Some {| shared := (steps n tid (enter c (thread_of Σ tid)) (shared Σ)).2;
          threads := <[tid := (steps n tid (enter c (thread_of Σ tid)) (shared Σ)).1]>
                       (<[tid := enter c (thread_of Σ tid)]> (threads Σ)) |}.
Proof.
  intros Hidle Hn Hstop. unfold do_call, exec. rewrite Hidle.
  unfold finish, set_thread. cbn [shared threads].
  assert (thread_of {| shared := shared Σ;
                       threads := <[tid := enter c (thread_of Σ tid)]> (threads Σ) |} tid
          = enter c (thread_of Σ tid)) as ->.
  { unfold thread_of at 1. cbn [threads]. by rewrite lookup_insert_eq. }
  rewrite (hp_run_thread_steps n) by done.
  by destruct (steps n tid (enter c (thread_of Σ tid)) (shared Σ)).
Qed.

Lemma hp_thread_of_after σ ths tid L : thread_of {| shared := σ; threads := <[tid := L]> ths |} tid = L.
Proof. unfold thread_of. cbn [threads]. by rewrite lookup_insert_eq. Qed.

(** push is all or nothing: lines 66-71, run alone. *)
Lemma hp_push_call Σ tid s x st fuel :
  at_pc (thread_of Σ tid) = Idle → stacks (shared Σ) !! s = Some st → 3 ≤ fuel →
  ∃ Σ', do_call fuel tid (Push s x) Σ = Some Σ' ∧
    at_pc (thread_of Σ' tid) = Idle ∧
    match mem_avail (shared Σ) with
    | O => ret (thread_of Σ' tid) = Some (Threw bad_alloc) ∧ shared Σ' = shared Σ
    | S m =>
        ret (thread_of Σ' tid) = Some Void ∧
        shared Σ' =
          {| HazardPointers := HazardPointers (shared Σ);
             stacks := <[s := {| head_ := brk (shared Σ); pop_cnt_ := pop_cnt_ st;
                                 to_delete_list_ := to_delete_list_ st |}]> (stacks (shared Σ));
             heap := <[brk (shared Σ) := CNode {| v := Some x; next := head_ st |}]>
                       (heap (shared Σ));
             brk := S (brk (shared Σ)); mem_avail := m; freed := freed (shared Σ) |}
    end.
Proof.
  intros Hidle Hst Hfuel.
  pose proof (hp_push_steps tid (enter (Push s x) (thread_of Σ tid)) (shared Σ) s x eq_refl eq_refl)
    as Hsteps.
  eexists. split.
  - apply (hp_do_call_steps 3); [done|done|]. rewrite Hsteps.
    destruct (mem_avail (shared Σ)); [done|]. by rewrite Hst.
  - rewrite hp_thread_of_after, Hsteps.
    destruct (mem_avail (shared Σ)); [done|]. by rewrite Hst.
Qed.

Lemma hp_store_id_stacks i o σ : stacks (store_id i o σ) = stacks σ.
Proof. unfold store_id. by destruct (HazardPointers σ !! i). Qed.

Lemma hp_store_p_frame i q σ :
  stacks (store_p i q σ) = stacks σ ∧ heap (store_p i q σ) = heap σ ∧
  brk (store_p i q σ) = brk σ ∧ mem_avail (store_p i q σ) = mem_avail σ ∧
  freed (store_p i q σ) = freed σ.
Proof. unfold store_p. by destruct (HazardPointers σ !! i). Qed.

Lemma hp_store_id_frame i o σ :
  stacks (store_id i o σ) = stacks σ ∧ heap (store_id i o σ) = heap σ ∧
  brk (store_id i o σ) = brk σ ∧ mem_avail (store_id i o σ) = mem_avail σ ∧
  freed (store_id i o σ) = freed σ.
Proof. unfold store_id. by destruct (HazardPointers σ !! i). Qed.

(** pop on a stack whose head is null, run alone by a thread that owns a
    slot or finds one: lines 73-96. *)
Lemma hp_pop_null_call Σ tid s st fuel :
  at_pc (thread_of Σ tid) = Idle → stacks (shared Σ) !! s = Some st → head_ st = nullptr →
  (is_Some (hazard_pointer (thread_of Σ tid)) ∨
   is_Some (find_unowned (HazardPointers (shared Σ)) 0)) →
  length (HazardPointers (shared Σ)) + 10 ≤ fuel →
  ∃ Σ', do_call fuel tid (Pop s) Σ = Some Σ' ∧
    at_pc (thread_of Σ' tid) = Idle ∧
    ret (thread_of Σ' tid) = Some (Value None) ∧
    is_Some (hazard_pointer (thread_of Σ' tid)) ∧
    stacks (shared Σ') = stacks (shared Σ) ∧ heap (shared Σ') = heap (shared Σ) ∧
    brk (shared Σ') = brk (shared Σ) ∧ mem_avail (shared Σ') = mem_avail (shared Σ) ∧
    freed (shared Σ') = freed (shared Σ) ∧
    length (HazardPointers (shared Σ')) = length (HazardPointers (shared Σ)).
Proof.
  intros Hidle Hst Hnull Hslot Hfuel.
  pose (L0 := enter (Pop s) (thread_of Σ tid)).
  destruct (hazard_pointer (thread_of Σ tid)) as [i|] eqn:Hh.
  - (* the thread owns slot i *)
    assert (Hsteps : steps (1 + 7) tid L0 (shared Σ)
                     = (leave (Value None) (goto PopLoad L0), store_p i nullptr (shared Σ))).
    { rewrite (hp_steps_first _ _ _ _ _ _ (hp_step_PopHelper_Some tid L0 (shared Σ) i eq_refl Hh)).
      apply hp_pop_null_steps with (st := st); try done. }
    eexists. split; [apply (hp_do_call_steps (1 + 7)); [done|lia|by fold L0; rewrite Hsteps]|].
    fold L0. rewrite hp_thread_of_after, Hsteps. cbn [fst snd shared].
    destruct (hp_store_p_frame i nullptr (shared Σ)) as (-> & -> & -> & -> & ->).
    unfold L0. cbn. rewrite Hh. repeat split; eauto.
    unfold store_p. destruct (HazardPointers (shared Σ) !! i); [|done].
    cbn. by rewrite length_insert.
  - (* the thread takes the first slot nobody owns *)
    destruct Hslot as [[? ?]|[i Hi]]; [done|].
    pose proof (hp_ctor_steps tid (HazardPointers (shared Σ)) 0 (goto (HelperCtor 0) L0) (shared Σ)
                  eq_refl eq_refl) as Hctor.
    rewrite Hi in Hctor. rewrite Nat.sub_0_r in Hctor.
    destruct (hp_find_unowned_lookup _ _ _ Hi) as (x & Hx & Hid). rewrite Nat.sub_0_r in Hx.
    assert (Hlt : i < length (HazardPointers (shared Σ))) by (by eapply lookup_lt_Some).
    set (L1 := goto PopLoad (set_helper (Some i) (goto (HelperCtor 0) L0))) in *.
    assert (Hsteps : steps (1 + (S i + 7)) tid L0 (shared Σ)
                     = (leave (Value None) L1,
                        store_p i nullptr (store_id i (Some tid) (shared Σ)))).
    { rewrite (hp_steps_first _ _ _ _ _ _ (hp_step_PopHelper_None tid L0 (shared Σ) eq_refl Hh)).
      rewrite (hp_steps_trans _ _ _ _ _ _ _ Hctor).
      apply hp_pop_null_steps with (st := st); try done.
      by rewrite hp_store_id_stacks. }
    eexists. split; [apply (hp_do_call_steps (1 + (S i + 7))); [done|lia|by fold L0; rewrite Hsteps]|].
    fold L0. rewrite hp_thread_of_after, Hsteps. cbn [fst snd shared].
    destruct (hp_store_p_frame i nullptr (store_id i (Some tid) (shared Σ))) as (-> & -> & -> & -> & ->).
    destruct (hp_store_id_frame i (Some tid) (shared Σ)) as (-> & -> & -> & -> & ->).
    repeat split; eauto.
    unfold store_p, store_id. rewrite Hx. cbn.
    rewrite list_lookup_insert_eq by done. cbn. by rewrite !length_insert.
Qed.

(** pop by a thread that owns no slot when every slot is owned: the
    constructor of the helper throws, lines 20-32, and nothing has changed. *)
Lemma hp_pop_exhausted_call Σ tid s fuel :
  at_pc (thread_of Σ tid) = Idle → hazard_pointer (thread_of Σ tid) = None →
  (∀ x, x ∈ HazardPointers (shared Σ) → hp_id x ≠ None) →
  length (HazardPointers (shared Σ)) + 2 ≤ fuel →
  ∃ Σ', do_call fuel tid (Pop s) Σ = Some Σ' ∧
    at_pc (thread_of Σ' tid) = Idle ∧
    ret (thread_of Σ' tid) = Some (Threw runtime_error_no_hazard_pointers) ∧
    hazard_pointer (thread_of Σ' tid) = None ∧
    shared Σ' = shared Σ.
Proof.
  intros Hidle Hh Hfull Hfuel.
  pose (L0 := enter (Pop s) (thread_of Σ tid)).
  pose proof (hp_ctor_steps tid (HazardPointers (shared Σ)) 0 (goto (HelperCtor 0) L0) (shared Σ)
                eq_refl eq_refl) as Hctor.
  apply (hp_find_unowned_None _ 0) in Hfull. rewrite Hfull in Hctor.
  assert (Hsteps : steps (1 + S (length (HazardPointers (shared Σ)))) tid L0 (shared Σ)
                   = (leave (Threw runtime_error_no_hazard_pointers) (goto (HelperCtor 0) L0),
                      shared Σ)).
  { rewrite (hp_steps_first _ _ _ _ _ _ (hp_step_PopHelper_None tid L0 (shared Σ) eq_refl Hh)).
    exact Hctor. }
  eexists. split; [apply (hp_do_call_steps (1 + S (length (HazardPointers (shared Σ)))));
                   [done|lia|by fold L0; rewrite Hsteps]|].
  fold L0. rewrite hp_thread_of_after, Hsteps. cbn. by rewrite Hh.
Qed.

(** Any number of pops, one after the other, on a stack whose head pointer
    is null. *)
Lemma hp_pop_null_calls n : ∀ Σ tid s st fuel,
  at_pc (thread_of Σ tid) = Idle → stacks (shared Σ) !! s = Some st → head_ st = nullptr →
  (is_Some (hazard_pointer (thread_of Σ tid)) ∨
   is_Some (find_unowned (HazardPointers (shared Σ)) 0)) →
  length (HazardPointers (shared Σ)) + 10 ≤ fuel →
  ∃ Σ', do_calls fuel tid (replicate n (Pop s)) Σ
          = Some (replicate n (Some (Value None)), Σ') ∧
    at_pc (thread_of Σ' tid) = Idle ∧
    stacks (shared Σ') = stacks (shared Σ) ∧ heap (shared Σ') = heap (shared Σ) ∧
    brk (shared Σ') = brk (shared Σ) ∧ mem_avail (shared Σ') = mem_avail (shared Σ) ∧
    freed (shared Σ') = freed (shared Σ) ∧
    length (HazardPointers (shared Σ')) = length (HazardPointers (shared Σ)).
Proof.
  induction n as [|n IH]; intros Σ tid s st fuel Hidle Hst Hnull Hslot Hfuel.
  - exists Σ. by repeat split.
  - destruct (hp_pop_null_call Σ tid s st fuel Hidle Hst Hnull Hslot Hfuel)
      as (Σ1 & Hcall & Hidle1 & Hret & Hh & Hs & Hheap & Hbrk & Hmem & Hfreed & Hlen).
    destruct (IH Σ1 tid s st fuel) as (Σ' & Hcalls & Hidle' & Hs' & Hheap' & Hbrk' & Hmem' & Hfreed' & Hlen');
      [done|by rewrite Hs|done|by left|by rewrite Hlen|].
    exists Σ'. split.
    + cbn [replicate do_calls]. by rewrite Hcall, Hcalls, Hret.
    + repeat split; congruence.
Qed.

End HazardFacts.

(* ===================================================================== *)
(** * Facts about the stack with split reference counts *)
(* ===================================================================== *)

Section SplitRefFacts.
Import SplitRef.
Context {T : Type}.
Implicit Types (Σ : state T) (σ : memory T) (L : thread T) (k : pc T)
  (ths : gmap nat (thread T)) (h : gmap nat (Node T)).

Lemma rc_run_thread_stop f tid L σ :
  running (at_pc L) = false → run_thread f tid L σ = Some (L, σ).
Proof. intros E. destruct f; simpl; by rewrite E. Qed.

Lemma rc_step_thread_stopped tid L σ :
  running (at_pc L) = false → step_thread tid L σ = (L, σ).
Proof. unfold step_thread. by destruct (at_pc L). Qed.

Lemma rc_steps_stopped n tid L σ :
  running (at_pc L) = false → steps n tid L σ = (L, σ).
Proof.
  intros E. induction n as [|n IH]; [done|]. simpl.
  by rewrite rc_step_thread_stopped.
Qed.

Lemma rc_steps_add n m tid L σ :
  steps (n + m) tid L σ = let '(L', σ') := steps n tid L σ in steps m tid L' σ'.
Proof.
  revert L σ. induction n as [|n IH]; intros L σ; simpl; [done|].
  destruct (step_thread tid L σ) as [L1 σ1]. apply IH.
Qed.

Lemma rc_run_thread_steps n : ∀ f tid L σ,
  n ≤ f → running (at_pc (steps n tid L σ).1) = false →
  run_thread f tid L σ = Some (steps n tid L σ).
Proof.
  induction n as [|n IH]; intros f tid L σ Hf Hstop.
  - by apply rc_run_thread_stop.
  - destruct f as [|f]; [lia|]. simpl in *.
    destruct (running (at_pc L)) eqn:Hr.
    + destruct (step_thread tid L σ) as [L1 σ1]. apply IH; [lia|done].
    + rewrite rc_step_thread_stopped in * by done. by rewrite rc_steps_stopped.
Qed.

Ltac rstep :=
  repeat progress (
    unfold new, delete_node, fault, set_head, set_heap, set_inner, set_next, set_destroyed,
           emit, pop_return;
    cbn [steps running at_pc in_dtor ret step_thread goto leave
         heap head_ destroyed brk mem_avail trace v next inner_cnt external_cnt p
         fst snd Nat.add]).

Ltac rrun := repeat progress (rstep; try (rewrite decide_True by done)).

(** push, run alone: lines 104-113. *)
Lemma rc_push_steps tid L σ x :
  at_pc L = PushNew x →
  steps 3 tid L σ =
  match mem_avail σ with
  | O => (leave (Threw bad_alloc) L, σ)
  | S m =>
      (leave Void L,
       {| head_ := {| external_cnt := 1; p := brk σ |}; destroyed := destroyed σ;
          heap := <[brk σ := {| v := Some x; inner_cnt := 0; next := head_ σ |}]> (heap σ);
          brk := S (brk σ); mem_avail := m;
          trace := (trace σ ++ [EvHeadLoad tid memory_order_relaxed])
                   ++ [EvHeadCas tid true memory_order_release] |})
  end.
Proof.
  intros Hpc. destruct L as [k d r]. simpl in *. subst k.
  rrun.
  destruct (mem_avail σ) as [|m] eqn:Hm; rrun; [done|].
  rewrite (lookup_insert_eq (M:=gmap nat)). rrun.
  rewrite (lookup_insert_eq (M:=gmap nat)). rrun.
  by rewrite !(insert_insert_eq (M:=gmap nat)).
Qed.

(** pop on a stack whose head pointer is null, run alone: lines 115-122. *)
Lemma rc_pop_null_steps tid L σ :
  at_pc L = PopLoad → in_dtor L = false → p (head_ σ) = nullptr →
  steps 3 tid L σ =
  (leave (Value None) L,
   {| head_ := {| external_cnt := wrap (external_cnt (head_ σ) + 1); p := nullptr |};
      destroyed := destroyed σ; heap := heap σ; brk := brk σ; mem_avail := mem_avail σ;
      trace := (trace σ ++ [EvHeadLoad tid memory_order_relaxed])
               ++ [EvHeadCas tid true memory_order_acquire] |}).
Proof.
  intros Hpc Hd Hnull. destruct L as [k d r]. simpl in *. subst k d.
  rrun. rewrite Hnull. rrun. done.
Qed.


Lemma rc_thread_of_after σ ths tid L :
  thread_of {| shared := σ; threads := <[tid := L]> ths |} tid = L.
Proof. unfold thread_of. cbn [threads]. by rewrite lookup_insert_eq. Qed.

(** A call by a thread that runs alone, as steps of that thread. *)
Lemma rc_do_call_steps n fuel tid c Σ :
  at_pc (thread_of Σ tid) = Idle → destroyed (shared Σ) = false → n ≤ fuel →
  running (at_pc (steps n tid (enter c) (shared Σ)).1) = false →
  do_call fuel tid c Σ =
  Some {| shared := (steps n tid (enter c) (shared Σ)).2;
          threads := <[tid := (steps n tid (enter c) (shared Σ)).1]>
                       (<[tid := enter c]> (threads Σ)) |}.
Proof.
  intros Hidle Hd Hn Hstop. unfold do_call, exec. rewrite Hidle, Hd.
  unfold finish, set_thread. cbn [shared threads].
  rewrite rc_thread_of_after.
  rewrite (rc_run_thread_steps n) by done.
  by destruct (steps n tid (enter c) (shared Σ)).
Qed.

(** push is all or nothing: lines 104-113, run alone. *)
Lemma rc_push_call Σ tid x fuel :
  at_pc (thread_of Σ tid) = Idle → destroyed (shared Σ) = false → 3 ≤ fuel →
  ∃ Σ', do_call fuel tid (Push x) Σ = Some Σ' ∧
    at_pc (thread_of Σ' tid) = Idle ∧
    match mem_avail (shared Σ) with
    | O => ret (thread_of Σ' tid) = Some (Threw bad_alloc) ∧ shared Σ' = shared Σ
    | S m =>
        ret (thread_of Σ' tid) = Some Void ∧
        head_ (shared Σ') = {| external_cnt := 1; p := brk (shared Σ) |} ∧
        heap (shared Σ') =
          <[brk (shared Σ) := {| v := Some x; inner_cnt := 0; next := head_ (shared Σ) |}]>
            (heap (shared Σ)) ∧
        brk (shared Σ') = S (brk (shared Σ)) ∧ mem_avail (shared Σ') = m ∧
        freed (shared Σ') = freed (shared Σ)
    end.
Proof.
  intros Hidle Hd Hfuel.
  pose proof (rc_push_steps tid (enter (Push x)) (shared Σ) x eq_refl) as Hsteps.
  eexists. split.
  - apply (rc_do_call_steps 3); [done|done|done|]. rewrite Hsteps.
    by destruct (mem_avail (shared Σ)).
  - rewrite rc_thread_of_after, Hsteps.
    destruct (mem_avail (shared Σ)); [done|]. cbn. repeat split; try done.
    unfold freed. cbn. rewrite !omap_app. cbn. by rewrite !app_nil_r.
Qed.

(** pop on a stack whose head pointer is null: lines 115-122, run alone. *)
Lemma rc_pop_null_call Σ tid fuel :
  at_pc (thread_of Σ tid) = Idle → destroyed (shared Σ) = false →
  p (head_ (shared Σ)) = nullptr → 3 ≤ fuel →
  ∃ Σ', do_call fuel tid Pop Σ = Some Σ' ∧
    at_pc (thread_of Σ' tid) = Idle ∧ destroyed (shared Σ') = false ∧
    ret (thread_of Σ' tid) = Some (Value None) ∧
    head_ (shared Σ') =
      {| external_cnt := wrap (external_cnt (head_ (shared Σ)) + 1); p := nullptr |} ∧
    heap (shared Σ') = heap (shared Σ) ∧ brk (shared Σ') = brk (shared Σ) ∧
    mem_avail (shared Σ') = mem_avail (shared Σ) ∧ freed (shared Σ') = freed (shared Σ).
Proof.
  intros Hidle Hd Hnull Hfuel.
  pose proof (rc_pop_null_steps tid (enter Pop) (shared Σ) eq_refl eq_refl Hnull) as Hsteps.
  eexists. split.
  - apply (rc_do_call_steps 3); [done|done|done|]. by rewrite Hsteps.
  - rewrite rc_thread_of_after, Hsteps. cbn. repeat split; try done.
    unfold freed. cbn. rewrite !omap_app. cbn. by rewrite !app_nil_r.
Qed.

(** Any number of pops, one after the other, on a stack whose head pointer
    is null: each one adds 1 to the external count of the head. *)
Lemma rc_pop_null_calls n : ∀ Σ tid fuel,
  at_pc (thread_of Σ tid) = Idle → destroyed (shared Σ) = false →
  p (head_ (shared Σ)) = nullptr → 3 ≤ fuel →
  ∃ Σ', do_calls fuel tid (replicate n Pop) Σ
          = Some (replicate n (Some (Value None)), Σ') ∧
    at_pc (thread_of Σ' tid) = Idle ∧ destroyed (shared Σ') = false ∧
    p (head_ (shared Σ')) = nullptr ∧
    external_cnt (head_ (shared Σ'))
      = Nat.iter n (λ z, wrap (z + 1)) (external_cnt (head_ (shared Σ))) ∧
    heap (shared Σ') = heap (shared Σ) ∧ brk (shared Σ') = brk (shared Σ) ∧
    mem_avail (shared Σ') = mem_avail (shared Σ) ∧ freed (shared Σ') = freed (shared Σ).
Proof.
  induction n as [|n IH]; intros Σ tid fuel Hidle Hd Hnull Hfuel.
  - exists Σ. by repeat split.
  - destruct (rc_pop_null_call Σ tid fuel Hidle Hd Hnull Hfuel)
      as (Σ1 & Hcall & Hidle1 & Hd1 & Hret & Hhead & Hheap & Hbrk & Hmem & Hfreed).
    destruct (IH Σ1 tid fuel) as (Σ' & Hcalls & Hidle' & Hd' & Hp' & Hext' & Hheap' & Hbrk' & Hmem' & Hfreed');
      [done|done|by rewrite Hhead|done|].
    exists Σ'. split.
    + cbn [replicate do_calls]. by rewrite Hcall, Hcalls, Hret.
    + rewrite Hhead in Hext'. cbn [external_cnt] in Hext'.
      rewrite Nat.iter_succ_r. repeat split; congruence.
Qed.


Lemma rc_count_insert_fresh f ths tid L :
  ths !! tid = None → count f (<[tid := L]> ths) = b2n (f (at_pc L)) + count f ths.
Proof. intros H. unfold count. by rewrite map_to_list_insert. Qed.

Lemma rc_count_insert f ths tid L' :
  f Idle = false →
  count f (<[tid := L']> ths) + b2n (f (at_pc (default fresh_thread (ths !! tid))))
  = count f ths + b2n (f (at_pc L')).
Proof.
  intros Hidle. destruct (ths !! tid) as [L|] eqn:E; simpl.
  - rewrite <-(insert_delete_id ths tid L) at 2 by done.
    rewrite <-(insert_delete_eq ths).
    rewrite !rc_count_insert_fresh by apply lookup_delete_eq. lia.
  - rewrite rc_count_insert_fresh by done. rewrite Hidle. simpl. lia.
Qed.

Lemma rc_count_pos f ths tid L :
  ths !! tid = Some L → f (at_pc L) = true → 1 ≤ count f ths.
Proof.
  intros H Hf. rewrite <-(insert_delete_id ths tid L) by done.
  rewrite rc_count_insert_fresh by apply lookup_delete_eq. rewrite Hf. simpl. lia.
Qed.

Lemma rc_count_zero f ths tid :
  count f ths = 0 → f (at_pc (default fresh_thread (ths !! tid))) = true → f Idle = false → False.
Proof.
  intros H0 Hf Hidle. destruct (ths !! tid) as [L|] eqn:E; simpl in *.
  - pose proof (rc_count_pos f ths tid L E Hf). lia.
  - congruence.
Qed.


Lemma rc_pusher_Idle a : pusher a (Idle : pc T) = false.
Proof. done. Qed.
Lemma rc_holder_Idle a : holder a (Idle : pc T) = false.
Proof. done. Qed.
Lemma rc_detacher_Idle a : detacher a (Idle : pc T) = false.
Proof. done. Qed.
Lemma rc_reaper_Idle a : reaper a (Idle : pc T) = false.
Proof. done. Qed.

Lemma rc_count_same f ths tid L' :
  f Idle = false →
  f (at_pc L') = f (at_pc (default fresh_thread (ths !! tid))) →
  count f (<[tid := L']> ths) = count f ths.
Proof.
  intros Hi E. pose proof (rc_count_insert f ths tid L' Hi) as H. rewrite E in H. lia.
Qed.

Lemma rc_chain_frame h h' ths ths' B B' l : ∀ r,
  (∀ a, a ∈ l → h' !! a = h !! a) →
  (∀ a, a ∈ l → count (pusher a) ths' = count (pusher a) ths ∧
                count (holder a) ths' = count (holder a) ths ∧
                count (detacher a) ths' = count (detacher a) ths ∧
                count (reaper a) ths' = count (reaper a) ths) →
  (B ≤ B')%Z →
  chain h ths B r l → chain h' ths' B' r l.
Proof.
  induction l as [|a l IH]; intros r Hh Hc HB; simpl.
  - intros [? ?]. split; [done|lia].
  - intros (Hp & n & Hn & Hv & Hsum & Hle & Hb & HP & HD & HX & Hrest).
    split; [done|]. exists n.
    destruct (Hc a) as (-> & -> & -> & ->); [by left|].
    rewrite Hh by (by left). repeat split; try done; try lia.
    apply IH; try done; intros b Hb'; [apply Hh|apply Hc]; by right.
Qed.

Lemma rc_detached_frame ths ths' B B' a n n' :
  count (pusher a) ths' = count (pusher a) ths →
  count (holder a) ths' = count (holder a) ths →
  count (detacher a) ths' = count (detacher a) ths →
  count (reaper a) ths' = count (reaper a) ths →
  (∀ tid L', ths' !! tid = Some L' → detacher a (at_pc L') = true →
     ∃ L, ths !! tid = Some L ∧ detacher a (at_pc L) = true ∧
          detach_cnt (at_pc L) = detach_cnt (at_pc L')) →
  (B ≤ B')%Z →
  inner_cnt n' = inner_cnt n →
  (count (pusher a) ths = 1 → is_Some (v n) → is_Some (v n')) →
  detached ths B a n → detached ths' B' a n'.
Proof.
  intros EP EH ED EX Hdet HB Hin Hv (H1 & H2 & H3 & H4 & H5).
  unfold detached. rewrite EP, EH, ED, EX, Hin.
  split; [done|]. split; [|split; [done|split]].
  - intros HP. destruct (H2 HP) as (? & ? & ?). auto.
  - intros tid L' HL' Hd. destruct (Hdet _ _ HL' Hd) as (L & HL & HdL & <-).
    destruct (H4 _ _ HL HdL) as (? & ? & ?). repeat split; try done; lia.
  - intros HP HD HX. destruct (H5 HP HD HX) as (? & ? & ?). repeat split; try done; lia.
Qed.


Lemma rc_same_role_counts a ths tid L' :
  same_role a (at_pc (default fresh_thread (ths !! tid))) (at_pc L') →
  count (pusher a) (<[tid := L']> ths) = count (pusher a) ths ∧
  count (holder a) (<[tid := L']> ths) = count (holder a) ths ∧
  count (detacher a) (<[tid := L']> ths) = count (detacher a) ths ∧
  count (reaper a) (<[tid := L']> ths) = count (reaper a) ths.
Proof.
  intros (E1 & E2 & E3 & E4 & _).
  repeat split; apply rc_count_same; done.
Qed.

Lemma rc_same_role_detacher a ths tid L' :
  same_role a (at_pc (default fresh_thread (ths !! tid))) (at_pc L') →
  ∀ tid' L1, <[tid := L']> ths !! tid' = Some L1 → detacher a (at_pc L1) = true →
  ∃ L, ths !! tid' = Some L ∧ detacher a (at_pc L) = true ∧
       detach_cnt (at_pc L) = detach_cnt (at_pc L1).
Proof.
  intros (_ & _ & E3 & _ & E5) tid' L1.
  destruct (decide (tid = tid')) as [<-|Hne].
  - rewrite lookup_insert_eq. intros [= <-] Hd.
    destruct (ths !! tid) as [L|] eqn:E; simpl in *.
    + exists L. rewrite <-E3, E5; done.
    + rewrite Hd in E3. done.
  - rewrite lookup_insert_ne by done. eauto.
Qed.

Lemma rc_holder_in_heap l Σ tid L a :
  inv_with l Σ → threads Σ !! tid = Some L → holder a (at_pc L) = true →
  is_Some (heap (shared Σ) !! a).
Proof.
  intros Hinv HL Hh. destruct (heap (shared Σ) !! a) eqn:E; [done|].
  destruct (inv_gone _ _ Hinv a E) as (_ & H0 & _).
  pose proof (rc_count_pos _ _ _ _ HL Hh). lia.
Qed.

(** The general shape of a step: the nodes other than [a0] stay as they
    are, and so does the part of the thread for them; the linked nodes go
    from [l] to [l'], which differ at most in [a0]. *)
Lemma rc_inv_build l l' Σ tid L' σ' a0 :
  inv_with l Σ →
  NoDup l' →
  chain (heap σ') (<[tid := L']> (threads Σ)) (bound σ') (head_ σ') l' →
  (∀ a, a ≠ a0 → heap σ' !! a = heap (shared Σ) !! a) →
  (∀ a, a ≠ a0 → same_role a (at_pc (thread_of Σ tid)) (at_pc L')) →
  (∀ a, a ≠ a0 → a ∈ l → a ∈ l') →
  (bound (shared Σ) ≤ bound σ')%Z →
  alloc_inv σ' →
  at_pc L' ≠ Fault →
  (heap σ' !! a0 = None →
     count (pusher a0) (<[tid := L']> (threads Σ)) = 0 ∧
     count (holder a0) (<[tid := L']> (threads Σ)) = 0 ∧
     count (detacher a0) (<[tid := L']> (threads Σ)) = 0 ∧
     count (reaper a0) (<[tid := L']> (threads Σ)) = 0) →
  (∀ n, heap σ' !! a0 = Some n → a0 ∉ l' →
     detached (<[tid := L']> (threads Σ)) (bound σ') a0 n) →
  (∀ tid' L1 t nx, <[tid := L']> (threads Σ) !! tid' = Some L1 → at_pc L1 = PopCas t nx →
     ∃ n, heap σ' !! p t = Some n ∧ next n = nx) →
  inv_with l' {| shared := σ'; threads := <[tid := L']> (threads Σ) |}.
Proof.
  intros Hinv Hnd Hchain Hheap Hrole Hl HB Halloc Hnf Hgone Hdet Hnext.
  split; simpl; try done.
  - intros a Ha. destruct (decide (a = a0)) as [->|Hne]; [by apply Hgone|].
    rewrite Hheap in Ha by done.
    destruct (rc_same_role_counts a (threads Σ) tid L' (Hrole a Hne)) as (-> & -> & -> & ->).
    by apply Hinv.
  - intros a n Ha Hal. destruct (decide (a = a0)) as [->|Hne]; [by apply Hdet|].
    rewrite Hheap in Ha by done.
    destruct (rc_same_role_counts a (threads Σ) tid L' (Hrole a Hne)) as (E1 & E2 & E3 & E4).
    eapply rc_detached_frame; try done.
    + by apply rc_same_role_detacher, Hrole.
    + eapply inv_detached; [done|done|]. intros Hin. apply Hal. by apply Hl.
  - intros tid' L1. destruct (decide (tid = tid')) as [<-|Hne].
    + rewrite lookup_insert_eq. by intros [= <-].
    + rewrite lookup_insert_ne by done. apply Hinv.
Qed.

(** A step that touches no linked node and changes the part of the thread
    for at most one node, [a0]. *)
Lemma rc_inv_local l Σ tid L' σ' a0 :
  inv_with l Σ →
  head_ σ' = head_ (shared Σ) →
  (∀ a, a ≠ a0 → heap σ' !! a = heap (shared Σ) !! a) →
  (∀ a, a ≠ a0 → same_role a (at_pc (thread_of Σ tid)) (at_pc L')) →
  a0 ∉ l →
  (bound (shared Σ) ≤ bound σ')%Z →
  alloc_inv σ' →
  at_pc L' ≠ Fault →
  (heap σ' !! a0 = None →
     count (pusher a0) (<[tid := L']> (threads Σ)) = 0 ∧
     count (holder a0) (<[tid := L']> (threads Σ)) = 0 ∧
     count (detacher a0) (<[tid := L']> (threads Σ)) = 0 ∧
     count (reaper a0) (<[tid := L']> (threads Σ)) = 0) →
  (∀ n, heap σ' !! a0 = Some n → detached (<[tid := L']> (threads Σ)) (bound σ') a0 n) →
  (∀ tid' L1 t nx, <[tid := L']> (threads Σ) !! tid' = Some L1 → at_pc L1 = PopCas t nx →
     ∃ n, heap σ' !! p t = Some n ∧ next n = nx) →
  inv_with l {| shared := σ'; threads := <[tid := L']> (threads Σ) |}.
Proof.
  intros Hinv Hhead Hheap Hrole Hl HB Halloc Hnf Hgone Hdet Hnext.
  apply rc_inv_build with (l := l) (a0 := a0); try done.
  - apply Hinv.
  - rewrite Hhead. eapply rc_chain_frame; [| |done|apply Hinv].
    + intros a Ha. apply Hheap. intros ->. done.
    + intros a Ha. apply rc_same_role_counts, Hrole. intros ->. done.
  - auto.
Qed.

Lemma rc_freed_emit e σ :
  freed (emit e σ) = freed σ ++ match e with EvDelete _ a => [a] | _ => [] end.
Proof. unfold freed, emit. simpl. rewrite omap_app. by destruct e. Qed.

Lemma rc_alloc_same σ σ' :
  alloc_inv σ →
  (∀ a, is_Some (heap σ' !! a) ↔ is_Some (heap σ !! a)) →
  brk σ' = brk σ → freed σ' = freed σ →
  alloc_inv σ'.
Proof.
  intros [H1 H2 H3 H4 H5] Hd Hb Hf. split; rewrite ?Hb, ?Hf; try done.
  - intros a Ha. apply H1, Hd, Ha.
  - intros a Ha. destruct (H2 a Ha) as [Hn ?]. split; [|done].
    destruct (heap σ' !! a) eqn:E; [|done].
    assert (is_Some (heap σ !! a)) as [? ?] by (apply Hd; eauto). congruence.
  - intros a Ha. destruct (H3 a Ha); [left; by apply Hd|by right].
Qed.

Lemma rc_is_Some_insert_same {A} (h : gmap nat A) a x y b :
  h !! a = Some x → is_Some (<[a := y]> h !! b) ↔ is_Some (h !! b).
Proof.
  intros Ha. destruct (decide (a = b)) as [<-|Hne].
  - rewrite lookup_insert_eq, Ha. split; eauto.
  - by rewrite lookup_insert_ne.
Qed.

Lemma rc_alloc_new (n : Node T) σ a σ' :
  alloc_inv σ → new n σ = Some (a, σ') →
  alloc_inv σ' ∧ a = brk σ ∧ heap σ !! a = None ∧ heap σ' = <[a := n]> (heap σ) ∧
  head_ σ' = head_ σ ∧ trace σ' = trace σ ∧ 0 < a.
Proof.
  intros [H1 H2 H3 H4 H5]. unfold new. destruct (mem_avail σ); [done|]. intros [= <- <-].
  assert (Hfresh : heap σ !! brk σ = None).
  { destruct (heap σ !! brk σ) eqn:E; [|done].
    assert (0 < brk σ < brk σ) by (apply H1; eauto). lia. }
  split; [|by repeat split].
  split; unfold freed in *; simpl in *.
  - intros b [x Hb]. destruct (decide (brk σ = b)) as [<-|Hne]; [lia|].
    rewrite lookup_insert_ne in Hb by done. assert (0 < b < brk σ) by (apply H1; eauto). lia.
  - intros b Hb. destruct (H2 b Hb) as [? ?].
    rewrite lookup_insert_ne by lia. split; [done|lia].
  - intros b Hb. destruct (decide (brk σ = b)) as [<-|Hne].
    + left. rewrite lookup_insert_eq. eauto.
    + rewrite lookup_insert_ne by done. apply H3. lia.
  - done.
  - lia.
Qed.

Lemma rc_alloc_delete tid a σ σ' :
  alloc_inv σ → delete_node tid a σ = Some σ' →
  alloc_inv σ' ∧ is_Some (heap σ !! a) ∧ heap σ' = delete a (heap σ) ∧
  head_ σ' = head_ σ ∧ trace σ' = trace σ ++ [EvDelete tid a].
Proof.
  intros [H1 H2 H3 H4 H5]. unfold delete_node.
  destruct (heap σ !! a) as [n|] eqn:Ha; [|done]. intros [= <-].
  split; [|by repeat split; eauto].
  assert (Hf : ∀ b, b ∈ freed σ ++ [a] ↔ b ∈ freed σ ∨ b = a).
  { intros b. rewrite elem_of_app, list_elem_of_singleton. done. }
  split; unfold freed in *; simpl in *; rewrite ?omap_app; simpl.
  - intros b [x Hb]. apply lookup_delete_Some in Hb as [? Hb]. apply H1. eauto.
  - intros b [Hb| ->]%Hf.
    + destruct (H2 b Hb) as [? ?]. split; [|done]. apply lookup_delete_None. by right.
    + split; [by rewrite lookup_delete_eq|]. apply H1. eauto.
  - intros b Hb. destruct (decide (b = a)) as [->|Hne].
    + right. apply Hf. by right.
    + destruct (H3 b Hb) as [Hs|Hs].
      * left. by rewrite lookup_delete_ne.
      * right. apply Hf. by left.
  - apply NoDup_app. split; [done|]. split; [|apply NoDup_singleton].
    intros b Hb ->%list_elem_of_singleton. destruct (H2 _ Hb). congruence.
  - done.
Qed.


Lemma rc_thread_of_Some Σ tid :
  at_pc (thread_of Σ tid) ≠ Idle → threads Σ !! tid = Some (thread_of Σ tid).
Proof. unfold thread_of. destruct (threads Σ !! tid); simpl; done. Qed.

Lemma rc_chain_in_heap h ths B l : ∀ r a, chain h ths B r l → a ∈ l → is_Some (h !! a).
Proof.
  induction l as [|b l IH]; intros r a; simpl.
  - intros _ Ha. by apply elem_of_nil in Ha.
  - intros (_ & n & Hn & _ & _ & _ & _ & _ & _ & _ & Hrest) [->|Ha]%elem_of_cons; eauto.
Qed.

(** The counts of a node after the thread [tid] moved from [k] to [k']. *)
Lemma rc_counts_move a Σ tid L' :
  count (pusher a) (<[tid := L']> (threads Σ)) + b2n (pusher a (at_pc (thread_of Σ tid)))
  = count (pusher a) (threads Σ) + b2n (pusher a (at_pc L')) ∧
  count (holder a) (<[tid := L']> (threads Σ)) + b2n (holder a (at_pc (thread_of Σ tid)))
  = count (holder a) (threads Σ) + b2n (holder a (at_pc L')) ∧
  count (detacher a) (<[tid := L']> (threads Σ)) + b2n (detacher a (at_pc (thread_of Σ tid)))
  = count (detacher a) (threads Σ) + b2n (detacher a (at_pc L')) ∧
  count (reaper a) (<[tid := L']> (threads Σ)) + b2n (reaper a (at_pc (thread_of Σ tid)))
  = count (reaper a) (threads Σ) + b2n (reaper a (at_pc L')).
Proof. repeat split; by apply rc_count_insert. Qed.

Lemma rc_next_frame l Σ tid L' σ' :
  inv_with l Σ →
  (∀ a n, heap (shared Σ) !! a = Some n → 1 ≤ count (holder a) (threads Σ) →
     ∃ n', heap σ' !! a = Some n' ∧ next n' = next n) →
  (∀ t nx, at_pc L' = PopCas t nx → ∃ n, heap σ' !! p t = Some n ∧ next n = nx) →
  ∀ tid' L1 t nx, <[tid := L']> (threads Σ) !! tid' = Some L1 → at_pc L1 = PopCas t nx →
     ∃ n, heap σ' !! p t = Some n ∧ next n = nx.
Proof.
  intros Hinv Hh Hme tid' L1 t nx. destruct (decide (tid = tid')) as [<-|Hne].
  - rewrite lookup_insert_eq. intros [= <-]. apply Hme.
  - rewrite lookup_insert_ne by done. intros HL1 Hpc.
    destruct (inv_next _ _ Hinv _ _ _ _ HL1 Hpc) as (n & Hn & <-).
    apply (Hh _ _ Hn). eapply rc_count_pos; [done|]. rewrite Hpc. simpl. by apply bool_decide_eq_true_2.
Qed.

Ltac role_simpl :=
  unfold same_role; simpl;
  repeat match goal with
  | |- context [bool_decide (?x = ?y)] =>
      first [ rewrite (bool_decide_eq_true_2 (x = y)) by done
            | rewrite (bool_decide_eq_false_2 (x = y)) by (done || congruence) ]
  end.

Lemma rc_detached_pusher ths B a n :
  count (pusher a) ths = 1 → count (holder a) ths = 0 →
  count (detacher a) ths = 0 → count (reaper a) ths = 0 →
  inner_cnt n = 0%Z → is_Some (v n) → detached ths B a n.
Proof.
  intros HP HH HD HX Hi Hv. unfold detached. rewrite HP, HH, HD, HX.
  split; [lia|]. split; [done|]. split; [done|]. split; [|done].
  intros tid L HL Hd. pose proof (rc_count_pos _ _ _ _ HL Hd). lia.
Qed.

Lemma rc_detached_detacher ths B a n :
  count (pusher a) ths = 0 → count (detacher a) ths = 1 → count (reaper a) ths = 0 →
  (∀ tid L, ths !! tid = Some L → detacher a (at_pc L) = true →
     (detach_cnt (at_pc L) + inner_cnt n = 2 + Z.of_nat (count (holder a) ths))%Z ∧
     (inner_cnt n ≤ 0)%Z ∧ (detach_cnt (at_pc L) ≤ B)%Z) →
  detached ths B a n.
Proof.
  intros HP HD HX Hd. unfold detached. rewrite HP, HD, HX.
  split; [lia|]. split; [done|]. split; [done|]. split; done.
Qed.

Lemma rc_detached_released ths B a n :
  count (pusher a) ths = 0 → count (detacher a) ths = 0 → count (reaper a) ths = 0 →
  inner_cnt n = Z.of_nat (count (holder a) ths) → 1 ≤ count (holder a) ths →
  (inner_cnt n ≤ B)%Z → detached ths B a n.
Proof.
  intros HP HD HX Hi HH HB. unfold detached. rewrite HP, HD, HX.
  split; [lia|]. split; [done|]. split; [done|]. split; [|done].
  intros tid L HL Hd. pose proof (rc_count_pos _ _ _ _ HL Hd). lia.
Qed.

Lemma rc_detached_reaper ths B a n :
  count (pusher a) ths = 0 → count (holder a) ths = 0 →
  count (detacher a) ths = 0 → count (reaper a) ths = 1 → detached ths B a n.
Proof.
  intros HP HH HD HX. unfold detached. rewrite HP, HH, HD, HX.
  split; [lia|]. split; [done|]. split; [done|]. split; [|done].
  intros tid L HL Hd. pose proof (rc_count_pos _ _ _ _ HL Hd). lia.
Qed.

(** A step that changes neither the nodes nor the part of the thread. *)
Lemma rc_inv_frame l Σ tid L' σ' :
  inv_with l Σ →
  head_ σ' = head_ (shared Σ) → heap σ' = heap (shared Σ) →
  (∀ a, same_role a (at_pc (thread_of Σ tid)) (at_pc L')) →
  (bound (shared Σ) ≤ bound σ')%Z →
  alloc_inv σ' →
  at_pc L' ≠ Fault →
  (∀ t nx, at_pc L' = PopCas t nx → ∃ n, heap σ' !! p t = Some n ∧ next n = nx) →
  inv_with l {| shared := σ'; threads := <[tid := L']> (threads Σ) |}.
Proof.
  intros Hinv Hhead Hheap Hrole HB Halloc Hnf Hnext.
  split; simpl; try done.
  - apply Hinv.
  - rewrite Hhead, Hheap. eapply rc_chain_frame; [done| |done|apply Hinv].
    intros a Ha. apply rc_same_role_counts, Hrole.
  - intros a Ha. rewrite Hheap in Ha.
    destruct (rc_same_role_counts a (threads Σ) tid L' (Hrole a)) as (-> & -> & -> & ->).
    by apply Hinv.
  - intros a n Ha Hal. rewrite Hheap in Ha.
    destruct (rc_same_role_counts a (threads Σ) tid L' (Hrole a)) as (E1 & E2 & E3 & E4).
    eapply rc_detached_frame; try done.
    + by apply rc_same_role_detacher, Hrole.
    + by eapply inv_detached.
  - eapply rc_next_frame; [done| |done]. intros a n Hn _. exists n. by rewrite Hheap.
  - intros tid' L1. destruct (decide (tid = tid')) as [<-|Hne].
    + rewrite lookup_insert_eq. by intros [= <-].
    + rewrite lookup_insert_ne by done. apply Hinv.
Qed.

Lemma rc_bound_emit e σ : (bound σ ≤ bound (emit e σ))%Z.
Proof. unfold bound, emit. simpl. rewrite length_app. simpl. lia. Qed.

Lemma rc_wrap_id z : (- 2 ^ 31 ≤ z < 2 ^ 31)%Z → wrap z = z.
Proof.
  intros Hz. unfold wrap. rewrite Z.mod_small; lia.
Qed.

Lemma rc_bound_pos σ : (1 ≤ bound σ)%Z.
Proof. unfold bound. lia. Qed.

Lemma rc_chain_roles h ths B l : ∀ r a,
  chain h ths B r l → a ∈ l →
  count (pusher a) ths = 0 ∧ count (detacher a) ths = 0 ∧ count (reaper a) ths = 0.
Proof.
  induction l as [|b l IH]; intros r a; simpl.
  - intros _ Ha. by apply elem_of_nil in Ha.
  - intros (_ & n & Hn & _ & _ & _ & _ & ? & ? & ? & Hrest) [->|Ha]%elem_of_cons; eauto.
Qed.

Lemma rc_chain_null h ths B r l : chain h ths B r l → p r = nullptr → (∀ a, is_Some (h !! a) → 0 < a) → l = [].
Proof.
  destruct l as [|a l]; [done|]. simpl. intros (Hp & n & Hn & _) Hnull Hpos.
  assert (0 < a) by (apply Hpos; eauto). unfold nullptr in *. lia.
Qed.

(** A thread lets go of a linked node: its inner count and the number of
    its holders both go down by one. *)
Lemma rc_chain_release h ths ths' B B' a n l : ∀ r,
  NoDup l → a ∈ l → h !! a = Some n →
  count (holder a) ths' + 1 = count (holder a) ths →
  count (pusher a) ths' = count (pusher a) ths →
  count (detacher a) ths' = count (detacher a) ths →
  count (reaper a) ths' = count (reaper a) ths →
  (∀ b, b ≠ a → count (pusher b) ths' = count (pusher b) ths ∧
                count (holder b) ths' = count (holder b) ths ∧
                count (detacher b) ths' = count (detacher b) ths ∧
                count (reaper b) ths' = count (reaper b) ths) →
  (B ≤ B')%Z →
  chain h ths B r l →
  chain (<[a := {| v := v n; inner_cnt := inner_cnt n - 1; next := next n |}]> h)
        ths' B' r l.
Proof.
  induction l as [|b l IH]; intros r Hnd Ha Hn EH EP ED EX Hoth HB; simpl.
  - by apply elem_of_nil in Ha.
  - apply NoDup_cons in Hnd as [Hb Hnd].
    intros (Hp & m & Hm & Hv & Hsum & Hle & Hbd & HP & HD & HX & Hrest).
    split; [done|]. destruct (decide (b = a)) as [->|Hne].
    + rewrite Hn in Hm. injection Hm as <-.
      eexists. rewrite lookup_insert_eq. split; [done|]. simpl.
      rewrite EP, ED, EX. repeat split; try done; try lia.
      eapply rc_chain_frame; [| |done|done].
      * intros c Hc. rewrite lookup_insert_ne; [done|]. intros ->. done.
      * intros c Hc. apply Hoth. intros ->. done.
    + exists m. rewrite lookup_insert_ne by done.
      destruct (Hoth b Hne) as (-> & -> & -> & ->).
      repeat split; try done; try lia.
      apply IH; try done. apply elem_of_cons in Ha as [->|Ha]; done.
Qed.

Lemma rc_role_in_heap l Σ tid (f : nat → pc T → bool) a :
  inv_with l Σ →
  (f = pusher ∨ f = holder ∨ f = detacher ∨ f = reaper) →
  f a (at_pc (thread_of Σ tid)) = true →
  is_Some (heap (shared Σ) !! a) ∧ 1 ≤ count (f a) (threads Σ).
Proof.
  intros Hinv Hf Hr.
  assert (Hth : threads Σ !! tid = Some (thread_of Σ tid)).
  { apply rc_thread_of_Some. intros E. rewrite E in Hr.
    destruct Hf as [->|[->|[->| ->]]]; done. }
  pose proof (rc_count_pos _ _ _ _ Hth Hr) as Hc. split; [|done].
  destruct (heap (shared Σ) !! a) eqn:E; [done|].
  destruct (inv_gone _ _ Hinv a E) as (? & ? & ? & ?).
  destruct Hf as [->|[->|[->| ->]]]; lia.
Qed.

Lemma rc_step_PushNew l Σ tid x :
  inv_with l Σ → at_pc (thread_of Σ tid) = PushNew x → inv (step tid Σ).
Proof.
  intros Hinv Hpc. unfold step, step_thread. rewrite Hpc.
  destruct (new _ (shared Σ)) as [[a σ']|] eqn:Hnew.
  - destruct (rc_alloc_new _ _ _ _ (inv_alloc _ _ Hinv) Hnew)
      as (Halloc & -> & Hfresh & Hheap & Hhead & Htrace & Hpos).
    exists l. apply rc_inv_local with (a0 := brk (shared Σ)); try done.
    + intros a Hne. rewrite Hheap. by rewrite lookup_insert_ne.
    + intros a Hne. rewrite Hpc. role_simpl. done.
    + intros Hin. destruct (rc_chain_in_heap _ _ _ _ _ _ (inv_chain _ _ Hinv) Hin). congruence.
    + unfold bound. rewrite Htrace. lia.
    + rewrite Hheap, lookup_insert_eq. done.
    + intros n. rewrite Hheap, lookup_insert_eq. intros [= <-].
      destruct (inv_gone _ _ Hinv _ Hfresh) as (HP & HH & HD & HX).
      destruct (rc_counts_move (brk (shared Σ)) Σ tid (goto (PushLoad (brk (shared Σ))) (thread_of Σ tid)))
        as (EP & EH & ED & EX).
      rewrite Hpc in *. simpl in *. rewrite bool_decide_eq_true_2 in EP by done. simpl in *.
      apply rc_detached_pusher; simpl; eauto; lia.
    + eapply rc_next_frame; [done| |done].
      intros a n Hn _. exists n. rewrite Hheap, lookup_insert_ne; [done|congruence].
  - exists l. apply rc_inv_frame; try done; try apply Hinv.
    intros a. rewrite Hpc. role_simpl. done.
Qed.


(** What is known of a node that a thread is pushing. *)
Lemma rc_pusher_facts l Σ tid a :
  inv_with l Σ → pusher a (at_pc (thread_of Σ tid)) = true →
  ∃ n, heap (shared Σ) !! a = Some n ∧ (a ∉ l) ∧
       count (pusher a) (threads Σ) = 1 ∧ count (holder a) (threads Σ) = 0 ∧
       count (detacher a) (threads Σ) = 0 ∧ count (reaper a) (threads Σ) = 0 ∧
       inner_cnt n = 0%Z ∧ is_Some (v n).
Proof.
  intros Hinv Hr.
  destruct (rc_role_in_heap l Σ tid pusher a Hinv) as ([n Hn] & Hc); [auto|done|].
  assert (Hl : a ∉ l).
  { intros Hin. destruct (rc_chain_roles _ _ _ _ _ _ (inv_chain _ _ Hinv) Hin) as (? & _). lia. }
  destruct (inv_detached _ _ Hinv a n Hn Hl) as (H1 & H2 & _).
  assert (HP : count (pusher a) (threads Σ) = 1) by lia.
  destruct (H2 HP) as (? & ? & ?).
  exists n. repeat split; try done; lia.
Qed.

Ltac name_step σ' L' :=
  match goal with
  | |- inv {| shared := ?s; threads := <[_ := ?L]> _ |} => set (σ' := s); set (L' := L)
  | |- inv_with _ {| shared := ?s; threads := <[_ := ?L]> _ |} => set (σ' := s); set (L' := L)
  end.

Lemma rc_alloc_update σ σ' tr :
  alloc_inv σ →
  (∀ b, is_Some (heap σ' !! b) ↔ is_Some (heap σ !! b)) →
  brk σ' = brk σ → trace σ' = trace σ ++ tr →
  omap (λ e, match e with EvDelete _ a => Some a | _ => None end) tr = [] →
  alloc_inv σ'.
Proof.
  intros Ha Hh Hb Ht Htr. eapply rc_alloc_same; [done|done|done|].
  unfold freed. rewrite Ht, omap_app, Htr. by rewrite app_nil_r.
Qed.

Lemma rc_step_PushLoad l Σ tid a :
  inv_with l Σ → at_pc (thread_of Σ tid) = PushLoad a → inv (step tid Σ).
Proof.
  intros Hinv Hpc. unfold step, step_thread. rewrite Hpc.
  destruct (rc_pusher_facts l Σ tid a Hinv) as (n & Hn & Hl & HP & HH & HD & HX & Hi & Hv).
  { rewrite Hpc. simpl. by apply bool_decide_eq_true_2. }
  rewrite Hn. exists l. cbv beta iota. name_step σ' L'.
  assert (Hrole : ∀ b, same_role b (at_pc (thread_of Σ tid)) (at_pc L')).
  { intros b. rewrite Hpc. by role_simpl. }
  apply rc_inv_local with (a0 := a).
  - done.
  - done.
  - intros b Hne. simpl. by rewrite lookup_insert_ne.
  - auto.
  - done.
  - unfold bound; simpl. rewrite length_app. lia.
  - eapply rc_alloc_update with (tr := [_]); [apply Hinv| |done|done|done].
    intros b. simpl. by eapply rc_is_Some_insert_same.
  - done.
  - simpl. by rewrite lookup_insert_eq.
  - intros n'. simpl. rewrite lookup_insert_eq. intros [= <-].
    destruct (rc_same_role_counts a (threads Σ) tid _ (Hrole a)) as (E1 & E2 & E3 & E4).
    apply rc_detached_pusher; simpl; try done; congruence.
  - apply (rc_next_frame l Σ tid L' σ'); [done| |done].
    intros b m Hm Hc. exists m. split; [|done].
    simpl. rewrite lookup_insert_ne; [done|]. intros <-. lia.
Qed.

Lemma rc_step_PushCas l Σ tid a :
  inv_with l Σ → at_pc (thread_of Σ tid) = PushCas a → inv (step tid Σ).
Proof.
  intros Hinv Hpc. unfold step, step_thread. rewrite Hpc.
  destruct (rc_pusher_facts l Σ tid a Hinv) as (n & Hn & Hl & HP & HH & HD & HX & Hi & Hv).
  { rewrite Hpc. simpl. by apply bool_decide_eq_true_2. }
  rewrite Hn.
  destruct (decide (head_ (shared Σ) = next n)) as [Hhead|Hhead].
  - (* the node is linked *)
    exists (a :: l). cbv beta iota. name_step σ' L'.
    destruct (rc_counts_move a Σ tid L') as (EP & EH & ED & EX).
    rewrite Hpc in EP, EH, ED, EX. simpl in EP, EH, ED, EX.
    rewrite bool_decide_eq_true_2 in EP by done. simpl in EP.
    assert (Hrole : ∀ b, b ≠ a → same_role b (at_pc (thread_of Σ tid)) (at_pc L')).
    { intros b Hne. rewrite Hpc. by role_simpl. }
    assert (HB : (bound (shared Σ) ≤ bound σ')%Z).
    { unfold bound. simpl. rewrite length_app. lia. }
    apply rc_inv_build with (l := l) (a0 := a).
    + done.
    + apply NoDup_cons. split; [done|apply Hinv].
    + simpl. split; [done|]. exists n. split; [done|]. split; [done|].
      rewrite Hi. pose proof (rc_bound_pos (shared Σ)). fold (bound σ').
      repeat split; try lia.
      rewrite <-Hhead. eapply rc_chain_frame; [done| |done|apply Hinv].
      intros b Hb. apply rc_same_role_counts, Hrole. intros ->. done.
    + done.
    + done.
    + intros b Hne Hb. by right.
    + done.
    + eapply rc_alloc_update with (tr := [_]); [apply Hinv|done|done|done|done].
    + done.
    + simpl. congruence.
    + intros n' _ Hnl. exfalso. apply Hnl. by left.
    + apply (rc_next_frame l Σ tid L' σ'); [done| |done]. eauto.
  - (* the head has moved: t->next is reloaded *)
    exists l. cbv beta iota. name_step σ' L'.
    assert (Hrole : ∀ b, same_role b (at_pc (thread_of Σ tid)) (at_pc L')).
    { intros b. done. }
    apply rc_inv_local with (a0 := a).
    + done.
    + done.
    + intros b Hne. simpl. by rewrite lookup_insert_ne.
    + auto.
    + done.
    + unfold bound; simpl. rewrite length_app. lia.
    + eapply rc_alloc_update with (tr := [_]); [apply Hinv| |done|done|done].
      intros b. simpl. by eapply rc_is_Some_insert_same.
    + unfold L'. rewrite Hpc. done.
    + simpl. by rewrite lookup_insert_eq.
    + intros n'. simpl. rewrite lookup_insert_eq. intros [= <-].
      destruct (rc_same_role_counts a (threads Σ) tid _ (Hrole a)) as (E1 & E2 & E3 & E4).
      apply rc_detached_pusher; simpl; try done; congruence.
    + apply (rc_next_frame l Σ tid L' σ'); [done| |].
      * intros b m Hm Hc. exists m. split; [|done].
        simpl. rewrite lookup_insert_ne; [done|]. intros <-. lia.
      * unfold L'. rewrite Hpc. done.
Qed.


Lemma rc_alloc_emit e σ :
  alloc_inv σ → match e with EvDelete _ _ => False | _ => True end → alloc_inv (emit e σ).
Proof.
  intros Ha He. eapply rc_alloc_update with (tr := [e]); [done|done|done|done|].
  simpl. by destruct e.
Qed.

Lemma rc_step_PopLoad l Σ tid :
  inv_with l Σ → at_pc (thread_of Σ tid) = PopLoad → inv (step tid Σ).
Proof.
  intros Hinv Hpc. unfold step, step_thread. rewrite Hpc. exists l.
  apply rc_inv_frame; try done.
  - intros a. rewrite Hpc. by role_simpl.
  - apply rc_bound_emit.
  - by apply rc_alloc_emit; [apply Hinv|].
Qed.

Lemma rc_step_PopNext l Σ tid t :
  inv_with l Σ → at_pc (thread_of Σ tid) = PopNext t → inv (step tid Σ).
Proof.
  intros Hinv Hpc. unfold step, step_thread. rewrite Hpc.
  destruct (rc_role_in_heap l Σ tid holder (p t) Hinv) as ([n Hn] & Hc); [auto| |].
  { rewrite Hpc. simpl. by apply bool_decide_eq_true_2. }
  rewrite Hn. exists l. apply rc_inv_frame; try done.
  - intros a. rewrite Hpc. by role_simpl.
  - apply Hinv.
  - simpl. intros t' nx [= <- <-]. eauto.
Qed.

Lemma rc_step_PopLoadInner l Σ tid a t :
  inv_with l Σ → at_pc (thread_of Σ tid) = PopLoadInner a t → inv (step tid Σ).
Proof.
  intros Hinv Hpc. unfold step, step_thread. rewrite Hpc.
  destruct (rc_role_in_heap l Σ tid reaper a Hinv) as ([n Hn] & Hc); [auto| |].
  { rewrite Hpc. simpl. by apply bool_decide_eq_true_2. }
  rewrite Hn. exists l. apply rc_inv_frame; try done.
  - intros b. rewrite Hpc. by role_simpl.
  - apply rc_bound_emit.
  - by apply rc_alloc_emit; [apply Hinv|].
Qed.

Lemma rc_step_PopRet l Σ tid res :
  inv_with l Σ → at_pc (thread_of Σ tid) = PopRet res → inv (step tid Σ).
Proof.
  intros Hinv Hpc. unfold step, step_thread. rewrite Hpc. unfold pop_return.
  exists l. destruct (in_dtor (thread_of Σ tid)); [destruct res|]; cbv beta iota.
  - apply rc_inv_frame; try done; [|apply Hinv].
    intros a. rewrite Hpc. by role_simpl.
  - apply rc_inv_frame; try done.
    + intros a. rewrite Hpc. by role_simpl.
    + eapply rc_alloc_same; [apply Hinv|done|done|done].
  - apply rc_inv_frame; try done; [|apply Hinv].
    intros a. rewrite Hpc. by role_simpl.
Qed.


Lemma rc_heap_null l Σ : inv_with l Σ → heap (shared Σ) !! 0 = None.
Proof.
  intros Hinv. destruct (heap (shared Σ) !! 0) eqn:E; [|done].
  assert (0 < 0 < brk (shared Σ)) by (apply (inv_alloc _ _ Hinv); eauto). lia.
Qed.

(** A step that changes only [head_]. *)
Lemma rc_inv_relink l l' Σ tid L' σ' :
  inv_with l Σ →
  NoDup l' →
  chain (heap σ') (<[tid := L']> (threads Σ)) (bound σ') (head_ σ') l' →
  heap σ' = heap (shared Σ) →
  (∀ a, same_role a (at_pc (thread_of Σ tid)) (at_pc L')) →
  (∀ a, a ∈ l → a ∈ l') →
  (bound (shared Σ) ≤ bound σ')%Z →
  alloc_inv σ' →
  at_pc L' ≠ Fault →
  (∀ t nx, at_pc L' = PopCas t nx → ∃ n, heap σ' !! p t = Some n ∧ next n = nx) →
  inv_with l' {| shared := σ'; threads := <[tid := L']> (threads Σ) |}.
Proof.
  intros Hinv Hnd Hchain Hheap Hrole Hl HB Halloc Hnf Hnext.
  apply rc_inv_build with (l := l) (a0 := 0);
    [done|done|done| | | |done|done|done| | |].
  - intros a _. by rewrite Hheap.
  - auto.
  - auto.
  - intros _.
    destruct (rc_same_role_counts 0 (threads Σ) tid L' (Hrole 0)) as (-> & -> & -> & ->).
    eapply inv_gone; [done|]. by eapply rc_heap_null.
  - intros n. rewrite Hheap. erewrite rc_heap_null by done. done.
  - eapply rc_next_frame; [done| |done]. intros a n Hn _. exists n. by rewrite Hheap.
Qed.

Ltac bound_tac := unfold bound in *; simpl; rewrite ?length_app; simpl; lia.

Lemma rc_step_PopIncrease l Σ tid old_cnt :
  inv_with l Σ → (bound (shared Σ) < 2 ^ 31 - 2)%Z →
  at_pc (thread_of Σ tid) = PopIncrease old_cnt → inv (step tid Σ).
Proof.
  intros Hinv Hsmall Hpc. unfold step, step_thread. rewrite Hpc.
  destruct (decide (head_ (shared Σ) = old_cnt)) as [Hhead|Hhead].
  - cbn [p]. destruct (decide (p old_cnt = nullptr)) as [Hnull|Hnull]; cbv beta iota.
    + (* the stack is empty *)
      assert (l = []) as ->.
      { eapply rc_chain_null; [apply Hinv|by rewrite Hhead|].
        intros a Ha. by apply (inv_alloc _ _ Hinv). }
      exists []. name_step σ' L'.
      assert (Hc := inv_chain _ _ Hinv). simpl in Hc. destruct Hc as [_ Hext].
      apply rc_inv_relink with (l := []); try done.
      * apply NoDup_nil_2.
      * simpl. split; [done|]. rewrite <-Hhead.
        unfold bound in *. simpl. rewrite length_app. simpl.
        rewrite rc_wrap_id by lia. lia.
      * intros a. rewrite Hpc. by role_simpl.
      * bound_tac.
      * eapply rc_alloc_update with (tr := [_]); [apply Hinv|done|done|done|done].
    + (* the first node gets one more holder *)
      exists l. name_step σ' L'. set (a := p old_cnt) in *.
      assert (Hc := inv_chain _ _ Hinv).
      destruct l as [|a' l1].
      { simpl in Hc. destruct Hc as [Hc _]. rewrite Hhead in Hc. done. }
      simpl in Hc. destruct Hc as (Hp & n & Hn & Hv & Hsum & Hle & Hbd & HP & HD & HX & Hrest).
      rewrite Hhead in Hp. fold a in Hp. subst a'.
      assert (Hnd := inv_nodup _ _ Hinv). apply NoDup_cons in Hnd as [Hal1 Hnd1].
      destruct (rc_counts_move a Σ tid L') as (EP & EH & ED & EX).
      rewrite Hpc in EP, EH, ED, EX. simpl in EP, EH, ED, EX. fold a in EH.
      rewrite bool_decide_eq_true_2 in EH by done. simpl in EH.
      assert (Hrole : ∀ b, b ≠ a → same_role b (at_pc (thread_of Σ tid)) (at_pc L')).
      { intros b Hne. rewrite Hpc. unfold L'. simpl. fold a. by role_simpl. }
      assert (HB : (bound σ' = bound (shared Σ) + 1)%Z).
      { unfold bound. simpl. rewrite length_app. simpl. lia. }
      apply rc_inv_build with (l := a :: l1) (a0 := a); try done.
      * by apply NoDup_cons.
      * simpl. split; [done|]. exists n. split; [done|]. split; [done|].
        rewrite <-Hhead. rewrite rc_wrap_id by lia. fold (bound σ').
        repeat split; try lia.
        eapply rc_chain_frame; [done| | |done]; [|lia].
        intros b Hb. apply rc_same_role_counts, Hrole. intros ->. done.
      * lia.
      * eapply rc_alloc_update with (tr := [_]); [apply Hinv|done|done|done|done].
      * simpl. rewrite Hn. done.
      * intros n' _ Hnl. exfalso. apply Hnl. by left.
      * apply (rc_next_frame (a :: l1) Σ tid L' σ'); [done| |done]. eauto.
  - exists l. apply rc_inv_frame; try done.
    + intros a. rewrite Hpc. by role_simpl.
    + apply rc_bound_emit.
    + by apply rc_alloc_emit; [apply Hinv|].
Qed.


Lemma rc_step_PopCas l Σ tid t nx :
  inv_with l Σ → at_pc (thread_of Σ tid) = PopCas t nx → inv (step tid Σ).
Proof.
  intros Hinv Hpc. unfold step, step_thread. rewrite Hpc.
  destruct (rc_role_in_heap l Σ tid holder (p t) Hinv) as ([n Hn] & Hc); [auto| |].
  { rewrite Hpc. simpl. by apply bool_decide_eq_true_2. }
  assert (Hth : threads Σ !! tid = Some (thread_of Σ tid)).
  { apply rc_thread_of_Some. by rewrite Hpc. }
  destruct (inv_next _ _ Hinv _ _ _ _ Hth Hpc) as (n' & Hn' & Hnx).
  rewrite Hn in Hn'. injection Hn' as <-.
  destruct (decide (head_ (shared Σ) = t)) as [Hhead|Hhead].
  - (* the node is detached *)
    set (a := p t) in *.
    assert (Hch := inv_chain _ _ Hinv).
    destruct l as [|a' l1].
    { simpl in Hch. destruct Hch as [Hch _]. rewrite Hhead in Hch. fold a in Hch.
      assert (0 < a) by (apply (inv_alloc _ _ Hinv); eauto). unfold nullptr in *. lia. }
    simpl in Hch.
    destruct Hch as (Hp & m & Hm & Hv & Hsum & Hle & Hbd & HP & HD & HX & Hrest).
    rewrite Hhead in Hp. fold a in Hp. subst a'. rewrite Hn in Hm. injection Hm as <-.
    assert (Hnd := inv_nodup _ _ Hinv). apply NoDup_cons in Hnd as [Hal1 Hnd1].
    exists l1. cbv beta iota. name_step σ' L'.
    destruct (rc_counts_move a Σ tid L') as (EP & EH & ED & EX).
    rewrite Hpc in EP, EH, ED, EX. simpl in EP, EH, ED, EX. fold a in EH, ED.
    rewrite bool_decide_eq_true_2 in EH, ED by done. simpl in EH, ED.
    assert (Hrole : ∀ b, b ≠ a → same_role b (at_pc (thread_of Σ tid)) (at_pc L')).
    { intros b Hne. rewrite Hpc. unfold L'. simpl. fold a. by role_simpl. }
    assert (HB : (bound (shared Σ) ≤ bound σ')%Z) by bound_tac.
    apply rc_inv_build with (l := a :: l1) (a0 := a);
      [done|done| |done|done| |done| |done| | |].
    + simpl. rewrite <-Hnx. eapply rc_chain_frame; [done| |done|done].
      intros b Hb. apply rc_same_role_counts, Hrole. intros ->. done.
    + intros b Hne [->|Hb]%elem_of_cons; done.
    + eapply rc_alloc_update with (tr := [_]); [apply Hinv|done|done|done|done].
    + simpl. rewrite Hn. done.
    + intros n'. simpl. rewrite Hn. intros [= <-] _.
      apply rc_detached_detacher; try lia.
      intros tid' L1. destruct (decide (tid = tid')) as [<-|Hne].
      * rewrite lookup_insert_eq. intros [= <-] _. simpl.
        rewrite <-Hhead. repeat split; lia.
      * rewrite lookup_insert_ne by done. intros HL1 Hd.
        pose proof (rc_count_pos _ _ _ _ HL1 Hd). lia.
    + apply (rc_next_frame (a :: l1) Σ tid L' σ'); [done| |done]. eauto.
  - exists l. apply rc_inv_frame; try done.
    + intros a. rewrite Hpc. by role_simpl.
    + apply rc_bound_emit.
    + by apply rc_alloc_emit; [apply Hinv|].
Qed.

(** What is known of a node that a thread has detached and not yet counted down. *)
Lemma rc_detacher_facts l Σ tid a :
  inv_with l Σ → detacher a (at_pc (thread_of Σ tid)) = true →
  ∃ n, heap (shared Σ) !! a = Some n ∧ (a ∉ l) ∧
       count (pusher a) (threads Σ) = 0 ∧ count (detacher a) (threads Σ) = 1 ∧
       count (reaper a) (threads Σ) = 0 ∧
       (detach_cnt (at_pc (thread_of Σ tid)) + inner_cnt n
        = 2 + Z.of_nat (count (holder a) (threads Σ)))%Z ∧
       (inner_cnt n ≤ 0)%Z ∧ (detach_cnt (at_pc (thread_of Σ tid)) ≤ bound (shared Σ))%Z.
Proof.
  intros Hinv Hr.
  destruct (rc_role_in_heap l Σ tid detacher a Hinv) as ([n Hn] & Hc); [auto|done|].
  assert (Hl : a ∉ l).
  { intros Hin. destruct (rc_chain_roles _ _ _ _ _ _ (inv_chain _ _ Hinv) Hin) as (? & ? & _). lia. }
  destruct (inv_detached _ _ Hinv a n Hn Hl) as (H1 & _ & _ & H4 & _).
  assert (Hth : threads Σ !! tid = Some (thread_of Σ tid)).
  { apply rc_thread_of_Some. intros E. by rewrite E in Hr. }
  destruct (H4 _ _ Hth Hr) as (? & ? & ?).
  exists n. repeat split; try done; lia.
Qed.

Lemma rc_detacher_unique a Σ tid L' tid' L1 :
  count (detacher a) (threads Σ) = 1 →
  detacher a (at_pc (thread_of Σ tid)) = true →
  <[tid := L']> (threads Σ) !! tid' = Some L1 → detacher a (at_pc L1) = true →
  tid' = tid ∧ L1 = L'.
Proof.
  intros Hc Hr. destruct (decide (tid = tid')) as [<-|Hne].
  - rewrite lookup_insert_eq. by intros [= <-].
  - rewrite lookup_insert_ne by done. intros HL1 Hd. exfalso.
    assert (Hth : threads Σ !! tid = Some (thread_of Σ tid)).
    { apply rc_thread_of_Some. intros E. by rewrite E in Hr. }
    assert (Hd' : threads Σ = <[tid := thread_of Σ tid]> (<[tid' := L1]> (delete tid (delete tid' (threads Σ))))).
    { apply map_eq. intros i. destruct (decide (i = tid)) as [->|?].
      - by rewrite lookup_insert_eq.
      - rewrite lookup_insert_ne by done. destruct (decide (i = tid')) as [->|?].
        + by rewrite lookup_insert_eq.
        + rewrite lookup_insert_ne by done. by rewrite !lookup_delete_ne. }
    rewrite Hd' in Hc. rewrite !rc_count_insert_fresh in Hc.
    + rewrite Hr, Hd in Hc. simpl in Hc. lia.
    + rewrite lookup_delete_ne by done. apply lookup_delete_eq.
    + rewrite lookup_insert_ne by done. apply lookup_delete_eq.
Qed.

Lemma rc_step_PopSwap l Σ tid t :
  inv_with l Σ → at_pc (thread_of Σ tid) = PopSwap t → inv (step tid Σ).
Proof.
  intros Hinv Hpc. unfold step, step_thread. rewrite Hpc.
  destruct (rc_detacher_facts l Σ tid (p t) Hinv)
    as (n & Hn & Hl & HP & HD & HX & Hsum & Hle & Hbd).
  { rewrite Hpc. simpl. by apply bool_decide_eq_true_2. }
  rewrite Hn. exists l. cbv beta iota. name_step σ' L'.
  assert (Hrole : ∀ b, same_role b (at_pc (thread_of Σ tid)) (at_pc L')).
  { intros b. rewrite Hpc. by role_simpl. }
  apply rc_inv_local with (a0 := p t).
  - done.
  - done.
  - intros b Hne. simpl. by rewrite lookup_insert_ne.
  - auto.
  - done.
  - bound_tac.
  - eapply rc_alloc_same; [apply Hinv| |done|done].
    intros b. simpl. by eapply rc_is_Some_insert_same.
  - done.
  - simpl. by rewrite lookup_insert_eq.
  - intros n'. simpl. rewrite lookup_insert_eq. intros [= <-].
    destruct (rc_same_role_counts (p t) (threads Σ) tid _ (Hrole (p t))) as (E1 & E2 & E3 & E4).
    eapply rc_detached_frame with (n := n) (B := bound (shared Σ)) (ths := threads Σ);
      [done|done|done|done| |reflexivity|done| |].
    + by apply rc_same_role_detacher.
    + intros ?. lia.
    + by eapply inv_detached.
  - apply (rc_next_frame l Σ tid L' σ'); [done| |done].
    intros b m Hm Hc. simpl. destruct (decide (b = p t)) as [->|Hne].
    + rewrite lookup_insert_eq. rewrite Hn in Hm. injection Hm as <-. eauto.
    + rewrite lookup_insert_ne by done. eauto.
Qed.


Lemma rc_count_exists f ths :
  1 ≤ count f ths → ∃ tid L, ths !! tid = Some L ∧ f (at_pc L) = true.
Proof.
  unfold count. intros Hc.
  assert (∃ kv, kv ∈ map_to_list ths ∧ f (at_pc kv.2) = true) as ([tid L] & Hin & Hf).
  { induction (map_to_list ths) as [|kv rest IH]; simpl in Hc; [lia|].
    destruct (f (at_pc kv.2)) eqn:E.
    - exists kv. split; [by left|done].
    - simpl in Hc. destruct IH as (kv' & ? & ?); [lia|]. exists kv'. split; [by right|done]. }
  exists tid, L. split; [|done]. by apply elem_of_map_to_list.
Qed.

Lemma rc_step_PopFetchAdd l Σ tid t res :
  inv_with l Σ → (bound (shared Σ) < 2 ^ 31 - 2)%Z →
  at_pc (thread_of Σ tid) = PopFetchAdd t res → inv (step tid Σ).
Proof.
  intros Hinv Hsmall Hpc. unfold step, step_thread. rewrite Hpc.
  destruct (rc_detacher_facts l Σ tid (p t) Hinv)
    as (n & Hn & Hl & HP & HD & HX & Hsum & Hle & Hbd).
  { rewrite Hpc. simpl. by apply bool_decide_eq_true_2. }
  rewrite Hpc in Hsum, Hbd. simpl in Hsum, Hbd.
  rewrite Hn. set (a := p t) in *.
  assert (Hcnt : wrap (external_cnt t - 2) = (external_cnt t - 2)%Z).
  { apply rc_wrap_id. lia. }
  rewrite !Hcnt.
  assert (Hneg : wrap (- (external_cnt t - 2)) = (- (external_cnt t - 2))%Z).
  { apply rc_wrap_id. lia. }
  rewrite Hneg.
  assert (Hnew : wrap (inner_cnt n + (external_cnt t - 2))
                 = Z.of_nat (count (holder a) (threads Σ))).
  { rewrite rc_wrap_id; lia. }
  rewrite Hnew.
  exists l.
  destruct (decide (inner_cnt n = (- (external_cnt t - 2))%Z)) as [Hz|Hz];
    cbv beta iota; name_step σ' L';
    destruct (rc_counts_move a Σ tid L') as (EP & EH & ED & EX);
    rewrite Hpc in EP, EH, ED, EX; simpl in EP, EH, ED, EX; fold a in ED;
    rewrite ?bool_decide_eq_true_2 in ED by done; rewrite ?bool_decide_eq_true_2 in EX by done;
    simpl in ED, EX;
    (assert (Hrole : ∀ b, b ≠ a → same_role b (at_pc (thread_of Σ tid)) (at_pc L'))
      by (intros b Hne; rewrite Hpc; unfold L'; simpl; fold a; by role_simpl)).
  - (* the counts add up to zero: the node is deleted next *)
    apply rc_inv_local with (a0 := a).
    + done.
    + done.
    + intros b Hne. simpl. by rewrite lookup_insert_ne.
    + done.
    + done.
    + bound_tac.
    + eapply rc_alloc_update with (tr := [_]); [apply Hinv| |done|done|done].
      intros b. simpl. by eapply rc_is_Some_insert_same.
    + done.
    + simpl. by rewrite lookup_insert_eq.
    + intros n'. simpl. rewrite lookup_insert_eq. intros [= <-].
      apply rc_detached_reaper; lia.
    + apply (rc_next_frame l Σ tid L' σ'); [done| |done].
      intros b m Hm Hc. simpl. destruct (decide (b = a)) as [->|Hne].
      * rewrite lookup_insert_eq. rewrite Hn in Hm. injection Hm as <-. eauto.
      * rewrite lookup_insert_ne by done. eauto.
  - (* other threads still hold the node *)
    apply rc_inv_local with (a0 := a).
    + done.
    + done.
    + intros b Hne. simpl. by rewrite lookup_insert_ne.
    + done.
    + done.
    + bound_tac.
    + eapply rc_alloc_update with (tr := [_]); [apply Hinv| |done|done|done].
      intros b. simpl. by eapply rc_is_Some_insert_same.
    + done.
    + simpl. by rewrite lookup_insert_eq.
    + intros n'. simpl. rewrite lookup_insert_eq. intros [= <-].
      apply rc_detached_released; simpl; try lia.
      bound_tac.
    + apply (rc_next_frame l Σ tid L' σ'); [done| |done].
      intros b m Hm Hc. simpl. destruct (decide (b = a)) as [->|Hne].
      * rewrite lookup_insert_eq. rewrite Hn in Hm. injection Hm as <-. eauto.
      * rewrite lookup_insert_ne by done. eauto.
Qed.

(** What is known of a node that a thread is about to delete. *)
Lemma rc_reaper_facts l Σ tid a :
  inv_with l Σ → reaper a (at_pc (thread_of Σ tid)) = true →
  ∃ n, heap (shared Σ) !! a = Some n ∧ (a ∉ l) ∧
       count (pusher a) (threads Σ) = 0 ∧ count (holder a) (threads Σ) = 0 ∧
       count (detacher a) (threads Σ) = 0 ∧ count (reaper a) (threads Σ) = 1.
Proof.
  intros Hinv Hr.
  destruct (rc_role_in_heap l Σ tid reaper a Hinv) as ([n Hn] & Hc); [auto|done|].
  assert (Hl : a ∉ l).
  { intros Hin. destruct (rc_chain_roles _ _ _ _ _ _ (inv_chain _ _ Hinv) Hin) as (? & ? & ?). lia. }
  destruct (inv_detached _ _ Hinv a n Hn Hl) as (H1 & _ & H3 & _).
  assert (HX : count (reaper a) (threads Σ) = 1) by lia.
  specialize (H3 HX).
  exists n. repeat split; try done; lia.
Qed.

Lemma rc_step_delete l Σ tid a (k' : pc T) :
  inv_with l Σ → reaper a (at_pc (thread_of Σ tid)) = true →
  (∀ b, pusher b k' = false ∧ holder b k' = false ∧ detacher b k' = false ∧
        reaper b k' = false) →
  k' ≠ Fault → (∀ t nx, k' ≠ PopCas t nx) →
  inv (let '(L', σ') :=
         match delete_node tid a (shared Σ) with
         | Some σ' => (goto k' (thread_of Σ tid), σ')
         | None => fault (thread_of Σ tid) (shared Σ)
         end in
       {| shared := σ'; threads := <[tid := L']> (threads Σ) |}).
Proof.
  intros Hinv Hr Hk' Hnf Hnc.
  destruct (rc_reaper_facts l Σ tid a Hinv Hr) as (n & Hn & Hl & HP & HH & HD & HX).
  destruct (delete_node tid a (shared Σ)) as [σ'|] eqn:Hdel.
  2:{ unfold delete_node in Hdel. by rewrite Hn in Hdel. }
  destruct (rc_alloc_delete _ _ _ _ (inv_alloc _ _ Hinv) Hdel)
    as (Halloc & _ & Hheap & Hhead & Htrace).
  exists l. set (L' := goto k' (thread_of Σ tid)).
  destruct (rc_counts_move a Σ tid L') as (EP & EH & ED & EX).
  destruct (Hk' a) as (K1 & K2 & K3 & K4).
  simpl in EP, EH, ED, EX. rewrite K1 in EP. rewrite K2 in EH. rewrite K3 in ED.
  rewrite K4, Hr in EX. simpl in *.
  apply rc_inv_local with (a0 := a).
  - done.
  - done.
  - intros b Hne. rewrite Hheap. by rewrite lookup_delete_ne.
  - intros b Hne. unfold same_role. simpl. destruct (Hk' b) as (-> & -> & -> & ->).
    destruct (at_pc (thread_of Σ tid)); simpl in *; try done;
      apply bool_decide_eq_true_1 in Hr; subst;
      rewrite bool_decide_eq_false_2 by done; done.
  - done.
  - unfold bound. rewrite Htrace, length_app. lia.
  - done.
  - done.
  - intros _. lia.
  - rewrite Hheap, lookup_delete_eq. done.
  - apply (rc_next_frame l Σ tid L' σ'); [done| |].
    + intros b m Hm Hc. exists m. split; [|done].
      rewrite Hheap, lookup_delete_ne; [done|]. intros <-. lia.
    + intros t nx E. by destruct (Hnc t nx).
Qed.


Lemma rc_chain_at h ths B l : ∀ r a,
  chain h ths B r l → a ∈ l →
  ∃ n e, h !! a = Some n ∧
    (e + inner_cnt n = 1 + Z.of_nat (count (holder a) ths))%Z ∧
    (inner_cnt n ≤ 0)%Z ∧ (e ≤ B)%Z.
Proof.
  induction l as [|b l IH]; intros r a; simpl.
  - intros _ Ha. by apply elem_of_nil in Ha.
  - intros (_ & n & Hn & _ & ? & ? & ? & _ & _ & _ & Hrest) [->|Ha]%elem_of_cons; eauto 10.
Qed.

Lemma rc_step_PopFetchSub l Σ tid a t :
  inv_with l Σ → (bound (shared Σ) < 2 ^ 31 - 2)%Z →
  at_pc (thread_of Σ tid) = PopFetchSub a t → inv (step tid Σ).
Proof.
  intros Hinv Hsmall Hpc. unfold step, step_thread. rewrite Hpc.
  destruct (rc_role_in_heap l Σ tid holder a Hinv) as ([n Hn] & Hc); [auto| |].
  { rewrite Hpc. simpl. by apply bool_decide_eq_true_2. }
  rewrite Hn. exists l.
  destruct (decide (a ∈ l)) as [Hal|Hal].
  - (* the node is still linked: its inner count is not positive *)
    destruct (rc_chain_at _ _ _ _ _ _ (inv_chain _ _ Hinv) Hal) as (n' & e & Hn' & Hsum & Hle & Hbd).
    rewrite Hn in Hn'. injection Hn' as <-.
    rewrite decide_False by lia. rewrite rc_wrap_id by lia.
    cbv beta iota. name_step σ' L'.
    assert (Hrole : ∀ b, b ≠ a → same_role b (at_pc (thread_of Σ tid)) (at_pc L')).
    { intros b Hne. rewrite Hpc. unfold L'. simpl. by role_simpl. }
    destruct (rc_counts_move a Σ tid L') as (EP & EH & ED & EX).
    rewrite Hpc in EP, EH, ED, EX. simpl in EP, EH, ED, EX.
    rewrite bool_decide_eq_true_2 in EH by done. simpl in EH.
    apply rc_inv_build with (l := l) (a0 := a);
      [done|apply Hinv| | |done|auto| | |done| | |].
    + simpl. fold (bound σ'). apply rc_chain_release with (B := bound (shared Σ)) (ths := threads Σ);
        try done; try lia; [apply Hinv| |bound_tac|apply Hinv].
      intros b Hne. by apply rc_same_role_counts, Hrole.
    + intros b Hne. simpl. by rewrite lookup_insert_ne.
    + bound_tac.
    + eapply rc_alloc_update with (tr := [_]); [apply Hinv| |done|done|done].
      intros b. simpl. by eapply rc_is_Some_insert_same.
    + simpl. by rewrite lookup_insert_eq.
    + done.
    + apply (rc_next_frame l Σ tid L' σ'); [done| |done].
      intros b m Hm Hcb. simpl. destruct (decide (b = a)) as [->|Hne].
      * rewrite lookup_insert_eq. rewrite Hn in Hm. injection Hm as <-. eauto.
      * rewrite lookup_insert_ne by done. eauto.
  - (* the node was detached *)
    destruct (inv_detached _ _ Hinv a n Hn Hal) as (H1 & H2 & H3 & H4 & H5).
    assert (HP : count (pusher a) (threads Σ) = 0).
    { destruct (decide (count (pusher a) (threads Σ) = 1)) as [E|]; [|lia].
      destruct (H2 E). lia. }
    assert (HX : count (reaper a) (threads Σ) = 0).
    { destruct (decide (count (reaper a) (threads Σ) = 1)) as [E|]; [|lia].
      specialize (H3 E). lia. }
    destruct (decide (count (detacher a) (threads Σ) = 0)) as [HD|HD].
    + (* its counts were added up: the inner count is the number of holders *)
      destruct (H5 HP HD HX) as (Hin & Hge & Hbd).
      rewrite rc_wrap_id by lia.
      destruct (decide (inner_cnt n = 1%Z)) as [Hone|Hone];
        cbv beta iota; name_step σ' L';
        destruct (rc_counts_move a Σ tid L') as (EP & EH & ED & EX);
        rewrite Hpc in EP, EH, ED, EX; simpl in EP, EH, ED, EX;
        rewrite ?bool_decide_eq_true_2 in EH by done;
        rewrite ?bool_decide_eq_true_2 in EX by done; simpl in EH, EX;
        (assert (Hrole : ∀ b, b ≠ a → same_role b (at_pc (thread_of Σ tid)) (at_pc L'))
          by (intros b Hne; rewrite Hpc; unfold L'; simpl; by role_simpl)).
      * (* the last holder: the node is deleted next *)
        apply rc_inv_local with (a0 := a);
          [done|done| |done|done| | |done| | |].
        -- intros b Hne. simpl. by rewrite lookup_insert_ne.
        -- bound_tac.
        -- eapply rc_alloc_update with (tr := [_]); [apply Hinv| |done|done|done].
           intros b. simpl. by eapply rc_is_Some_insert_same.
        -- simpl. by rewrite lookup_insert_eq.
        -- intros n'. simpl. rewrite lookup_insert_eq. intros [= <-].
           apply rc_detached_reaper; lia.
        -- apply (rc_next_frame l Σ tid L' σ'); [done| |done].
           intros b m Hm Hcb. simpl. destruct (decide (b = a)) as [->|Hne].
           ++ rewrite lookup_insert_eq. rewrite Hn in Hm. injection Hm as <-. eauto.
           ++ rewrite lookup_insert_ne by done. eauto.
      * apply rc_inv_local with (a0 := a);
          [done|done| |done|done| | |done| | |].
        -- intros b Hne. simpl. by rewrite lookup_insert_ne.
        -- bound_tac.
        -- eapply rc_alloc_update with (tr := [_]); [apply Hinv| |done|done|done].
           intros b. simpl. by eapply rc_is_Some_insert_same.
        -- simpl. by rewrite lookup_insert_eq.
        -- intros n'. simpl. rewrite lookup_insert_eq. intros [= <-].
           apply rc_detached_released; simpl; try lia. bound_tac.
        -- apply (rc_next_frame l Σ tid L' σ'); [done| |done].
           intros b m Hm Hcb. simpl. destruct (decide (b = a)) as [->|Hne].
           ++ rewrite lookup_insert_eq. rewrite Hn in Hm. injection Hm as <-. eauto.
           ++ rewrite lookup_insert_ne by done. eauto.
    + (* the thread that detached it has not added its count yet *)
      assert (HD1 : count (detacher a) (threads Σ) = 1) by lia.
      destruct (rc_count_exists (detacher a) (threads Σ)) as (td & Ld & HLd & Hdd); [lia|].
      destruct (H4 _ _ HLd Hdd) as (Hsum & Hle & Hbd).
      rewrite decide_False by lia. rewrite rc_wrap_id by lia.
      cbv beta iota. name_step σ' L'.
      destruct (rc_counts_move a Σ tid L') as (EP & EH & ED & EX).
      rewrite Hpc in EP, EH, ED, EX. simpl in EP, EH, ED, EX.
      rewrite ?bool_decide_eq_true_2 in EH by done. simpl in EH.
      assert (Hrole : ∀ b, b ≠ a → same_role b (at_pc (thread_of Σ tid)) (at_pc L')).
      { intros b Hne. rewrite Hpc. unfold L'. simpl. by role_simpl. }
      apply rc_inv_local with (a0 := a);
        [done|done| |done|done| | |done| | |].
      * intros b Hne. simpl. by rewrite lookup_insert_ne.
      * bound_tac.
      * eapply rc_alloc_update with (tr := [_]); [apply Hinv| |done|done|done].
        intros b. simpl. by eapply rc_is_Some_insert_same.
      * simpl. by rewrite lookup_insert_eq.
      * intros n'. simpl. rewrite lookup_insert_eq. intros [= <-].
        apply rc_detached_detacher; simpl; try lia.
        intros tid' L1. destruct (decide (tid = tid')) as [<-|Hne].
        -- rewrite lookup_insert_eq. intros [= <-]. done.
        -- rewrite lookup_insert_ne by done. intros HL1 Hd1.
           destruct (H4 _ _ HL1 Hd1) as (? & ? & ?).
           repeat split; try lia. bound_tac.
      * apply (rc_next_frame l Σ tid L' σ'); [done| |done].
        intros b m Hm Hcb. simpl. destruct (decide (b = a)) as [->|Hne].
        -- rewrite lookup_insert_eq. rewrite Hn in Hm. injection Hm as <-. eauto.
        -- rewrite lookup_insert_ne by done. eauto.
Qed.


Lemma rc_step_inv tid Σ :
  inv Σ → (bound (shared Σ) < 2 ^ 31 - 2)%Z →
  running (at_pc (thread_of Σ tid)) = true → inv (step tid Σ).
Proof.
  intros [l Hinv] Hsmall Hrun.
  destruct (at_pc (thread_of Σ tid)) eqn:Hpc; try done.
  - by eapply rc_step_PushNew.
  - by eapply rc_step_PushLoad.
  - by eapply rc_step_PushCas.
  - by eapply rc_step_PopLoad.
  - by eapply rc_step_PopIncrease.
  - by eapply rc_step_PopNext.
  - by eapply rc_step_PopCas.
  - by eapply rc_step_PopSwap.
  - by eapply rc_step_PopFetchAdd.
  - unfold step, step_thread. rewrite Hpc.
    apply (rc_step_delete l Σ tid a (PopRet res)); try done.
    by rewrite Hpc; simpl; apply bool_decide_eq_true_2.
  - by eapply rc_step_PopFetchSub.
  - by eapply rc_step_PopLoadInner.
  - unfold step, step_thread. rewrite Hpc.
    apply (rc_step_delete l Σ tid a (PopIncrease t)); try done.
    by rewrite Hpc; simpl; apply bool_decide_eq_true_2.
  - by eapply rc_step_PopRet.
Qed.

Lemma rc_step_bound tid Σ : (bound (shared (step tid Σ)) ≤ bound (shared Σ) + 1)%Z.
Proof.
  unfold step, step_thread, pop_return, fault, delete_node, new.
  repeat case_match; simplify_eq; bound_tac.
Qed.

Lemma rc_exec_inv a Σ Σ' :
  inv Σ → (bound (shared Σ) < 2 ^ 31 - 2)%Z → exec a Σ = Some Σ' →
  inv Σ' ∧ (bound (shared Σ') ≤ bound (shared Σ) + 1)%Z.
Proof.
  intros Hinv Hsmall. destruct a as [tid c|tid]; simpl.
  - destruct (at_pc (thread_of Σ tid)) eqn:Hpc; try done.
    destruct (destroyed (shared Σ)); [done|]. intros [= <-].
    split; [|simpl; lia]. destruct Hinv as [l Hinv]. exists l.
    apply rc_inv_frame; try done; try apply Hinv.
    + intros b. rewrite Hpc. destruct c; by role_simpl.
    + destruct c; done.
    + destruct c; done.
  - destruct (running (at_pc (thread_of Σ tid))) eqn:Hrun; [|done]. intros [= <-].
    split; [by apply rc_step_inv|apply rc_step_bound].
Qed.

Lemma rc_run_inv sched : ∀ Σ Σ',
  inv Σ → (bound (shared Σ) + Z.of_nat (length sched) < 2 ^ 31 - 1)%Z →
  run sched Σ = Some Σ' → inv Σ'.
Proof.
  induction sched as [|a sched IH]; intros Σ Σ' Hinv Hsmall; simpl.
  - by intros [= <-].
  - destruct (exec a Σ) as [Σ1|] eqn:E; [|done]. simpl in Hsmall.
    destruct (rc_exec_inv a Σ Σ1 Hinv) as [Hinv1 Hb1]; [lia|done|].
    apply IH; [done|lia].
Qed.

Lemma rc_init_inv mem : inv (init (T:=T) mem).
Proof.
  exists []. split; simpl; try done.
  - apply NoDup_nil_2.
  - split; simpl.
    + intros a [? Ha]. by rewrite lookup_empty in Ha.
    + intros a Ha. by apply elem_of_nil in Ha.
    + intros a Ha. lia.
    + apply NoDup_nil_2.
    + lia.
Qed.


Lemma rc_chain_linked h ths B l : ∀ r, chain h ths B r l → linked h r l.
Proof.
  induction l as [|a l IH]; intros r; simpl; [tauto|].
  intros (Hp & n & Hn & _ & _ & _ & _ & _ & _ & _ & Hrest). eauto.
Qed.

Lemma rc_quiescent_count Σ f : quiescent Σ → f Idle = false → count f (threads Σ) = 0.
Proof.
  intros Hq Hf. destruct (count f (threads Σ)) as [|c] eqn:E; [done|].
  destruct (rc_count_exists f (threads Σ)) as (tid & L & HL & HfL); [lia|].
  specialize (Hq tid). unfold thread_of in Hq. rewrite HL in Hq. simpl in Hq. congruence.
Qed.

Lemma rc_inv_quiescent l Σ a :
  inv_with l Σ → quiescent Σ → is_Some (heap (shared Σ) !! a) → a ∈ l.
Proof.
  intros Hinv Hq [n Hn]. destruct (decide (a ∈ l)) as [|Hal]; [done|].
  destruct (inv_detached _ _ Hinv a n Hn Hal) as (_ & _ & _ & _ & H5).
  destruct H5 as (_ & ? & _); try by apply rc_quiescent_count.
  rewrite rc_quiescent_count in * by done. lia.
Qed.

Lemma rc_inv_thread_no_fault l Σ tid : inv_with l Σ → at_pc (thread_of Σ tid) ≠ Fault.
Proof.
  intros Hinv. unfold thread_of. destruct (threads Σ !! tid) as [L|] eqn:E; simpl; [|done].
  by eapply inv_no_fault.
Qed.

(** The successful path of pop, lines 129-133, in a state that can be reached. *)
Lemma rc_inv_fetch_add l Σ tid t res :
  inv_with l Σ → (bound (shared Σ) < 2 ^ 31 - 2)%Z →
  at_pc (thread_of Σ tid) = PopFetchAdd t res →
  ∃ n, heap (shared Σ) !! p t = Some n ∧
    (external_cnt t + inner_cnt n - 2 = Z.of_nat (count (holder (p t)) (threads Σ)))%Z ∧
    step_thread tid (thread_of Σ tid) (shared Σ) =
      (goto (if decide (external_cnt t + inner_cnt n - 2 = 0)%Z
             then PopDeleteAdd (p t) res else PopRet res) (thread_of Σ tid),
       emit (EvFetchAdd tid (p t) (external_cnt t - 2) (inner_cnt n) memory_order_release)
            (set_inner (p t) n (external_cnt t + inner_cnt n - 2) (shared Σ))).
Proof.
  intros Hinv Hsmall Hpc.
  destruct (rc_detacher_facts l Σ tid (p t) Hinv)
    as (n & Hn & Hl & HP & HD & HX & Hsum & Hle & Hbd).
  { rewrite Hpc. simpl. by apply bool_decide_eq_true_2. }
  rewrite Hpc in Hsum, Hbd. simpl in Hsum, Hbd.
  exists n. split; [done|]. split; [lia|].
  unfold step_thread. rewrite Hpc, Hn.
  rewrite (rc_wrap_id (external_cnt t - 2)) by lia.
  rewrite (rc_wrap_id (- (external_cnt t - 2))) by lia.
  rewrite (rc_wrap_id (inner_cnt n + (external_cnt t - 2))) by lia.
  replace (inner_cnt n + (external_cnt t - 2))%Z
    with (external_cnt t + inner_cnt n - 2)%Z by lia.
  destruct (decide (inner_cnt n = (- (external_cnt t - 2))%Z)) as [E|E].
  - by rewrite decide_True by lia.
  - by rewrite decide_False by lia.
Qed.

(** The failed path of pop, lines 136-140, in a state that can be reached. *)
Lemma rc_inv_fetch_sub l Σ tid a t :
  inv_with l Σ → (bound (shared Σ) < 2 ^ 31 - 2)%Z →
  at_pc (thread_of Σ tid) = PopFetchSub a t →
  ∃ n, heap (shared Σ) !! a = Some n ∧
    step_thread tid (thread_of Σ tid) (shared Σ) =
      (goto (if decide (inner_cnt n - 1 = 0)%Z
             then PopLoadInner a t else PopIncrease t) (thread_of Σ tid),
       emit (EvFetchSub tid a 1 (inner_cnt n) memory_order_relaxed)
            (set_inner a n (inner_cnt n - 1) (shared Σ))).
Proof.
  intros Hinv Hsmall Hpc.
  destruct (rc_role_in_heap l Σ tid holder a Hinv) as ([n Hn] & Hc); [auto| |].
  { rewrite Hpc. simpl. by apply bool_decide_eq_true_2. }
  exists n. split; [done|].
  assert (Hrange : (- bound (shared Σ) ≤ inner_cnt n ≤ bound (shared Σ))%Z).
  { pose proof (rc_bound_pos (shared Σ)).
    destruct (decide (a ∈ l)) as [Hal|Hal].
    - destruct (rc_chain_at _ _ _ _ _ _ (inv_chain _ _ Hinv) Hal) as (n' & e & Hn' & ? & ? & ?).
      rewrite Hn in Hn'. injection Hn' as <-. lia.
    - destruct (inv_detached _ _ Hinv a n Hn Hal) as (H1 & H2 & H3 & H4 & H5).
      destruct (decide (count (detacher a) (threads Σ) = 0)) as [HD|HD].
      + assert (HP : count (pusher a) (threads Σ) = 0).
        { destruct (decide (count (pusher a) (threads Σ) = 1)) as [E|]; [|lia].
          destruct (H2 E). lia. }
        assert (HX : count (reaper a) (threads Σ) = 0).
        { destruct (decide (count (reaper a) (threads Σ) = 1)) as [E|]; [|lia].
          specialize (H3 E). lia. }
        destruct (H5 HP HD HX) as (? & ? & ?). lia.
      + destruct (rc_count_exists (detacher a) (threads Σ)) as (td & Ld & HLd & Hdd); [lia|].
        destruct (H4 _ _ HLd Hdd) as (? & ? & ?). lia. }
  unfold step_thread. rewrite Hpc, Hn. rewrite rc_wrap_id by lia.
  destruct (decide (inner_cnt n = 1%Z)) as [E|E].
  - by rewrite decide_True by lia.
  - by rewrite decide_False by lia.
Qed.

(** [delete p] in a state that can be reached: the node is there, and it
    was not deleted before. *)
Lemma rc_inv_delete l Σ tid a :
  inv_with l Σ → deleting (at_pc (thread_of Σ tid)) = Some a →
  ∃ n, heap (shared Σ) !! a = Some n ∧ (a ∉ freed (shared Σ)) ∧
    heap (shared (step tid Σ)) = delete a (heap (shared Σ)) ∧
    freed (shared (step tid Σ)) = freed (shared Σ) ++ [a].
Proof.
  intros Hinv Hd.
  assert (Hr : reaper a (at_pc (thread_of Σ tid)) = true).
  { destruct (at_pc (thread_of Σ tid)); simpl in *; try done;
      injection Hd as ->; by apply bool_decide_eq_true_2. }
  destruct (rc_reaper_facts l Σ tid a Hinv Hr) as (n & Hn & _).
  exists n. split; [done|]. split.
  { intros Hf. destruct (alloc_freed _ (inv_alloc _ _ Hinv) a Hf). congruence. }
  unfold step, step_thread.
  destruct (at_pc (thread_of Σ tid)) eqn:Hpc; simpl in Hd; try done;
    injection Hd as ->; unfold delete_node; rewrite Hn; simpl;
    unfold freed; simpl; by rewrite omap_app.
Qed.


Lemma rc_exec_bound a Σ Σ' :
  exec a Σ = Some Σ' → (bound (shared Σ') ≤ bound (shared Σ) + 1)%Z.
Proof.
  destruct a as [tid c|tid]; simpl.
  - repeat case_match; try done. intros [= <-]. simpl. lia.
  - case_match; [|done]. intros [= <-]. apply rc_step_bound.
Qed.

Lemma rc_run_bound sched : ∀ Σ Σ',
  run sched Σ = Some Σ' → (bound (shared Σ') ≤ bound (shared Σ) + Z.of_nat (length sched))%Z.
Proof.
  induction sched as [|a sched IH]; intros Σ Σ'; simpl.
  - intros [= <-]. lia.
  - destruct (exec a Σ) as [Σ1|] eqn:E; [|done]. intros Hrun.
    apply rc_exec_bound in E. apply IH in Hrun. lia.
Qed.

(** A thread comes to a [delete] only through the test of line 131 or the
    test of line 136, when the test found the count at zero. *)
Lemma rc_step_to_delete tid L σ L' σ' a :
  step_thread tid L σ = (L', σ') → deleting (at_pc L') = Some a →
  deleting (at_pc L) = None →
  (∃ t res n, at_pc L = PopFetchAdd t res ∧ p t = a ∧ heap σ !! a = Some n ∧
              inner_cnt n = wrap (- wrap (external_cnt t - 2))) ∨
  (∃ t, at_pc L = PopLoadInner a t).
Proof.
  unfold step_thread, pop_return, fault. intros Hs Hd Hn.
  destruct (at_pc L) eqn:Hpc; repeat case_match; simplify_eq; simpl in *; simplify_eq;
    try (rewrite Hpc in Hd; simpl in Hd; congruence); eauto 10.
Qed.

Lemma rc_step_to_load_inner tid L σ L' σ' a t :
  step_thread tid L σ = (L', σ') → at_pc L' = PopLoadInner a t →
  ∃ n, at_pc L = PopFetchSub a t ∧ heap σ !! a = Some n ∧ inner_cnt n = 1%Z.
Proof.
  unfold step_thread, pop_return, fault. intros Hs Hd.
  destruct (at_pc L) eqn:Hpc; repeat case_match; simplify_eq; simpl in *; simplify_eq;
    try (rewrite Hpc in Hd; simpl in Hd; congruence); eauto 10.
Qed.

(** Only the steps of lines 132 and 139 delete. *)
Lemma rc_step_freed tid L σ L' σ' :
  step_thread tid L σ = (L', σ') →
  freed σ' = freed σ ++ match deleting (at_pc L) with Some a => [a] | None => [] end
  ∨ at_pc L' = Fault.
Proof.
  unfold step_thread, pop_return, fault, delete_node, new. intros Hs.
  destruct (at_pc L) eqn:Hpc; repeat case_match; simplify_eq; simpl;
    unfold freed; simpl; rewrite ?omap_app; simpl; rewrite ?app_nil_r; auto;
    simpl in *; simplify_eq; auto.
Qed.

End SplitRefFacts.

(* ===================================================================== *)
(** * The claims *)
(* ===================================================================== *)

(** C1.  From an empty stack and with no other thread at work, push(1),
    push(2), push(3) followed by three pops return 3, 2, 1 in that order,
    for the stack with hazard pointers and for the stack with split
    reference counts (whatever room the free store has beyond the three
    nodes). *)
Theorem lifo_push_1_2_3_pop_3_2_1 (m : nat) :
  Scenario.hp_lifo (3 + m)
    = Some [Some Void; Some Void; Some Void;
            Some (Value (Some 3)); Some (Value (Some 2)); Some (Value (Some 1))] ∧
  Scenario.rc_lifo (3 + m)
    = Some [Some Void; Some Void; Some Void;
            Some (Value (Some 3)); Some (Value (Some 2)); Some (Value (Some 1))].
Proof. split; vm_compute; reflexivity. Qed.

Section SplitRefDeletion.
Import SplitRef.
Context {T : Type}.
Implicit Types (Σ : state T) (σ : memory T) (L : thread T) (k : pc T).

(** C2.  In every state the stack with split reference counts can reach,
    whatever the interleaving of the threads (for schedules shorter than
    2^31 actions, so that no count overflows):
    - no thread has used or deleted a node that was deleted, no address was
      deleted twice, and an address that was handed out is deleted exactly
      when it is no longer allocated;
    - line 131: the node of a thread that took it out of [head_] is
      allocated; external count at detach plus inner count minus 2 is the
      number of threads that still hold the node; the step adds
      [external_cnt - 2] to [inner_cnt] with release order and goes on to
      [delete] (line 132) exactly when the sum is zero, else it returns;
    - line 136: the step subtracts 1 from [inner_cnt] with relaxed order and
      goes on to lines 137-139 exactly when that leaves zero;
    - line 137 leads to line 139, and the steps of lines 132 and 139 delete
      a node that is allocated and was never deleted before;
    - no other step deletes anything, and a thread comes to lines 132 and
      139 only through these two tests;
    - when no thread is inside a call, every address that was handed out is
      either linked from [head_] (and allocated) or was deleted, once. *)
Theorem rc_node_deleted_exactly_once sched mem Σ :
  run sched (init mem) = Some Σ → (Z.of_nat (length sched) < 2 ^ 31 - 4)%Z →
  (∀ tid, at_pc (thread_of Σ tid) ≠ Fault) ∧
  NoDup (freed (shared Σ)) ∧
  (∀ a, 0 < a < brk (shared Σ) → a ∈ freed (shared Σ) ↔ heap (shared Σ) !! a = None) ∧
  (∀ tid t res, at_pc (thread_of Σ tid) = PopFetchAdd t res →
     ∃ n, heap (shared Σ) !! p t = Some n ∧
       (external_cnt t + inner_cnt n - 2 = Z.of_nat (count (holder (p t)) (threads Σ)))%Z ∧
       step_thread tid (thread_of Σ tid) (shared Σ) =
         (goto (if decide (external_cnt t + inner_cnt n - 2 = 0)%Z
                then PopDeleteAdd (p t) res else PopRet res) (thread_of Σ tid),
          emit (EvFetchAdd tid (p t) (external_cnt t - 2) (inner_cnt n) memory_order_release)
               (set_inner (p t) n (external_cnt t + inner_cnt n - 2) (shared Σ)))) ∧
  (∀ tid a t, at_pc (thread_of Σ tid) = PopFetchSub a t →
     ∃ n, heap (shared Σ) !! a = Some n ∧
       step_thread tid (thread_of Σ tid) (shared Σ) =
         (goto (if decide (inner_cnt n - 1 = 0)%Z
                then PopLoadInner a t else PopIncrease t) (thread_of Σ tid),
          emit (EvFetchSub tid a 1 (inner_cnt n) memory_order_relaxed)
               (set_inner a n (inner_cnt n - 1) (shared Σ)))) ∧
  (∀ tid a t, at_pc (thread_of Σ tid) = PopLoadInner a t →
     step_thread tid (thread_of Σ tid) (shared Σ) =
       (goto (PopDeleteSub a t) (thread_of Σ tid),
        emit (EvInnerLoad tid a memory_order_acquire) (shared Σ))) ∧
  (∀ tid a, deleting (at_pc (thread_of Σ tid)) = Some a →
     ∃ n, heap (shared Σ) !! a = Some n ∧ (a ∉ freed (shared Σ)) ∧
       heap (shared (step tid Σ)) = delete a (heap (shared Σ)) ∧
       freed (shared (step tid Σ)) = freed (shared Σ) ++ [a]) ∧
  (∀ tid, deleting (at_pc (thread_of Σ tid)) = None →
     freed (shared (step tid Σ)) = freed (shared Σ)) ∧
  (∀ tid a, deleting (at_pc (thread_of (step tid Σ) tid)) = Some a →
     deleting (at_pc (thread_of Σ tid)) = None →
     (∃ t res n, at_pc (thread_of Σ tid) = PopFetchAdd t res ∧ p t = a ∧
                 heap (shared Σ) !! a = Some n ∧ (external_cnt t + inner_cnt n - 2 = 0)%Z) ∨
     (∃ t n, at_pc (thread_of Σ tid) = PopLoadInner a t ∧ heap (shared Σ) !! a = Some n)) ∧
  (∀ tid a t, at_pc (thread_of (step tid Σ) tid) = PopLoadInner a t →
     ∃ n, at_pc (thread_of Σ tid) = PopFetchSub a t ∧
          heap (shared Σ) !! a = Some n ∧ inner_cnt n = 1%Z) ∧
  (quiescent Σ →
     ∃ l, NoDup l ∧ linked (heap (shared Σ)) (head_ (shared Σ)) l ∧
       ∀ a, 0 < a < brk (shared Σ) →
         (a ∈ l ∧ is_Some (heap (shared Σ) !! a) ∧ (a ∉ freed (shared Σ))) ∨
         ((a ∉ l) ∧ heap (shared Σ) !! a = None ∧ a ∈ freed (shared Σ))).
Proof.
  intros Hrun Hlen.
  assert (Hb : (bound (shared Σ) < 2 ^ 31 - 2)%Z).
  { pose proof (rc_run_bound _ _ _ Hrun) as Hb.
    change (bound (shared (init (T:=T) mem))) with 1%Z in Hb. lia. }
  assert (Hinv : inv Σ).
  { apply (rc_run_inv sched (init mem) Σ); [apply rc_init_inv| |exact Hrun].
    change (bound (shared (init (T:=T) mem))) with 1%Z. lia. }
  assert (Hstep : ∀ tid, step tid Σ =
            {| shared := (step_thread tid (thread_of Σ tid) (shared Σ)).2;
               threads := <[tid := (step_thread tid (thread_of Σ tid) (shared Σ)).1]>
                            (threads Σ) |}).
  { intros tid. unfold step. by destruct (step_thread tid (thread_of Σ tid) (shared Σ)). }
  assert (Hnf : ∀ tid, at_pc (step_thread tid (thread_of Σ tid) (shared Σ)).1 ≠ Fault).
  { intros tid. destruct (running (at_pc (thread_of Σ tid))) eqn:Hr.
    - destruct (rc_step_inv tid Σ Hinv Hb Hr) as [l' Hinv'].
      pose proof (rc_inv_thread_no_fault l' _ tid Hinv') as Hf.
      by rewrite Hstep, rc_thread_of_after in Hf.
    - destruct Hinv as [l Hinv]. pose proof (rc_inv_thread_no_fault l _ tid Hinv) as Hf.
      unfold step_thread. destruct (at_pc (thread_of Σ tid)) eqn:Hpc; try done;
        simpl; by rewrite Hpc. }
  destruct Hinv as [l Hinv]. pose proof (inv_alloc _ _ Hinv) as Ha.
  split; [intros tid; by eapply rc_inv_thread_no_fault|].
  split; [apply Ha|].
  split.
  { intros a Hr. split; [by intros [? ?]%(alloc_freed _ Ha)|].
    intros Hn. destruct (alloc_all _ Ha a Hr) as [[? ?]|?]; [congruence|done]. }
  split; [intros tid t res; by apply (rc_inv_fetch_add l)|].
  split; [intros tid a t; by apply (rc_inv_fetch_sub l)|].
  split.
  { intros tid a t Hpc.
    destruct (rc_reaper_facts l Σ tid a Hinv) as (n & Hn & _).
    { rewrite Hpc. simpl. by apply bool_decide_eq_true_2. }
    unfold step_thread. by rewrite Hpc, Hn. }
  split; [intros tid a; by apply (rc_inv_delete l)|].
  split.
  { intros tid Hd. rewrite Hstep. cbn [shared].
    destruct (step_thread tid (thread_of Σ tid) (shared Σ)) as [L' σ'] eqn:E. cbn [snd].
    destruct (rc_step_freed _ _ _ _ _ E) as [->|Hf].
    - rewrite Hd. by rewrite app_nil_r.
    - specialize (Hnf tid). by rewrite E in Hnf. }
  split.
  { intros tid a. rewrite Hstep, rc_thread_of_after.
    destruct (step_thread tid (thread_of Σ tid) (shared Σ)) as [L' σ'] eqn:E. cbn [fst].
    intros Hd Hn.
    destruct (rc_step_to_delete _ _ _ _ _ _ E Hd Hn)
      as [(t & res & n & Hpc & Hp & Hh & Hi)|[t Hpc]].
    - left. exists t, res, n. repeat split; try done.
      destruct (rc_inv_fetch_add l Σ tid t res Hinv Hb Hpc) as (n' & Hn' & _ & Hs).
      rewrite Hp in Hn'. simplify_eq. rewrite E in Hs.
      destruct (decide (external_cnt t + inner_cnt n - 2 = 0)%Z); [done|].
      simplify_eq.
    - right. destruct (rc_reaper_facts l Σ tid a Hinv) as (n & Hh & _).
      { rewrite Hpc. simpl. by apply bool_decide_eq_true_2. }
      eauto. }
  split.
  { intros tid a t. rewrite Hstep, rc_thread_of_after.
    destruct (step_thread tid (thread_of Σ tid) (shared Σ)) as [L' σ'] eqn:E. cbn [fst].
    intros Hpc. by eapply rc_step_to_load_inner. }
  intros Hq. exists l. split; [apply Hinv|]. split.
  { eapply rc_chain_linked, Hinv. }
  intros a Hr. destruct (alloc_all _ Ha a Hr) as [Hs|Hf].
  - left. split; [by eapply rc_inv_quiescent|]. split; [done|].
    intros [Hn _]%(alloc_freed _ Ha). rewrite Hn in Hs. by destruct Hs.
  - right. destruct (alloc_freed _ Ha a Hf) as [Hn _]. split; [|done].
    intros Hl. destruct (rc_chain_in_heap _ _ _ _ _ a (inv_chain _ _ Hinv) Hl) as [? ?].
    congruence.
Qed.

End SplitRefDeletion.

Lemma rc_node_deleted_exactly_once_witness :
  SplitRef.run Scenario.rc_two_poppers (SplitRef.init 3) = Some Scenario.rc_two_poppers_state ∧
  (Z.of_nat (length Scenario.rc_two_poppers) < 2 ^ 31 - 4)%Z ∧
  NoDup (SplitRef.freed (SplitRef.shared Scenario.rc_two_poppers_state)) ∧
  ∃ n, SplitRef.heap (SplitRef.shared Scenario.rc_two_poppers_state) !! 1 = Some n ∧
    SplitRef.step_thread 1 (SplitRef.thread_of Scenario.rc_two_poppers_state 1)
        (SplitRef.shared Scenario.rc_two_poppers_state) =
      (SplitRef.goto
         (if decide (SplitRef.inner_cnt n - 1 = 0)%Z
          then SplitRef.PopLoadInner 1 {| SplitRef.external_cnt := 3; SplitRef.p := 1 |}
          else SplitRef.PopIncrease {| SplitRef.external_cnt := 3; SplitRef.p := 1 |})
         (SplitRef.thread_of Scenario.rc_two_poppers_state 1),
       SplitRef.emit (SplitRef.EvFetchSub 1 1 1 (SplitRef.inner_cnt n)
                        SplitRef.memory_order_relaxed)
         (SplitRef.set_inner 1 n (SplitRef.inner_cnt n - 1)
            (SplitRef.shared Scenario.rc_two_poppers_state))).
Proof.
  assert (Hrun : SplitRef.run Scenario.rc_two_poppers (SplitRef.init 3)
                 = Some Scenario.rc_two_poppers_state) by (vm_compute; reflexivity).
  assert (Hlen : (Z.of_nat (length Scenario.rc_two_poppers) < 2 ^ 31 - 4)%Z)
    by (vm_compute; reflexivity).
  split; [exact Hrun|]. split; [exact Hlen|].
  destruct (rc_node_deleted_exactly_once _ _ _ Hrun Hlen) as (_ & Hnd & _ & _ & Hsub & _).
  split; [exact Hnd|].
  apply (Hsub 1 1 {| SplitRef.external_cnt := 3; SplitRef.p := 1 |}).
  vm_compute. reflexivity.
Defined.

(** C3.  What lines 86-94 and 125-136 do when thread 1 pops a node that
    thread 2 protects.  Thread 2 stands at line 83 with its slot (slot 0)
    set to node 1.  The first pop of thread 1 finds node 1 in the table and
    defers it (line 89, entry 2 holds node 1); the drain of line 93 finds
    node 1 in the table again and, at line 132, defers not node 1 but entry
    2, wrapped in the new entry 3.  Thread 1 pushes and pops once more: the
    drain now looks for the address of entry 2 in the table, does not find
    it, and deletes entry 3, entry 2 and node 1, while slot 0 still holds
    node 1.  The next step of thread 2 reads [t->next] of the deleted
    node. *)
Theorem hp_deferred_node_is_freed_while_protected :
  let view (Σ : Hazard.state nat) :=
    (Hazard.at_pc (Hazard.thread_of Σ 2),
     Hazard.HazardPointers (Hazard.shared Σ) !! 0,
     Hazard.to_delete_list_ <$> Hazard.stacks (Hazard.shared Σ) !! 0,
     [Hazard.heap (Hazard.shared Σ) !! 1; Hazard.heap (Hazard.shared Σ) !! 2;
      Hazard.heap (Hazard.shared Σ) !! 3],
     Hazard.freed (Hazard.shared Σ)) in
  view <$> Scenario.hp_reader_at_line_83
    = Some (Hazard.PopNext 1, Some {| Hazard.hp_id := Some 2; Hazard.hp_p := 1 |}, Some 0,
            [Some (Hazard.CNode {| Hazard.v := Some 5; Hazard.next := 0 |}); None; None],
            []) ∧
  view <$> Scenario.hp_after_first_pop
    = Some (Hazard.PopNext 1, Some {| Hazard.hp_id := Some 2; Hazard.hp_p := 1 |}, Some 3,
            [Some (Hazard.CNode {| Hazard.v := None; Hazard.next := 0 |});
             Some (Hazard.CData {| Hazard.data := 1; Hazard.deleter := Hazard.DelNode;
                                   Hazard.d_next := 0 |});
             Some (Hazard.CData {| Hazard.data := 2; Hazard.deleter := Hazard.DelDataToDelete;
                                   Hazard.d_next := 0 |})],
            []) ∧
  view <$> Scenario.hp_after_second_pop
    = Some (Hazard.PopNext 1, Some {| Hazard.hp_id := Some 2; Hazard.hp_p := 1 |}, Some 0,
            [None; None; None], [4; 1; 2; 3]) ∧
  (Σ ← Scenario.hp_after_second_pop;
   Σ' ← Hazard.run [Hazard.Step 2] Σ;
   Some (Hazard.at_pc (Hazard.thread_of Σ' 2))) = Some Hazard.Fault.
Proof. repeat split; vm_compute; reflexivity. Qed.

Section HazardProtection.
Import Hazard.
Context {T : Type}.
Implicit Types (Σ : state T) (σ : memory T) (L : thread T) (k : pc T).

(** C4.  In every state the process can reach, whatever the other threads
    do: the step at lines 79-80 stores the candidate [t] into the slot of
    the thread; at line 81 the slot holds the stored snapshot [t2], the step
    reads [head_] again and leaves the loop exactly when the two are equal;
    and from then on, up to the exchange of line 83, the slot of the thread
    holds the very pointer [t] that the exchange tries to take out of
    [head_]. *)
Theorem hp_protection_loop sched mem Σ tid :
  run sched (init mem) = Some Σ →
  let L := thread_of Σ tid in
  (∀ t, at_pc L = PopStore t →
     ∃ i, hazard_pointer L = Some i ∧
          step_thread tid L (shared Σ) = (goto (PopReload t) L, store_p i t (shared Σ))) ∧
  (∀ t2, at_pc L = PopReload t2 →
     ∃ i x, hazard_pointer L = Some i ∧ HazardPointers (shared Σ) !! i = Some x ∧
            hp_id x = Some tid ∧ hp_p x = t2 ∧
            ∀ st, stacks (shared Σ) !! this L = Some st →
              step_thread tid L (shared Σ) =
              (goto (if decide (head_ st = t2) then PopNext t2 else PopStore (head_ st)) L,
               shared Σ)) ∧
  (∀ t, (at_pc L = PopNext t ∨ ∃ nx, at_pc L = PopCas t nx) →
     ∃ i x, hazard_pointer L = Some i ∧ HazardPointers (shared Σ) !! i = Some x ∧
            hp_id x = Some tid ∧ hp_p x = t) ∧
  (∀ t nx st, at_pc L = PopCas t nx → stacks (shared Σ) !! this L = Some st →
     step_thread tid L (shared Σ) =
     if decide (head_ st = t)
     then (goto (PopClear t) L, set_head (this L) st nx (shared Σ))
     else (goto (PopStore (head_ st)) L, shared Σ)).
Proof.
  intros Hrun L.
  assert (Hinv : inv Σ) by (eapply hp_run_inv; [apply hp_init_inv|done]).
  assert (Hslot : uses_slot (at_pc L) →
            ∃ i x, hazard_pointer L = Some i ∧ HazardPointers (shared Σ) !! i = Some x ∧
                   hp_id x = Some tid ∧ slot_ok (at_pc L) (hp_p x)).
  { intros Hu. destruct (inv_uses _ Hinv tid Hu) as [i Hi].
    destruct (inv_owner _ Hinv tid i Hi) as (x & ? & ? & ?). eauto 10. }
  repeat split.
  - intros t Hpc. destruct Hslot as (i & x & Hi & _); [by rewrite Hpc|].
    exists i. split; [done|]. unfold step_thread. by rewrite Hpc, Hi.
  - intros t2 Hpc. destruct Hslot as (i & x & Hi & Hx & Hid & Hok); [by rewrite Hpc|].
    rewrite Hpc in Hok. exists i, x. repeat split; try done.
    intros st Hst. unfold step_thread. rewrite Hpc, Hst.
    destruct (decide (head_ st = t2)) as [->|]; done.
  - intros t [Hpc|[nx Hpc]]; (destruct Hslot as (i & x & Hi & Hx & Hid & Hok); [by rewrite Hpc|]);
      rewrite Hpc in Hok; eauto 10.
  - intros t nx st Hpc Hst. unfold step_thread. rewrite Hpc, Hst.
    by destruct (decide (head_ st = t)).
Qed.

End HazardProtection.

Lemma hp_protection_loop_witness :
  Hazard.run Scenario.hp_reader_schedule (Hazard.init 10) = Some Scenario.hp_reader_state ∧
  ∃ i x, Hazard.hazard_pointer (Hazard.thread_of Scenario.hp_reader_state 2) = Some i ∧
    Hazard.HazardPointers (Hazard.shared Scenario.hp_reader_state) !! i = Some x ∧
    Hazard.hp_id x = Some 2 ∧ Hazard.hp_p x = 1.
Proof.
  assert (Hrun : Hazard.run Scenario.hp_reader_schedule (Hazard.init 10)
                 = Some Scenario.hp_reader_state) by (vm_compute; reflexivity).
  split; [exact Hrun|].
  destruct (hp_protection_loop _ _ _ 2 Hrun) as (_ & _ & Hslot & _).
  apply (Hslot 1). left. vm_compute. reflexivity.
Defined.

(** C5, a pop on an empty stack that does not return.  The stack of object
    0 is empty and every slot of the table is owned by
    one of the threads 1, ..., 100, each of which has popped once (and got
    the empty result); thread 101 owns no slot.  Its pop throws. *)
Lemma hp_pop_on_empty_stack_throws :
  (λ Σ : Hazard.state nat,
     (Hazard.head_ <$> Hazard.stacks (Hazard.shared Σ) !! 0,
      Hazard.at_pc (Hazard.thread_of Σ 101),
      Hazard.find_unowned (Hazard.HazardPointers (Hazard.shared Σ)) 0))
    <$> Scenario.hp_all_slots_owned
    = Some (Some nullptr, Hazard.Idle, None) ∧
  (λ Σ : Hazard.state nat, Hazard.ret (Hazard.thread_of Σ 101))
    <$> Scenario.hp_pop_of_thread_101
    = Some (Some (Threw runtime_error_no_hazard_pointers)).
Proof. split; vm_compute; reflexivity. Qed.

Section EmptyPop.
Context {T : Type}.

(** C5, as the code has it.  A thread that runs alone pops [n] times from a stack
    whose head pointer is null.  With hazard pointers, if the thread owns a
    slot of the table or a slot is free: every pop returns the empty result,
    none throws, and the stack objects, the nodes and the list of deleted
    addresses are as before.  With split reference counts: every pop returns
    the empty result, none throws, the head pointer is still null, the nodes
    are as before, and each pop has added 1 to the (32-bit) external count
    kept next to the head pointer. *)
Theorem pop_on_empty_stack_returns_empty
    (Σh : Hazard.state T) (Σr : SplitRef.state T) (tid s : nat) (st : Hazard.LockFreeStack)
    (fuel n : nat) :
  Hazard.at_pc (Hazard.thread_of Σh tid) = Hazard.Idle →
  Hazard.stacks (Hazard.shared Σh) !! s = Some st → Hazard.head_ st = nullptr →
  (is_Some (Hazard.hazard_pointer (Hazard.thread_of Σh tid)) ∨
   is_Some (Hazard.find_unowned (Hazard.HazardPointers (Hazard.shared Σh)) 0)) →
  SplitRef.at_pc (SplitRef.thread_of Σr tid) = SplitRef.Idle →
  SplitRef.destroyed (SplitRef.shared Σr) = false →
  SplitRef.p (SplitRef.head_ (SplitRef.shared Σr)) = nullptr →
  length (Hazard.HazardPointers (Hazard.shared Σh)) + 10 ≤ fuel →
  (∃ Σh', Hazard.do_calls fuel tid (replicate n (Hazard.Pop s)) Σh
            = Some (replicate n (Some (Value None)), Σh') ∧
      Hazard.stacks (Hazard.shared Σh') = Hazard.stacks (Hazard.shared Σh) ∧
      Hazard.heap (Hazard.shared Σh') = Hazard.heap (Hazard.shared Σh) ∧
      Hazard.freed (Hazard.shared Σh') = Hazard.freed (Hazard.shared Σh)) ∧
  (∃ Σr', SplitRef.do_calls fuel tid (replicate n SplitRef.Pop) Σr
            = Some (replicate n (Some (Value None)), Σr') ∧
      SplitRef.p (SplitRef.head_ (SplitRef.shared Σr')) = nullptr ∧
      SplitRef.external_cnt (SplitRef.head_ (SplitRef.shared Σr'))
        = Nat.iter n (λ z, SplitRef.wrap (z + 1))
            (SplitRef.external_cnt (SplitRef.head_ (SplitRef.shared Σr))) ∧
      SplitRef.heap (SplitRef.shared Σr') = SplitRef.heap (SplitRef.shared Σr) ∧
      SplitRef.freed (SplitRef.shared Σr') = SplitRef.freed (SplitRef.shared Σr)).
Proof.
  intros Hidle Hst Hnull Hslot Hidle' Hd Hnull' Hfuel. split.
  - destruct (hp_pop_null_calls n Σh tid s st fuel Hidle Hst Hnull Hslot Hfuel)
      as (Σ' & Hcalls & _ & Hs & Hh & _ & _ & Hf & _).
    exists Σ'. by repeat split.
  - destruct (rc_pop_null_calls n Σr tid fuel Hidle' Hd Hnull') as
      (Σ' & Hcalls & _ & _ & Hp & Hext & Hh & _ & _ & Hf); [lia|].
    exists Σ'. by repeat split.
Qed.

End EmptyPop.

Lemma pop_on_empty_stack_returns_empty_witness :
  ∃ Σh' Σr',
    Hazard.do_calls 200 1 (replicate 3 (Hazard.Pop 0)) (Scenario.hp_fresh 0)
      = Some (replicate 3 (Some (Value None)), Σh') ∧
    SplitRef.do_calls 200 1 (replicate 3 SplitRef.Pop) (SplitRef.init (T:=nat) 0)
      = Some (replicate 3 (Some (Value None)), Σr') ∧
    SplitRef.external_cnt (SplitRef.head_ (SplitRef.shared Σr')) = 3%Z.
Proof.
  destruct (pop_on_empty_stack_returns_empty
              (Scenario.hp_fresh 0) (SplitRef.init (T:=nat) 0) 1 0
              {| Hazard.head_ := nullptr; Hazard.pop_cnt_ := 0;
                 Hazard.to_delete_list_ := nullptr |} 200 3)
    as [(Σh' & Hh & _) (Σr' & Hr & _ & Hext & _)].
  - reflexivity.
  - vm_compute. reflexivity.
  - reflexivity.
  - right. vm_compute. eexists. reflexivity.
  - reflexivity.
  - reflexivity.
  - reflexivity.
  - vm_compute. lia.
  - exists Σh', Σr'. split; [exact Hh|]. split; [exact Hr|]. exact Hext.
Defined.

(** C6.  One thread pushes 5, 6, 7 and the stack object is destroyed.  The
    class with hazard pointers declares no destructor: the object is gone,
    the three nodes are still allocated and nothing was deleted.  The
    destructor of the class with split reference counts (lines 99-102) pops
    until the stack is empty: no node is left, and the three nodes were
    deleted. *)
Theorem hp_destructor_leaves_the_nodes_rc_destructor_drains :
  (λ Σ : Hazard.state nat,
     (Hazard.stacks (Hazard.shared Σ) !! 0,
      [Hazard.heap (Hazard.shared Σ) !! 1; Hazard.heap (Hazard.shared Σ) !! 2;
       Hazard.heap (Hazard.shared Σ) !! 3],
      Hazard.freed (Hazard.shared Σ))) <$> Scenario.hp_destroyed [5; 6; 7]
    = Some (None,
            [Some (Hazard.CNode {| Hazard.v := Some 5; Hazard.next := 0 |});
             Some (Hazard.CNode {| Hazard.v := Some 6; Hazard.next := 1 |});
             Some (Hazard.CNode {| Hazard.v := Some 7; Hazard.next := 2 |})],
            []) ∧
  (λ Σ : SplitRef.state nat,
     (SplitRef.destroyed (SplitRef.shared Σ), SplitRef.p (SplitRef.head_ (SplitRef.shared Σ)),
      map_to_list (SplitRef.heap (SplitRef.shared Σ)),
      SplitRef.freed (SplitRef.shared Σ),
      SplitRef.ret (SplitRef.thread_of Σ 1))) <$> Scenario.rc_destroyed [5; 6; 7]
    = Some (true, nullptr, [], [3; 2; 1], Some Void).
Proof. split; vm_compute; reflexivity. Qed.

(** C7, a run in which the table fills up.  The table has no size to
    configure: [Hazard.init] takes the room of the
    free store and nothing else.  The threads 1, ..., 100 pop once each, and
    all get the empty result: nothing is reported at the start.  The pop of
    thread 101 is the first to throw.  The exception leaves the process as
    it was: when thread 1 has ended, thread 101 pops again, gets slot 0 and
    the empty result. *)
Lemma hp_exhaustion_is_found_at_a_pop_and_is_not_final :
  (λ Σ : Hazard.state nat, (λ tid, Hazard.ret (Hazard.thread_of Σ tid)) <$> seq 1 100)
    <$> Scenario.hp_all_slots_owned
    = Some (replicate 100 (Some (Value None))) ∧
  (λ Σ : Hazard.state nat,
     (Hazard.ret (Hazard.thread_of Σ 101), Hazard.hazard_pointer (Hazard.thread_of Σ 101)))
    <$> Scenario.hp_pop_of_thread_101
    = Some (Some (Threw runtime_error_no_hazard_pointers), None) ∧
  (λ Σ : Hazard.state nat,
     (Hazard.ret (Hazard.thread_of Σ 101), Hazard.hazard_pointer (Hazard.thread_of Σ 101),
      Hazard.HazardPointers (Hazard.shared Σ) !! 0))
    <$> Scenario.hp_retry_after_exit
    = Some (Some (Value None), Some 0,
            Some {| Hazard.hp_id := Some 101; Hazard.hp_p := nullptr |}).
Proof. repeat split; vm_compute; reflexivity. Qed.

Section HazardExhaustion.
Import Hazard.
Context {T : Type}.
Implicit Types (Σ : state T) (σ : memory T) (L : thread T) (k : pc T).

(** C7, what the code does.  When every slot of the table is owned and a thread that
    owns none calls pop, the constructor of its helper (lines 20-32) finds
    no slot and throws [std::runtime_error]; the exception leaves pop, the
    shared memory is as before, and the thread is back outside the call,
    still without a slot, free to call again.  The table has [MaxSize] = 100
    slots in every process: [init] takes no size. *)
Theorem hp_pop_throws_when_all_slots_are_owned Σ tid s fuel :
  at_pc (thread_of Σ tid) = Idle → hazard_pointer (thread_of Σ tid) = None →
  (∀ x, x ∈ HazardPointers (shared Σ) → hp_id x ≠ None) →
  length (HazardPointers (shared Σ)) + 2 ≤ fuel →
  (∃ Σ', do_call fuel tid (Pop s) Σ = Some Σ' ∧
     ret (thread_of Σ' tid) = Some (Threw runtime_error_no_hazard_pointers) ∧
     at_pc (thread_of Σ' tid) = Idle ∧ hazard_pointer (thread_of Σ' tid) = None ∧
     shared Σ' = shared Σ) ∧
  MaxSize = 100 ∧
  ∀ mem, length (HazardPointers (shared (init (T:=T) mem))) = MaxSize.
Proof.
  intros Hidle Hh Hfull Hfuel. split; [|split; [done|intros mem; apply length_replicate]].
  destruct (hp_pop_exhausted_call Σ tid s fuel Hidle Hh Hfull Hfuel)
    as (Σ' & Hcall & Hidle' & Hret & Hh' & Hs).
  by exists Σ'.
Qed.

End HazardExhaustion.

Lemma hp_pop_throws_when_all_slots_are_owned_witness :
  ∃ Σ', Hazard.do_call 200 101 (Hazard.Pop 0) Scenario.hp_full_state = Some Σ' ∧
        Hazard.ret (Hazard.thread_of Σ' 101) = Some (Threw runtime_error_no_hazard_pointers) ∧
        Hazard.shared Σ' = Hazard.shared Scenario.hp_full_state.
Proof.
  destruct (hp_pop_throws_when_all_slots_are_owned Scenario.hp_full_state 101 0 200)
    as [(Σ' & Hcall & Hret & _ & _ & Hs) _].
  - vm_compute. reflexivity.
  - vm_compute. reflexivity.
  - apply Forall_forall.
    apply (bool_decide_eq_true_1 (Forall (λ x, Hazard.hp_id x ≠ None) _)).
    vm_compute. reflexivity.
  - vm_compute. lia.
  - exists Σ'. split; [exact Hcall|]. split; [exact Hret|exact Hs].
Defined.

Section PushAllOrNothing.
Context {T : Type}.

(** C8.  push by a thread that runs alone, in either stack.  If the free
    store has no room, the call ends with [std::bad_alloc] thrown to its
    caller and the shared memory (head pointer, nodes, table, lists) is
    exactly as before.  Otherwise the call returns, the new node holds [x]
    and the old head as its successor, the head pointer is the new node, and
    nothing else has changed.  The step of line 67 (105-107) is the only one
    that can throw, and it throws before anything is written. *)
Theorem push_is_all_or_nothing
    (Σh : Hazard.state T) (Σr : SplitRef.state T) (tid s : nat) (x : T)
    (st : Hazard.LockFreeStack) (fuel : nat) :
  Hazard.at_pc (Hazard.thread_of Σh tid) = Hazard.Idle →
  Hazard.stacks (Hazard.shared Σh) !! s = Some st →
  SplitRef.at_pc (SplitRef.thread_of Σr tid) = SplitRef.Idle →
  SplitRef.destroyed (SplitRef.shared Σr) = false →
  3 ≤ fuel →
  (∃ Σh', Hazard.do_call fuel tid (Hazard.Push s x) Σh = Some Σh' ∧
     Hazard.at_pc (Hazard.thread_of Σh' tid) = Hazard.Idle ∧
     match Hazard.mem_avail (Hazard.shared Σh) with
     | O => Hazard.ret (Hazard.thread_of Σh' tid) = Some (Threw bad_alloc) ∧
            Hazard.shared Σh' = Hazard.shared Σh
     | S m =>
         Hazard.ret (Hazard.thread_of Σh' tid) = Some Void ∧
         Hazard.shared Σh' =
           {| Hazard.HazardPointers := Hazard.HazardPointers (Hazard.shared Σh);
              Hazard.stacks :=
                <[s := {| Hazard.head_ := Hazard.brk (Hazard.shared Σh);
                          Hazard.pop_cnt_ := Hazard.pop_cnt_ st;
                          Hazard.to_delete_list_ := Hazard.to_delete_list_ st |}]>
                  (Hazard.stacks (Hazard.shared Σh));
              Hazard.heap :=
                <[Hazard.brk (Hazard.shared Σh) :=
                    Hazard.CNode {| Hazard.v := Some x; Hazard.next := Hazard.head_ st |}]>
                  (Hazard.heap (Hazard.shared Σh));
              Hazard.brk := S (Hazard.brk (Hazard.shared Σh));
              Hazard.mem_avail := m;
              Hazard.freed := Hazard.freed (Hazard.shared Σh) |}
     end) ∧
  (∃ Σr', SplitRef.do_call fuel tid (SplitRef.Push x) Σr = Some Σr' ∧
     SplitRef.at_pc (SplitRef.thread_of Σr' tid) = SplitRef.Idle ∧
     match SplitRef.mem_avail (SplitRef.shared Σr) with
     | O => SplitRef.ret (SplitRef.thread_of Σr' tid) = Some (Threw bad_alloc) ∧
            SplitRef.shared Σr' = SplitRef.shared Σr
     | S m =>
         SplitRef.ret (SplitRef.thread_of Σr' tid) = Some Void ∧
         SplitRef.head_ (SplitRef.shared Σr')
           = {| SplitRef.external_cnt := 1; SplitRef.p := SplitRef.brk (SplitRef.shared Σr) |} ∧
         SplitRef.heap (SplitRef.shared Σr') =
           <[SplitRef.brk (SplitRef.shared Σr) :=
               {| SplitRef.v := Some x; SplitRef.inner_cnt := 0;
                  SplitRef.next := SplitRef.head_ (SplitRef.shared Σr) |}]>
             (SplitRef.heap (SplitRef.shared Σr)) ∧
         SplitRef.brk (SplitRef.shared Σr') = S (SplitRef.brk (SplitRef.shared Σr)) ∧
         SplitRef.mem_avail (SplitRef.shared Σr') = m ∧
         SplitRef.freed (SplitRef.shared Σr') = SplitRef.freed (SplitRef.shared Σr)
     end) ∧
  (∀ (L : Hazard.thread T) (σ : Hazard.memory T),
     Hazard.at_pc L = Hazard.PushNew x → Hazard.mem_avail σ = 0 →
     Hazard.step_thread tid L σ = (Hazard.leave (Threw bad_alloc) L, σ)) ∧
  (∀ (L : SplitRef.thread T) (σ : SplitRef.memory T),
     SplitRef.at_pc L = SplitRef.PushNew x → SplitRef.mem_avail σ = 0 →
     SplitRef.step_thread tid L σ = (SplitRef.leave (Threw bad_alloc) L, σ)).
Proof.
  intros Hidle Hst Hidle' Hd Hfuel.
  split; [exact (hp_push_call Σh tid s x st fuel Hidle Hst Hfuel)|].
  split; [exact (rc_push_call Σr tid x fuel Hidle' Hd Hfuel)|].
  split.
  - intros L σ Hpc Hm. unfold Hazard.step_thread, Hazard.new, Hazard.throw.
    by rewrite Hpc, Hm.
  - intros L σ Hpc Hm. unfold SplitRef.step_thread, SplitRef.new. by rewrite Hpc, Hm.
Qed.

End PushAllOrNothing.

Lemma push_is_all_or_nothing_witness :
  (∃ Σh', Hazard.do_call 3 1 (Hazard.Push 0 7) (Scenario.hp_fresh 0) = Some Σh' ∧
     Hazard.ret (Hazard.thread_of Σh' 1) = Some (Threw bad_alloc) ∧
     Hazard.shared Σh' = Hazard.shared (Scenario.hp_fresh 0)) ∧
  (∃ Σr', SplitRef.do_call 3 1 (SplitRef.Push 7) (SplitRef.init 1) = Some Σr' ∧
     SplitRef.ret (SplitRef.thread_of Σr' 1) = Some Void ∧
     SplitRef.head_ (SplitRef.shared Σr') = {| SplitRef.external_cnt := 1; SplitRef.p := 1 |}).
Proof.
  destruct (push_is_all_or_nothing (Scenario.hp_fresh 0) (SplitRef.init 1) 1 0 7
              {| Hazard.head_ := nullptr; Hazard.pop_cnt_ := 0;
                 Hazard.to_delete_list_ := nullptr |} 3)
    as ((Σh' & Hh & _ & Hh') & (Σr' & Hr & _ & Hr') & _).
  - reflexivity.
  - vm_compute. reflexivity.
  - reflexivity.
  - reflexivity.
  - lia.
  - split.
    + exists Σh'. split; [exact Hh|]. exact Hh'.
    + exists Σr'. split; [exact Hr|]. destruct Hr' as (Hret & Hhead & _).
      split; [exact Hret|exact Hhead].
Defined.

Section HazardRegistry.
Import Hazard.
Context {T : Type}.
Implicit Types (Σ : state T) (σ : memory T) (L : thread T) (k : pc T).

(** C9.  In every state the process can reach, with any number of stack
    objects and threads: the table has exactly [MaxSize] = 100 slots; a
    thread that owns a slot owns one of these 100, which carries its id; two
    threads never own the same slot; so at most 100 threads own a slot (and
    only a thread that owns a slot can publish a hazard pointer); a slot
    nobody owns holds the null pointer.  [init] takes no size: nothing sets
    the capacity at run time; [MaxSize] and the table are declared outside
    the section on the element type [T], they are the same for every [T]. *)
Theorem hp_registry_is_100_slots sched mem Σ :
  run sched (init mem) = Some Σ →
  MaxSize = 100 ∧
  length (HazardPointers (shared Σ)) = 100 ∧
  length (HazardPointers (shared (init (T:=T) mem))) = 100 ∧
  (∀ tid i, hazard_pointer (thread_of Σ tid) = Some i →
     i < 100 ∧ ∃ x, HazardPointers (shared Σ) !! i = Some x ∧ hp_id x = Some tid) ∧
  (∀ tid tid' i, hazard_pointer (thread_of Σ tid) = Some i →
     hazard_pointer (thread_of Σ tid') = Some i → tid = tid') ∧
  size (slot_of Σ) ≤ 100 ∧
  (∀ i x, HazardPointers (shared Σ) !! i = Some x → hp_p x ≠ nullptr → is_Some (hp_id x)).
Proof.
  intros Hrun.
  assert (Hinv : inv Σ) by (eapply hp_run_inv; [apply hp_init_inv|done]).
  split; [done|]. split; [apply Hinv|]. split; [apply length_replicate|].
  split; [|split; [|split]].
  - intros tid i Hi. split; [by eapply (hp_inv_slot_bound Σ)|].
    destruct (inv_owner _ Hinv tid i Hi) as (x & ? & ? & _). eauto.
  - intros tid tid' i. by apply hp_inv_slot_inj.
  - by apply hp_inv_owners_size.
  - intros i x Hx Hp. destruct (hp_id x) eqn:E; [done|].
    exfalso. apply Hp. by eapply inv_free.
Qed.

End HazardRegistry.

Lemma hp_registry_is_100_slots_witness :
  Hazard.run Scenario.hp_reader_schedule (Hazard.init 10) = Some Scenario.hp_reader_state ∧
  length (Hazard.HazardPointers (Hazard.shared Scenario.hp_reader_state)) = 100 ∧
  size (Hazard.slot_of Scenario.hp_reader_state) ≤ 100.
Proof.
  assert (Hrun : Hazard.run Scenario.hp_reader_schedule (Hazard.init 10)
                 = Some Scenario.hp_reader_state) by (vm_compute; reflexivity).
  split; [exact Hrun|].
  destruct (hp_registry_is_100_slots _ _ _ Hrun) as (_ & Hlen & _ & _ & _ & Hsize & _).
  split; [exact Hlen|exact Hsize].
Defined.

Section HazardReturn.
Import Hazard.
Context {T : Type}.
Implicit Types (Σ : state T) (σ : memory T) (L : thread T) (k : pc T).

(** C10.  In every state the process can reach, whatever the other threads
    do.  A thread that is at line 84 of pop, with [t] the node it has taken
    off the stack (or null, if the stack was empty), owns a slot, and that
    slot holds [t]: the protection the loop of lines 76-83 established is
    still there.  Its step at line 84 then stores the null pointer: the
    slot holds null afterwards, the other slots, the stacks and the heap
    are as they were, and the thread goes on to line 85.  At every return
    of pop (line 95, with an empty result or with a value) and whenever
    the thread is outside a call, the slot the thread owns holds the null
    pointer. *)
Theorem hp_pop_returns_with_slot_null sched mem Σ tid :
  run sched (init mem) = Some Σ →
  let L := thread_of Σ tid in
  (∀ t, at_pc L = PopClear t →
     ∃ i Σ',
       hazard_pointer L = Some i ∧
       HazardPointers (shared Σ) !! i = Some {| hp_id := Some tid; hp_p := t |} ∧
       step_thread tid L (shared Σ) = (goto (PopSwap t) L, store_p i nullptr (shared Σ)) ∧
       exec (Step tid) Σ = Some Σ' ∧
       thread_of Σ' tid = goto (PopSwap t) L ∧
       HazardPointers (shared Σ') !! i = Some {| hp_id := Some tid; hp_p := nullptr |} ∧
       (∀ j, j ≠ i → HazardPointers (shared Σ') !! j = HazardPointers (shared Σ) !! j) ∧
       stacks (shared Σ') = stacks (shared Σ) ∧ heap (shared Σ') = heap (shared Σ)) ∧
  (∀ i, hazard_pointer L = Some i →
     (at_pc L = Idle ∨ ∃ res, at_pc L = PopRet res) →
     ∃ x, HazardPointers (shared Σ) !! i = Some x ∧ hp_id x = Some tid ∧ hp_p x = nullptr).
Proof.
  intros Hrun L.
  assert (Hinv : inv Σ) by (eapply hp_run_inv; [apply hp_init_inv|done]).
  split.
  - intros t Hpc. destruct (inv_uses _ Hinv tid) as [i Hi]; [by fold L; rewrite Hpc|].
    fold L in Hi.
    destruct (inv_owner _ Hinv tid i Hi) as (x & Hx & Hid & Hok).
    fold L in Hok. rewrite Hpc in Hok. cbn [slot_ok] in Hok.
    assert (Hstep : step_thread tid L (shared Σ)
                    = (goto (PopSwap t) L, store_p i nullptr (shared Σ))).
    { unfold step_thread. by rewrite Hpc, Hi. }
    exists i. eexists. split; [done|]. split.
    { rewrite Hx. destruct x as [xi xp]. cbn [hp_id hp_p] in *. by subst. }
    split; [done|]. split.
    { cbn [exec]. fold L. rewrite Hpc. cbn [running]. unfold step. fold L. rewrite Hstep.
      reflexivity. }
    split; [apply hp_thread_of_after|]. cbn [shared].
    unfold store_p. rewrite Hx, Hid. cbn [set_HazardPointers HazardPointers stacks heap].
    split; [|split; [|done]].
    + apply list_lookup_insert_eq. by eapply lookup_lt_Some.
    + intros j Hj. by rewrite list_lookup_insert_ne.
  - intros i Hi Hpc. destruct (inv_owner _ Hinv tid i Hi) as (x & Hx & Hid & Hok).
    exists x. repeat split; try done. fold L in Hok.
    destruct Hpc as [Hpc|[res Hpc]]; by rewrite Hpc in Hok.
Qed.

End HazardReturn.

Lemma hp_pop_returns_with_slot_null_witness :
  Hazard.run Scenario.hp_reader_clears_schedule (Hazard.init 10)
    = Some Scenario.hp_reader_clears_state ∧
  Hazard.at_pc (Hazard.thread_of Scenario.hp_reader_clears_state 2) = Hazard.PopClear 1 ∧
  (∃ i Σ',
     Hazard.HazardPointers (Hazard.shared Scenario.hp_reader_clears_state) !! i
       = Some {| Hazard.hp_id := Some 2; Hazard.hp_p := 1 |} ∧
     Hazard.exec (Hazard.Step 2) Scenario.hp_reader_clears_state = Some Σ' ∧
     Hazard.HazardPointers (Hazard.shared Σ') !! i
       = Some {| Hazard.hp_id := Some 2; Hazard.hp_p := nullptr |}) ∧
  Hazard.run Scenario.hp_reader_returns_schedule (Hazard.init 10)
    = Some Scenario.hp_reader_returned_state ∧
  Hazard.ret (Hazard.thread_of Scenario.hp_reader_returned_state 2) = Some (Value (Some 5)) ∧
  ∃ x, Hazard.HazardPointers (Hazard.shared Scenario.hp_reader_returned_state) !! 0 = Some x ∧
       Hazard.hp_id x = Some 2 ∧ Hazard.hp_p x = nullptr.
Proof.
  assert (Hclr : Hazard.run Scenario.hp_reader_clears_schedule (Hazard.init 10)
                 = Some Scenario.hp_reader_clears_state) by (vm_compute; reflexivity).
  assert (Hpc : Hazard.at_pc (Hazard.thread_of Scenario.hp_reader_clears_state 2)
                = Hazard.PopClear 1) by (vm_compute; reflexivity).
  assert (Hrun : Hazard.run Scenario.hp_reader_returns_schedule (Hazard.init 10)
                 = Some Scenario.hp_reader_returned_state) by (vm_compute; reflexivity).
  split; [exact Hclr|]. split; [exact Hpc|]. split.
  { destruct (hp_pop_returns_with_slot_null _ _ _ 2 Hclr) as (Hclear & _).
    destruct (Hclear 1 Hpc) as (i & Σ' & _ & Hbefore & _ & Hexec & _ & Hafter & _).
    exists i, Σ'. split; [exact Hbefore|]. split; [exact Hexec|exact Hafter]. }
  split; [exact Hrun|]. split; [vm_compute; reflexivity|].
  destruct (hp_pop_returns_with_slot_null _ _ _ 2 Hrun) as (_ & Hret).
  apply Hret.
  - vm_compute. reflexivity.
  - left. vm_compute. reflexivity.
Defined.

(* ===================================================================== *)
(** * The stacks when one thread runs alone *)
(* ===================================================================== *)

Section HazardAlone.
Import Hazard.
Context {T : Type}.
Implicit Types (Σ : state T) (σ : memory T) (L : thread T) (k : pc T).

Ltac hstep :=
  repeat progress (
    unfold new, load_node, load_data, append_load, append_cas, store_p, store_id,
           fault, throw, set_head, set_to_delete_list, set_heap, set_stacks, set_HazardPointers;
    cbn [steps running at_pc this hazard_pointer ret step_thread goto leave set_helper
         heap stacks HazardPointers brk mem_avail freed v next data deleter d_next
         head_ to_delete_list_ pop_cnt_ fst snd Nat.add]).

Ltac hrun := repeat progress (hstep; try (rewrite decide_True by done)).

(** [is_existing] at line 88, when no slot from [j] on holds [t]. *)
Lemma hp_is_existing_steps tid t res suffix : ∀ j L σ,
  at_pc L = PopIsExisting t res j → drop j (HazardPointers σ) = suffix →
  (∀ x, x ∈ suffix → hp_p x ≠ t) →
  steps (S (length suffix)) tid L σ = (goto (PopDelete t res) L, σ).
Proof.
  induction suffix as [|x r IH]; intros j L σ Hpc Hdrop Hno.
  - cbn [length steps]. unfold step_thread. rewrite Hpc.
    assert (HazardPointers σ !! j = None) as ->; [|done].
    apply lookup_ge_None. apply drop_nil_inv in Hdrop; lia || done.
  - assert (Hj : HazardPointers σ !! j = Some x).
    { rewrite <-(Nat.add_0_r j), <-lookup_drop, Hdrop. done. }
    assert (Hr : drop (S j) (HazardPointers σ) = r).
    { rewrite <-(Nat.add_1_r j), <-drop_drop, Hdrop. done. }
    specialize (IH (S j) (goto (PopIsExisting t res (S j)) L) σ eq_refl Hr).
    cbn [length steps] in *. unfold step_thread at 1. rewrite Hpc, Hj.
    rewrite decide_False by (apply Hno; by left).
    destruct L. apply IH. intros y Hy. apply Hno. by right.
Qed.

(** pop on a stack at rest that is not empty, from line 75 on, run alone. *)
Lemma hp_pop_top_steps tid L σ i st t x nx :
  at_pc L = PopLoad → hazard_pointer L = Some i →
  stacks σ !! this L = Some st → head_ st = t → t ≠ nullptr →
  to_delete_list_ st = nullptr →
  heap σ !! t = Some (CNode {| v := Some x; next := nx |}) →
  (∀ y, y ∈ HazardPointers σ → hp_p y = nullptr) →
  steps (7 + (S (length (HazardPointers σ)) + 4)) tid L σ =
  (leave (Value (Some x)) L,
   {| HazardPointers := HazardPointers σ;
      stacks := <[this L := {| head_ := nx; pop_cnt_ := pop_cnt_ st;
                               to_delete_list_ := nullptr |}]> (stacks σ);
      heap := delete t (heap σ); brk := brk σ; mem_avail := S (mem_avail σ);
      freed := freed σ ++ [t] |}).
Proof.
  intros Hpc Hh Hst Ht Hne Htd Hn Hclean. destruct L as [k s h r].
  cbn [at_pc hazard_pointer this] in *. subst k h.
  set (σ7 := {| HazardPointers := HazardPointers σ;
      stacks := <[s := {| head_ := nx; pop_cnt_ := pop_cnt_ st;
                          to_delete_list_ := to_delete_list_ st |}]> (stacks σ);
      heap := <[t := CNode {| v := None; next := nx |}]> (heap σ);
      brk := brk σ; mem_avail := mem_avail σ; freed := freed σ |}).
  assert (HA : steps 7 tid {| at_pc := PopLoad; this := s; hazard_pointer := Some i; ret := r |} σ
               = ({| at_pc := PopIsExisting t (Some x) 0; this := s;
                     hazard_pointer := Some i; ret := r |}, σ7)).
  { hrun. rewrite Hst, Ht. hrun.
    destruct (HazardPointers σ !! i) as [y|] eqn:Hy; hrun.
    - rewrite Hst, Ht. hrun. rewrite decide_False by done. hrun. rewrite Hn. hrun.
      rewrite Hst, Ht. hrun.
      rewrite list_lookup_insert_eq by (by eapply lookup_lt_Some). hrun.
      rewrite decide_False by done. hrun. rewrite Hn. hrun.
      rewrite list_insert_insert_eq.
      assert (Hclean_y : hp_p y = nullptr) by (eapply Hclean, list_elem_of_lookup_2, Hy).
      rewrite (list_insert_id (HazardPointers σ) i) by (by rewrite Hy; destruct y; simpl in *; subst).
      done.
    - rewrite Hst, Ht. hrun. rewrite decide_False by done. hrun. rewrite Hn. hrun.
      rewrite Hst, Ht. hrun. rewrite Hy. hrun.
      rewrite decide_False by done. hrun. rewrite Hn. hrun. by destruct σ. }
  rewrite (hp_steps_trans 7 _ _ _ _ _ _ HA).
  assert (HB : steps (S (length (HazardPointers σ))) tid
                 {| at_pc := PopIsExisting t (Some x) 0; this := s;
                    hazard_pointer := Some i; ret := r |} σ7
               = ({| at_pc := PopDelete t (Some x); this := s;
                     hazard_pointer := Some i; ret := r |}, σ7)).
  { apply (hp_is_existing_steps tid t (Some x) (HazardPointers σ) 0); [done|done|].
    intros y Hy. rewrite (Hclean y Hy). done. }
  rewrite (hp_steps_trans _ _ _ _ _ _ _ HB).
  unfold σ7. hrun.
  unfold delete_obj, delete_rec, release. hrun.
  rewrite (lookup_insert_eq (M:=gmap nat)). hrun.
  rewrite (lookup_insert_eq (M:=gmap nat)). hrun.
  rewrite Htd. hrun.
  rewrite (insert_insert_eq (M:=gmap nat)), (delete_insert_eq (M:=gmap nat)). done.
Qed.

(** The way into pop, line 74, run alone: the thread has its slot, or takes
    the first one nobody owns; nothing else changes. *)
Lemma hp_pop_entry tid L σ :
  at_pc L = PopHelper →
  (is_Some (hazard_pointer L) ∨ is_Some (find_unowned (HazardPointers σ) 0)) →
  ∃ (c i : nat) σ1, c ≤ length (HazardPointers σ) + 1 ∧
    steps c tid L σ = (goto PopLoad (set_helper (Some i) L), σ1) ∧
    stacks σ1 = stacks σ ∧ heap σ1 = heap σ ∧ brk σ1 = brk σ ∧
    mem_avail σ1 = mem_avail σ ∧ freed σ1 = freed σ ∧
    hp_p <$> HazardPointers σ1 = hp_p <$> HazardPointers σ.
Proof.
  intros Hpc Hslot. destruct (hazard_pointer L) as [i|] eqn:Hh.
  - exists 1, i, σ. split; [lia|]. split; [|done].
    rewrite (hp_steps_first 0 _ _ _ _ _ (hp_step_PopHelper_Some tid L σ i Hpc Hh)).
    destruct L; cbn in *. by subst.
  - destruct Hslot as [[? ?]|[i Hi]]; [done|].
    pose proof (hp_ctor_steps tid (HazardPointers σ) 0 (goto (HelperCtor 0) L) σ
                  eq_refl eq_refl) as Hctor.
    rewrite Hi, Nat.sub_0_r in Hctor.
    destruct (hp_find_unowned_lookup _ _ _ Hi) as (x & Hx & Hid). rewrite Nat.sub_0_r in Hx.
    assert (Hlt : i < length (HazardPointers σ)) by (by eapply lookup_lt_Some).
    exists (1 + S i), i, (store_id i (Some tid) σ). split; [lia|]. split.
    { rewrite (hp_steps_first _ _ _ _ _ _ (hp_step_PopHelper_None tid L σ Hpc Hh)).
      rewrite Hctor. by destruct L. }
    destruct (hp_store_id_frame i (Some tid) σ) as (-> & -> & -> & -> & ->).
    repeat split; try done.
    unfold store_id. rewrite Hx. cbn. rewrite list_fmap_insert. cbn.
    apply list_insert_id. by rewrite list_lookup_fmap, Hx.
Qed.

Lemma hp_clean_fmap (hps hps' : list HazardPointer) :
  hp_p <$> hps' = hp_p <$> hps →
  (∀ x, x ∈ hps → hp_p x = nullptr) → ∀ x, x ∈ hps' → hp_p x = nullptr.
Proof.
  intros Heq Hclean x Hx.
  assert (Hin : hp_p x ∈ hp_p <$> hps) by (rewrite <-Heq; by apply list_elem_of_fmap_2).
  apply list_elem_of_fmap in Hin as (y & -> & Hy). by apply Hclean.
Qed.

Lemma hp_linked_values_frame (h h' : gmap nat (cell T)) l : ∀ a,
  linked_values h a l → (∀ b, b ∈ l.*1 → h' !! b = h !! b) → linked_values h' a l.
Proof.
  induction l as [|[b x] l IH]; intros a; simpl; [done|].
  intros (Hp & Ha & nx & Hn & Hrest) Hsame.
  split; [done|]. split; [done|]. exists nx.
  rewrite Hsame by (by left). split; [done|].
  apply IH; [done|]. intros c Hc. apply Hsame. by right.
Qed.

Lemma hp_linked_values_in_heap (h : gmap nat (cell T)) l : ∀ a b,
  linked_values h a l → b ∈ l.*1 → is_Some (h !! b).
Proof.
  induction l as [|[c x] l IH]; intros a b; simpl.
  - intros _ Hb. by apply elem_of_nil in Hb.
  - intros (Hp & Hc & nx & Hn & Hrest) [->|Hb]%elem_of_cons; eauto.
Qed.

(** A pop of the thread that runs alone, on a stack at rest that is not
    empty. *)
Lemma hp_pop_top_rest_call Σ tid s a x l fuel :
  at_rest tid s Σ ((a, x) :: l) → 2 * length (HazardPointers (shared Σ)) + 13 ≤ fuel →
  ∃ Σ', do_call fuel tid (Pop s) Σ = Some Σ' ∧
    ret (thread_of Σ' tid) = Some (Value (Some x)) ∧
    at_rest tid s Σ' l ∧
    heap (shared Σ') = delete a (heap (shared Σ)) ∧
    brk (shared Σ') = brk (shared Σ) ∧
    mem_avail (shared Σ') = S (mem_avail (shared Σ)) ∧
    freed (shared Σ') = freed (shared Σ) ++ [a] ∧
    length (HazardPointers (shared Σ')) = length (HazardPointers (shared Σ)).
Proof.
  intros [Hidle (st & Hst & Hl & Htd) Hnd Hdom Hbrk Hclean Hslot] Hfuel.
  destruct Hl as (Hhead & Ha & nx & Hn & Hrest).
  pose (L0 := enter (Pop s) (thread_of Σ tid)).
  destruct (hp_pop_entry tid L0 (shared Σ) eq_refl Hslot)
    as (c & i & σ1 & Hc & Hentry & Hs1 & Hh1 & Hb1 & Hm1 & Hf1 & Hp1).
  assert (Hlen1 : length (HazardPointers σ1) = length (HazardPointers (shared Σ))).
  { by rewrite <-(length_fmap hp_p), Hp1, length_fmap. }
  pose proof (hp_clean_fmap _ _ Hp1 Hclean) as Hclean1.
  set (L1 := goto PopLoad (set_helper (Some i) L0)) in *.
  pose proof (hp_pop_top_steps tid L1 σ1 i st a x nx eq_refl eq_refl) as Htop.
  cbn [this L1 goto set_helper L0 enter] in Htop.
  rewrite Hs1, Hh1 in Htop. specialize (Htop Hst Hhead Ha Htd Hn Hclean1).
  set (n := c + (7 + (S (length (HazardPointers σ1)) + 4))).
  assert (Hsteps : steps n tid L0 (shared Σ) = steps (7 + (S (length (HazardPointers σ1)) + 4)) tid L1 σ1).
  { unfold n. by rewrite (hp_steps_trans _ _ _ _ _ _ _ Hentry). }
  rewrite Htop in Hsteps.
  eexists. split.
  { apply (hp_do_call_steps n); [done|unfold n; lia|]. fold L0. by rewrite Hsteps. }
  fold L0. rewrite hp_thread_of_after, Hsteps. cbn [fst snd shared heap brk mem_avail freed HazardPointers].
  rewrite Hb1, Hm1, Hf1.
  split; [done|]. split; [|by repeat split].
  apply NoDup_cons in Hnd as [Hnotin Hnd].
  split; cbn [shared heap brk stacks HazardPointers].
  - unfold thread_of. cbn [threads]. by rewrite lookup_insert_eq.
  - eexists. rewrite lookup_insert_eq. split; [done|]. cbn. split; [|done].
    apply (hp_linked_values_frame (heap (shared Σ))); [done|].
    intros b Hb'. apply lookup_delete_ne. by intros <-.
  - done.
  - intros b [m Hm]. apply Hdom. apply lookup_delete_Some in Hm as [_ Hm]. eauto.
  - done.
  - done.
  - left. unfold thread_of. cbn [threads]. rewrite lookup_insert_eq. by eexists.
Qed.

Lemma hp_store_p_same i q σ :
  (∀ x, x ∈ HazardPointers σ → hp_p x = q) →
  hp_p <$> HazardPointers (store_p i q σ) = hp_p <$> HazardPointers σ.
Proof.
  intros Hq. unfold store_p. destruct (HazardPointers σ !! i) as [x|] eqn:Hx; [|done].
  cbn. rewrite list_fmap_insert. cbn. apply list_insert_id.
  rewrite list_lookup_fmap, Hx. cbn. f_equal. eapply Hq, list_elem_of_lookup_2, Hx.
Qed.

(** A pop of the thread that runs alone, on an empty stack at rest. *)
Lemma hp_pop_empty_rest_call Σ tid s fuel :
  at_rest tid s Σ [] → length (HazardPointers (shared Σ)) + 9 ≤ fuel →
  ∃ Σ', do_call fuel tid (Pop s) Σ = Some Σ' ∧
    ret (thread_of Σ' tid) = Some (Value None) ∧
    at_rest tid s Σ' [] ∧
    heap (shared Σ') = heap (shared Σ) ∧
    mem_avail (shared Σ') = mem_avail (shared Σ) ∧
    freed (shared Σ') = freed (shared Σ) ∧
    length (HazardPointers (shared Σ')) = length (HazardPointers (shared Σ)).
Proof.
  intros [Hidle (st & Hst & Hl & Htd) Hnd Hdom Hbrk Hclean Hslot] Hfuel.
  cbn in Hl.
  pose (L0 := enter (Pop s) (thread_of Σ tid)).
  destruct (hp_pop_entry tid L0 (shared Σ) eq_refl Hslot)
    as (c & i & σ1 & Hc & Hentry & Hs1 & Hh1 & Hb1 & Hm1 & Hf1 & Hp1).
  pose proof (hp_clean_fmap _ _ Hp1 Hclean) as Hclean1.
  set (L1 := goto PopLoad (set_helper (Some i) L0)) in *.
  pose proof (hp_pop_null_steps tid L1 σ1 i st eq_refl eq_refl) as Hnull.
  cbn [this L1 goto set_helper L0 enter] in Hnull. rewrite Hs1 in Hnull.
  specialize (Hnull Hst Hl).
  assert (Hsteps : steps (c + 7) tid L0 (shared Σ) = (leave (Value None) L1, store_p i nullptr σ1)).
  { by rewrite (hp_steps_trans _ _ _ _ _ _ _ Hentry). }
  pose proof (hp_store_p_same i nullptr σ1 Hclean1) as Hp2.
  destruct (hp_store_p_frame i nullptr σ1) as (Hs2 & Hh2 & Hb2 & Hm2 & Hf2).
  eexists. split.
  { apply (hp_do_call_steps (c + 7)); [done|lia|]. fold L0. by rewrite Hsteps. }
  fold L0. rewrite hp_thread_of_after, Hsteps. cbn [fst snd shared].
  rewrite Hh2, Hm2, Hf2, Hh1, Hm1, Hf1.
  split; [done|]. split; [|repeat split; try done].
  - split; cbn [shared].
    + unfold thread_of. cbn [threads]. by rewrite lookup_insert_eq.
    + exists st. by rewrite Hs2, Hs1, Hh2, Hh1.
    + done.
    + rewrite Hh2, Hh1, Hb2, Hb1. done.
    + by rewrite Hb2, Hb1.
    + eapply hp_clean_fmap; [exact Hp2|done].
    + left. unfold thread_of. cbn [threads]. rewrite lookup_insert_eq. by eexists.
  - rewrite <-(length_fmap hp_p), Hp2, Hp1, length_fmap. done.
Qed.

(** A push of the thread that runs alone, on a stack at rest. *)
Lemma hp_push_rest_call Σ tid s x l fuel :
  at_rest tid s Σ l → 3 ≤ fuel →
  ∃ Σ', do_call fuel tid (Push s x) Σ = Some Σ' ∧
    HazardPointers (shared Σ') = HazardPointers (shared Σ) ∧
    freed (shared Σ') = freed (shared Σ) ∧
    match mem_avail (shared Σ) with
    | O => ret (thread_of Σ' tid) = Some (Threw bad_alloc) ∧ at_rest tid s Σ' l ∧
           shared Σ' = shared Σ
    | S m => ret (thread_of Σ' tid) = Some Void ∧
             at_rest tid s Σ' ((brk (shared Σ), x) :: l) ∧ mem_avail (shared Σ') = m
    end.
Proof.
  intros [Hidle (st & Hst & Hl & Htd) Hnd Hdom Hbrk Hclean Hslot] Hfuel.
  pose (L0 := enter (Push s x) (thread_of Σ tid)).
  pose proof (hp_push_steps tid L0 (shared Σ) s x eq_refl eq_refl) as Hsteps.
  assert (Hhp : hazard_pointer (thread_of Σ tid) = hazard_pointer L0) by done.
  eexists. split.
  { apply (hp_do_call_steps 3); [done|done|]. fold L0. rewrite Hsteps.
    destruct (mem_avail (shared Σ)); [done|]. by rewrite Hst. }
  fold L0. rewrite hp_thread_of_after, Hsteps.
  destruct (mem_avail (shared Σ)) as [|m] eqn:Hm.
  - cbn [fst snd shared]. split; [done|]. split; [done|]. split; [done|]. split; [|done].
    split; cbn [shared]; try done.
    + unfold thread_of. cbn [threads]. by rewrite lookup_insert_eq.
    + by exists st.
    + unfold thread_of. cbn [threads]. rewrite lookup_insert_eq. exact Hslot.
  - rewrite Hst. cbn [fst snd shared HazardPointers freed mem_avail].
    split; [done|]. split; [done|]. split; [done|]. split; [|done].
    assert (Hfresh : heap (shared Σ) !! brk (shared Σ) = None).
    { destruct (heap (shared Σ) !! brk (shared Σ)) eqn:E; [|done].
      assert (brk (shared Σ) < brk (shared Σ)) by (apply Hdom; eauto). lia. }
    assert (Hnotin : brk (shared Σ) ∉ l.*1).
    { intros Hin. destruct (hp_linked_values_in_heap _ _ _ _ Hl Hin) as [? ?]. congruence. }
    split; cbn [shared heap brk stacks HazardPointers].
    + unfold thread_of. cbn [threads]. by rewrite lookup_insert_eq.
    + eexists. rewrite lookup_insert_eq. split; [done|]. cbn. split; [|done].
      split; [done|]. split; [unfold nullptr; lia|]. eexists.
      rewrite lookup_insert_eq. split; [done|].
      apply (hp_linked_values_frame (heap (shared Σ))); [done|].
      intros b Hb'. apply lookup_insert_ne. by intros <-.
    + by apply NoDup_cons.
    + intros b [n Hn]. destruct (decide (b = brk (shared Σ))) as [->|Hne]; [lia|].
      rewrite lookup_insert_ne in Hn by done. assert (b < brk (shared Σ)); [|lia].
      apply Hdom. eauto.
    + lia.
    + done.
    + unfold thread_of. cbn [threads]. rewrite lookup_insert_eq. exact Hslot.
Qed.

(** The calls of a thread that runs alone, on a stack at rest, are those of
    a list. *)
Lemma hp_calls_refine_list tid s fuel cs : ∀ Σ l,
  at_rest tid s Σ l → Forall (on_stack s) cs →
  2 * length (HazardPointers (shared Σ)) + 13 ≤ fuel →
  ∃ Σ' l',
    do_calls fuel tid cs Σ
      = Some ((lifo_model s cs l.*2 (mem_avail (shared Σ))).1.1, Σ') ∧
    at_rest tid s Σ' l' ∧
    l'.*2 = (lifo_model s cs l.*2 (mem_avail (shared Σ))).1.2 ∧
    mem_avail (shared Σ') = (lifo_model s cs l.*2 (mem_avail (shared Σ))).2.
Proof.
  induction cs as [|c cs IH]; intros Σ l Hrest Hon Hfuel.
  - exists Σ, l. split; [done|]. split; [done|]. by split.
  - apply Forall_cons in Hon as [Hc Hon]. destruct c as [s' x|s']; cbn in Hc; subst s'.
    + destruct (hp_push_rest_call Σ tid s x l fuel Hrest) as (Σ1 & Hcall & Hhp & Hfr & Hres); [lia|].
      destruct (mem_avail (shared Σ)) as [|m] eqn:Hm.
      * destruct Hres as (Hret & Hrest1 & Hsh).
        destruct (IH Σ1 l Hrest1 Hon) as (Σ' & l' & Hcalls & Hrest' & Hl' & Hm');
          [by rewrite Hhp|].
        rewrite Hsh, Hm in Hcalls, Hl', Hm'.
        exists Σ', l'. cbn [lifo_model do_calls]. rewrite Hcall, Hcalls, Hret.
        destruct (lifo_model s cs l.*2 0) as [[rs ys] m'].
        split; [done|]. split; [done|]. by split.
      * destruct Hres as (Hret & Hrest1 & Hm1).
        destruct (IH Σ1 _ Hrest1 Hon) as (Σ' & l' & Hcalls & Hrest' & Hl' & Hm');
          [by rewrite Hhp|].
        rewrite Hm1 in Hcalls, Hl', Hm'. cbn [fmap list_fmap snd length] in Hcalls, Hl', Hm'.
        exists Σ', l'. cbn [lifo_model do_calls]. rewrite Hcall, Hcalls, Hret.
        destruct (lifo_model s cs (x :: l.*2) m) as [[rs ys] m'].
        split; [done|]. split; [done|]. by split.
    + destruct l as [|[a x] l].
      * destruct (hp_pop_empty_rest_call Σ tid s fuel Hrest)
          as (Σ1 & Hcall & Hret & Hrest1 & _ & Hm1 & Hfr & Hlen); [lia|].
        destruct (IH Σ1 _ Hrest1 Hon) as (Σ' & l' & Hcalls & Hrest' & Hl' & Hm');
          [by rewrite Hlen|].
        rewrite Hm1 in Hcalls, Hl', Hm'. cbn [fmap list_fmap length] in Hcalls, Hl', Hm'.
        exists Σ', l'. cbn [lifo_model do_calls fmap list_fmap]. rewrite Hcall, Hcalls, Hret.
        destruct (lifo_model s cs [] (mem_avail (shared Σ))) as [[rs ys] m'].
        split; [done|]. split; [done|]. by split.
      * destruct (hp_pop_top_rest_call Σ tid s a x l fuel Hrest Hfuel)
          as (Σ1 & Hcall & Hret & Hrest1 & _ & _ & Hm1 & Hfr & Hlen).
        destruct (IH Σ1 _ Hrest1 Hon) as (Σ' & l' & Hcalls & Hrest' & Hl' & Hm');
          [by rewrite Hlen|].
        rewrite Hm1 in Hcalls, Hl', Hm'.
        exists Σ', l'. cbn [lifo_model do_calls fmap list_fmap snd]. rewrite Hcall, Hcalls, Hret.
        destruct (lifo_model s cs l.*2 (S (mem_avail (shared Σ)))) as [[rs ys] m'].
        split; [done|]. split; [done|]. by split.
Qed.

(** A stack object that was just constructed is at rest, and empty. *)
Lemma hp_constructed_at_rest tid s mem Σ :
  run [Construct s] (init mem) = Some Σ → at_rest tid s Σ [].
Proof.
  unfold run, exec. cbn [init shared stacks]. rewrite lookup_empty. intros [= <-].
  split; cbn [shared threads heap brk HazardPointers stacks set_stacks init].
  - done.
  - eexists. rewrite lookup_insert_eq. done.
  - apply NoDup_nil_2.
  - intros a [n Hn]. by rewrite lookup_empty in Hn.
  - lia.
  - intros x Hx. by apply elem_of_replicate in Hx as [-> _].
  - right. by eexists.
Qed.

Lemma hp_lifo_model_pushes s (xs : list T) : ∀ cs ys m,
  lifo_model s ((Push s <$> xs) ++ cs) ys (length xs + m) =
  let '(rs, zs, m') := lifo_model s cs (reverse xs ++ ys) m in
  (replicate (length xs) (Some Void) ++ rs, zs, m').
Proof.
  induction xs as [|x xs IH]; intros cs ys m.
  - cbn. by destruct (lifo_model s cs ys m) as [[? ?] ?].
  - cbn [fmap list_fmap app length Nat.add lifo_model].
    change (list_fmap T (call T) (Push s) xs) with (Push s <$> xs).
    rewrite IH, reverse_cons, <-app_assoc. cbn [app].
    by destruct (lifo_model s cs (reverse xs ++ x :: ys) m) as [[? ?] ?].
Qed.

Lemma hp_lifo_model_pops s (ys : list T) : ∀ m,
  lifo_model s (replicate (length ys) (Pop s)) ys m =
  ((λ x, Some (Value (Some x))) <$> ys, [], length ys + m).
Proof.
  induction ys as [|y ys IH]; intros m; [done|].
  cbn [length replicate lifo_model]. rewrite IH. cbn. do 2 f_equal. lia.
Qed.

End HazardAlone.

Section SplitRefAlone.
Import SplitRef.
Context {T : Type}.
Implicit Types (Σ : state T) (σ : memory T) (L : thread T) (k : pc T)
  (ths : gmap nat (thread T)) (h : gmap nat (Node T)).

Ltac rstep :=
  repeat progress (
    unfold new, delete_node, fault, set_head, set_heap, set_inner, set_next, set_destroyed,
           emit, pop_return;
    cbn [steps running at_pc in_dtor ret step_thread goto leave
         heap head_ destroyed brk mem_avail trace v next inner_cnt external_cnt p
         fst snd Nat.add]).

Ltac rrun := repeat progress (rstep; try (rewrite decide_True by done)).

Lemma rc_settled_frame h h' l : ∀ r,
  settled h r l → (∀ a, a ∈ l.*1 → h' !! a = h !! a) → settled h' r l.
Proof.
  induction l as [|[a x] l IH]; intros r; simpl; [done|].
  intros (Hp & Ha & n & Hn & Hv & Hsum & Hb & Hrest) Hsame.
  split; [done|]. split; [done|]. exists n.
  rewrite Hsame by (by left). do 4 (split; [done|]).
  apply IH; [done|]. intros b Hb'. apply Hsame. by right.
Qed.

Lemma rc_settled_in_heap h l : ∀ r a, settled h r l → a ∈ l.*1 → is_Some (h !! a) ∧ a ≠ nullptr.
Proof.
  induction l as [|[b x] l IH]; intros r a; simpl.
  - intros _ Ha. by apply elem_of_nil in Ha.
  - intros (Hp & Hb & n & Hn & _ & _ & _ & Hrest) [->|Ha]%elem_of_cons; eauto.
Qed.

(** pop on a stack at rest that is not empty, up to its return: lines
    115-134, run alone. *)
Lemma rc_pop_top_steps tid L σ n x :
  at_pc L = PopLoad → p (head_ σ) ≠ nullptr →
  heap σ !! p (head_ σ) = Some n → v n = Some x →
  (external_cnt (head_ σ) + inner_cnt n = 1)%Z →
  (1 ≤ external_cnt (head_ σ) < 2 ^ 31 - 1)%Z →
  steps 7 tid L σ =
  (goto (PopRet (Some x)) L,
   {| head_ := next n; destroyed := destroyed σ; heap := delete (p (head_ σ)) (heap σ);
      brk := brk σ; mem_avail := S (mem_avail σ);
      trace := trace σ ++
        [EvHeadLoad tid memory_order_relaxed;
         EvHeadCas tid true memory_order_acquire;
         EvHeadCas tid true memory_order_relaxed;
         EvFetchAdd tid (p (head_ σ)) (external_cnt (head_ σ) - 1) (inner_cnt n)
                    memory_order_release;
         EvDelete tid (p (head_ σ))] |}).
Proof.
  intros Hpc Hp Hn Hv Hsum Hb. destruct L as [k d r]. simpl in *. subst k.
  destruct (head_ σ) as [e a] eqn:Hh. simpl in *.
  rrun. rewrite Hh. rrun.
  rewrite decide_False by done. rrun. rewrite Hn. rrun. rewrite Hn. rrun.
  rewrite (lookup_insert_eq (M:=gmap nat)). rrun.
  rewrite (rc_wrap_id (e + 1)) by lia.
  rewrite (rc_wrap_id (e + 1 - 2)) by lia.
  rewrite (rc_wrap_id (- (e + 1 - 2))) by lia.
  rewrite decide_True by lia. rrun.
  rewrite (lookup_insert_eq (M:=gmap nat)). rrun.
  rewrite Hv, !(delete_insert_eq (M:=gmap nat)), <-!app_assoc. cbn [app].
  replace (e + 1 - 2)%Z with (e - 1)%Z by lia. done.
Qed.

(** A pop of the thread that runs alone, on a stack at rest that is not
    empty. *)
Lemma rc_pop_top_call Σ tid a x l fuel :
  at_rest tid Σ ((a, x) :: l) → 8 ≤ fuel →
  ∃ Σ', do_call fuel tid Pop Σ = Some Σ' ∧
    ret (thread_of Σ' tid) = Some (Value (Some x)) ∧
    at_rest tid Σ' l ∧
    heap (shared Σ') = delete a (heap (shared Σ)) ∧
    brk (shared Σ') = brk (shared Σ) ∧
    mem_avail (shared Σ') = S (mem_avail (shared Σ)) ∧
    freed (shared Σ') = freed (shared Σ) ++ [a].
Proof.
  intros [Hidle Hd Hs Hnd Hdom Hbrk Hcl] Hfuel.
  destruct Hs as (Hp & Ha & n & Hn & Hv & Hsum & Hb & Hrest). subst a.
  pose proof (rc_pop_top_steps tid (enter Pop) (shared Σ) n x eq_refl Ha Hn Hv Hsum Hb)
    as Hsteps.
  assert (Hsteps8 : steps 8 tid (enter Pop) (shared Σ) =
            (leave (Value (Some x)) (enter Pop), (steps 7 tid (enter Pop) (shared Σ)).2)).
  { change 8 with (7 + 1). rewrite (rc_steps_add 7 1), Hsteps. done. }
  eexists. split.
  - apply (rc_do_call_steps 8); [done|done|done|]. by rewrite Hsteps8.
  - rewrite rc_thread_of_after, Hsteps8, Hsteps. cbn.
    split; [done|]. split; [|repeat split; try done].
    + split; cbn.
      * unfold thread_of. cbn. by rewrite lookup_insert_eq.
      * done.
      * apply (rc_settled_frame (heap (shared Σ))); [done|].
        intros b Hb'. apply lookup_delete_ne. intros <-.
        by apply NoDup_cons in Hnd as [? _].
      * by apply NoDup_cons in Hnd as [_ ?].
      * intros b [m Hm]. apply Hdom. apply lookup_delete_Some in Hm as [_ Hm]. eauto.
      * done.
      * intros b [m Hm]. apply lookup_delete_Some in Hm as [Hne Hm].
        assert (Hin : b ∈ ((p (head_ (shared Σ)), x) :: l).*1) by (apply Hcl; eauto).
        cbn in Hin. apply elem_of_cons in Hin as [->|?]; done.
    + unfold freed. cbn. rewrite omap_app. done.
Qed.

(** A push of the thread that runs alone, on a stack at rest, when the free
    store has room. *)
Lemma rc_push_rest_call Σ tid x l m fuel :
  at_rest tid Σ l → mem_avail (shared Σ) = S m → 3 ≤ fuel →
  ∃ Σ', do_call fuel tid (Push x) Σ = Some Σ' ∧
    ret (thread_of Σ' tid) = Some Void ∧
    at_rest tid Σ' ((brk (shared Σ), x) :: l) ∧
    mem_avail (shared Σ') = m ∧
    freed (shared Σ') = freed (shared Σ).
Proof.
  intros [Hidle Hd Hs Hnd Hdom Hbrk Hcl] Hm Hfuel.
  pose proof (rc_push_steps tid (enter (Push x)) (shared Σ) x eq_refl) as Hsteps.
  rewrite Hm in Hsteps.
  assert (Hfresh : heap (shared Σ) !! brk (shared Σ) = None).
  { destruct (heap (shared Σ) !! brk (shared Σ)) eqn:E; [|done].
    assert (brk (shared Σ) < brk (shared Σ)) by (apply Hdom; eauto). lia. }
  assert (Hnotin : brk (shared Σ) ∉ l.*1).
  { intros Hin. destruct (rc_settled_in_heap _ _ _ _ Hs Hin) as [[? ?] _]. congruence. }
  eexists. split.
  - apply (rc_do_call_steps 3); [done|done|done|]. by rewrite Hsteps.
  - rewrite rc_thread_of_after, Hsteps. cbn.
    split; [done|]. split; [|split; [done|]].
    + split; cbn.
      * unfold thread_of. cbn. by rewrite lookup_insert_eq.
      * done.
      * split; [done|]. split; [unfold nullptr; lia|].
        eexists. rewrite lookup_insert_eq. split; [done|]. split; [done|].
        split; [done|]. split; [lia|].
        apply (rc_settled_frame (heap (shared Σ))); [done|].
        intros b Hb'. apply lookup_insert_ne. by intros <-.
      * apply NoDup_cons. done.
      * intros b [n Hn]. destruct (decide (b = brk (shared Σ))) as [->|Hne]; [lia|].
        rewrite lookup_insert_ne in Hn by done. assert (b < brk (shared Σ)); [|lia].
        apply Hdom. eauto.
      * lia.
      * intros b [n Hn]. destruct (decide (b = brk (shared Σ))) as [->|Hne]; [by left|].
        rewrite lookup_insert_ne in Hn by done. right. apply Hcl. eauto.
    + unfold freed. cbn. rewrite !omap_app. cbn. by rewrite !app_nil_r.
Qed.
(** A pop of the thread that runs alone, on an empty stack at rest. *)
Lemma rc_pop_empty_rest_call Σ tid fuel :
  at_rest tid Σ [] → 3 ≤ fuel →
  ∃ Σ', do_call fuel tid Pop Σ = Some Σ' ∧
    ret (thread_of Σ' tid) = Some (Value None) ∧
    at_rest tid Σ' [] ∧
    mem_avail (shared Σ') = mem_avail (shared Σ) ∧
    freed (shared Σ') = freed (shared Σ).
Proof.
  intros [Hidle Hd Hs Hnd Hdom Hbrk Hcl] Hfuel.
  destruct (rc_pop_null_call Σ tid fuel Hidle Hd Hs Hfuel)
    as (Σ' & Hcall & Hidle' & Hd' & Hret & Hhead & Hheap & Hbrk' & Hm & Hf).
  exists Σ'. repeat split; try done.
  - by rewrite Hhead.
  - intros a. rewrite Hheap, Hbrk'. apply Hdom.
  - by rewrite Hbrk'.
  - intros a. rewrite Hheap. apply Hcl.
Qed.

(** A push of the thread that runs alone when the free store is exhausted. *)
Lemma rc_push_full_rest_call Σ tid x l fuel :
  at_rest tid Σ l → mem_avail (shared Σ) = 0 → 3 ≤ fuel →
  ∃ Σ', do_call fuel tid (Push x) Σ = Some Σ' ∧
    ret (thread_of Σ' tid) = Some (Threw bad_alloc) ∧
    at_rest tid Σ' l ∧ shared Σ' = shared Σ.
Proof.
  intros [Hidle Hd Hs Hnd Hdom Hbrk Hcl] Hm Hfuel.
  destruct (rc_push_call Σ tid x fuel Hidle Hd Hfuel) as (Σ' & Hcall & Hidle' & Hres).
  rewrite Hm in Hres. destruct Hres as [Hret Hsh].
  exists Σ'. repeat split; try done; rewrite Hsh; done.
Qed.

(** The calls of a thread that runs alone, on a stack at rest, are those of
    a list. *)
Lemma rc_calls_refine_list tid fuel cs : ∀ Σ l,
  at_rest tid Σ l → Forall (λ c, c ≠ Destroy) cs → 8 ≤ fuel →
  ∃ Σ' l',
    do_calls fuel tid cs Σ = Some ((lifo_model cs l.*2 (mem_avail (shared Σ))).1.1, Σ') ∧
    at_rest tid Σ' l' ∧
    l'.*2 = (lifo_model cs l.*2 (mem_avail (shared Σ))).1.2 ∧
    mem_avail (shared Σ') = (lifo_model cs l.*2 (mem_avail (shared Σ))).2.
Proof.
  induction cs as [|c cs IH]; intros Σ l Hrest Hnd Hfuel.
  - exists Σ, l. split; [done|]. split; [done|]. by split.
  - apply Forall_cons in Hnd as [Hc Hnd]. destruct c as [x| |]; [| |done].
    + destruct (mem_avail (shared Σ)) as [|m] eqn:Hm.
      * destruct (rc_push_full_rest_call Σ tid x l fuel Hrest Hm) as (Σ1 & Hcall & Hret & Hrest1 & Hsh);
          [lia|].
        destruct (IH Σ1 l Hrest1 Hnd Hfuel) as (Σ' & l' & Hcalls & Hrest' & Hl' & Hm').
        rewrite Hsh, Hm in Hcalls, Hl', Hm'.
        exists Σ', l'. cbn [lifo_model do_calls]. rewrite Hcall, Hcalls, Hret.
        destruct (lifo_model cs l.*2 0) as [[rs ys] m']. split; [done|]. split; [done|]. by split.
      * destruct (rc_push_rest_call Σ tid x l m fuel Hrest Hm) as (Σ1 & Hcall & Hret & Hrest1 & Hm1 & _);
          [lia|].
        destruct (IH Σ1 _ Hrest1 Hnd Hfuel) as (Σ' & l' & Hcalls & Hrest' & Hl' & Hm').
        rewrite Hm1 in Hcalls, Hl', Hm'. cbn [fmap list_fmap snd] in Hcalls, Hl', Hm'.
        exists Σ', l'. cbn [lifo_model do_calls]. rewrite Hcall, Hcalls, Hret.
        destruct (lifo_model cs (x :: l.*2) m) as [[rs ys] m']. split; [done|]. split; [done|]. by split.
    + destruct l as [|[a x] l].
      * destruct (rc_pop_empty_rest_call Σ tid fuel Hrest) as (Σ1 & Hcall & Hret & Hrest1 & Hm1 & _);
          [lia|].
        destruct (IH Σ1 _ Hrest1 Hnd Hfuel) as (Σ' & l' & Hcalls & Hrest' & Hl' & Hm').
        rewrite Hm1 in Hcalls, Hl', Hm'. cbn [fmap list_fmap] in Hcalls, Hl', Hm'.
        exists Σ', l'. cbn [lifo_model do_calls fmap list_fmap]. rewrite Hcall, Hcalls, Hret.
        destruct (lifo_model cs [] (mem_avail (shared Σ))) as [[rs ys] m']. split; [done|]. split; [done|]. by split.
      * destruct (rc_pop_top_call Σ tid a x l fuel Hrest Hfuel)
          as (Σ1 & Hcall & Hret & Hrest1 & _ & _ & Hm1 & _).
        destruct (IH Σ1 _ Hrest1 Hnd Hfuel) as (Σ' & l' & Hcalls & Hrest' & Hl' & Hm').
        rewrite Hm1 in Hcalls, Hl', Hm'.
        exists Σ', l'. cbn [lifo_model do_calls fmap list_fmap snd]. rewrite Hcall, Hcalls, Hret.
        destruct (lifo_model cs l.*2 (S (mem_avail (shared Σ)))) as [[rs ys] m']. split; [done|]. split; [done|]. by split.
Qed.

Lemma rc_init_at_rest tid mem : at_rest tid (init (T:=T) mem) [].
Proof.
  split; cbn; try done.
  - apply NoDup_nil_2.
  - intros a [n Hn]. by rewrite lookup_empty in Hn.
  - lia.
  - intros a [n Hn]. by rewrite lookup_empty in Hn.
Qed.

(** A chain whose nodes nobody holds is a stack at rest. *)
Lemma rc_chain_settled h ths B lst : ∀ r,
  chain h ths B r lst → (∀ a, count (holder a) ths = 0) → (B < 2 ^ 31 - 1)%Z →
  (∀ a, a ∈ lst → a ≠ nullptr) →
  ∃ l, l.*1 = lst ∧ settled h r l.
Proof.
  induction lst as [|a lst IH]; intros r; simpl.
  - intros [Hp _] _ _ _. by exists [].
  - intros (Hp & n & Hn & [x Hv] & Hsum & Hi & He & _ & _ & _ & Hrest) Hq HB Hnz.
    destruct (IH (next n) Hrest Hq HB) as (l & Hl & Hs).
    { intros b Hb'. apply Hnz. by right. }
    exists ((a, x) :: l). split; [by rewrite <-Hl|]. simpl.
    split; [done|]. split; [apply Hnz; by left|]. exists n.
    rewrite Hq in Hsum. do 2 (split; [done|]). split; [lia|]. split; [lia|done].
Qed.

(** When the threads have all returned, the stack is at rest. *)
Lemma rc_quiescent_at_rest lst Σ tid :
  inv_with lst Σ → quiescent Σ → destroyed (shared Σ) = false →
  (bound (shared Σ) < 2 ^ 31 - 1)%Z →
  ∃ l, l.*1 = lst ∧ at_rest tid Σ l.
Proof.
  intros Hinv Hq Hd HB. pose proof (inv_alloc _ _ Hinv) as Ha.
  destruct (rc_chain_settled _ _ _ _ _ (inv_chain _ _ Hinv)) as (l & Hl & Hs).
  - intros a. by apply rc_quiescent_count.
  - done.
  - intros a Hin. destruct (rc_chain_in_heap _ _ _ _ _ a (inv_chain _ _ Hinv) Hin) as [n Hn].
    assert (0 < a < brk (shared Σ)) by (apply (alloc_dom _ Ha); eauto).
    unfold nullptr. lia.
  - exists l. split; [done|]. split; try done.
    + rewrite Hl. apply (inv_nodup _ _ Hinv).
    + intros a Hs'. by apply (alloc_dom _ Ha).
    + apply (alloc_brk _ Ha).
    + intros a Hs'. rewrite Hl. by eapply rc_inv_quiescent.
Qed.

(** The model on pushes followed by pops. *)
Lemma rc_lifo_model_pushes (xs : list T) : ∀ cs ys m,
  lifo_model ((Push <$> xs) ++ cs) ys (length xs + m) =
  let '(rs, zs, m') := lifo_model cs (reverse xs ++ ys) m in
  (replicate (length xs) (Some Void) ++ rs, zs, m').
Proof.
  induction xs as [|x xs IH]; intros cs ys m.
  - cbn. by destruct (lifo_model cs ys m) as [[? ?] ?].
  - cbn [fmap list_fmap app length Nat.add lifo_model].
    change (list_fmap T (call T) Push xs) with (Push <$> xs).
    rewrite IH, reverse_cons, <-app_assoc. cbn [app].
    by destruct (lifo_model cs (reverse xs ++ x :: ys) m) as [[? ?] ?].
Qed.

Lemma rc_lifo_model_pops (ys : list T) : ∀ m,
  lifo_model (replicate (length ys) Pop) ys m =
  ((λ x, Some (Value (Some x))) <$> ys, [], length ys + m).
Proof.
  induction ys as [|y ys IH]; intros m; [done|].
  cbn [length replicate lifo_model]. rewrite IH. cbn. do 2 f_equal. lia.
Qed.

(** The destructor on a stack at rest, run alone: lines 99-102. *)
Lemma rc_dtor_steps tid l : ∀ L σ,
  at_pc L = PopLoad → in_dtor L = true →
  settled (heap σ) (head_ σ) l → NoDup l.*1 →
  ∃ σ', steps (length l * 8 + 3) tid L σ = (leave Void L, σ') ∧
    destroyed σ' = true ∧ p (head_ σ') = nullptr ∧
    (∀ a, heap σ' !! a = if decide (a ∈ l.*1) then None else heap σ !! a) ∧
    brk σ' = brk σ ∧ mem_avail σ' = length l + mem_avail σ ∧
    freed σ' = freed σ ++ l.*1.
Proof.
  induction l as [|[a x] l IH]; intros L σ Hpc Hd Hs Hnd.
  - cbn in Hs. cbn [length Nat.mul Nat.add].
    destruct L as [k d r]. simpl in *. subst k d.
    eexists. split.
    { rrun. rewrite Hs. rrun. done. }
    cbn. repeat split; try done.
    unfold freed. rewrite !omap_app. cbn. by rewrite !app_nil_r.
  - destruct Hs as (Hp & Ha & n & Hn & Hv & Hsum & Hb & Hrest). subst a.
    apply NoDup_cons in Hnd as [Hnotin Hnd].
    pose proof (rc_pop_top_steps tid L σ n x Hpc Ha Hn Hv Hsum Hb) as Hsteps.
    set (σ1 := (steps 7 tid L σ).2).
    assert (Hσ1 : steps 7 tid L σ = (goto (PopRet (Some x)) L, σ1)).
    { unfold σ1. by rewrite Hsteps. }
    assert (Hheap1 : heap σ1 = delete (p (head_ σ)) (heap σ)) by (unfold σ1; by rewrite Hsteps).
    assert (Hhead1 : head_ σ1 = next n) by (unfold σ1; by rewrite Hsteps).
    assert (Hbrk1 : brk σ1 = brk σ) by (unfold σ1; by rewrite Hsteps).
    assert (Hm1 : mem_avail σ1 = S (mem_avail σ)) by (unfold σ1; by rewrite Hsteps).
    assert (Hf1 : freed σ1 = freed σ ++ [p (head_ σ)]).
    { unfold σ1. rewrite Hsteps. unfold freed. cbn [snd trace]. by rewrite omap_app. }
    clearbody σ1. clear Hsteps.
    assert (Hs8 : steps 8 tid L σ = (L, σ1)).
    { change 8 with (7 + 1). rewrite (rc_steps_add 7 1), Hσ1.
      destruct L as [k d r]. simpl in *. subst k d. done. }
    destruct (IH L σ1 Hpc Hd) as (σ' & Hsteps' & Hd' & Hp' & Hheap' & Hbrk' & Hm' & Hf');
      [|done|].
    { rewrite Hheap1, Hhead1.
      apply (rc_settled_frame (heap σ)); [done|].
      intros b Hb'. apply lookup_delete_ne. by intros <-. }
    exists σ'. split.
    { cbn [length]. replace (S (length l) * 8 + 3) with (8 + (length l * 8 + 3)) by lia.
      by rewrite rc_steps_add, Hs8. }
    split; [done|]. split; [done|]. split; [|split; [congruence|split]].
    + intros b. rewrite Hheap', Hheap1. cbn [fmap list_fmap fst].
      destruct (decide (b = p (head_ σ))) as [->|Hne].
      * rewrite (decide_True (P := _ ∈ _ :: _)) by (by left).
        rewrite lookup_delete_eq. by destruct (decide _).
      * rewrite lookup_delete_ne by done.
        destruct (decide (b ∈ l.*1)).
        -- rewrite decide_True; [done|by right].
        -- rewrite decide_False; [done|]. by intros [?|?]%elem_of_cons.
    + rewrite Hm', Hm1. cbn [length]. lia.
    + rewrite Hf', Hf1. by rewrite <-app_assoc.
Qed.

End SplitRefAlone.

(* ===================================================================== *)
(** * Facts about the hierarchical mutex *)
(* ===================================================================== *)

Section HierarchicalMutexFacts.
Import HierarchicalMutex.
Implicit Types (Σ : state) (mu : Mutex).

Lemma hm_held_chain_frame Σ Σ' tid hs : ∀ h,
  held_chain Σ tid h hs → (∀ m, m ∈ hs → mutexes Σ' !! m = mutexes Σ !! m) →
  held_chain Σ' tid h hs.
Proof.
  induction hs as [|m hs IH]; intros h; simpl; [done|].
  intros (mu & Hm & Ho & Hc & Hlt & Hrest) Hsame. exists mu.
  rewrite Hsame by (by left). do 4 (split; [done|]).
  apply IH; [done|]. intros m' Hm'. apply Hsame. by right.
Qed.

Lemma hm_held_chain_elem Σ tid hs : ∀ h m,
  held_chain Σ tid h hs → m ∈ hs →
  ∃ mu, mutexes Σ !! m = Some mu ∧ m_ mu = Some tid ∧ (h ≤ cur_hierarchy_ mu)%Z.
Proof.
  induction hs as [|m0 hs IH]; intros h m; simpl.
  - intros _ Hm. by apply elem_of_nil in Hm.
  - intros (mu & Hm0 & Ho & Hc & Hlt & Hrest) [->|Hin]%elem_of_cons.
    + exists mu. repeat split; try done. lia.
    + destruct (IH _ _ Hrest Hin) as (mu' & ? & ? & ?). exists mu'. repeat split; try done. lia.
Qed.

Lemma hm_held_chain_max Σ tid hs : ∀ h, held_chain Σ tid h hs → (h ≤ INT_MAX)%Z.
Proof.
  induction hs as [|m0 hs IH]; intros h; simpl; [intros ->; lia|].
  intros (mu & _ & _ & _ & Hlt & Hrest). apply IH in Hrest. lia.
Qed.

(** The mutex whose level is the hierarchy value of the thread is the one
    it locked last. *)
Lemma hm_held_chain_head Σ tid hs h m mu :
  held_chain Σ tid h hs → m ∈ hs → mutexes Σ !! m = Some mu → cur_hierarchy_ mu = h →
  ∃ rest, hs = m :: rest ∧ held_chain Σ tid (prev_hierarchy_ mu) rest ∧ (m ∉ rest) ∧
          (h < prev_hierarchy_ mu)%Z.
Proof.
  destruct hs as [|m0 hs]; simpl.
  - intros _ Hm. by apply elem_of_nil in Hm.
  - intros (mu0 & Hm0 & Ho & Hc & Hlt & Hrest) Hin Hm Hcur.
    assert (Hnot : ∀ m', m' ∈ hs → ∀ mu', mutexes Σ !! m' = Some mu' → (h < cur_hierarchy_ mu')%Z).
    { intros m' Hm' mu' Hmu'. destruct (hm_held_chain_elem _ _ _ _ _ Hrest Hm') as (mu'' & ? & _ & ?).
      simplify_eq. lia. }
    apply elem_of_cons in Hin as [->|Hin].
    + simplify_eq. exists hs. repeat split; try done.
      intros Hin. specialize (Hnot _ Hin _ Hm0). lia.
    + specialize (Hnot _ Hin _ Hm). lia.
Qed.

Lemma hm_hierarchy_of_insert Σ ms tid tid' z :
  hierarchy_of {| mutexes := ms; thread_hierarchy_ := <[tid := z]> (thread_hierarchy_ Σ) |} tid'
  = if decide (tid = tid') then z else hierarchy_of Σ tid'.
Proof.
  unfold hierarchy_of. cbn. destruct (decide (tid = tid')) as [->|Hne].
  - by rewrite lookup_insert_eq.
  - by rewrite lookup_insert_ne.
Qed.

(** A thread acquires a mutex that nobody owns. *)
Lemma hm_update_inv Σ tid m mu :
  inv Σ → mutexes Σ !! m = Some mu → m_ mu = None →
  validate_hierarchy Σ tid mu = false → inv (update_hierarchy Σ tid m mu).
Proof.
  intros Hinv Hm Hfree Hval tid'. destruct (Hinv tid') as (hs & Hchain & Hall).
  unfold validate_hierarchy in Hval. apply Z.leb_gt in Hval.
  assert (Hnotin : m ∉ hs).
  { intros Hin. destruct (hm_held_chain_elem _ _ _ _ _ Hchain Hin) as (mu' & ? & ? & _).
    simplify_eq. }
  assert (Hframe : held_chain (update_hierarchy Σ tid m mu) tid' (hierarchy_of Σ tid') hs).
  { apply (hm_held_chain_frame Σ); [done|]. intros m' Hm'. cbn.
    apply lookup_insert_ne. by intros <-. }
  unfold update_hierarchy at 2. rewrite hm_hierarchy_of_insert.
  destruct (decide (tid = tid')) as [<-|Hne].
  - exists (m :: hs). split.
    + cbn [held_chain]. eexists. cbn [mutexes update_hierarchy].
      rewrite lookup_insert_eq. split; [done|]. cbn. repeat split; try done.
    + intros m' mu'. cbn [mutexes update_hierarchy].
      destruct (decide (m = m')) as [<-|Hne]; [by left|].
      rewrite lookup_insert_ne by done. intros ? ?. right. eauto.
  - exists hs. split; [done|].
    intros m' mu'. cbn [mutexes update_hierarchy].
    destruct (decide (m = m')) as [<-|Hne'].
    + rewrite lookup_insert_eq. intros [= <-]. cbn. congruence.
    + rewrite lookup_insert_ne by done. eauto.
Qed.

Lemma hm_exec_inv a Σ r Σ' : inv Σ → exec a Σ = (r, Σ') → r ≠ Undefined → inv Σ'.
Proof.
  intros Hinv He Hr. destruct a as [m h|tid m|sp tid m|tid m]; cbn in He.
  - (* the constructor *)
    unfold construct in He. destruct (mutexes Σ !! m) eqn:Hm; simplify_eq.
    intros tid. destruct (Hinv tid) as (hs & Hchain & Hall). exists hs. split.
    + apply (hm_held_chain_frame Σ); [done|]. intros m' Hm'. cbn.
      apply lookup_insert_ne. intros <-.
      destruct (hm_held_chain_elem _ _ _ _ _ Hchain Hm') as (? & ? & _). congruence.
    + intros m' mu'. cbn. destruct (decide (m = m')) as [<-|Hne].
      * rewrite lookup_insert_eq. by intros [= <-].
      * rewrite lookup_insert_ne by done. eauto.
  - (* lock *)
    unfold lock in He. destruct (mutexes Σ !! m) as [mu|] eqn:Hm; simplify_eq.
    destruct (validate_hierarchy Σ tid mu) eqn:Hval; simplify_eq; [done|].
    destruct (m_ mu) as [owner|] eqn:Ho.
    + destruct (decide (owner = tid)); by simplify_eq.
    + simplify_eq. by apply hm_update_inv.
  - (* try_lock *)
    unfold try_lock in He. destruct (mutexes Σ !! m) as [mu|] eqn:Hm; simplify_eq.
    destruct (validate_hierarchy Σ tid mu) eqn:Hval; simplify_eq; [done|].
    destruct (m_ mu) as [owner|] eqn:Ho.
    + destruct (decide (owner = tid)); by simplify_eq.
    + destruct sp; simplify_eq; [done|]. by apply hm_update_inv.
  - (* unlock *)
    unfold unlock in He. destruct (mutexes Σ !! m) as [mu|] eqn:Hm; simplify_eq.
    destruct (decide (hierarchy_of Σ tid = cur_hierarchy_ mu)) as [Hh|]; simplify_eq; [|done].
    destruct (decide (m_ mu = Some tid)) as [Ho|]; simplify_eq.
    intros tid'. destruct (Hinv tid') as (hs & Hchain & Hall).
    rewrite hm_hierarchy_of_insert. destruct (decide (tid = tid')) as [<-|Hne].
    + destruct (hm_held_chain_head Σ tid hs _ m mu Hchain (Hall _ _ Hm Ho) Hm (eq_sym Hh))
        as (rest & -> & Hrest & Hnotin & _).
      exists rest. split.
      * apply (hm_held_chain_frame Σ); [done|]. intros m' Hm'. cbn.
        apply lookup_insert_ne. by intros <-.
      * intros m' mu'. cbn. destruct (decide (m = m')) as [<-|Hne].
        -- rewrite lookup_insert_eq. by intros [= <-].
        -- rewrite lookup_insert_ne by done. intros Hm' Ho'.
           specialize (Hall _ _ Hm' Ho'). by apply elem_of_cons in Hall as [?|?].
    + exists hs. split.
      * apply (hm_held_chain_frame Σ); [done|]. intros m' Hm'. cbn.
        apply lookup_insert_ne. intros <-.
        destruct (hm_held_chain_elem _ _ _ _ _ Hchain Hm') as (? & ? & ? & _). congruence.
      * intros m' mu'. cbn. destruct (decide (m = m')) as [<-|Hne'].
        -- rewrite lookup_insert_eq. by intros [= <-].
        -- rewrite lookup_insert_ne by done. eauto.
Qed.

Lemma hm_init_inv : inv init.
Proof. intros tid. exists []. split; [done|]. intros m mu. cbn. by rewrite lookup_empty. Qed.

Lemma hm_run_inv sched : ∀ Σ rs Σ', inv Σ → run sched Σ = Some (rs, Σ') → inv Σ'.
Proof.
  induction sched as [|a sched IH]; intros Σ rs Σ' Hinv; simpl.
  - by intros [= _ <-].
  - destruct (exec a Σ) as [r Σ1] eqn:He.
    destruct (run sched Σ1) as [[rs1 Σ2]|] eqn:Hrun.
    + intros Heq. assert (Σ2 = Σ' ∧ r ≠ Undefined) as [-> Hr].
      { destruct r; simplify_eq; done. }
      eapply IH; [|done]. by eapply hm_exec_inv.
    + by destruct r.
Qed.

(** The hierarchy value of a thread is below or at the level of every mutex
    the thread owns. *)
Lemma hm_inv_held Σ tid m mu :
  inv Σ → mutexes Σ !! m = Some mu → m_ mu = Some tid →
  (hierarchy_of Σ tid ≤ cur_hierarchy_ mu)%Z.
Proof.
  intros Hinv Hm Ho. destruct (Hinv tid) as (hs & Hchain & Hall).
  destruct (hm_held_chain_elem _ _ _ _ _ Hchain (Hall _ _ Hm Ho)) as (mu' & ? & _ & ?).
  by simplify_eq.
Qed.

Lemma hm_inv_max Σ tid : inv Σ → (hierarchy_of Σ tid ≤ INT_MAX)%Z.
Proof. intros Hinv. destruct (Hinv tid) as (hs & Hchain & _). by eapply hm_held_chain_max. Qed.

End HierarchicalMutexFacts.

Section HierarchicalMutexGuards.
Import HierarchicalMutex.
Implicit Types (Σ : state) (mu : Mutex).

Lemma hm_lock_free Σ tid m mu :
  mutexes Σ !! m = Some mu → m_ mu = None → (cur_hierarchy_ mu < hierarchy_of Σ tid)%Z →
  lock tid m Σ = (Returned, update_hierarchy Σ tid m mu).
Proof.
  intros Hm Ho Hlt. unfold lock, validate_hierarchy. rewrite Hm, Ho.
  destruct (hierarchy_of Σ tid <=? cur_hierarchy_ mu)%Z eqn:E; [|done].
  apply Z.leb_le in E. lia.
Qed.

Lemma hm_lock_throws Σ tid m mu :
  mutexes Σ !! m = Some mu → (hierarchy_of Σ tid ≤ cur_hierarchy_ mu)%Z →
  lock tid m Σ = (Threw_logic_error, Σ).
Proof.
  intros Hm Hle. unfold lock, validate_hierarchy. rewrite Hm.
  destruct (hierarchy_of Σ tid <=? cur_hierarchy_ mu)%Z eqn:E; [done|].
  apply Z.leb_gt in E. lia.
Qed.

Lemma hm_unlock_held Σ tid m c h :
  mutexes Σ !! m = Some {| m_ := Some tid; cur_hierarchy_ := c; prev_hierarchy_ := h |} →
  hierarchy_of Σ tid = c →
  unlock tid m Σ = (Returned, released Σ tid m c h).
Proof.
  intros Hm Hh. unfold unlock. rewrite Hm. cbn. by rewrite !decide_True.
Qed.

Lemma hm_released_hierarchy Σ tid m c h tid' :
  hierarchy_of (released Σ tid m c h) tid' = if decide (tid = tid') then h else hierarchy_of Σ tid'.
Proof. apply hm_hierarchy_of_insert. Qed.

(** A guarded block whose body leaves the mutex and the hierarchy value of
    the thread as the lock set them. *)
Lemma hm_lock_guard_runs Σ tid m mu body r Σ2 :
  mutexes Σ !! m = Some mu → m_ mu = None → (cur_hierarchy_ mu < hierarchy_of Σ tid)%Z →
  body (update_hierarchy Σ tid m mu) = (r, Σ2) →
  (r = Returned ∨ r = Threw_logic_error) →
  mutexes Σ2 !! m = Some {| m_ := Some tid; cur_hierarchy_ := cur_hierarchy_ mu;
                            prev_hierarchy_ := hierarchy_of Σ tid |} →
  hierarchy_of Σ2 tid = cur_hierarchy_ mu →
  lock_guard tid m body Σ
  = (r, released Σ2 tid m (cur_hierarchy_ mu) (hierarchy_of Σ tid)).
Proof.
  intros Hm Ho Hlt Hbody Hr Hm2 Hh2. unfold lock_guard.
  rewrite (hm_lock_free _ _ _ _ Hm Ho Hlt), Hbody, (hm_unlock_held _ _ _ _ _ Hm2 Hh2).
  by destruct Hr as [-> | ->].
Qed.

(** A guarded block whose lock throws. *)
Lemma hm_lock_guard_throws Σ tid m mu body :
  mutexes Σ !! m = Some mu → (hierarchy_of Σ tid ≤ cur_hierarchy_ mu)%Z →
  lock_guard tid m body Σ = (Threw_logic_error, Σ).
Proof. intros Hm Hle. unfold lock_guard. by rewrite (hm_lock_throws _ _ _ _ Hm Hle). Qed.

Lemma hm_same_locks_refl Σ : same_locks Σ Σ.
Proof. split; [done|]. intros m. by destruct (mutexes Σ !! m). Qed.

Lemma hm_same_locks_trans Σ1 Σ2 Σ3 : same_locks Σ1 Σ2 → same_locks Σ2 Σ3 → same_locks Σ1 Σ3.
Proof.
  intros [H1 M1] [H2 M2]. split; [intros tid; by rewrite H2|].
  intros m. specialize (M1 m). specialize (M2 m).
  destruct (mutexes Σ1 !! m) as [a|], (mutexes Σ2 !! m) as [b|], (mutexes Σ3 !! m) as [c|];
    try done.
  destruct M1 as (Ea & Ca & Pa), M2 as (Eb & Cb & Pb).
  split; [congruence|]. split; [congruence|].
  intros Hs. rewrite Pb by (by rewrite Ea). auto.
Qed.

Lemma hm_same_locks_free Σ Σ' m mu :
  same_locks Σ Σ' → mutexes Σ !! m = Some mu →
  ∃ mu', mutexes Σ' !! m = Some mu' ∧ m_ mu' = m_ mu ∧ cur_hierarchy_ mu' = cur_hierarchy_ mu.
Proof.
  intros [_ M] Hm. specialize (M m). rewrite Hm in M.
  destruct (mutexes Σ' !! m) as [mu'|]; [|done]. destruct M as (? & ? & _). eauto.
Qed.

(** A guarded block gives what its body gives, and leaves the locks as they
    were, if the body does. *)
Lemma hm_lock_guard_same Σ tid m mu body r Σ2 :
  mutexes Σ !! m = Some mu → m_ mu = None → (cur_hierarchy_ mu < hierarchy_of Σ tid)%Z →
  body (update_hierarchy Σ tid m mu) = (r, Σ2) →
  (r = Returned ∨ r = Threw_logic_error) →
  same_locks (update_hierarchy Σ tid m mu) Σ2 →
  ∃ Σ3, lock_guard tid m body Σ = (r, Σ3) ∧ same_locks Σ Σ3.
Proof.
  intros Hm Ho Hlt Hbody Hr [H2 M2].
  assert (Hm2 : mutexes Σ2 !! m = Some {| m_ := Some tid; cur_hierarchy_ := cur_hierarchy_ mu;
                                          prev_hierarchy_ := hierarchy_of Σ tid |}).
  { specialize (M2 m). cbn in M2. rewrite lookup_insert_eq in M2.
    destruct (mutexes Σ2 !! m) as [[o c q]|]; [|done]. cbn in M2.
    destruct M2 as (-> & -> & ->); [by eexists|done]. }
  assert (Hh2 : hierarchy_of Σ2 tid = cur_hierarchy_ mu).
  { rewrite H2. unfold update_hierarchy. rewrite hm_hierarchy_of_insert. by rewrite decide_True. }
  eexists. split; [by eapply hm_lock_guard_runs|].
  split.
  - intros tid'. rewrite hm_released_hierarchy.
    destruct (decide (tid = tid')) as [<-|Hne]; [done|].
    rewrite H2. unfold update_hierarchy. rewrite hm_hierarchy_of_insert. by rewrite decide_False.
  - intros m'. cbn. destruct (decide (m = m')) as [<-|Hne].
    + rewrite Hm, lookup_insert_eq. cbn. rewrite Ho. repeat split; try done.
    + rewrite lookup_insert_ne by done. specialize (M2 m'). cbn in M2.
      by rewrite lookup_insert_ne in M2.
Qed.

Lemma hm_lf_same Σ tid low mu :
  mutexes Σ !! low = Some mu → m_ mu = None → (cur_hierarchy_ mu < hierarchy_of Σ tid)%Z →
  ∃ Σ', lf tid low Σ = (Returned, Σ') ∧ same_locks Σ Σ'.
Proof.
  intros Hm Ho Hlt. eapply hm_lock_guard_same; eauto. apply hm_same_locks_refl.
Qed.

Lemma hm_hf_same Σ tid high low muh mul :
  mutexes Σ !! high = Some muh → m_ muh = None →
  mutexes Σ !! low = Some mul → m_ mul = None → high ≠ low →
  (cur_hierarchy_ mul < cur_hierarchy_ muh < hierarchy_of Σ tid)%Z →
  ∃ Σ', hf tid high low Σ = (Returned, Σ') ∧ same_locks Σ Σ'.
Proof.
  intros Hh Hoh Hl Hol Hne Hlev.
  destruct (hm_lf_same (update_hierarchy Σ tid high muh) tid low mul) as (Σ2 & Hlf & Hsame).
  { cbn. by rewrite lookup_insert_ne. }
  { done. }
  { unfold update_hierarchy. rewrite hm_hierarchy_of_insert, decide_True by done. lia. }
  eapply hm_lock_guard_same; eauto. lia.
Qed.

Lemma hm_mf_same Σ tid high mid low muh mum :
  mutexes Σ !! high = Some muh → mutexes Σ !! mid = Some mum → m_ mum = None →
  high ≠ mid →
  (cur_hierarchy_ mum < hierarchy_of Σ tid)%Z → (cur_hierarchy_ mum ≤ cur_hierarchy_ muh)%Z →
  ∃ Σ', mf tid high mid low Σ = (Threw_logic_error, Σ') ∧ same_locks Σ Σ'.
Proof.
  intros Hh Hm Hom Hne Hlt Hle.
  eapply hm_lock_guard_same; eauto; [|apply hm_same_locks_refl].
  apply (hm_lock_guard_throws _ _ _ muh).
  - cbn. by rewrite lookup_insert_ne.
  - unfold update_hierarchy. rewrite hm_hierarchy_of_insert, decide_True by done. lia.
Qed.

End HierarchicalMutexGuards.

Section HierarchicalMutexLevels.
Import HierarchicalMutex.
Implicit Types (Σ : state) (mu : Mutex).

Lemma hm_held_chain_below_max Σ tid hs : ∀ h m mu,
  held_chain Σ tid h hs → m ∈ hs → mutexes Σ !! m = Some mu →
  (cur_hierarchy_ mu < INT_MAX)%Z.
Proof.
  induction hs as [|m0 hs IH]; intros h m mu Hc Hin Hm; [by apply elem_of_nil in Hin|].
  destruct Hc as (mu0 & Hm0 & _ & Hcur & Hlt & Hrest).
  apply elem_of_cons in Hin as [->|Hin]; [|by eapply IH].
  pose proof (hm_held_chain_max _ _ _ _ Hrest). simplify_eq. lia.
Qed.

Lemma hm_held_chain_inj Σ tid hs : ∀ h m1 mu1 m2 mu2,
  held_chain Σ tid h hs → m1 ∈ hs → m2 ∈ hs →
  mutexes Σ !! m1 = Some mu1 → mutexes Σ !! m2 = Some mu2 →
  cur_hierarchy_ mu1 = cur_hierarchy_ mu2 → m1 = m2.
Proof.
  induction hs as [|m0 hs IH]; intros h m1 mu1 m2 mu2 Hc H1 H2 Hm1 Hm2 Heq;
    [by apply elem_of_nil in H1|].
  destruct Hc as (mu0 & Hm0 & _ & Hcur & Hlt & Hrest).
  apply elem_of_cons in H1 as [->|H1], H2 as [->|H2]; [done| | |by eapply IH].
  - destruct (hm_held_chain_elem _ _ _ _ _ Hrest H2) as (mu & Hm & _ & Hle). simplify_eq. lia.
  - destruct (hm_held_chain_elem _ _ _ _ _ Hrest H1) as (mu & Hm & _ & Hle). simplify_eq. lia.
Qed.

End HierarchicalMutexLevels.

(* ===================================================================== *)
(** * Facts about the queue *)
(* ===================================================================== *)

Section ConcurrentQueueFacts.
Import ConcurrentQueue.
Context {T : Type}.
Implicit Types (σ : memory T) (l : list (nat * T)) (h : gmap nat (Node T)).

Ltac qstep :=
  repeat progress (
    cbv [mbind M_bind mret M_ret fail get set_head_ set_tail_ set_head_mutex_ set_tail_mutex_
         lock_head lock_tail unlock_head unlock_tail load store new_Node get_tail deref];
    cbn [head_ tail_ head_mutex_ tail_mutex_ heap brk mem_avail freed v next fst snd]).

Lemma cq_chain_frame h h' l : ∀ a t,
  chain h a t l → (∀ b, b ∈ l.*1 → h' !! b = h !! b) → chain h' a t l.
Proof.
  induction l as [|[b x] l IH]; intros a t; simpl; [done|].
  intros (-> & nx & Hn & Hrest) Hsame. split; [done|]. exists nx.
  rewrite Hsame by (by left). split; [done|].
  apply IH; [done|]. intros c Hc. apply Hsame. by right.
Qed.

Lemma cq_chain_snoc h l : ∀ a t t' x,
  chain h a t l → h !! t = Some {| v := Some x; next := t' |} →
  chain h a t' (l ++ [(t, x)]).
Proof.
  induction l as [|[b y] l IH]; intros a t t' x; simpl.
  - intros -> Ht. split; [done|]. by exists t'.
  - intros (-> & nx & Hn & Hrest) Ht. split; [done|]. exists nx. split; [done|]. by apply IH.
Qed.

Lemma cq_delete_chain_null fuel σ : delete_chain fuel nullptr σ = (inl (), σ).
Proof. by destruct fuel. Qed.

(** The destructor of the pointer to a node whose [next] is empty. *)
Lemma cq_delete_single a o σ :
  a ≠ nullptr → heap σ !! a = Some {| v := o; next := nullptr |} →
  delete_unique_ptr a σ =
  (inl (), {| head_ := head_ σ; tail_ := tail_ σ; head_mutex_ := head_mutex_ σ;
              tail_mutex_ := tail_mutex_ σ; heap := delete a (heap σ); brk := brk σ;
              mem_avail := S (mem_avail σ); freed := freed σ ++ [a] |}).
Proof.
  intros Ha Hn. unfold delete_unique_ptr. cbn [delete_chain].
  rewrite decide_False by done. rewrite Hn. cbn [next]. by rewrite cq_delete_chain_null.
Qed.

Lemma cq_chain_in_heap h l : ∀ a t b, chain h a t l → b ∈ l.*1 → is_Some (h !! b).
Proof.
  induction l as [|[c x] l IH]; intros a t b; simpl; [by intros _ ?%elem_of_nil|].
  intros (-> & nx & Hn & Hrest) [->|Hb]%elem_of_cons; [eauto|]. by eapply IH.
Qed.

Lemma cq_rep_fresh σ l : queue_rep σ l → heap σ !! brk σ = None.
Proof.
  intros H. destruct (heap σ !! brk σ) eqn:E; [|done].
  assert (brk σ < brk σ) by (apply (rep_dom _ _ H); eauto). lia.
Qed.

(** [push] when the free store has room. *)
Lemma cq_push_rep σ l x m :
  queue_rep σ l → mem_avail σ = S m →
  ∃ σ', push x σ = (inl (), σ') ∧ queue_rep σ' (l ++ [(tail_ σ, x)]) ∧
        mem_avail σ' = m ∧ freed σ' = freed σ.
Proof.
  intros Hrep Hm. pose proof (cq_rep_fresh _ _ Hrep) as Hfresh.
  destruct Hrep as [Hc (o & Ht) Hnd Hnn Hcl Hdom Hhm Htm].
  assert (Hne : brk σ ≠ tail_ σ) by (intros E; rewrite E in Hfresh; congruence).
  assert (Hnl : ∀ b, b ∈ l.*1 → b ≠ brk σ ∧ b ≠ tail_ σ).
  { intros b Hb. split; intros ->.
    - destruct (cq_chain_in_heap _ _ _ _ _ Hc Hb); congruence.
    - apply NoDup_app in Hnd as (_ & Hd & _). eapply Hd; [done|by left]. }
  eexists. split.
  { unfold push. qstep. rewrite Hm. qstep. rewrite Htm. qstep.
    rewrite lookup_insert_ne by done. rewrite Ht. qstep.
    rewrite lookup_insert_ne by done. rewrite Ht. qstep.
    unfold delete_unique_ptr. rewrite cq_delete_chain_null. qstep. done. }
  split; [|done]. split; cbn [head_ tail_ heap brk head_mutex_ tail_mutex_].
  - apply cq_chain_snoc with (t := tail_ σ).
    + apply (cq_chain_frame (heap σ)); [done|]. intros b Hb.
      destruct (Hnl b Hb). by rewrite !lookup_insert_ne.
    + by rewrite lookup_insert_eq.
  - exists None. rewrite lookup_insert_ne by done. by rewrite lookup_insert_eq.
  - rewrite fmap_app. simpl. rewrite <-(assoc_L (++)). simpl.
    apply NoDup_app in Hnd as (Hl & Hd & _).
    apply NoDup_app. split; [done|]. split.
    + intros b Hb [->|[->|[]%elem_of_nil]%elem_of_cons]%elem_of_cons; by destruct (Hnl _ Hb).
    + apply NoDup_cons. split; [|apply NoDup_singleton].
      intros E%list_elem_of_singleton. congruence.
  - rewrite fmap_app. simpl. rewrite <-(assoc_L (++)). simpl.
    intros [Hb|[Hb|[Hb|[]%elem_of_nil]%elem_of_cons]%elem_of_cons]%elem_of_app.
    + apply Hnn. apply elem_of_app. by left.
    + apply Hnn. apply elem_of_app. right. rewrite <-Hb. by left.
    + assert (brk σ ≠ 0); [|unfold nullptr in *; congruence].
      assert (tail_ σ < brk σ) by (apply Hdom; eauto). lia.
  - intros a. rewrite fmap_app. simpl. rewrite <-(assoc_L (++)). simpl.
    destruct (decide (a = tail_ σ)) as [->|].
    { intros _. apply elem_of_app. right. by left. }
    rewrite lookup_insert_ne by done.
    destruct (decide (a = brk σ)) as [->|].
    { intros _. apply elem_of_app. right. right. by left. }
    rewrite lookup_insert_ne by done. intros Ha%Hcl.
    apply elem_of_app in Ha as [Ha|Ha%list_elem_of_singleton]; [|done].
    apply elem_of_app. by left.
  - intros a. destruct (decide (a = tail_ σ)) as [->|].
    { intros _. assert (tail_ σ < brk σ) by (apply Hdom; eauto). lia. }
    rewrite lookup_insert_ne by done.
    destruct (decide (a = brk σ)) as [->|]; [lia|].
    rewrite lookup_insert_ne by done. intros Ha%Hdom. lia.
  - done.
  - done.
Qed.

(** [push] when the free store has no room: [std::bad_alloc], nothing changed. *)
Lemma cq_push_full σ x : mem_avail σ = 0 → push x σ = (inr bad_alloc_thrown, σ).
Proof. intros Hm. unfold push. qstep. by rewrite Hm. Qed.

(** The four pops on an empty queue. *)
Lemma cq_pop_empty σ :
  queue_rep σ [] →
  try_pop σ = (inl None, σ) ∧ try_pop_res σ = (inl (false, None), σ) ∧
  wait_and_pop σ = (inr blocks, σ) ∧ wait_and_pop_res σ = (inr blocks, σ).
Proof.
  intros [Hc _ _ _ _ _ Hhm Htm]. destruct σ as [hd tl hm tm h b m f].
  simpl in Hc, Hhm, Htm. subst hd hm tm.
  unfold try_pop, try_pop_res, wait_and_pop, wait_and_pop_res, try_pop_head, try_pop_head_res,
    wait_pop_head, wait_pop_head_res, wait_for_data.
  qstep. rewrite !decide_True by done. qstep. done.
Qed.

(** The four pops on a queue that is not empty: the oldest value, its node
    deleted. *)
Lemma cq_pop_nonempty σ a x l :
  queue_rep σ ((a, x) :: l) →
  ∃ σ', queue_rep σ' l ∧ mem_avail σ' = S (mem_avail σ) ∧ freed σ' = freed σ ++ [a] ∧
        heap σ' = delete a (heap σ) ∧
        try_pop σ = (inl (Some x), σ') ∧ try_pop_res σ = (inl (true, Some x), σ') ∧
        wait_and_pop σ = (inl (Some x), σ') ∧ wait_and_pop_res σ = (inl x, σ').
Proof.
  intros [Hc (o & Ht) Hnd Hnn Hcl Hdom Hhm Htm].
  destruct σ as [hd tl hm tm h b m f].
  cbn [head_ tail_ head_mutex_ tail_mutex_ heap brk mem_avail freed chain] in *.
  destruct Hc as (-> & nx & Ha & Hc). subst hm tm.
  cbn [fmap list_fmap fst app] in Hnd, Hnn, Hcl.
  apply NoDup_cons in Hnd as [Hal Hnd].
  assert (Hat : a ≠ tl). { intros ->. apply Hal, elem_of_app. right. by left. }
  assert (Ha0 : a ≠ nullptr). { intros E. apply Hnn. rewrite <-E. by left. }
  exists {| head_ := nx; tail_ := tl; head_mutex_ := false; tail_mutex_ := false;
            heap := delete a h; brk := b; mem_avail := S m; freed := f ++ [a] |}.
  assert (Hdel : delete a (<[a := {| v := Some x; next := nullptr |}]> h) = delete a h)
    by apply delete_insert_eq.
  split; [|split; [done|split; [done|split; [done|]]]].
  - split; cbn [head_ tail_ head_mutex_ tail_mutex_ heap brk mem_avail freed]; try done.
    + apply (cq_chain_frame h); [done|]. intros c Hc'. rewrite lookup_delete_ne; [done|].
      intros ->. apply Hal, elem_of_app. by left.
    + exists o. by rewrite lookup_delete_ne.
    + intros Hn. apply Hnn. by right.
    + intros c [y Hy]. destruct (decide (c = a)) as [->|]; [by rewrite lookup_delete_eq in Hy|].
      rewrite lookup_delete_ne in Hy by done.
      assert (Hin : c ∈ a :: l.*1 ++ [tl]) by (apply Hcl; eauto).
      by apply elem_of_cons in Hin as [->|].
    + intros c [y Hy]. destruct (decide (c = a)) as [->|]; [by rewrite lookup_delete_eq in Hy|].
      rewrite lookup_delete_ne in Hy by done. apply Hdom. eauto.
  - unfold try_pop, try_pop_res, wait_and_pop, wait_and_pop_res, try_pop_head, try_pop_head_res,
      wait_pop_head, wait_pop_head_res, wait_for_data, pop_head.
    split_and!;
      repeat (qstep;
              first [ rewrite Ha | rewrite decide_False by done | rewrite lookup_insert_eq
                    | rewrite (cq_delete_single a (Some x)) by (done || apply lookup_insert_eq)
                    | rewrite Hdel ]);
      reflexivity.
Qed.

(** The constructor. *)
Lemma cq_ctor_rep mem :
  ∃ σ, ConcurrentQueue_ctor (T:=T) (S mem) = (inl (), σ) ∧ queue_rep σ [] ∧
       mem_avail σ = mem ∧ freed σ = [].
Proof.
  eexists. split; [reflexivity|]. split; [|done].
  split; cbn [head_ tail_ head_mutex_ tail_mutex_ heap brk mem_avail freed chain
              fmap list_fmap app]; try done.
  - by exists None.
  - apply NoDup_singleton.
  - by intros ?%list_elem_of_singleton.
  - intros a [n Hn]. apply lookup_insert_Some in Hn as [[<- _]|[_ Hn]]; [by left|].
    by rewrite lookup_empty in Hn.
  - intros a [n Hn]. apply lookup_insert_Some in Hn as [[<- _]|[_ Hn]]; [lia|].
    by rewrite lookup_empty in Hn.
Qed.

(** The destructor of a pointer that owns a chain: the nodes are deleted
    from the last to the first. *)
Lemma cq_delete_chain h t o l : ∀ a σ fuel,
  heap σ = h → chain h a t l → h !! t = Some {| v := o; next := nullptr |} →
  nullptr ∉ l.*1 ++ [t] → length l < fuel →
  delete_chain fuel a σ =
  (inl (), {| head_ := head_ σ; tail_ := tail_ σ; head_mutex_ := head_mutex_ σ;
              tail_mutex_ := tail_mutex_ σ; heap := foldr delete h (l.*1 ++ [t]);
              brk := brk σ; mem_avail := S (length l) + mem_avail σ;
              freed := freed σ ++ reverse (l.*1 ++ [t]) |}).
Proof.
  induction l as [|[b x] l IH]; intros a σ fuel Hh Hc Ht Hnn Hfuel.
  - simpl in Hc. subst a. destruct fuel as [|fuel]; [simpl in Hfuel; lia|].
    cbn [delete_chain]. rewrite decide_False.
    2:{ intros E. apply Hnn. rewrite <-E. by left. }
    rewrite Hh, Ht. cbn [next]. rewrite cq_delete_chain_null. by rewrite Hh.
  - cbn [chain] in Hc. destruct Hc as (-> & nx & Hb & Hc).
    destruct fuel as [|fuel]; [simpl in Hfuel; lia|].
    cbn [delete_chain]. rewrite decide_False.
    2:{ intros E. apply Hnn. rewrite <-E. by left. }
    rewrite Hh, Hb. cbn [next].
    rewrite (IH nx σ fuel Hh Hc Ht); [| |simpl in Hfuel; lia].
    2:{ intros Hn. apply Hnn. by right. }
    cbn [head_ tail_ head_mutex_ tail_mutex_ heap brk mem_avail freed fmap list_fmap fst app
         foldr length].
    rewrite reverse_cons, (assoc_L (++)). done.
Qed.

(** ... unless the call stack has no room for a call per node: then the
    innermost call finds no room, and nothing has been deleted. *)
Lemma cq_delete_chain_overflow h t o l : ∀ a σ depth,
  heap σ = h → chain h a t l → h !! t = Some {| v := o; next := nullptr |} →
  nullptr ∉ l.*1 ++ [t] → depth ≤ length l →
  delete_chain depth a σ = (inr stack_overflow, σ).
Proof.
  induction l as [|[b x] l IH]; intros a σ depth Hh Hc Ht Hnn Hdepth.
  - simpl in Hc. subst a. destruct depth as [|depth]; [|simpl in Hdepth; lia].
    cbn [delete_chain]. rewrite decide_False; [done|].
    intros E. apply Hnn. rewrite <-E. by left.
  - cbn [chain] in Hc. destruct Hc as (-> & nx & Hb & Hc).
    assert (Hb0 : b ≠ nullptr) by (intros E; apply Hnn; rewrite <-E; by left).
    destruct depth as [|depth]; cbn [delete_chain]; rewrite decide_False by done; [done|].
    rewrite Hh, Hb. cbn [next].
    rewrite (IH nx σ depth Hh Hc Ht); [done| |simpl in Hdepth; lia].
    intros Hn. apply Hnn. by right.
Qed.

(** The destructor of the queue, on a call stack with room for a nested
    call per node. *)
Lemma cq_dtor_rep σ l depth :
  queue_rep σ l → length l < depth →
  ∃ σ', ConcurrentQueue_dtor depth σ = (inl (), σ') ∧ heap σ' = ∅ ∧
        freed σ' = freed σ ++ reverse (l.*1 ++ [tail_ σ]) ∧
        mem_avail σ' = S (length l) + mem_avail σ.
Proof.
  intros [Hc (o & Ht) Hnd Hnn Hcl Hdom Hhm Htm] Hlen.
  eexists. split.
  { unfold ConcurrentQueue_dtor. qstep.
    rewrite (cq_delete_chain (heap σ) (tail_ σ) o l); try done. }
  cbn [head_ tail_ head_mutex_ tail_mutex_ heap brk mem_avail freed].
  split; [|done]. apply map_empty. intros a.
  destruct (decide (a ∈ l.*1 ++ [tail_ σ])) as [Ha|Ha].
  - by apply lookup_foldr_delete.
  - rewrite lookup_foldr_delete_not_elem_of by done.
    destruct (heap σ !! a) eqn:E; [|done]. destruct Ha. apply Hcl. eauto.
Qed.

(** ... and on a call stack with less room. *)
Lemma cq_dtor_overflow σ l depth :
  queue_rep σ l → depth ≤ length l →
  ∃ σ', ConcurrentQueue_dtor depth σ = (inr stack_overflow, σ') ∧
        heap σ' = heap σ ∧ freed σ' = freed σ ∧ mem_avail σ' = mem_avail σ.
Proof.
  intros [Hc (o & Ht) Hnd Hnn Hcl Hdom Hhm Htm] Hlen.
  eexists. split.
  { unfold ConcurrentQueue_dtor. qstep.
    rewrite (cq_delete_chain_overflow (heap σ) (tail_ σ) o l); try done. }
  done.
Qed.

Lemma cq_fifo_model_pushes_then (xs : list T) (cs : list (call T)) : ∀ (ys : list T) m,
  fifo_model ((Push <$> xs) ++ cs) ys (length xs + m)
  = (replicate (length xs) (inl Void) ++ (fifo_model cs (ys ++ xs) m).1.1,
     (fifo_model cs (ys ++ xs) m).1.2, (fifo_model cs (ys ++ xs) m).2).
Proof.
  induction xs as [|x xs IH]; intros ys m.
  - cbn. rewrite app_nil_r. by destruct (fifo_model cs ys m) as [[? ?] ?].
  - cbn [fmap list_fmap app length Nat.add fifo_model]. rewrite IH.
    by rewrite <-(assoc_L (++)).
Qed.

(** Calls on a queue are calls on a list. *)
Lemma cq_calls_refine_list (cs : list (call T)) : ∀ σ l,
  queue_rep σ l →
  ∃ σ' l',
    do_calls cs σ = ((fifo_model cs l.*2 (mem_avail σ)).1.1, σ') ∧
    queue_rep σ' l' ∧
    l'.*2 = (fifo_model cs l.*2 (mem_avail σ)).1.2 ∧
    mem_avail σ' = (fifo_model cs l.*2 (mem_avail σ)).2.
Proof.
  induction cs as [|c cs IH]; intros σ l Hrep.
  - exists σ, l. split; [done|]. split; [done|]. by split.
  - assert (Hgo : ∀ (r : answer T) σ1 l1 (ys : list T) m,
      do_call c σ = (inl r, σ1) → queue_rep σ1 l1 → l1.*2 = ys → mem_avail σ1 = m →
      ∃ σ' l', do_calls (c :: cs) σ = (inl r :: (fifo_model cs ys m).1.1, σ') ∧
               queue_rep σ' l' ∧ l'.*2 = (fifo_model cs ys m).1.2 ∧
               mem_avail σ' = (fifo_model cs ys m).2).
    { intros r σ1 l1 ys m Hcall Hrep1 Hl1 Hm1.
      destruct (IH σ1 l1 Hrep1) as (σ' & l' & Hcalls & Hrep' & Hl' & Hm').
      rewrite Hl1, Hm1 in Hcalls, Hl', Hm'.
      exists σ', l'. cbn [do_calls]. rewrite Hcall, Hcalls. done. }
    assert (Hstop : do_call c σ = (inr blocks, σ) →
      ∃ σ' l', do_calls (c :: cs) σ = ([inr blocks], σ') ∧
               queue_rep σ' l' ∧ l'.*2 = l.*2 ∧ mem_avail σ' = mem_avail σ).
    { intros Hcall. exists σ, l. cbn [do_calls]. by rewrite Hcall. }
    cbn [fifo_model].
    destruct c as [x| | | |].
    + destruct (mem_avail σ) as [|m] eqn:Hm.
      * destruct (IH σ l Hrep) as (σ' & l' & Hcalls & Hrep' & Hl' & Hm').
        rewrite Hm in Hcalls, Hl', Hm'.
        exists σ', l'. cbn [do_calls]. unfold do_call. qstep.
        rewrite (cq_push_full σ x Hm), Hcalls.
        by destruct (fifo_model cs l.*2 0) as [[rs zs] m'].
      * destruct (cq_push_rep σ l x m Hrep Hm) as (σ1 & Hpush & Hrep1 & Hm1 & _).
        destruct (Hgo Void σ1 (l ++ [(tail_ σ, x)]) (l.*2 ++ [x]) m) as (σ' & l' & ?);
          try done.
        { unfold do_call. qstep. by rewrite Hpush. }
        { by rewrite fmap_app. }
        exists σ', l'. by destruct (fifo_model cs (l.*2 ++ [x]) m) as [[rs zs] m'].
    + destruct l as [|[a x] l]; cbn [fmap list_fmap snd].
      * destruct (cq_pop_empty σ Hrep) as (H1 & H2 & H3 & H4).
        destruct (Hgo (Ptr None) σ [] [] (mem_avail σ)) as (σ' & l' & ?); try done.
        { unfold do_call. qstep. by rewrite H1. }
        exists σ', l'. by destruct (fifo_model cs [] (mem_avail σ)) as [[rs zs] m'].
      * destruct (cq_pop_nonempty σ a x l Hrep) as (σ1 & Hrep1 & Hm1 & _ & _ & H1 & H2 & H3 & H4).
        destruct (Hgo (Ptr (Some x)) σ1 l l.*2 (S (mem_avail σ))) as (σ' & l' & ?); try done.
        { unfold do_call. qstep. by rewrite H1. }
        exists σ', l'. by destruct (fifo_model cs l.*2 (S (mem_avail σ))) as [[rs zs] m'].
    + destruct l as [|[a x] l]; cbn [fmap list_fmap snd].
      * destruct (cq_pop_empty σ Hrep) as (H1 & H2 & H3 & H4).
        destruct (Hgo (Bool false None) σ [] [] (mem_avail σ)) as (σ' & l' & ?); try done.
        { unfold do_call. qstep. by rewrite H2. }
        exists σ', l'. by destruct (fifo_model cs [] (mem_avail σ)) as [[rs zs] m'].
      * destruct (cq_pop_nonempty σ a x l Hrep) as (σ1 & Hrep1 & Hm1 & _ & _ & H1 & H2 & H3 & H4).
        destruct (Hgo (Bool true (Some x)) σ1 l l.*2 (S (mem_avail σ))) as (σ' & l' & ?);
          try done.
        { unfold do_call. qstep. by rewrite H2. }
        exists σ', l'. by destruct (fifo_model cs l.*2 (S (mem_avail σ))) as [[rs zs] m'].
    + destruct l as [|[a x] l]; cbn [fmap list_fmap snd].
      * destruct (cq_pop_empty σ Hrep) as (H1 & H2 & H3 & H4).
        apply Hstop. unfold do_call. qstep. by rewrite H3.
      * destruct (cq_pop_nonempty σ a x l Hrep) as (σ1 & Hrep1 & Hm1 & _ & _ & H1 & H2 & H3 & H4).
        destruct (Hgo (Ptr (Some x)) σ1 l l.*2 (S (mem_avail σ))) as (σ' & l' & ?); try done.
        { unfold do_call. qstep. by rewrite H3. }
        exists σ', l'. by destruct (fifo_model cs l.*2 (S (mem_avail σ))) as [[rs zs] m'].
    + destruct l as [|[a x] l]; cbn [fmap list_fmap snd].
      * destruct (cq_pop_empty σ Hrep) as (H1 & H2 & H3 & H4).
        apply Hstop. unfold do_call. qstep. by rewrite H4.
      * destruct (cq_pop_nonempty σ a x l Hrep) as (σ1 & Hrep1 & Hm1 & _ & _ & H1 & H2 & H3 & H4).
        destruct (Hgo (Res x) σ1 l l.*2 (S (mem_avail σ))) as (σ' & l' & ?); try done.
        { unfold do_call. qstep. by rewrite H4. }
        exists σ', l'. by destruct (fifo_model cs l.*2 (S (mem_avail σ))) as [[rs zs] m'].
Qed.

Lemma cq_fifo_model_room (cs : list (call T)) : ∀ (xs : list T) m,
  (fifo_model cs xs m).2 + length (fifo_model cs xs m).1.2 = m + length xs.
Proof.
  induction cs as [|c cs IH]; intros xs m; [done|].
  cbn [fifo_model].
  destruct c as [x| | | |], xs as [|y xs], m as [|m];
    try match goal with
        | |- context [fifo_model cs ?ys ?k] =>
            specialize (IH ys k); destruct (fifo_model cs ys k) as [[rs zs] m']
        end; cbn [fst snd length] in *; rewrite ?length_app in IH; simpl in IH.
  all: lia.
Qed.

Lemma cq_fifo_model_pops (ps : list (call T)) : ∀ (xs : list T) m,
  length ps = length xs → Forall (λ c, c = TryPop ∨ c = WaitAndPop) ps →
  fifo_model ps xs m = ((λ x, inl (Ptr (Some x))) <$> xs, [], length xs + m).
Proof.
  induction ps as [|c ps IH]; intros xs m Hlen Hps.
  - by destruct xs.
  - destruct xs as [|x xs]; [done|]. apply Forall_cons in Hps as [Hc Hps].
    simpl in Hlen. cbn [fifo_model].
    assert (Hlen' : length ps = length xs) by lia.
    assert (Hrest := IH xs (S m) Hlen' Hps).
    replace (length xs + S m) with (length (x :: xs) + m) in Hrest by (simpl; lia).
    by destruct Hc as [-> | ->]; rewrite Hrest.
Qed.




End ConcurrentQueueFacts.

(* ===================================================================== *)
(** * Facts about the queue with any number of threads *)
(* ===================================================================== *)

Section ConcurrentQueueThreadsFacts.
Import ConcurrentQueue ConcurrentQueueThreads.
Context {T : Type}.
Implicit Types (Σ : state T) (σ : memory T) (L : thread T) (l : list (nat * T))
  (h : gmap nat (Node T)) (n : Node T) (hist : list (event T)) (k : pc T).

Lemma cqt_thread_of_insert σ ths hist tid L t :
  thread_of {| shared := σ; threads := <[tid := L]> ths; history := hist |} t
  = if decide (t = tid) then L
    else thread_of {| shared := σ; threads := ths; history := hist |} t.
Proof.
  unfold thread_of. cbn. destruct (decide (t = tid)) as [->|Hne].
  - by rewrite lookup_insert_eq.
  - by rewrite lookup_insert_ne.
Qed.

Lemma cqt_thread_of_shared σ σ' ths hist hist' t :
  thread_of {| shared := σ; threads := ths; history := hist |} t
  = thread_of {| shared := σ'; threads := ths; history := hist' |} t.
Proof. done. Qed.

(** The state after thread [tid] has moved to [k]. *)
Lemma cqt_at_pc_after Σ σ' hist' tid L' t :
  at_pc (thread_of {| shared := σ'; threads := <[tid := L']> (threads Σ); history := hist' |} t)
  = if decide (t = tid) then at_pc L' else at_pc (thread_of Σ t).
Proof.
  rewrite cqt_thread_of_insert. by destruct (decide (t = tid)).
Qed.

Lemma cqt_last_pop_other tid t hist o :
  t ≠ tid → last_pop t (hist ++ [EvPop tid o]) = last_pop t hist.
Proof.
  intros Hne. unfold last_pop. rewrite omap_app. cbn.
  rewrite decide_False by done. by rewrite app_nil_r.
Qed.

Lemma cqt_last_pop_push t hist tid x : last_pop t (hist ++ [EvPush tid x]) = last_pop t hist.
Proof. unfold last_pop. rewrite omap_app. cbn. by rewrite app_nil_r. Qed.

Lemma cqt_last_pop_same tid hist o : last_pop tid (hist ++ [EvPop tid o]) = Some o.
Proof.
  unfold last_pop. rewrite omap_app. cbn. rewrite decide_True by done. by rewrite last_snoc.
Qed.

(** A thread that holds a mutex is the only one. *)
Lemma cqt_head_holder hd l n Σ tid t :
  inv_with hd l n Σ → holds_head (at_pc (thread_of Σ tid)) = true → t ≠ tid →
  holds_head (at_pc (thread_of Σ t)) = false.
Proof.
  intros Hinv Htid Hne. destruct (holds_head (at_pc (thread_of Σ t))) eqn:E; [|done].
  destruct Hne. by eapply (inv_head_excl _ _ _ _ Hinv).
Qed.

Lemma cqt_tail_holder hd l n Σ tid t :
  inv_with hd l n Σ → holds_tail (at_pc (thread_of Σ tid)) = true → t ≠ tid →
  holds_tail (at_pc (thread_of Σ t)) = false.
Proof.
  intros Hinv Htid Hne. destruct (holds_tail (at_pc (thread_of Σ t))) eqn:E; [|done].
  destruct Hne. by eapply (inv_tail_excl _ _ _ _ Hinv).
Qed.

Lemma cqt_head_is_hd hd l n Σ tid :
  inv_with hd l n Σ → holds_head (at_pc (thread_of Σ tid)) = true →
  (∀ c res a, at_pc (thread_of Σ tid) ≠ PopHead237 c res a) →
  head_ (shared Σ) = hd.
Proof.
  intros Hinv Htid Hpc. apply (inv_head _ _ _ _ Hinv). intros t c res a Ht.
  destruct (decide (t = tid)) as [->|Hne]; [by eapply Hpc|].
  pose proof (cqt_head_holder _ _ _ _ _ _ Hinv Htid Hne) as Hf. by rewrite Ht in Hf.
Qed.

Lemma cqt_tail_next_null hd l n Σ tid :
  inv_with hd l n Σ → holds_tail (at_pc (thread_of Σ tid)) = true →
  (∀ x a, at_pc (thread_of Σ tid) ≠ Push167 x a) →
  next n = nullptr.
Proof.
  intros Hinv Htid Hpc. apply (inv_next _ _ _ _ Hinv). intros t x a Ht.
  destruct (decide (t = tid)) as [->|Hne]; [by eapply Hpc|].
  pose proof (cqt_tail_holder _ _ _ _ _ _ Hinv Htid Hne) as Hf. by rewrite Ht in Hf.
Qed.


Lemma cqt_pc_ok_ext t σ σ' hist hd l n k :
  heap σ' = heap σ → head_ σ' = head_ σ → tail_ σ' = tail_ σ →
  pc_ok t σ hist hd l n k → pc_ok t σ' hist hd l n k.
Proof. intros Hh Hd Ht. unfold pc_ok. by rewrite Hh, Hd, Ht. Qed.

(** How a step changes who holds a mutex. *)
Inductive lock_change (held held' locked locked' : bool) : Prop :=
| lock_same : held' = held → locked' = locked → lock_change held held' locked locked'
| lock_taken : held = false → locked = false → held' = true → locked' = true →
               lock_change held held' locked locked'
| lock_given : held = true → held' = false → locked' = false →
               lock_change held held' locked locked'.

Lemma cqt_locks_after (holds : pc T → bool) (pcs pcs' : nat → pc T) tid locked locked' :
  (∀ t, t ≠ tid → pcs' t = pcs t) →
  lock_change (holds (pcs tid)) (holds (pcs' tid)) locked locked' →
  (locked = true ↔ ∃ t, holds (pcs t) = true) →
  (∀ t1 t2, holds (pcs t1) = true → holds (pcs t2) = true → t1 = t2) →
  (locked' = true ↔ ∃ t, holds (pcs' t) = true) ∧
  (∀ t1 t2, holds (pcs' t1) = true → holds (pcs' t2) = true → t1 = t2).
Proof.
  intros Hsame Hch Hlocked Hexcl.
  assert (Hother : ∀ t, holds (pcs' t) = true → t ≠ tid → holds (pcs t) = true).
  { intros t Ht Hne. by rewrite <-Hsame. }
  destruct Hch as [Hh Hl|Hh Hl Hh' Hl'|Hh Hh' Hl'].
  - split.
    + rewrite Hl, Hlocked. split; intros [t Ht]; exists t.
      * destruct (decide (t = tid)) as [->|Hne]; [congruence|by rewrite Hsame].
      * destruct (decide (t = tid)) as [->|Hne]; [congruence|by rewrite <-Hsame].
    + intros t1 t2 H1 H2.
      apply Hexcl.
      * destruct (decide (t1 = tid)) as [->|Hne]; [congruence|by apply Hother].
      * destruct (decide (t2 = tid)) as [->|Hne]; [congruence|by apply Hother].
  - assert (Hnone : ∀ t, holds (pcs t) = false).
    { intros t. destruct (holds (pcs t)) eqn:E; [|done].
      assert (locked = true) by (apply Hlocked; eauto). congruence. }
    split.
    + split; [by exists tid|done].
    + intros t1 t2 H1 H2.
      destruct (decide (t1 = tid)) as [->|Hne1], (decide (t2 = tid)) as [->|Hne2]; try done.
      * apply Hother in H2; [|done]. by rewrite Hnone in H2.
      * apply Hother in H1; [|done]. by rewrite Hnone in H1.
      * apply Hother in H1; [|done]. by rewrite Hnone in H1.
  - assert (Honly : ∀ t, t ≠ tid → holds (pcs t) = false).
    { intros t Hne. destruct (holds (pcs t)) eqn:E; [|done]. destruct Hne. by apply Hexcl. }
    split.
    + split; [congruence|]. intros [t Ht].
      destruct (decide (t = tid)) as [->|Hne]; [congruence|].
      apply Hother in Ht; [|done]. by rewrite Honly in Ht.
    + intros t1 t2 H1 H2.
      destruct (decide (t1 = tid)) as [->|Hne1]; [congruence|].
      apply Hother in H1; [|done]. by rewrite Honly in H1.
Qed.

(** A step that leaves the nodes, [head_] and [tail_] alone. *)
Lemma cqt_inv_move hd l n Σ tid L' σ' :
  inv_with hd l n Σ →
  heap σ' = heap (shared Σ) → head_ σ' = head_ (shared Σ) → tail_ σ' = tail_ (shared Σ) →
  brk σ' = brk (shared Σ) →
  (∀ c res a, at_pc (thread_of Σ tid) ≠ PopHead237 c res a) →
  (∀ x a, at_pc (thread_of Σ tid) ≠ Push167 x a) →
  owned (at_pc L') = owned (at_pc (thread_of Σ tid)) →
  pc_ok tid σ' (history Σ) hd l n (at_pc L') →
  lock_change (holds_head (at_pc (thread_of Σ tid))) (holds_head (at_pc L'))
              (head_mutex_ (shared Σ)) (head_mutex_ σ') →
  lock_change (holds_tail (at_pc (thread_of Σ tid))) (holds_tail (at_pc L'))
              (tail_mutex_ (shared Σ)) (tail_mutex_ σ') →
  inv_with hd l n {| shared := σ'; threads := <[tid := L']> (threads Σ); history := history Σ |}.
Proof.
  intros Hinv Hheap Hhead Htail Hbrk Hn237 Hn167 Howned Hpc Hhl Htl.
  set (Σ' := {| shared := σ'; threads := <[tid := L']> (threads Σ); history := history Σ |}).
  assert (Hat : ∀ t, at_pc (thread_of Σ' t)
                     = if decide (t = tid) then at_pc L' else at_pc (thread_of Σ t))
    by (intros t; apply cqt_at_pc_after).
  assert (Hown : ∀ t, owned (at_pc (thread_of Σ' t)) = owned (at_pc (thread_of Σ t))).
  { intros t. rewrite Hat. by destruct (decide (t = tid)) as [->|]. }
  destruct (cqt_locks_after holds_head (λ t, at_pc (thread_of Σ t))
              (λ t, at_pc (thread_of Σ' t)) tid _ _
              ltac:(intros t Hne; cbn beta; by rewrite Hat, decide_False)
              ltac:(cbn beta; by rewrite Hat, decide_True)
              (inv_head_locked _ _ _ _ Hinv) (inv_head_excl _ _ _ _ Hinv)) as [Hh1 Hh2].
  destruct (cqt_locks_after holds_tail (λ t, at_pc (thread_of Σ t))
              (λ t, at_pc (thread_of Σ' t)) tid _ _
              ltac:(intros t Hne; cbn beta; by rewrite Hat, decide_False)
              ltac:(cbn beta; by rewrite Hat, decide_True)
              (inv_tail_locked _ _ _ _ Hinv) (inv_tail_excl _ _ _ _ Hinv)) as [Ht1 Ht2].
  split; change (shared Σ') with σ'; change (history Σ') with (history Σ);
    rewrite ?Hheap, ?Hhead, ?Htail, ?Hbrk.
  - apply Hinv.
  - apply Hinv.
  - intros t. rewrite Hat. destruct (decide (t = tid)) as [->|Hne].
    + exact Hpc.
    + apply (cqt_pc_ok_ext t (shared Σ)); [done..|]. apply (inv_pc _ _ _ _ Hinv).
  - intros Hno. apply (inv_head _ _ _ _ Hinv). intros t c res a Ht.
    destruct (decide (t = tid)) as [->|Hne]; [by eapply Hn237|].
    apply (Hno t c res a). by rewrite Hat, decide_False.
  - intros Hno. apply (inv_next _ _ _ _ Hinv). intros t x a Ht.
    destruct (decide (t = tid)) as [->|Hne]; [by eapply Hn167|].
    apply (Hno t x a). by rewrite Hat, decide_False.
  - apply Hinv.
  - apply Hinv.
  - intros t a. rewrite Hown. apply (inv_owned _ _ _ _ Hinv).
  - intros t1 t2 a. rewrite !Hown. apply (inv_owned_inj _ _ _ _ Hinv).
  - intros a Ha. destruct (inv_closed _ _ _ _ Hinv a Ha) as [?|[t Ht]]; [by left|].
    right. exists t. by rewrite Hown.
  - apply Hinv.
  - exact Hh1.
  - exact Hh2.
  - exact Ht1.
  - exact Ht2.
  - apply Hinv.
Qed.


(** What another thread knows stays true when a step leaves alone what it
    depends on. *)
Lemma cqt_pc_ok_frame t σ σ' hist hist' hd hd' l l' n n' k :
  pc_ok t σ hist hd l n k →
  (∀ a, owned k = Some a → heap σ' !! a = heap σ !! a) →
  last_pop t hist' = last_pop t hist →
  (holds_tail k = true → n' = n) →
  (holds_head k = true →
     hd' = hd ∧ head_ σ' = head_ σ ∧ (∃ sfx, l' = l ++ sfx) ∧ (l' = [] → tail_ σ' = tail_ σ)) →
  pc_ok t σ' hist' hd' l' n' k.
Proof.
  intros Hok Hown Hlast Htl Hhd.
  destruct k; cbn [pc_ok owned holds_tail holds_head] in *; try done.
  - by rewrite Hown.
  - by rewrite Hown.
  - rewrite Hown, Htl by done. done.
  - rewrite Hown, Htl by done. done.
  - destruct Hhd as (_ & _ & [sfx ->] & Ht); [done|]. intros Hnil.
    apply app_eq_nil in Hnil as [-> ->]. rewrite app_nil_r in Ht. rewrite Ht by done. auto.
  - destruct Hhd as (_ & _ & [sfx ->] & Ht); [done|]. intros Hnil.
    apply app_eq_nil in Hnil as [-> ->]. rewrite app_nil_r in Ht. rewrite Ht by done. auto.
  - destruct Hhd as (_ & _ & [sfx ->] & _); [done|]. by destruct l.
  - destruct Hhd as (_ & _ & [sfx ->] & _); [done|].
    destruct Hok as (a & x & l0 & -> & Hres). by exists a, x, (l0 ++ sfx).
  - destruct Hhd as (-> & -> & [sfx ->] & _); [done|].
    destruct Hok as (-> & -> & x & l0 & -> & Hres). do 2 (split; [done|]).
    by exists x, (l0 ++ sfx).
  - destruct (decide (head_node = nullptr)); [done|]. rewrite Hown, Hlast by done. done.
  - destruct (decide (head_node = nullptr)); [done|]. rewrite Hown, Hlast by done. done.
Qed.


(** A step that changes the nodes and takes or gives no mutex. *)
Lemma cqt_inv_build hd l n Σ tid L' σ' hist' hd' l' n' :
  inv_with hd l n Σ →
  head_mutex_ σ' = head_mutex_ (shared Σ) → tail_mutex_ σ' = tail_mutex_ (shared Σ) →
  holds_head (at_pc L') = holds_head (at_pc (thread_of Σ tid)) →
  holds_tail (at_pc L') = holds_tail (at_pc (thread_of Σ tid)) →
  chain (heap σ') hd' (tail_ σ') l' →
  heap σ' !! tail_ σ' = Some n' →
  pc_ok tid σ' hist' hd' l' n' (at_pc L') →
  (∀ t, t ≠ tid → pc_ok t σ' hist' hd' l' n' (at_pc (thread_of Σ t))) →
  ((∀ c res a, at_pc L' ≠ PopHead237 c res a) →
   (∀ t c res a, t ≠ tid → at_pc (thread_of Σ t) ≠ PopHead237 c res a) → head_ σ' = hd') →
  ((∀ x a, at_pc L' ≠ Push167 x a) →
   (∀ t x a, t ≠ tid → at_pc (thread_of Σ t) ≠ Push167 x a) → next n' = nullptr) →
  NoDup (l'.*1 ++ [tail_ σ']) → nullptr ∉ l'.*1 ++ [tail_ σ'] →
  (∀ a, owned (at_pc L') = Some a →
     a ≠ nullptr ∧ (a ∉ l'.*1 ++ [tail_ σ']) ∧ is_Some (heap σ' !! a)) →
  (∀ t a, t ≠ tid → owned (at_pc (thread_of Σ t)) = Some a →
     (a ∉ l'.*1 ++ [tail_ σ']) ∧ is_Some (heap σ' !! a) ∧ owned (at_pc L') ≠ Some a) →
  (∀ a, is_Some (heap σ' !! a) →
     a ∈ l'.*1 ++ [tail_ σ'] ∨ owned (at_pc L') = Some a ∨
     ∃ t, t ≠ tid ∧ owned (at_pc (thread_of Σ t)) = Some a) →
  (∀ a, is_Some (heap σ' !! a) → a < brk σ') →
  Some <$> pushed {| shared := σ'; threads := <[tid := L']> (threads Σ); history := hist' |}
    = popped {| shared := σ'; threads := <[tid := L']> (threads Σ); history := hist' |}
      ++ (Some <$> l'.*2) →
  inv_with hd' l' n' {| shared := σ'; threads := <[tid := L']> (threads Σ); history := hist' |}.
Proof.
  intros Hinv Hhm Htm Hhh Hht Hchain Htail Hpc Hpcs Hhead Hnext Hnd Hnn Hown Howns Hclosed
    Hdom Hhist.
  set (Σ' := {| shared := σ'; threads := <[tid := L']> (threads Σ); history := hist' |}).
  assert (Hat : ∀ t, at_pc (thread_of Σ' t)
                     = if decide (t = tid) then at_pc L' else at_pc (thread_of Σ t))
    by (intros t; apply cqt_at_pc_after).
  destruct (cqt_locks_after holds_head (λ t, at_pc (thread_of Σ t))
              (λ t, at_pc (thread_of Σ' t)) tid (head_mutex_ (shared Σ)) (head_mutex_ σ')
              ltac:(intros t Hne; cbn beta; by rewrite Hat, decide_False)
              ltac:(cbn beta; rewrite Hat, decide_True by done; by apply lock_same)
              (inv_head_locked _ _ _ _ Hinv) (inv_head_excl _ _ _ _ Hinv)) as [Hh1 Hh2].
  destruct (cqt_locks_after holds_tail (λ t, at_pc (thread_of Σ t))
              (λ t, at_pc (thread_of Σ' t)) tid (tail_mutex_ (shared Σ)) (tail_mutex_ σ')
              ltac:(intros t Hne; cbn beta; by rewrite Hat, decide_False)
              ltac:(cbn beta; rewrite Hat, decide_True by done; by apply lock_same)
              (inv_tail_locked _ _ _ _ Hinv) (inv_tail_excl _ _ _ _ Hinv)) as [Ht1 Ht2].
  split; change (shared Σ') with σ'; change (history Σ') with hist'; try done.
  - intros t. rewrite Hat. destruct (decide (t = tid)) as [->|Hne]; [done|by apply Hpcs].
  - intros Hno. apply Hhead.
    + intros c res a Ha. apply (Hno tid c res a). by rewrite Hat, decide_True.
    + intros t c res a Hne Ha. apply (Hno t c res a). by rewrite Hat, decide_False.
  - intros Hno. apply Hnext.
    + intros x a Ha. apply (Hno tid x a). by rewrite Hat, decide_True.
    + intros t x a Hne Ha. apply (Hno t x a). by rewrite Hat, decide_False.
  - intros t a. rewrite Hat. destruct (decide (t = tid)) as [->|Hne]; [by apply Hown|].
    intros Ha. destruct (Howns t a Hne Ha) as (? & ? & _).
    split; [|done]. by apply (inv_owned _ _ _ _ Hinv t a).
  - intros t1 t2 a. rewrite !Hat.
    destruct (decide (t1 = tid)) as [->|Hne1], (decide (t2 = tid)) as [->|Hne2]; try done.
    + intros H1 H2. by destruct (Howns t2 a Hne2 H2) as (_ & _ & []).
    + intros H1 H2. by destruct (Howns t1 a Hne1 H1) as (_ & _ & []).
    + apply (inv_owned_inj _ _ _ _ Hinv).
  - intros a Ha. destruct (Hclosed a Ha) as [?|[?|(t & Hne & Ht)]]; [by left| |].
    + right. exists tid. by rewrite Hat, decide_True.
    + right. exists t. by rewrite Hat, decide_False.
Qed.

Lemma cqt_fresh hd l n Σ : inv_with hd l n Σ → heap (shared Σ) !! brk (shared Σ) = None.
Proof.
  intros Hinv. destruct (heap (shared Σ) !! brk (shared Σ)) eqn:E; [|done].
  assert (brk (shared Σ) < brk (shared Σ)) by (apply (inv_dom _ _ _ _ Hinv); eauto). lia.
Qed.

Lemma cqt_in_heap hd l n Σ a :
  inv_with hd l n Σ → a ∈ l.*1 ++ [tail_ (shared Σ)] → is_Some (heap (shared Σ) !! a).
Proof.
  intros Hinv [Ha|Ha%list_elem_of_singleton]%elem_of_app.
  - eapply cq_chain_in_heap; [apply (inv_chain _ _ _ _ Hinv)|done].
  - subst a. rewrite (inv_tail _ _ _ _ Hinv). eauto.
Qed.

Lemma cqt_pushed_app Σ σ' ths' (es : list (event T)) :
  pushed {| shared := σ'; threads := ths'; history := history Σ ++ es |}
  = pushed Σ ++ omap (λ e, match e with EvPush _ x => Some x | _ => None end) es.
Proof. unfold pushed. cbn. by rewrite omap_app. Qed.

Lemma cqt_popped_app Σ σ' ths' (es : list (event T)) :
  popped {| shared := σ'; threads := ths'; history := history Σ ++ es |}
  = popped Σ ++ omap (λ e, match e with EvPop _ o => Some o | _ => None end) es.
Proof. unfold popped. cbn. by rewrite omap_app. Qed.


Ltac qstep :=
  repeat progress (
    cbv [mbind M_bind mret M_ret fail get set_head_ set_tail_ set_head_mutex_ set_tail_mutex_
         lock_head lock_tail unlock_head unlock_tail load store new_Node deref];
    cbn [head_ tail_ head_mutex_ tail_mutex_ heap brk mem_avail freed v next fst snd]).

Ltac qstep_in H :=
  repeat progress (
    cbv [perform mbind M_bind mret M_ret fail get set_head_ set_tail_ set_head_mutex_
         set_tail_mutex_ lock_head lock_tail unlock_head unlock_tail load store new_Node deref]
      in H;
    cbn [head_ tail_ head_mutex_ tail_mutex_ heap brk mem_avail freed v next fst snd] in H).

(** The thread comes back from a call, or faults, without a change of the
    memory: only for a thread that holds nothing. *)
Lemma cqt_step_Push161 hd l n Σ tid x L' σ' es :
  inv_with hd l n Σ → at_pc (thread_of Σ tid) = Push161 x →
  step_thread tid (thread_of Σ tid) (shared Σ) = Some (L', σ', es) →
  inv_with hd l n
    {| shared := σ'; threads := <[tid := L']> (threads Σ); history := history Σ ++ es |}.
Proof.
  intros Hinv Hpc Hstep. unfold step_thread in Hstep. rewrite Hpc in Hstep.
  pose proof (cqt_fresh _ _ _ _ Hinv) as Hfresh.
  qstep_in Hstep. destruct (mem_avail (shared Σ)) as [|m] eqn:Hm.
  - injection Hstep as <- <- <-. rewrite app_nil_r.
    apply cqt_inv_move; rewrite ?Hpc; try done; by apply lock_same.
  - injection Hstep as <- <- <-. rewrite app_nil_r.
    assert (Hin : ∀ a, is_Some (heap (shared Σ) !! a) → a ≠ brk (shared Σ)).
    { intros a [? Ha] ->. congruence. }
    assert (Hl : ∀ a, a ∈ l.*1 ++ [tail_ (shared Σ)] → a ≠ brk (shared Σ)).
    { intros a Ha. by eapply Hin, cqt_in_heap. }
    apply (cqt_inv_build hd l n); rewrite ?Hpc;
      cbn [head_ tail_ head_mutex_ tail_mutex_ heap brk at_pc goto holds_head holds_tail owned
           pc_ok]; try done.
    + apply (cq_chain_frame (heap (shared Σ))); [apply Hinv|]. intros b Hb.
      rewrite lookup_insert_ne; [done|]. intros E. apply (Hl b); [|done].
      apply elem_of_app. by left.
    + rewrite lookup_insert_ne; [apply Hinv|]. intros E. apply (Hl (tail_ (shared Σ))); [|done].
      apply elem_of_app. right. by left.
    + apply lookup_insert_eq.
    + intros t Hne. apply (cqt_pc_ok_frame t (shared Σ) _ (history Σ) _ hd _ l _ n);
        cbn [head_ tail_ heap]; try done.
      * apply (inv_pc _ _ _ _ Hinv).
      * intros a Ha. rewrite lookup_insert_ne; [done|]. intros E.
        destruct (inv_owned _ _ _ _ Hinv t a Ha) as (_ & _ & Hs). by apply (Hin a).
      * intros _. do 2 (split; [done|]). split; [exists []; by rewrite app_nil_r|done].
    + intros _ Hno. apply (inv_head _ _ _ _ Hinv). intros t c res a Ht.
      destruct (decide (t = tid)) as [->|Hne]; [congruence|by eapply Hno].
    + intros _ Hno. apply (inv_next _ _ _ _ Hinv). intros t y a Ht.
      destruct (decide (t = tid)) as [->|Hne]; [congruence|by eapply Hno].
    + apply Hinv.
    + apply Hinv.
    + intros a [= <-]. split; [|split].
      * assert (tail_ (shared Σ) < brk (shared Σ)); [|unfold nullptr; lia].
        apply (inv_dom _ _ _ _ Hinv). rewrite (inv_tail _ _ _ _ Hinv). eauto.
      * intros Ha. by apply (Hl _ Ha).
      * rewrite lookup_insert_eq. eauto.
    + intros t a Hne Ha. destruct (inv_owned _ _ _ _ Hinv t a Ha) as (_ & ? & Hs).
      split; [done|]. split.
      * rewrite lookup_insert_ne; [done|]. intros E. by apply (Hin a).
      * intros [= E]. by apply (Hin a).
    + intros a Ha. destruct (decide (a = brk (shared Σ))) as [->|Hne]; [right; by left|].
      rewrite lookup_insert_ne in Ha by done.
      destruct (inv_closed _ _ _ _ Hinv a Ha) as [?|[t Ht]]; [by left|].
      right. destruct (decide (t = tid)) as [->|Hne']; [by rewrite Hpc in Ht|].
      right. by exists t.
    + intros a Ha. destruct (decide (a = brk (shared Σ))) as [->|Hne]; [lia|].
      rewrite lookup_insert_ne in Ha by done. apply (inv_dom _ _ _ _ Hinv) in Ha. lia.
    + apply Hinv.
Qed.


Lemma cqt_tail_in l Σ : tail_ (shared Σ) ∈ l.*1 ++ [tail_ (shared Σ)].
Proof. apply elem_of_app. right. by left. Qed.

Lemma cqt_tail_not_in hd l n Σ b :
  inv_with hd l n Σ → b ∈ l.*1 → b ≠ tail_ (shared Σ).
Proof.
  intros Hinv Hb ->. pose proof (inv_nodup _ _ _ _ Hinv) as Hnd.
  apply NoDup_app in Hnd as (_ & Hd & _). eapply Hd; [done|by left].
Qed.

Lemma cqt_is_Some_store h a (m m' : Node T) b :
  h !! a = Some m → is_Some (<[a := m']> h !! b) ↔ is_Some (h !! b).
Proof.
  intros Ha. destruct (decide (a = b)) as [<-|Hne].
  - rewrite lookup_insert_eq, Ha. split; eauto.
  - by rewrite lookup_insert_ne.
Qed.

(** Line 165 or 166: a store to the node [tail_] points to. *)
Lemma cqt_store_tail hd l n Σ tid L' n' hist' :
  inv_with hd l n Σ →
  holds_tail (at_pc (thread_of Σ tid)) = true →
  holds_head (at_pc L') = holds_head (at_pc (thread_of Σ tid)) →
  holds_tail (at_pc L') = true →
  owned (at_pc L') = owned (at_pc (thread_of Σ tid)) →
  (∀ c res a, at_pc L' ≠ PopHead237 c res a) →
  (∀ c res a, at_pc (thread_of Σ tid) ≠ PopHead237 c res a) →
  hist' = history Σ →
  let σ' := {| head_ := head_ (shared Σ); tail_ := tail_ (shared Σ);
               head_mutex_ := head_mutex_ (shared Σ); tail_mutex_ := tail_mutex_ (shared Σ);
               heap := <[tail_ (shared Σ) := n']> (heap (shared Σ)); brk := brk (shared Σ);
               mem_avail := mem_avail (shared Σ); freed := freed (shared Σ) |} in
  pc_ok tid σ' hist' hd l n' (at_pc L') →
  ((∀ x a, at_pc L' ≠ Push167 x a) → next n' = nullptr) →
  inv_with hd l n' {| shared := σ'; threads := <[tid := L']> (threads Σ); history := hist' |}.
Proof.
  intros Hinv Hheld Hhh Hht Hown Hn237 Hn237' -> σ' Hpc Hnext.
  pose proof (inv_tail _ _ _ _ Hinv) as Htail.
  apply (cqt_inv_build hd l n); subst σ'; cbn [head_ tail_ head_mutex_ tail_mutex_ heap brk];
    try done.
  - congruence.
  - apply (cq_chain_frame (heap (shared Σ))); [apply Hinv|]. intros b Hb.
    rewrite lookup_insert_ne; [done|]. intros E. by apply (cqt_tail_not_in _ _ _ _ b Hinv).
  - apply lookup_insert_eq.
  - intros t Hne. apply (cqt_pc_ok_frame t (shared Σ) _ (history Σ) _ hd _ l _ n);
      cbn [head_ tail_ heap]; try done.
    + apply (inv_pc _ _ _ _ Hinv).
    + intros a Ha. rewrite lookup_insert_ne; [done|]. intros <-.
      destruct (inv_owned _ _ _ _ Hinv t _ Ha) as (_ & Hnin & _). apply Hnin, cqt_tail_in.
    + intros Ht. by rewrite (cqt_tail_holder _ _ _ _ _ _ Hinv Hheld Hne) in Ht.
    + intros _. do 2 (split; [done|]). split; [exists []; by rewrite app_nil_r|done].
  - intros _ Hno. apply (inv_head _ _ _ _ Hinv). intros t c res a Ht.
    destruct (decide (t = tid)) as [->|Hne]; [by eapply Hn237'|by eapply Hno].
  - intros Hno _. by apply Hnext.
  - apply Hinv.
  - apply Hinv.
  - intros a Ha. rewrite Hown in Ha. destruct (inv_owned _ _ _ _ Hinv tid a Ha) as (? & ? & ?).
    split; [done|]. split; [done|]. by rewrite (cqt_is_Some_store _ _ n).
  - intros t a Hne Ha. destruct (inv_owned _ _ _ _ Hinv t a Ha) as (? & ? & ?).
    split; [done|]. split; [by rewrite (cqt_is_Some_store _ _ n)|].
    rewrite Hown. intros Ha'. apply Hne. by eapply (inv_owned_inj _ _ _ _ Hinv).
  - intros a Ha. rewrite (cqt_is_Some_store _ _ n) in Ha by done.
    destruct (inv_closed _ _ _ _ Hinv a Ha) as [?|[t Ht]]; [by left|]. right.
    destruct (decide (t = tid)) as [->|Hne]; [left; by rewrite Hown|right; by exists t].
  - intros a Ha. rewrite (cqt_is_Some_store _ _ n) in Ha by done. by apply (inv_dom _ _ _ _ Hinv).
  - apply Hinv.
Qed.


Lemma cqt_step_Push167 hd l n Σ tid x a L' σ' es :
  inv_with hd l n Σ → at_pc (thread_of Σ tid) = Push167 x a →
  step_thread tid (thread_of Σ tid) (shared Σ) = Some (L', σ', es) →
  inv_with hd (l ++ [(tail_ (shared Σ), x)]) {| v := None; next := nullptr |}
    {| shared := σ'; threads := <[tid := L']> (threads Σ); history := history Σ ++ es |}.
Proof.
  intros Hinv Hpc Hstep. unfold step_thread in Hstep. rewrite Hpc in Hstep.
  qstep_in Hstep. injection Hstep as <- <- <-.
  pose proof (inv_pc _ _ _ _ Hinv tid) as Hok. rewrite Hpc in Hok.
  destruct Hok as (Ha & Hv & Hnx).
  pose proof (inv_tail _ _ _ _ Hinv) as Htail.
  assert (Hheld : holds_tail (at_pc (thread_of Σ tid)) = true) by (by rewrite Hpc).
  destruct (inv_owned _ _ _ _ Hinv tid a) as (Hnull & Hnin & _); [by rewrite Hpc|].
  apply (cqt_inv_build hd l n); rewrite ?Hpc;
    cbn [head_ tail_ head_mutex_ tail_mutex_ heap brk at_pc goto holds_head holds_tail owned
         pc_ok]; try done.
  - apply cq_chain_snoc with (t' := a); [apply Hinv|].
    rewrite Htail. destruct n; cbn in *. by subst.
  - intros t Hne. apply (cqt_pc_ok_frame t (shared Σ) _ (history Σ) _ hd _ l _ n);
      cbn [head_ tail_ heap]; try done.
    + apply (inv_pc _ _ _ _ Hinv).
    + apply cqt_last_pop_push.
    + intros Ht. by rewrite (cqt_tail_holder _ _ _ _ _ _ Hinv Hheld Hne) in Ht.
    + intros _. do 2 (split; [done|]). split; [by eexists|].
      by intros [_ ?]%app_eq_nil.
  - intros _ Hno. apply (inv_head _ _ _ _ Hinv). intros t c res b Ht.
    destruct (decide (t = tid)) as [->|Hne]; [congruence|by eapply Hno].
  - rewrite fmap_app. cbn. rewrite <-(assoc_L (++)). cbn.
    change (l.*1 ++ [tail_ (shared Σ); a]) with (l.*1 ++ [tail_ (shared Σ)] ++ [a]).
    rewrite (assoc_L (++)). apply NoDup_app. split; [apply Hinv|]. split.
    + intros b Hb ->%list_elem_of_singleton. done.
    + apply NoDup_singleton.
  - rewrite fmap_app. cbn. rewrite <-(assoc_L (++)). cbn.
    change (l.*1 ++ [tail_ (shared Σ); a]) with (l.*1 ++ [tail_ (shared Σ)] ++ [a]).
    rewrite (assoc_L (++)). intros [Hin|Hin%list_elem_of_singleton]%elem_of_app.
    + by apply (inv_nonnull _ _ _ _ Hinv).
    + by apply Hnull.
  - intros t b Hne Hb. destruct (inv_owned _ _ _ _ Hinv t b Hb) as (_ & Hbn & Hs).
    split; [|done]. rewrite fmap_app. cbn. rewrite <-(assoc_L (++)). cbn.
    change (l.*1 ++ [tail_ (shared Σ); a]) with (l.*1 ++ [tail_ (shared Σ)] ++ [a]).
    rewrite (assoc_L (++)). intros [Hin|Hin%list_elem_of_singleton]%elem_of_app; [done|].
    subst b. apply Hne. apply (inv_owned_inj _ _ _ _ Hinv t tid a); [done|by rewrite Hpc].
  - intros b Hb. rewrite fmap_app. cbn. rewrite <-(assoc_L (++)). cbn.
    change (l.*1 ++ [tail_ (shared Σ); a]) with (l.*1 ++ [tail_ (shared Σ)] ++ [a]).
    rewrite (assoc_L (++)).
    destruct (inv_closed _ _ _ _ Hinv b Hb) as [Hin|[t Ht]].
    + left. apply elem_of_app. by left.
    + destruct (decide (t = tid)) as [->|Hne].
      * rewrite Hpc in Ht. cbn in Ht. simplify_eq. left. apply elem_of_app. right. by left.
      * right. right. by exists t.
  - apply Hinv.
  - rewrite cqt_pushed_app, cqt_popped_app. cbn. rewrite app_nil_r, !fmap_app.
    rewrite (inv_history _ _ _ _ Hinv). cbn. by rewrite <-(assoc_L (++)).
Qed.

Lemma cqt_step_PopHead236 hd l n Σ tid c res L' σ' es :
  inv_with hd l n Σ → at_pc (thread_of Σ tid) = PopHead236 c res →
  step_thread tid (thread_of Σ tid) (shared Σ) = Some (L', σ', es) →
  inv_with hd l n
    {| shared := σ'; threads := <[tid := L']> (threads Σ); history := history Σ ++ es |}.
Proof.
  intros Hinv Hpc Hstep. unfold step_thread in Hstep. rewrite Hpc in Hstep.
  qstep_in Hstep. injection Hstep as <- <- <-. rewrite app_nil_r.
  pose proof (inv_pc _ _ _ _ Hinv tid) as Hok. rewrite Hpc in Hok.
  destruct Hok as (a & x & l0 & -> & Hres).
  assert (Hheld : holds_head (at_pc (thread_of Σ tid)) = true) by (by rewrite Hpc).
  assert (Hhd : head_ (shared Σ) = hd).
  { apply (cqt_head_is_hd _ _ _ _ tid Hinv Hheld). intros ???. by rewrite Hpc. }
  assert (Ha : hd = a) by (by destruct (inv_chain _ _ _ _ Hinv) as [? _]).
  apply (cqt_inv_build hd ((a, x) :: l0) n); rewrite ?Hpc;
    cbn [head_ tail_ head_mutex_ tail_mutex_ heap brk at_pc goto holds_head holds_tail owned
         pc_ok]; try done; try apply Hinv.
  - rewrite Hhd. split; [done|]. split; [done|]. exists x, l0. by rewrite Ha.
  - intros t Hne. apply (cqt_pc_ok_frame t (shared Σ) _ (history Σ) _ hd _ ((a, x) :: l0) _ n);
      cbn [head_ tail_ heap]; try done.
    + apply (inv_pc _ _ _ _ Hinv).
    + intros Ht. by rewrite (cqt_head_holder _ _ _ _ _ _ Hinv Hheld Hne) in Ht.
  - intros Hno. by destruct (Hno c res (head_ (shared Σ))).
  - intros _ Hno. apply (inv_next _ _ _ _ Hinv). intros t y b Ht.
    destruct (decide (t = tid)) as [->|Hne]; [congruence|by eapply Hno].
  - intros t b Hne Hb. by destruct (inv_owned _ _ _ _ Hinv t b Hb) as (_ & ? & ?).
  - intros b Hb. destruct (inv_closed _ _ _ _ Hinv b Hb) as [Hin|[t Ht]]; [by left|].
    right. right. exists t. split; [|done]. intros ->. by rewrite Hpc in Ht.
Qed.


Lemma cqt_delete_null (σ : memory T) : delete_unique_ptr nullptr σ = (inl (), σ).
Proof. unfold delete_unique_ptr. apply cq_delete_chain_null. Qed.

Lemma cqt_step_PopHead237 hd l n Σ tid c res a L' σ' es :
  inv_with hd l n Σ → at_pc (thread_of Σ tid) = PopHead237 c res a →
  step_thread tid (thread_of Σ tid) (shared Σ) = Some (L', σ', es) →
  ∃ x nx l', l = (a, x) :: l' ∧ es = [EvPop tid (Some x)] ∧
    inv_with nx l' n
      {| shared := σ'; threads := <[tid := L']> (threads Σ); history := history Σ ++ es |}.
Proof.
  intros Hinv Hpc Hstep. unfold step_thread in Hstep. rewrite Hpc in Hstep.
  pose proof (inv_pc _ _ _ _ Hinv tid) as Hok. rewrite Hpc in Hok.
  destruct Hok as (-> & Hnullhd & x & l0 & -> & Hres).
  destruct (inv_chain _ _ _ _ Hinv) as (_ & nx & Ha & Hchain).
  assert (Hheld : holds_head (at_pc (thread_of Σ tid)) = true) by (by rewrite Hpc).
  pose proof (inv_nodup _ _ _ _ Hinv) as Hnd. cbn in Hnd. apply NoDup_cons in Hnd as [Hnin Hnd].
  pose proof (inv_nonnull _ _ _ _ Hinv) as Hnn. cbn in Hnn.
  assert (Hanull : a ≠ nullptr). { intros E. apply Hnn. rewrite <-E. by left. }
  assert (Hatail : a ≠ tail_ (shared Σ)). { intros E. apply Hnin. rewrite E. apply cqt_tail_in. }
  qstep_in Hstep. rewrite Ha in Hstep. qstep_in Hstep. rewrite Ha in Hstep. qstep_in Hstep.
  rewrite Hnullhd, cqt_delete_null in Hstep. qstep_in Hstep. injection Hstep as <- <- <-.
  exists x, nx, l0. split; [done|]. split; [done|].
  apply (cqt_inv_build a ((a, x) :: l0) n); rewrite ?Hpc;
    cbn [head_ tail_ head_mutex_ tail_mutex_ heap brk at_pc goto holds_head holds_tail owned
         pc_ok]; try done.
  - apply (cq_chain_frame (heap (shared Σ))); [done|]. intros b Hb.
    rewrite lookup_insert_ne; [done|]. intros <-. apply Hnin. apply elem_of_app. by left.
  - rewrite lookup_insert_ne by done. apply Hinv.
  - rewrite decide_False by done. exists x. rewrite lookup_insert_eq.
    split; [done|]. split; [apply cqt_last_pop_same|done].
  - intros t Hne. apply (cqt_pc_ok_frame t (shared Σ) _ (history Σ) _ a _ ((a, x) :: l0) _ n);
      cbn [head_ tail_ heap]; try done.
    + apply (inv_pc _ _ _ _ Hinv).
    + intros b Hb. rewrite lookup_insert_ne; [done|]. intros <-.
      destruct (inv_owned _ _ _ _ Hinv t _ Hb) as (_ & Hbn & _). apply Hbn. by left.
    + by apply cqt_last_pop_other.
    + intros Ht. by rewrite (cqt_head_holder _ _ _ _ _ _ Hinv Hheld Hne) in Ht.
  - intros _ Hno. apply (inv_next _ _ _ _ Hinv). intros t y b Ht.
    destruct (decide (t = tid)) as [->|Hne]; [congruence|by eapply Hno].
  - intros Hn. apply Hnn. by right.
  - rewrite decide_False by done. intros b [= <-]. split; [done|]. split; [done|].
    rewrite lookup_insert_eq. eauto.
  - intros t b Hne Hb. destruct (inv_owned _ _ _ _ Hinv t b Hb) as (_ & Hbn & Hs).
    split; [|split].
    + intros Hin. apply Hbn. by right.
    + by rewrite (cqt_is_Some_store _ _ _ _ _ Ha).
    + rewrite decide_False by done. intros [= ->]. apply Hbn. by left.
  - intros b Hb. rewrite (cqt_is_Some_store _ _ _ _ _ Ha) in Hb.
    rewrite decide_False by done.
    destruct (inv_closed _ _ _ _ Hinv b Hb) as [Hin|[t Ht]].
    + cbn in Hin. apply elem_of_cons in Hin as [->|Hin]; [right; by left|by left].
    + right. right. exists t. split; [|done]. intros ->. by rewrite Hpc in Ht.
  - intros b Hb. rewrite (cqt_is_Some_store _ _ _ _ _ Ha) in Hb. by apply (inv_dom _ _ _ _ Hinv).
  - rewrite cqt_pushed_app, cqt_popped_app. cbn. rewrite app_nil_r.
    rewrite (inv_history _ _ _ _ Hinv). cbn. by rewrite <-(assoc_L (++)).
Qed.

(** Lines 174, 179, 184 and 187 with a node: the node is deleted. *)
Lemma cqt_step_Finish hd l n Σ tid c res a L' σ' es :
  inv_with hd l n Σ → at_pc (thread_of Σ tid) = Finish c res a → a ≠ nullptr →
  step_thread tid (thread_of Σ tid) (shared Σ) = Some (L', σ', es) →
  (∃ y, last_pop tid (history Σ) = Some (Some y) ∧ (with_res c = true → res = Some y) ∧
        L' = leave (result_of c res a (if with_res c then None else Some y)) (thread_of Σ tid)) ∧
  es = [] ∧ heap σ' = delete a (heap (shared Σ)) ∧
  inv_with hd l n
    {| shared := σ'; threads := <[tid := L']> (threads Σ); history := history Σ ++ es |}.
Proof.
  intros Hinv Hpc Hanull Hstep. unfold step_thread in Hstep. rewrite Hpc in Hstep.
  pose proof (inv_pc _ _ _ _ Hinv tid) as Hok. rewrite Hpc in Hok. cbn in Hok.
  rewrite decide_False in Hok by done. destruct Hok as (y & Ha & Hlast & Hres).
  destruct (inv_owned _ _ _ _ Hinv tid a) as (_ & Hnin & _).
  { rewrite Hpc. cbn. by rewrite decide_False. }
  assert (Hstep' : L' = leave (result_of c res a (if with_res c then None else Some y))
                          (thread_of Σ tid) ∧
                   σ' = {| head_ := head_ (shared Σ); tail_ := tail_ (shared Σ);
                           head_mutex_ := head_mutex_ (shared Σ);
                           tail_mutex_ := tail_mutex_ (shared Σ);
                           heap := delete a (heap (shared Σ)); brk := brk (shared Σ);
                           mem_avail := S (mem_avail (shared Σ));
                           freed := freed (shared Σ) ++ [a] |} ∧ es = []).
  { destruct c; cbn [with_res] in *; qstep_in Hstep;
      rewrite ?decide_False in Hstep by done; qstep_in Hstep; rewrite ?Ha in Hstep;
      rewrite (cq_delete_single a (Some y)) in Hstep by done; qstep_in Hstep;
      by injection Hstep as <- <- <-. }
  destruct Hstep' as (-> & -> & ->). rewrite app_nil_r.
  split; [by exists y|]. split; [done|]. split; [done|].
  apply (cqt_inv_build hd l n); rewrite ?Hpc;
    cbn [head_ tail_ head_mutex_ tail_mutex_ heap brk at_pc goto leave holds_head holds_tail
         owned pc_ok]; try done; try apply Hinv.
  - apply (cq_chain_frame (heap (shared Σ))); [apply Hinv|]. intros b Hb.
    rewrite lookup_delete_ne; [done|]. intros <-. apply Hnin. apply elem_of_app. by left.
  - rewrite lookup_delete_ne; [apply Hinv|]. intros ->. apply Hnin, cqt_tail_in.
  - intros t Hne. apply (cqt_pc_ok_frame t (shared Σ) _ (history Σ) _ hd _ l _ n);
      cbn [head_ tail_ heap]; try done.
    + apply (inv_pc _ _ _ _ Hinv).
    + intros b Hb. rewrite lookup_delete_ne; [done|]. intros <-. apply Hne.
      apply (inv_owned_inj _ _ _ _ Hinv t tid a); [done|].
      rewrite Hpc. cbn. by rewrite decide_False.
    + intros _. do 2 (split; [done|]). split; [exists []; by rewrite app_nil_r|done].
  - intros _ Hno. apply (inv_head _ _ _ _ Hinv). intros t c' res' b Ht.
    destruct (decide (t = tid)) as [->|Hne]; [congruence|by eapply Hno].
  - intros _ Hno. apply (inv_next _ _ _ _ Hinv). intros t x b Ht.
    destruct (decide (t = tid)) as [->|Hne]; [congruence|by eapply Hno].
  - intros t b Hne Hb. destruct (inv_owned _ _ _ _ Hinv t b Hb) as (_ & Hbn & Hs).
    split; [done|]. split; [|done]. rewrite lookup_delete_ne; [done|]. intros <-. apply Hne.
    apply (inv_owned_inj _ _ _ _ Hinv t tid a); [done|].
    rewrite Hpc. cbn. by rewrite decide_False.
  - intros b Hb. assert (Hba : b ≠ a) by (intros ->; rewrite lookup_delete_eq in Hb; by destruct Hb).
    rewrite lookup_delete_ne in Hb by done.
    destruct (inv_closed _ _ _ _ Hinv b Hb) as [Hin|[t Ht]]; [by left|].
    right. right. exists t. split; [|done]. intros ->. rewrite Hpc in Ht. cbn in Ht.
    rewrite decide_False in Ht by done. congruence.
  - intros b Hb. assert (Hba : b ≠ a) by (intros ->; rewrite lookup_delete_eq in Hb; by destruct Hb).
    rewrite lookup_delete_ne in Hb by done. by apply (inv_dom _ _ _ _ Hinv).
Qed.


Lemma cqt_step_inv Σ tid L' σ' es :
  inv Σ → step_thread tid (thread_of Σ tid) (shared Σ) = Some (L', σ', es) →
  inv {| shared := σ'; threads := <[tid := L']> (threads Σ); history := history Σ ++ es |}.
Proof.
  intros (hd & l & n & Hinv) Hstep.
  pose proof (inv_pc _ _ _ _ Hinv tid) as Hok.
  pose proof (inv_tail _ _ _ _ Hinv) as Htail.
  destruct (at_pc (thread_of Σ tid)) as [| |x|x a|x a|x a|x a| | |c|c|c|c t|c t|c|c|c|c res
                                         |c res a|c res a|c res a] eqn:Hpc.
  - (* Idle *) unfold step_thread in Hstep. by rewrite Hpc in Hstep.
  - (* Fault *) unfold step_thread in Hstep. by rewrite Hpc in Hstep.
  - (* Push161 *) exists hd, l, n. by eapply cqt_step_Push161.
  - (* Push164 *)
    unfold step_thread in Hstep. rewrite Hpc in Hstep. qstep_in Hstep.
    destruct (tail_mutex_ (shared Σ)) eqn:Hm; [done|]. injection Hstep as <- <- <-.
    rewrite app_nil_r. exists hd, l, n.
    apply cqt_inv_move; rewrite ?Hpc; cbn; try done; by constructor.
  - (* Push165 *)
    unfold step_thread in Hstep. rewrite Hpc in Hstep. qstep_in Hstep.
    rewrite Htail in Hstep. qstep_in Hstep. rewrite Htail in Hstep.
    injection Hstep as <- <- <-. rewrite app_nil_r. exists hd, l, {| v := Some x; next := next n |}.
    destruct (inv_owned _ _ _ _ Hinv tid a) as (_ & Hnin & _); [by rewrite Hpc|].
    apply (cqt_store_tail hd l n); rewrite ?Hpc; cbn; try done.
    + split; [|done]. rewrite lookup_insert_ne; [done|]. intros <-. apply Hnin, cqt_tail_in.
    + intros _. apply (cqt_tail_next_null _ _ _ _ tid Hinv); by rewrite Hpc.
  - (* Push166 *)
    unfold step_thread in Hstep. rewrite Hpc in Hstep. qstep_in Hstep.
    rewrite Htail in Hstep. qstep_in Hstep. rewrite Htail in Hstep. qstep_in Hstep.
    assert (Hnx : next n = nullptr).
    { apply (cqt_tail_next_null _ _ _ _ tid Hinv); by rewrite Hpc. }
    rewrite Hnx, cqt_delete_null in Hstep.
    injection Hstep as <- <- <-. rewrite app_nil_r. exists hd, l, {| v := v n; next := a |}.
    destruct (inv_owned _ _ _ _ Hinv tid a) as (_ & Hnin & _); [by rewrite Hpc|].
    destruct Hok as [Ha Hv].
    apply (cqt_store_tail hd l n); rewrite ?Hpc; cbn; try done.
    + split; [|done]. rewrite lookup_insert_ne; [done|]. intros <-. apply Hnin, cqt_tail_in.
    + intros Hno. by destruct (Hno x a).
  - (* Push167 *) do 3 eexists. by eapply cqt_step_Push167.
  - (* Push168 *)
    unfold step_thread in Hstep. rewrite Hpc in Hstep. qstep_in Hstep.
    injection Hstep as <- <- <-. rewrite app_nil_r. exists hd, l, n.
    apply cqt_inv_move; rewrite ?Hpc; cbn; try done; by constructor.
  - (* Push169 *) unfold step_thread in Hstep. by rewrite Hpc in Hstep.
  - (* LockHead *)
    unfold step_thread in Hstep. rewrite Hpc in Hstep. qstep_in Hstep.
    destruct (head_mutex_ (shared Σ)) eqn:Hm; [done|]. injection Hstep as <- <- <-.
    rewrite app_nil_r. exists hd, l, n.
    apply cqt_inv_move; rewrite ?Hpc; cbn; try done; by constructor.
  - (* GetTail242 *)
    unfold step_thread in Hstep. rewrite Hpc in Hstep. qstep_in Hstep.
    destruct (tail_mutex_ (shared Σ)) eqn:Hm; [done|]. injection Hstep as <- <- <-.
    rewrite app_nil_r. exists hd, l, n.
    apply cqt_inv_move; rewrite ?Hpc; cbn; try done; by constructor.
  - (* GetTail243 *)
    unfold step_thread in Hstep. rewrite Hpc in Hstep. qstep_in Hstep.
    injection Hstep as <- <- <-. rewrite app_nil_r. exists hd, l, n.
    apply cqt_inv_move; rewrite ?Hpc; cbn; try done; by constructor.
  - (* GetTail244 *)
    unfold step_thread in Hstep. rewrite Hpc in Hstep. qstep_in Hstep.
    injection Hstep as <- <- <-. rewrite app_nil_r. exists hd, l, n.
    apply cqt_inv_move; rewrite ?Hpc; cbn; try done; by constructor.
  - (* Compare *)
    unfold step_thread in Hstep. rewrite Hpc in Hstep.
    assert (Hhd : head_ (shared Σ) = hd).
    { apply (cqt_head_is_hd _ _ _ _ tid Hinv); rewrite Hpc; [done|]. by intros ???. }
    qstep_in Hstep. rewrite Hhd in Hstep. exists hd, l, n.
    destruct (decide (hd = t)) as [->|Hne].
    + destruct (waits c) eqn:Hw; qstep_in Hstep; injection Hstep as <- <- <-;
        rewrite app_nil_r; apply cqt_inv_move; rewrite ?Hpc; cbn; try done; by constructor.
    + assert (Hl : l ≠ []).
      { intros ->. apply Hne. cbn in Hok. rewrite Hok by done.
        by pose proof (inv_chain _ _ _ _ Hinv). }
      destruct l as [|[a y] l0]; [done|].
      destruct (with_res c) eqn:Hr; qstep_in Hstep; injection Hstep as <- <- <-;
        rewrite app_nil_r; apply cqt_inv_move; rewrite ?Hpc; cbn; try done;
        try (by constructor).
      exists a, y, l0. split; [done|]. by rewrite Hr.
  - (* Waiting *) unfold step_thread in Hstep. by rewrite Hpc in Hstep.
  - (* Relock *)
    unfold step_thread in Hstep. rewrite Hpc in Hstep. qstep_in Hstep.
    destruct (head_mutex_ (shared Σ)) eqn:Hm; [done|]. injection Hstep as <- <- <-.
    rewrite app_nil_r. exists hd, l, n.
    apply cqt_inv_move; rewrite ?Hpc; cbn; try done; by constructor.
  - (* MoveRes *)
    unfold step_thread in Hstep. rewrite Hpc in Hstep.
    assert (Hhd : head_ (shared Σ) = hd).
    { apply (cqt_head_is_hd _ _ _ _ tid Hinv); rewrite Hpc; [done|]. by intros ???. }
    cbn in Hok. destruct l as [|[a y] l0]; [done|].
    destruct (inv_chain _ _ _ _ Hinv) as (-> & nx & Ha & _).
    qstep_in Hstep. rewrite Hhd, Ha in Hstep. qstep_in Hstep.
    injection Hstep as <- <- <-. rewrite app_nil_r. exists a, ((a, y) :: l0), n.
    apply cqt_inv_move; rewrite ?Hpc; cbn; try done; try (by constructor).
    by exists a, y, l0.
  - (* PopHead236 *) exists hd, l, n. by eapply cqt_step_PopHead236.
  - (* PopHead237 *)
    destruct (cqt_step_PopHead237 _ _ _ _ _ _ _ _ _ _ _ Hinv Hpc Hstep)
      as (x & nx & l0 & _ & _ & Hinv').
    by exists nx, l0, n.
  - (* UnlockHead *)
    unfold step_thread in Hstep. rewrite Hpc in Hstep. qstep_in Hstep.
    injection Hstep as <- <- <-. rewrite app_nil_r. exists hd, l, n.
    apply cqt_inv_move; rewrite ?Hpc; cbn; try done; by constructor.
  - (* Finish *)
    exists hd, l, n. destruct (decide (a = nullptr)) as [->|Hne].
    + unfold step_thread in Hstep. rewrite Hpc in Hstep. cbn in Hok. destruct Hok as [Hw ->].
      destruct c; try done; qstep_in Hstep; rewrite ?cqt_delete_null in Hstep;
        qstep_in Hstep; injection Hstep as <- <- <-; rewrite app_nil_r;
        apply cqt_inv_move; rewrite ?Hpc; cbn; try done; by constructor.
    + by destruct (cqt_step_Finish _ _ _ _ _ _ _ _ _ _ _ Hinv Hpc Hne Hstep) as (_ & _ & _ & ?).
Qed.


Lemma cqt_wake_inv hd l n Σ t :
  inv_with hd l n Σ → waiting (at_pc (thread_of Σ t)) = true →
  inv_with hd l n (set_thread t (wake (thread_of Σ t)) Σ).
Proof.
  intros Hinv Hw. unfold set_thread, wake.
  destruct (at_pc (thread_of Σ t)) eqn:Hpc; try done.
  apply cqt_inv_move; rewrite ?Hpc; cbn; try done; by constructor.
Qed.

Lemma cqt_exec_inv a Σ Σ' : inv Σ → exec a Σ = Some Σ' → inv Σ'.
Proof.
  intros Hinv Hexec. destruct a as [tid c|tid|tid w|tid]; cbn [exec] in Hexec.
  - destruct (at_pc (thread_of Σ tid)) eqn:Hpc; try done. injection Hexec as <-.
    destruct Hinv as (hd & l & n & Hinv). exists hd, l, n. unfold set_thread.
    apply cqt_inv_move; rewrite ?Hpc; try done; try (by constructor);
      destruct c; cbn; try done; by constructor.
  - destruct (step_thread tid (thread_of Σ tid) (shared Σ)) as [[[L' σ'] es]|] eqn:Hstep;
      [|done].
    injection Hexec as <-. by eapply cqt_step_inv.
  - destruct (at_pc (thread_of Σ tid)) eqn:Hpc; try done.
    destruct Hinv as (hd & l & n & Hinv). exists hd, l, n.
    assert (Hinv1 : inv_with hd l n (set_thread tid (leave Returned (thread_of Σ tid)) Σ)).
    { unfold set_thread. apply cqt_inv_move; rewrite ?Hpc; cbn; try done; by constructor. }
    destruct w as [t|].
    + destruct (waiting (at_pc (thread_of Σ t))) eqn:Hw; [|done]. injection Hexec as <-.
      assert (Hne : t ≠ tid) by (intros ->; by rewrite Hpc in Hw).
      assert (Ht : thread_of (set_thread tid (leave Returned (thread_of Σ tid)) Σ) t
                   = thread_of Σ t).
      { unfold set_thread. rewrite cqt_thread_of_insert, decide_False by done. by destruct Σ. }
      rewrite <-Ht. apply cqt_wake_inv; [done|]. by rewrite Ht.
    + case_bool_decide; [|done]. by injection Hexec as <-.
  - destruct (waiting (at_pc (thread_of Σ tid))) eqn:Hw; [|done]. injection Hexec as <-.
    destruct Hinv as (hd & l & n & Hinv). exists hd, l, n. by apply cqt_wake_inv.
Qed.

Lemma cqt_run_inv sched : ∀ Σ Σ', inv Σ → run sched Σ = Some Σ' → inv Σ'.
Proof.
  induction sched as [|a sched IH]; intros Σ Σ' Hinv Hrun; cbn in Hrun.
  - by injection Hrun as <-.
  - destruct (exec a Σ) as [Σ1|] eqn:Hexec; [|done].
    eapply IH; [|done]. by eapply cqt_exec_inv.
Qed.

Lemma cqt_init_inv mem (Σ : state T) : init mem = Some Σ → inv Σ.
Proof.
  unfold init, ConcurrentQueue_ctor. qstep. destruct mem as [|m]; [done|]. qstep.
  intros [= <-]. exists 1, [], {| v := None; next := nullptr |}.
  split; cbn [shared history head_ tail_ heap brk head_mutex_ tail_mutex_ chain fmap list_fmap app];
    try done.
  - apply NoDup_singleton.
  - by intros ?%list_elem_of_singleton.
  - intros a [n Hn]. left. apply lookup_insert_Some in Hn as [[<- _]|[_ Hn]]; [by left|].
    by rewrite lookup_empty in Hn.
  - intros a [n Hn]. apply lookup_insert_Some in Hn as [[<- _]|[_ Hn]]; [lia|].
    by rewrite lookup_empty in Hn.
  - split; [done|]. by intros [tid ?].
  - split; [done|]. by intros [tid ?].
Qed.


(** When no thread is inside a call, the memory is that of a queue at rest. *)
Lemma cqt_quiescent_rep hd l n Σ : inv_with hd l n Σ → quiescent Σ → queue_rep (shared Σ) l.
Proof.
  intros Hinv Hq.
  assert (Hhd : head_ (shared Σ) = hd).
  { apply (inv_head _ _ _ _ Hinv). intros t c res a. by rewrite Hq. }
  assert (Hnx : next n = nullptr).
  { apply (inv_next _ _ _ _ Hinv). intros t x a. by rewrite Hq. }
  split.
  - rewrite Hhd. apply Hinv.
  - exists (v n). rewrite (inv_tail _ _ _ _ Hinv). destruct n; cbn in *. by subst.
  - apply Hinv.
  - apply Hinv.
  - intros a Ha. destruct (inv_closed _ _ _ _ Hinv a Ha) as [?|[t Ht]]; [done|].
    by rewrite Hq in Ht.
  - apply Hinv.
  - destruct (head_mutex_ (shared Σ)) eqn:E; [|done].
    apply (inv_head_locked _ _ _ _ Hinv) in E as [t Ht]. by rewrite Hq in Ht.
  - destruct (tail_mutex_ (shared Σ)) eqn:E; [|done].
    apply (inv_tail_locked _ _ _ _ Hinv) in E as [t Ht]. by rewrite Hq in Ht.
Qed.

(** The node a step uses is the last node, used by the thread that holds
    [tail_mutex_]; or the first node with a value, used by the thread that
    holds [head_mutex_]; or a node only this thread can reach. *)
Lemma cqt_accesses_cases hd l n Σ tid a :
  inv_with hd l n Σ → accesses (at_pc (thread_of Σ tid)) (shared Σ) = Some a →
  (holds_tail (at_pc (thread_of Σ tid)) = true ∧ a = tail_ (shared Σ)) ∨
  (holds_head (at_pc (thread_of Σ tid)) = true ∧ a ∈ l.*1) ∨
  owned (at_pc (thread_of Σ tid)) = Some a.
Proof.
  intros Hinv Hacc. pose proof (inv_pc _ _ _ _ Hinv tid) as Hok.
  destruct (at_pc (thread_of Σ tid)) eqn:Hpc; cbn in Hacc; try done.
  - left. split; [done|congruence].
  - left. split; [done|congruence].
  - right. left. split; [done|]. cbn in Hok. destruct l as [|[b y] l0]; [done|].
    assert (Hhd : head_ (shared Σ) = hd).
    { apply (cqt_head_is_hd _ _ _ _ tid Hinv); rewrite Hpc; [done|]. by intros ???. }
    destruct (inv_chain _ _ _ _ Hinv) as [-> _]. simplify_eq. by left.
  - right. left. split; [done|]. destruct Hok as (_ & _ & y & l0 & -> & _). simplify_eq. by left.
  - right. right. done.
Qed.

Lemma cqt_accesses_disjoint hd l n Σ t1 t2 a b :
  inv_with hd l n Σ → t1 ≠ t2 →
  accesses (at_pc (thread_of Σ t1)) (shared Σ) = Some a →
  accesses (at_pc (thread_of Σ t2)) (shared Σ) = Some b → a ≠ b.
Proof.
  intros Hinv Hne H1 H2 <-.
  apply (cqt_accesses_cases _ _ _ _ _ _ Hinv) in H1, H2.
  destruct H1 as [[Ht1 E1]|[[Hh1 In1]|O1]], H2 as [[Ht2 E2]|[[Hh2 In2]|O2]].
  - apply Hne. by apply (inv_tail_excl _ _ _ _ Hinv).
  - subst a. by apply (cqt_tail_not_in _ _ _ _ _ Hinv In2).
  - destruct (inv_owned _ _ _ _ Hinv t2 a O2) as (_ & Hnin & _). apply Hnin.
    subst a. apply cqt_tail_in.
  - subst a. by apply (cqt_tail_not_in _ _ _ _ _ Hinv In1).
  - apply Hne. by apply (inv_head_excl _ _ _ _ Hinv).
  - destruct (inv_owned _ _ _ _ Hinv t2 a O2) as (_ & Hnin & _). apply Hnin.
    apply elem_of_app. by left.
  - destruct (inv_owned _ _ _ _ Hinv t1 a O1) as (_ & Hnin & _). apply Hnin.
    subst a. apply cqt_tail_in.
  - destruct (inv_owned _ _ _ _ Hinv t1 a O1) as (_ & Hnin & _). apply Hnin.
    apply elem_of_app. by left.
  - apply Hne. by apply (inv_owned_inj _ _ _ _ Hinv t1 t2 a).
Qed.

Lemma cqt_accesses_allocated hd l n Σ tid a :
  inv_with hd l n Σ → accesses (at_pc (thread_of Σ tid)) (shared Σ) = Some a →
  is_Some (heap (shared Σ) !! a).
Proof.
  intros Hinv Hacc. apply (cqt_accesses_cases _ _ _ _ _ _ Hinv) in Hacc.
  destruct Hacc as [[_ ->]|[[_ Hin]|Ho]].
  - apply (cqt_in_heap _ _ _ _ _ Hinv), cqt_tail_in.
  - apply (cqt_in_heap _ _ _ _ _ Hinv). apply elem_of_app. by left.
  - by destruct (inv_owned _ _ _ _ Hinv tid a Ho) as (_ & _ & ?).
Qed.

(** Only [lock] makes a thread wait. *)
Lemma cqt_delete_chain_never_waits fuel : ∀ a (σ σ' : memory T),
  delete_chain fuel a σ ≠ (inr blocks, σ').
Proof.
  induction fuel as [|fuel IH]; intros a σ σ'; cbn [delete_chain].
  - by destruct (decide (a = nullptr)).
  - destruct (decide (a = nullptr)); [done|]. destruct (heap σ !! a) as [m|]; [|done].
    destruct (delete_chain fuel (next m) σ) as [[[]|e] σ1] eqn:E; [done|].
    intros [= -> ->]. by eapply IH.
Qed.

Lemma cqt_step_None tid L σ :
  step_thread tid L σ = None → running (at_pc L) = true → waiting (at_pc L) = false →
  at_pc L ≠ Push169 →
  ((∃ x a, at_pc L = Push164 x a) ∨ (∃ c, at_pc L = GetTail242 c)) ∧ tail_mutex_ σ = true ∨
  ((∃ c, at_pc L = LockHead c) ∨ (∃ c, at_pc L = Relock c)) ∧ head_mutex_ σ = true.
Proof.
  intros Hstep Hrun Hwait Hnot.
  assert (Hdel : ∀ a (σ1 σ2 : memory T), delete_unique_ptr a σ1 ≠ (inr blocks, σ2))
    by (intros ???; apply cqt_delete_chain_never_waits).
  unfold step_thread in Hstep.
  destruct (at_pc L) eqn:Hpc; try done; qstep_in Hstep.
  all: try (repeat case_match; simplify_eq; fail).
  all: try (left; split; [eauto|]; by destruct (tail_mutex_ σ)).
  all: try (right; split; [eauto|]; by destruct (head_mutex_ σ)).
  all: exfalso; repeat case_match; simplify_eq; try done; by (eapply Hdel; eauto).
Qed.


Lemma cqt_others_idle Σ tid :
  Forall (λ p, p.1 = tid ∨ at_pc p.2 = Idle) (map_to_list (threads Σ)) →
  ∀ t, t ≠ tid → at_pc (thread_of Σ t) = Idle.
Proof.
  intros H t Hne. unfold thread_of. destruct (threads Σ !! t) as [L|] eqn:E; [|done].
  apply elem_of_map_to_list in E. rewrite Forall_forall in H.
  by destruct (H (t, L) E) as [?|?].
Qed.

(** The actions of a thread that runs alone. *)
Lemma cqt_run_invoke tid (c : call T) σ ths hist rest :
  at_pc (thread_of {| shared := σ; threads := ths; history := hist |} tid) = Idle →
  run (Invoke tid c :: rest) {| shared := σ; threads := ths; history := hist |}
  = run rest {| shared := σ; threads := <[tid := enter c]> ths; history := hist |}.
Proof. intros H. cbn [run exec]. by rewrite H. Qed.

Lemma cqt_run_step tid σ ths hist L L' σ' es rest :
  step_thread tid L σ = Some (L', σ', es) →
  run (Step tid :: rest) {| shared := σ; threads := <[tid := L]> ths; history := hist |}
  = run rest {| shared := σ'; threads := <[tid := L']> ths; history := hist ++ es |}.
Proof.
  intros H. cbn [run exec]. rewrite cqt_thread_of_insert, decide_True by done.
  cbn [shared threads history]. by rewrite H, insert_insert_eq.
Qed.

Lemma cqt_run_notify_none tid σ ths hist L rest :
  at_pc L = Push169 →
  (∀ t L0, ths !! t = Some L0 → at_pc L0 = Idle) →
  run (Notify tid None :: rest) {| shared := σ; threads := <[tid := L]> ths; history := hist |}
  = run rest {| shared := σ; threads := <[tid := leave Returned L]> ths; history := hist |}.
Proof.
  intros H Hidle. cbn [run exec]. rewrite cqt_thread_of_insert, decide_True by done.
  rewrite H. cbn [threads]. rewrite bool_decide_eq_true_2.
  - unfold set_thread. cbn [shared threads history]. by rewrite insert_insert_eq.
  - intros t L0. destruct (decide (t = tid)) as [->|Hne].
    + rewrite lookup_insert_eq. intros [= <-]. by rewrite H.
    + rewrite lookup_insert_ne by done. intros HL. by rewrite (Hidle _ _ HL).
Qed.

End ConcurrentQueueThreadsFacts.

Section SplitRefQuiescent.
Import SplitRef.
Context {T : Type}.
Implicit Types (Σ : state T).

(** Quiescence is a property of the threads that have made a call. *)
Lemma rc_quiescent_threads Σ :
  Forall (λ p, at_pc p.2 = Idle) (map_to_list (threads Σ)) → quiescent Σ.
Proof.
  intros H tid. unfold thread_of. destruct (threads Σ !! tid) as [L|] eqn:E; [|done].
  apply elem_of_map_to_list in E. rewrite Forall_forall in H. by apply (H (tid, L)).
Qed.

End SplitRefQuiescent.

Section HazardHelperFacts.
Import Hazard.
Context {T : Type}.
Implicit Types (Σ : state T) (σ : memory T) (L : thread T).
Lemma hp_find_unowned_first hps : ∀ j i x,
  hps !! i = Some x → hp_id x = None →
  (∀ k, k < i → ∃ y, hps !! k = Some y ∧ is_Some (hp_id y)) →
  find_unowned hps j = Some (j + i).
Proof.
  induction hps as [|y r IH]; intros j i x Hx Hid Hbefore; [done|].
  cbn [find_unowned]. destruct i as [|i].
  - simpl in Hx. simplify_eq. rewrite Hid. f_equal. lia.
  - destruct (Hbefore 0) as (y' & Hy' & [o Ho]); [lia|]. simpl in Hy'. simplify_eq.
    rewrite Ho. rewrite (IH (S j) i x); [f_equal; lia|done|done|].
    intros k Hk. apply (Hbefore (S k)). lia.
Qed.

Lemma hp_find_unowned_le hps : ∀ j i x,
  hps !! i = Some x → hp_id x = None → ∃ k, find_unowned hps j = Some (j + k) ∧ k ≤ i.
Proof.
  induction hps as [|y r IH]; intros j i x Hx Hid; [done|].
  cbn [find_unowned]. destruct (hp_id y) eqn:E.
  - destruct i as [|i]; [simpl in Hx; congruence|].
    destruct (IH (S j) i x Hx Hid) as (k & Hk & Hle).
    exists (S k). split; [rewrite Hk; f_equal; lia|lia].
  - exists 0. split; [f_equal; lia|lia].
Qed.
End HazardHelperFacts.


(* ===================================================================== *)
(** * More properties of the code *)
(* ===================================================================== *)

Section SplitRefMore.
Import SplitRef.
Context {T : Type}.
Implicit Types (Σ : state T) (σ : memory T) (L : thread T) (k : pc T).

(** X1.  The stack with split reference counts, after any interleaving of
    any number of threads that has come to an end (no thread is inside a
    call, the stack was not destroyed; fewer than 2^31 actions): the stack
    is at rest with some contents [l], every node that is allocated is one
    of [l], and whatever list of pushes and pops one thread then makes
    alone, each call gives what a list with the values of [l] (top first)
    and the room of the free store gives, and leaves the stack at rest
    with the contents of that list. *)
Theorem rc_stack_at_rest_is_a_list sched mem Σ tid (cs : list (call T)) fuel :
  run sched (init mem) = Some Σ → (Z.of_nat (length sched) < 2 ^ 31 - 4)%Z →
  quiescent Σ → destroyed (shared Σ) = false →
  Forall (λ c, c ≠ Destroy) cs → 8 ≤ fuel →
  ∃ l Σ' l',
    at_rest tid Σ l ∧
    do_calls fuel tid cs Σ = Some ((lifo_model cs l.*2 (mem_avail (shared Σ))).1.1, Σ') ∧
    at_rest tid Σ' l' ∧
    l'.*2 = (lifo_model cs l.*2 (mem_avail (shared Σ))).1.2 ∧
    mem_avail (shared Σ') = (lifo_model cs l.*2 (mem_avail (shared Σ))).2.
Proof.
  intros Hrun Hlen Hq Hd Hcs Hfuel.
  assert (Hb : (bound (shared Σ) < 2 ^ 31 - 1)%Z).
  { pose proof (rc_run_bound _ _ _ Hrun) as Hb.
    change (bound (shared (init (T:=T) mem))) with 1%Z in Hb. lia. }
  assert (Hinv : inv Σ).
  { apply (rc_run_inv sched (init mem) Σ); [apply rc_init_inv| |exact Hrun].
    change (bound (shared (init (T:=T) mem))) with 1%Z. lia. }
  destruct Hinv as [lst Hinv].
  destruct (rc_quiescent_at_rest lst Σ tid Hinv Hq Hd Hb) as (l & _ & Hrest).
  destruct (rc_calls_refine_list tid fuel cs Σ l Hrest Hcs Hfuel) as (Σ' & l' & H1 & H2 & H3 & H4).
  by exists l, Σ', l'.
Qed.

(** X2.  For every list [xs] of values: one thread pushes them onto a new
    stack with split reference counts, in order, and pops as many times.
    The pushes return, the pops return the values in reverse order, every
    node was deleted, and the free store has the room it had. *)
Theorem rc_pops_return_the_pushes_reversed tid (xs : list T) mem fuel :
  length xs ≤ mem → 8 ≤ fuel →
  ∃ Σ', do_calls fuel tid ((Push <$> xs) ++ replicate (length xs) Pop) (init mem)
          = Some (replicate (length xs) (Some Void) ++
                  ((λ x, Some (Value (Some x))) <$> reverse xs), Σ') ∧
    heap (shared Σ') = ∅ ∧ mem_avail (shared Σ') = mem.
Proof.
  intros Hmem Hfuel.
  destruct (rc_calls_refine_list tid fuel ((Push <$> xs) ++ replicate (length xs) Pop)
              (init mem) [] (rc_init_at_rest tid mem)) as (Σ' & l' & Hcalls & Hrest & Hl' & Hm');
    [|done|].
  { apply Forall_app. split.
    - apply Forall_fmap, Forall_forall. by intros x _.
    - apply Forall_forall. by intros c [-> _]%elem_of_replicate. }
  cbn [fmap list_fmap init shared mem_avail] in Hcalls, Hl', Hm'.
  replace mem with (length xs + (mem - length xs)) in Hcalls, Hl', Hm' at 1 by lia.
  rewrite rc_lifo_model_pushes, app_nil_r in Hcalls, Hl', Hm'.
  rewrite <-(length_reverse xs) in Hcalls, Hl', Hm' at 1.
  rewrite rc_lifo_model_pops in Hcalls, Hl', Hm'.
  cbn [fst snd] in Hcalls, Hl', Hm'.
  rewrite !length_reverse in Hcalls, Hm'.
  replace (length xs + (mem - length xs)) with mem in Hcalls, Hm' by lia.
  exists Σ'. split; [done|]. split; [|done].
  apply map_empty. intros a. destruct (heap (shared Σ') !! a) eqn:E; [|done].
  assert (Hin : a ∈ l'.*1) by (apply (rest_closed _ _ _ Hrest); eauto).
  destruct l'; [by apply elem_of_nil in Hin|done].
Qed.

(** X3.  The destructor of the stack with split reference counts (lines
    99-102), called by a thread that runs alone on a stack at rest with
    contents [l]: it returns, every node of the stack was deleted (each
    once, top first), no node is left allocated, the free store has its room
    back, and no call can be made on the stack afterwards. *)
Theorem rc_destructor_deletes_every_node Σ tid l fuel :
  at_rest tid Σ l → length l * 8 + 3 ≤ fuel →
  ∃ Σ', do_call fuel tid Destroy Σ = Some Σ' ∧
    ret (thread_of Σ' tid) = Some Void ∧
    destroyed (shared Σ') = true ∧
    heap (shared Σ') = ∅ ∧
    freed (shared Σ') = freed (shared Σ) ++ l.*1 ∧
    mem_avail (shared Σ') = length l + mem_avail (shared Σ) ∧
    ∀ tid' c, exec (Invoke tid' c) Σ' = None.
Proof.
  intros [Hidle Hd Hs Hnd Hdom Hbrk Hcl] Hfuel.
  destruct (rc_dtor_steps tid l (enter Destroy) (shared Σ) eq_refl eq_refl Hs Hnd)
    as (σ' & Hsteps & Hd' & Hp' & Hheap' & Hbrk' & Hm' & Hf').
  eexists. split.
  { apply (rc_do_call_steps (length l * 8 + 3)); [done|done|done|]. by rewrite Hsteps. }
  rewrite rc_thread_of_after, Hsteps. cbn [fst snd shared].
  split; [done|]. split; [done|]. split; [|split; [done|split; [done|]]].
  - apply map_empty. intros a. rewrite Hheap'.
    destruct (decide (a ∈ l.*1)) as [|Hnin]; [done|].
    destruct (heap (shared Σ) !! a) eqn:E; [|done]. exfalso. apply Hnin, Hcl. eauto.
  - intros tid' c. unfold exec. cbn [shared]. rewrite Hd'. by repeat case_match.
Qed.

End SplitRefMore.

Lemma rc_stack_at_rest_is_a_list_witness :
  SplitRef.run MoreScenarios.rc_two_poppers_done (SplitRef.init 3)
    = Some MoreScenarios.rc_two_poppers_done_state ∧
  (Z.of_nat (length MoreScenarios.rc_two_poppers_done) < 2 ^ 31 - 4)%Z ∧
  SplitRef.quiescent MoreScenarios.rc_two_poppers_done_state ∧
  SplitRef.destroyed (SplitRef.shared MoreScenarios.rc_two_poppers_done_state) = false ∧
  Forall (λ c, c ≠ SplitRef.Destroy) [SplitRef.Push 7; SplitRef.Pop; SplitRef.Pop; SplitRef.Pop] ∧
  8 ≤ 8 ∧
  ∃ l Σ' l',
    SplitRef.at_rest 1 MoreScenarios.rc_two_poppers_done_state l ∧
    SplitRef.do_calls 8 1 [SplitRef.Push 7; SplitRef.Pop; SplitRef.Pop; SplitRef.Pop]
        MoreScenarios.rc_two_poppers_done_state
      = Some ((SplitRef.lifo_model [SplitRef.Push 7; SplitRef.Pop; SplitRef.Pop; SplitRef.Pop]
                 l.*2 (SplitRef.mem_avail
                         (SplitRef.shared MoreScenarios.rc_two_poppers_done_state))).1.1, Σ') ∧
    SplitRef.at_rest 1 Σ' l' ∧
    l'.*2 = (SplitRef.lifo_model [SplitRef.Push 7; SplitRef.Pop; SplitRef.Pop; SplitRef.Pop]
               l.*2 (SplitRef.mem_avail
                       (SplitRef.shared MoreScenarios.rc_two_poppers_done_state))).1.2 ∧
    SplitRef.mem_avail (SplitRef.shared Σ')
      = (SplitRef.lifo_model [SplitRef.Push 7; SplitRef.Pop; SplitRef.Pop; SplitRef.Pop]
           l.*2 (SplitRef.mem_avail
                   (SplitRef.shared MoreScenarios.rc_two_poppers_done_state))).2.
Proof.
  assert (Hrun : SplitRef.run MoreScenarios.rc_two_poppers_done (SplitRef.init 3)
                 = Some MoreScenarios.rc_two_poppers_done_state) by (vm_compute; reflexivity).
  assert (Hlen : (Z.of_nat (length MoreScenarios.rc_two_poppers_done) < 2 ^ 31 - 4)%Z)
    by (vm_compute; reflexivity).
  assert (Hq : SplitRef.quiescent MoreScenarios.rc_two_poppers_done_state).
  { apply rc_quiescent_threads. vm_compute. repeat constructor. }
  assert (Hd : SplitRef.destroyed (SplitRef.shared MoreScenarios.rc_two_poppers_done_state)
               = false) by (vm_compute; reflexivity).
  assert (Hcs : Forall (λ c : SplitRef.call nat, c ≠ SplitRef.Destroy)
                  [SplitRef.Push 7; SplitRef.Pop; SplitRef.Pop; SplitRef.Pop])
    by (repeat constructor; discriminate).
  do 5 (split; [assumption|]). split; [lia|].
  apply (rc_stack_at_rest_is_a_list _ 3 _ 1 _ 8 Hrun Hlen Hq Hd Hcs). lia.
Defined.

Lemma rc_pops_return_the_pushes_reversed_witness :
  length [1; 2; 3] ≤ 3 ∧ 8 ≤ 8 ∧
  ∃ Σ', SplitRef.do_calls 8 1
          ((SplitRef.Push <$> [1; 2; 3]) ++ replicate (length [1; 2; 3]) SplitRef.Pop)
          (SplitRef.init 3)
        = Some (replicate (length [1; 2; 3]) (Some Void) ++
                ((λ x, Some (Value (Some x))) <$> reverse [1; 2; 3]), Σ') ∧
    SplitRef.heap (SplitRef.shared Σ') = ∅ ∧ SplitRef.mem_avail (SplitRef.shared Σ') = 3.
Proof.
  split; [simpl; lia|]. split; [lia|].
  apply (rc_pops_return_the_pushes_reversed 1 [1; 2; 3] 3 8); simpl; lia.
Defined.

Lemma rc_destructor_deletes_every_node_witness :
  ∃ l, l.*2 = [3; 2; 1] ∧
    SplitRef.at_rest 1 MoreScenarios.rc_three_pushed_state l ∧
    length l * 8 + 3 ≤ 27 ∧
    ∃ Σ', SplitRef.do_call 27 1 SplitRef.Destroy MoreScenarios.rc_three_pushed_state = Some Σ' ∧
      SplitRef.ret (SplitRef.thread_of Σ' 1) = Some Void ∧
      SplitRef.destroyed (SplitRef.shared Σ') = true ∧
      SplitRef.heap (SplitRef.shared Σ') = ∅ ∧
      SplitRef.freed (SplitRef.shared Σ')
        = SplitRef.freed (SplitRef.shared MoreScenarios.rc_three_pushed_state) ++ l.*1 ∧
      SplitRef.mem_avail (SplitRef.shared Σ')
        = length l + SplitRef.mem_avail (SplitRef.shared MoreScenarios.rc_three_pushed_state) ∧
      ∀ tid' c, SplitRef.exec (SplitRef.Invoke tid' c) Σ' = None.
Proof.
  destruct (rc_calls_refine_list 1 8 (SplitRef.Push <$> [1; 2; 3]) (SplitRef.init 3) []
              (rc_init_at_rest 1 3)) as (Σ1 & l & Hcalls & Hrest & Hl & _).
  { repeat constructor; discriminate. }
  { lia. }
  assert (HΣ : MoreScenarios.rc_three_pushed_state = Σ1).
  { unfold MoreScenarios.rc_three_pushed_state. by rewrite Hcalls. }
  rewrite <-HΣ in Hrest.
  assert (Hl3 : l.*2 = [3; 2; 1]) by (rewrite Hl; vm_compute; reflexivity).
  assert (Hlen : length l * 8 + 3 ≤ 27).
  { rewrite <-(length_fmap snd l), Hl3. simpl. lia. }
  exists l. split; [exact Hl3|]. split; [exact Hrest|]. split; [exact Hlen|].
  exact (rc_destructor_deletes_every_node _ 1 l 27 Hrest Hlen).
Defined.


Section HazardMore.
Import Hazard.
Context {T : Type}.
Implicit Types (Σ : state T) (σ : memory T) (L : thread T) (k : pc T).

(** X4.  The stack with hazard pointers, at rest with contents [l] (no
    thread holds a hazard pointer, no node waits to be deleted, the calling
    thread has a slot or can get one): whatever list of pushes and pops on
    that stack one thread makes alone, each call gives what a list with the
    values of [l] (top first) and the room of the free store gives: a push
    throws [bad_alloc] exactly when there is no room and then changes
    nothing, a pop returns the top value and frees its node at once, or the
    empty result on the empty stack. *)
Theorem hp_stack_at_rest_is_a_list Σ tid s l (cs : list (call T)) fuel :
  at_rest tid s Σ l → Forall (on_stack s) cs →
  2 * length (HazardPointers (shared Σ)) + 13 ≤ fuel →
  ∃ Σ' l',
    do_calls fuel tid cs Σ
      = Some ((lifo_model s cs l.*2 (mem_avail (shared Σ))).1.1, Σ') ∧
    at_rest tid s Σ' l' ∧
    l'.*2 = (lifo_model s cs l.*2 (mem_avail (shared Σ))).1.2 ∧
    mem_avail (shared Σ') = (lifo_model s cs l.*2 (mem_avail (shared Σ))).2.
Proof. apply hp_calls_refine_list. Qed.

(** X5.  For every list [xs] of values: one thread pushes them onto a stack
    with hazard pointers that was just constructed, in order, and pops as
    many times.  The pushes return, the pops return the values in reverse
    order, and the free store has the room it had. *)
Theorem hp_pops_return_the_pushes_reversed tid s (xs : list T) mem Σ fuel :
  run [Construct s] (init mem) = Some Σ → length xs ≤ mem → 213 ≤ fuel →
  ∃ Σ', do_calls fuel tid ((Push s <$> xs) ++ replicate (length xs) (Pop s)) Σ
          = Some (replicate (length xs) (Some Void) ++
                  ((λ x, Some (Value (Some x))) <$> reverse xs), Σ') ∧
    at_rest tid s Σ' [] ∧ mem_avail (shared Σ') = mem.
Proof.
  intros Hrun Hmem Hfuel.
  pose proof (hp_constructed_at_rest tid s mem Σ Hrun) as Hrest.
  assert (Hlen : length (HazardPointers (shared Σ)) = 100 ∧ mem_avail (shared Σ) = mem).
  { revert Hrun. unfold run, exec. cbn [init shared stacks]. rewrite lookup_empty.
    intros [= <-]. cbn [shared HazardPointers set_stacks mem_avail]. split; [|done].
    apply length_replicate. }
  destruct Hlen as [Hlen Hm].
  destruct (hp_calls_refine_list tid s fuel ((Push s <$> xs) ++ replicate (length xs) (Pop s))
              Σ [] Hrest) as (Σ' & l' & Hcalls & Hrest' & Hl' & Hm').
  { apply Forall_app. split.
    - apply Forall_fmap, Forall_forall. by intros x _.
    - apply Forall_forall. by intros c [-> _]%elem_of_replicate. }
  { lia. }
  cbn [fmap list_fmap] in Hcalls, Hl', Hm'. rewrite Hm in Hcalls, Hl', Hm'.
  replace mem with (length xs + (mem - length xs)) in Hcalls, Hl', Hm' at 1 by lia.
  rewrite hp_lifo_model_pushes, app_nil_r in Hcalls, Hl', Hm'.
  rewrite <-(length_reverse xs) in Hcalls, Hl', Hm' at 1.
  rewrite hp_lifo_model_pops in Hcalls, Hl', Hm'.
  cbn [fst snd] in Hcalls, Hl', Hm'.
  rewrite !length_reverse in Hcalls, Hm'.
  replace (length xs + (mem - length xs)) with mem in Hcalls, Hm' by lia.
  exists Σ'. split; [done|]. split; [|lia].
  destruct l'; [done|discriminate].
Qed.

End HazardMore.

Lemma hp_stack_at_rest_is_a_list_witness :
  Hazard.at_rest 1 0 (Scenario.hp_fresh 3) [] ∧
  Forall (Hazard.on_stack 0)
    [Hazard.Push 0 1; Hazard.Push 0 2; Hazard.Pop 0; Hazard.Pop 0; Hazard.Pop 0] ∧
  2 * length (Hazard.HazardPointers (Hazard.shared (Scenario.hp_fresh 3))) + 13 ≤ 213 ∧
  ∃ Σ' l',
    Hazard.do_calls 213 1
        [Hazard.Push 0 1; Hazard.Push 0 2; Hazard.Pop 0; Hazard.Pop 0; Hazard.Pop 0]
        (Scenario.hp_fresh 3)
      = Some ([Some Void; Some Void; Some (Value (Some 2)); Some (Value (Some 1));
               Some (Value None)], Σ') ∧
    Hazard.at_rest 1 0 Σ' l' ∧ l'.*2 = [] ∧
    Hazard.mem_avail (Hazard.shared Σ') = 3.
Proof.
  assert (Hrest : Hazard.at_rest 1 0 (Scenario.hp_fresh 3) []).
  { apply (hp_constructed_at_rest 1 0 3). vm_compute. reflexivity. }
  assert (Hon : Forall (Hazard.on_stack (T:=nat) 0)
                  [Hazard.Push 0 1; Hazard.Push 0 2; Hazard.Pop 0; Hazard.Pop 0; Hazard.Pop 0])
    by (repeat constructor).
  assert (Hlen : length (Hazard.HazardPointers (Hazard.shared (Scenario.hp_fresh 3))) = 100)
    by (vm_compute; reflexivity).
  assert (Hfuel : 2 * length (Hazard.HazardPointers (Hazard.shared (Scenario.hp_fresh 3))) + 13
                  ≤ 213) by (rewrite Hlen; lia).
  split; [exact Hrest|]. split; [exact Hon|]. split; [exact Hfuel|].
  exact (hp_stack_at_rest_is_a_list _ 1 0 [] _ 213 Hrest Hon Hfuel).
Defined.

Lemma hp_pops_return_the_pushes_reversed_witness :
  Hazard.run [Hazard.Construct 0] (Hazard.init 3) = Some (Scenario.hp_fresh 3) ∧
  length [1; 2; 3] ≤ 3 ∧ 213 ≤ 213 ∧
  ∃ Σ', Hazard.do_calls 213 1
          ((Hazard.Push 0 <$> [1; 2; 3]) ++ replicate (length [1; 2; 3]) (Hazard.Pop 0))
          (Scenario.hp_fresh 3)
        = Some (replicate (length [1; 2; 3]) (Some Void) ++
                ((λ x, Some (Value (Some x))) <$> reverse [1; 2; 3]), Σ') ∧
    Hazard.at_rest 1 0 Σ' [] ∧ Hazard.mem_avail (Hazard.shared Σ') = 3.
Proof.
  assert (Hrun : Hazard.run [Hazard.Construct 0] (Hazard.init 3) = Some (Scenario.hp_fresh 3))
    by (vm_compute; reflexivity).
  split; [exact Hrun|]. split; [simpl; lia|]. split; [lia|].
  apply (hp_pops_return_the_pushes_reversed 1 0 [1; 2; 3] 3 _ 213 Hrun); simpl; lia.
Defined.

Section HierarchicalMutexMore.
Import HierarchicalMutex.
Implicit Types (Σ : state) (mu : Mutex).

(** X6.  In every state the hierarchical mutexes can reach (any number of
    mutexes and threads, any defined calls of lock, try_lock and unlock in
    any order): a thread that owns a mutex of level [c] cannot take a mutex
    of level [c] or higher, the same mutex included: [lock] and [try_lock]
    throw [std::logic_error] and change nothing; and a mutex of level
    [INT_MAX] or more is never taken by anybody. *)
Theorem hm_lock_throws_at_or_above_a_held_level sched rs Σ tid m' mu' sp :
  run sched init = Some (rs, Σ) → mutexes Σ !! m' = Some mu' →
  ((∃ m mu, mutexes Σ !! m = Some mu ∧ m_ mu = Some tid ∧
            (cur_hierarchy_ mu ≤ cur_hierarchy_ mu')%Z) ∨
   (INT_MAX ≤ cur_hierarchy_ mu')%Z) →
  lock tid m' Σ = (Threw_logic_error, Σ) ∧ try_lock sp tid m' Σ = (Threw_logic_error, Σ).
Proof.
  intros Hrun Hm' Hor.
  assert (Hinv : inv Σ) by (eapply hm_run_inv; [apply hm_init_inv|done]).
  assert (Hv : validate_hierarchy Σ tid mu' = true).
  { unfold validate_hierarchy. apply Z.leb_le. destruct Hor as [(m & mu & Hm & Ho & Hle)|Hmax].
    - pose proof (hm_inv_held _ _ _ _ Hinv Hm Ho). lia.
    - pose proof (hm_inv_max Σ tid Hinv). lia. }
  unfold lock, try_lock. by rewrite Hm', Hv.
Qed.

(** X7.  In every state the hierarchical mutexes can reach, no threads wait
    for each other in a circle: if [t1] is blocked by [t2], the hierarchy
    value of [t2] is below that of [t1], so a chain of blocked threads never
    comes back to its start. *)
Theorem hm_no_circular_wait sched rs Σ :
  run sched init = Some (rs, Σ) →
  (∀ t1 t2, waits_for Σ t1 t2 → (hierarchy_of Σ t2 < hierarchy_of Σ t1)%Z) ∧
  (∀ t, ¬ tc (waits_for Σ) t t).
Proof.
  intros Hrun.
  assert (Hinv : inv Σ) by (eapply hm_run_inv; [apply hm_init_inv|done]).
  assert (Hstep : ∀ t1 t2, waits_for Σ t1 t2 → (hierarchy_of Σ t2 < hierarchy_of Σ t1)%Z).
  { intros t1 t2 (m & mu & Hm & Ho & Hb).
    pose proof (hm_inv_held _ _ _ _ Hinv Hm Ho) as Hle.
    unfold lock in Hb. rewrite Hm in Hb.
    unfold validate_hierarchy in Hb.
    destruct (hierarchy_of Σ t1 <=? cur_hierarchy_ mu)%Z eqn:E; [done|].
    apply Z.leb_gt in E. lia. }
  split; [done|].
  assert (Htc : ∀ t1 t2, tc (waits_for Σ) t1 t2 → (hierarchy_of Σ t2 < hierarchy_of Σ t1)%Z).
  { intros t1 t2 H. induction H as [t1 t2 H|t1 t2 t3 H _ IH].
    - by apply Hstep.
    - apply Hstep in H. lia. }
  intros t H. apply Htc in H. lia.
Qed.

(** X8.  In every state the hierarchical mutexes can reach, [unlock] of a
    mutex the thread owns returns exactly when it is the mutex the thread
    locked last (the lowest it owns): it then gives the mutex up and sets
    the hierarchy value of the thread back to what it was before that lock.
    On any other mutex the thread owns it throws [std::logic_error] and
    changes nothing. *)
Theorem hm_unlock_in_reverse_order_only sched rs Σ tid m mu :
  run sched init = Some (rs, Σ) → mutexes Σ !! m = Some mu → m_ mu = Some tid →
  ((∀ m' mu', mutexes Σ !! m' = Some mu' → m_ mu' = Some tid →
      (cur_hierarchy_ mu ≤ cur_hierarchy_ mu')%Z) →
   unlock tid m Σ =
     (Returned,
      {| mutexes := <[m := {| m_ := None; cur_hierarchy_ := cur_hierarchy_ mu;
                              prev_hierarchy_ := prev_hierarchy_ mu |}]> (mutexes Σ);
         thread_hierarchy_ := <[tid := prev_hierarchy_ mu]> (thread_hierarchy_ Σ) |}) ∧
   (hierarchy_of Σ tid < prev_hierarchy_ mu)%Z ∧
   (∀ m' mu', m' ≠ m → mutexes Σ !! m' = Some mu' → m_ mu' = Some tid →
      (prev_hierarchy_ mu ≤ cur_hierarchy_ mu')%Z)) ∧
  ((∃ m' mu', mutexes Σ !! m' = Some mu' ∧ m_ mu' = Some tid ∧
      (cur_hierarchy_ mu' < cur_hierarchy_ mu)%Z) →
   unlock tid m Σ = (Threw_logic_error, Σ)).
Proof.
  intros Hrun Hm Ho.
  assert (Hinv : inv Σ) by (eapply hm_run_inv; [apply hm_init_inv|done]).
  destruct (Hinv tid) as (hs & Hchain & Hall).
  pose proof (hm_inv_held _ _ _ _ Hinv Hm Ho) as Hle.
  split.
  - intros Hmin.
    assert (Hh : hierarchy_of Σ tid = cur_hierarchy_ mu).
    { destruct hs as [|m0 hs]; [by apply Hall, elem_of_nil in Hm|].
      destruct Hchain as (mu0 & Hm0 & Ho0 & Hc0 & _). specialize (Hmin _ _ Hm0 Ho0). lia. }
    destruct (hm_held_chain_head Σ tid hs _ m mu Hchain (Hall _ _ Hm Ho) Hm (eq_sym Hh))
      as (rest & -> & Hrest & Hnotin & Hlt).
    split; [|split; [done|]].
    + unfold unlock. rewrite Hm. rewrite decide_True by done. by rewrite decide_True.
    + intros m' mu'' Hne Hm'' Ho''. specialize (Hall _ _ Hm'' Ho'').
      apply elem_of_cons in Hall as [?|Hin]; [done|].
      destruct (hm_held_chain_elem _ _ _ _ _ Hrest Hin) as (? & ? & _ & ?). by simplify_eq.
  - intros (m' & mu'' & Hm'' & Ho'' & Hlt).
    pose proof (hm_inv_held _ _ _ _ Hinv Hm'' Ho'') as Hle'.
    unfold unlock. rewrite Hm. rewrite decide_False by lia. done.
Qed.

(** X9.  [lock] followed by [unlock] of the same mutex by the same thread,
    from any state in which the lock is taken: the unlock returns, the mutex
    is free again and the hierarchy value of every thread is what it was
    before the lock; the other mutexes are untouched. *)
Theorem hm_lock_unlock_restores Σ tid m Σ1 :
  lock tid m Σ = (Returned, Σ1) →
  ∃ Σ2 mu, unlock tid m Σ1 = (Returned, Σ2) ∧
    mutexes Σ !! m = Some mu ∧ m_ mu = None ∧
    mutexes Σ2 = <[m := {| m_ := None; cur_hierarchy_ := cur_hierarchy_ mu;
                           prev_hierarchy_ := hierarchy_of Σ tid |}]> (mutexes Σ) ∧
    ∀ tid', hierarchy_of Σ2 tid' = hierarchy_of Σ tid'.
Proof.
  unfold lock. destruct (mutexes Σ !! m) as [mu|] eqn:Hm; [|done].
  destruct (validate_hierarchy Σ tid mu) eqn:Hv; [done|].
  destruct (m_ mu) as [o|] eqn:Ho; [by destruct (decide (o = tid))|].
  intros [= <-]. eexists _, mu. split.
  - unfold unlock, update_hierarchy. cbn [mutexes]. rewrite lookup_insert_eq.
    cbn [cur_hierarchy_ m_ prev_hierarchy_]. rewrite hm_hierarchy_of_insert.
    destruct (decide (tid = tid)); [|done]. rewrite !decide_True by done. reflexivity.
  - split; [done|]. split; [done|]. cbn [mutexes thread_hierarchy_]. split.
    + by rewrite insert_insert_eq.
    + intros tid'. unfold hierarchy_of. cbn [thread_hierarchy_ update_hierarchy].
      rewrite insert_insert_eq.
      destruct (decide (tid = tid')) as [<-|Hne].
      * rewrite lookup_insert_eq. done.
      * by rewrite lookup_insert_ne.
Qed.

(** X10.  [main] of lines 82-90, for any three free mutexes with levels
    low < mid < high < INT_MAX and a thread that holds no mutex: [lf] and
    [hf] return, [mf] throws [std::logic_error] from the lock of [high]
    inside [hf] (the thread stands at level mid), the guard of [mf] releases
    [mid] on the way out, [main] catches the exception and prints its text
    once; at the end every mutex is free again and the hierarchy value of
    the thread is [INT_MAX]. *)
Theorem hm_main_prints_once Σ tid high mid low muh mum mul :
  mutexes Σ !! high = Some muh → mutexes Σ !! mid = Some mum → mutexes Σ !! low = Some mul →
  m_ muh = None → m_ mum = None → m_ mul = None →
  high ≠ mid → high ≠ low → mid ≠ low →
  hierarchy_of Σ tid = INT_MAX →
  (cur_hierarchy_ mul < cur_hierarchy_ mum < cur_hierarchy_ muh)%Z →
  (cur_hierarchy_ muh < INT_MAX)%Z →
  ∃ Σ', main tid high mid low Σ = ([mutex_hierarchy_violated], Returned, Σ') ∧
        same_locks Σ Σ'.
Proof.
  intros Hh Hm Hl Hoh Hom Hol Hhm Hhl Hml Hth Hlev Hmax.
  destruct (hm_lf_same Σ tid low mul Hl Hol) as (Σ1 & Hlf & S1); [lia|].
  destruct (hm_same_locks_free _ _ _ _ S1 Hh) as (muh1 & Hh1 & Hoh1 & Hch1).
  destruct (hm_same_locks_free _ _ _ _ S1 Hm) as (mum1 & Hm1 & Hom1 & Hcm1).
  destruct (hm_same_locks_free _ _ _ _ S1 Hl) as (mul1 & Hl1 & Hol1 & Hcl1).
  destruct (hm_hf_same Σ1 tid high low muh1 mul1) as (Σ2 & Hhf & S2); try done; try congruence.
  { rewrite (proj1 S1 tid). lia. }
  destruct (hm_same_locks_free _ _ _ _ S2 Hh1) as (muh2 & Hh2 & Hoh2 & Hch2).
  destruct (hm_same_locks_free _ _ _ _ S2 Hm1) as (mum2 & Hm2 & Hom2 & Hcm2).
  destruct (hm_mf_same Σ2 tid high mid low muh2 mum2) as (Σ3 & Hmf & S3); try done; try congruence.
  { rewrite (proj1 S2 tid), (proj1 S1 tid). lia. }
  { lia. }
  exists Σ3. split.
  - unfold main. by rewrite Hlf, Hhf, Hmf.
  - eapply hm_same_locks_trans; [|exact S3]. by eapply hm_same_locks_trans.
Qed.

(** X11.  In every state the hierarchical mutexes can reach:
    [thread_hierarchy_] of a thread that owns no mutex is [INT_MAX]; that of
    a thread that owns mutexes is the level of one of them, the lowest: every
    mutex it owns has that level or a higher one, below [INT_MAX]; and no
    two mutexes a thread owns have the same level. *)
Theorem hm_thread_hierarchy_is_the_lowest_level_held sched rs Σ tid :
  run sched init = Some (rs, Σ) →
  ((∀ m mu, mutexes Σ !! m = Some mu → m_ mu ≠ Some tid) → hierarchy_of Σ tid = INT_MAX) ∧
  (∀ m mu, mutexes Σ !! m = Some mu → m_ mu = Some tid →
     (hierarchy_of Σ tid ≤ cur_hierarchy_ mu < INT_MAX)%Z ∧
     ∃ m0 mu0, mutexes Σ !! m0 = Some mu0 ∧ m_ mu0 = Some tid ∧
               cur_hierarchy_ mu0 = hierarchy_of Σ tid) ∧
  (∀ m1 mu1 m2 mu2,
     mutexes Σ !! m1 = Some mu1 → m_ mu1 = Some tid →
     mutexes Σ !! m2 = Some mu2 → m_ mu2 = Some tid →
     cur_hierarchy_ mu1 = cur_hierarchy_ mu2 → m1 = m2).
Proof.
  intros Hrun.
  assert (Hinv : inv Σ) by (eapply hm_run_inv; [apply hm_init_inv|done]).
  destruct (Hinv tid) as (hs & Hchain & Hall).
  split; [|split].
  - intros Hnone. destruct hs as [|m hs]; [done|].
    destruct Hchain as (mu & Hm & Ho & _). by destruct (Hnone _ _ Hm).
  - intros m mu Hm Ho. pose proof (Hall _ _ Hm Ho) as Hin. split.
    + split; [by eapply hm_inv_held|by eapply hm_held_chain_below_max].
    + destruct hs as [|m0 hs]; [by apply elem_of_nil in Hin|].
      destruct Hchain as (mu0 & Hm0 & Ho0 & Hcur & _). by exists m0, mu0.
  - intros m1 mu1 m2 mu2 Hm1 Ho1 Hm2 Ho2 Heq.
    eapply hm_held_chain_inj; eauto.
Qed.

End HierarchicalMutexMore.


Lemma hm_lock_throws_at_or_above_a_held_level_witness :
  HierarchicalMutex.run MoreScenarios.hm_mid_locked HierarchicalMutex.init
    = Some (replicate 4 HierarchicalMutex.Returned, MoreScenarios.hm_mid_locked_state) ∧
  HierarchicalMutex.mutexes MoreScenarios.hm_mid_locked_state !! 0
    = Some {| HierarchicalMutex.m_ := None; HierarchicalMutex.cur_hierarchy_ := 10000;
              HierarchicalMutex.prev_hierarchy_ := 0 |} ∧
  HierarchicalMutex.mutexes MoreScenarios.hm_mid_locked_state !! 1
    = Some {| HierarchicalMutex.m_ := Some 1; HierarchicalMutex.cur_hierarchy_ := 6000;
              HierarchicalMutex.prev_hierarchy_ := HierarchicalMutex.INT_MAX |} ∧
  HierarchicalMutex.lock 1 0 MoreScenarios.hm_mid_locked_state
    = (HierarchicalMutex.Threw_logic_error, MoreScenarios.hm_mid_locked_state) ∧
  HierarchicalMutex.try_lock false 1 0 MoreScenarios.hm_mid_locked_state
    = (HierarchicalMutex.Threw_logic_error, MoreScenarios.hm_mid_locked_state).
Proof.
  assert (Hrun : HierarchicalMutex.run MoreScenarios.hm_mid_locked HierarchicalMutex.init
                 = Some (replicate 4 HierarchicalMutex.Returned,
                         MoreScenarios.hm_mid_locked_state)) by (vm_compute; reflexivity).
  assert (Hhigh : HierarchicalMutex.mutexes MoreScenarios.hm_mid_locked_state !! 0
                  = Some {| HierarchicalMutex.m_ := None;
                            HierarchicalMutex.cur_hierarchy_ := 10000;
                            HierarchicalMutex.prev_hierarchy_ := 0 |})
    by (vm_compute; reflexivity).
  assert (Hmid : HierarchicalMutex.mutexes MoreScenarios.hm_mid_locked_state !! 1
                 = Some {| HierarchicalMutex.m_ := Some 1;
                           HierarchicalMutex.cur_hierarchy_ := 6000;
                           HierarchicalMutex.prev_hierarchy_ := HierarchicalMutex.INT_MAX |})
    by (vm_compute; reflexivity).
  split; [exact Hrun|]. split; [exact Hhigh|]. split; [exact Hmid|].
  apply (hm_lock_throws_at_or_above_a_held_level _ _ _ 1 0 _ false Hrun Hhigh).
  left. eexists 1, _. split; [exact Hmid|]. split; [reflexivity|]. simpl. lia.
Defined.

Lemma hm_no_circular_wait_witness :
  HierarchicalMutex.run MoreScenarios.hm_high_low_locked HierarchicalMutex.init
    = Some (replicate 5 HierarchicalMutex.Returned, MoreScenarios.hm_high_low_locked_state) ∧
  (∀ t1 t2, HierarchicalMutex.waits_for MoreScenarios.hm_high_low_locked_state t1 t2 →
     (HierarchicalMutex.hierarchy_of MoreScenarios.hm_high_low_locked_state t2
      < HierarchicalMutex.hierarchy_of MoreScenarios.hm_high_low_locked_state t1)%Z) ∧
  (∀ t, ¬ tc (HierarchicalMutex.waits_for MoreScenarios.hm_high_low_locked_state) t t).
Proof.
  assert (Hrun : HierarchicalMutex.run MoreScenarios.hm_high_low_locked HierarchicalMutex.init
                 = Some (replicate 5 HierarchicalMutex.Returned,
                         MoreScenarios.hm_high_low_locked_state)) by (vm_compute; reflexivity).
  split; [exact Hrun|]. exact (hm_no_circular_wait _ _ _ Hrun).
Defined.

Lemma hm_unlock_in_reverse_order_only_witness :
  HierarchicalMutex.run MoreScenarios.hm_high_low_locked HierarchicalMutex.init
    = Some (replicate 5 HierarchicalMutex.Returned, MoreScenarios.hm_high_low_locked_state) ∧
  HierarchicalMutex.mutexes MoreScenarios.hm_high_low_locked_state !! 0
    = Some {| HierarchicalMutex.m_ := Some 1; HierarchicalMutex.cur_hierarchy_ := 10000;
              HierarchicalMutex.prev_hierarchy_ := HierarchicalMutex.INT_MAX |} ∧
  HierarchicalMutex.mutexes MoreScenarios.hm_high_low_locked_state !! 2
    = Some {| HierarchicalMutex.m_ := Some 1; HierarchicalMutex.cur_hierarchy_ := 5000;
              HierarchicalMutex.prev_hierarchy_ := 10000 |} ∧
  HierarchicalMutex.unlock 1 0 MoreScenarios.hm_high_low_locked_state
    = (HierarchicalMutex.Threw_logic_error, MoreScenarios.hm_high_low_locked_state).
Proof.
  assert (Hrun : HierarchicalMutex.run MoreScenarios.hm_high_low_locked HierarchicalMutex.init
                 = Some (replicate 5 HierarchicalMutex.Returned,
                         MoreScenarios.hm_high_low_locked_state)) by (vm_compute; reflexivity).
  assert (Hhigh : HierarchicalMutex.mutexes MoreScenarios.hm_high_low_locked_state !! 0
                  = Some {| HierarchicalMutex.m_ := Some 1;
                            HierarchicalMutex.cur_hierarchy_ := 10000;
                            HierarchicalMutex.prev_hierarchy_ := HierarchicalMutex.INT_MAX |})
    by (vm_compute; reflexivity).
  assert (Hlow : HierarchicalMutex.mutexes MoreScenarios.hm_high_low_locked_state !! 2
                 = Some {| HierarchicalMutex.m_ := Some 1;
                           HierarchicalMutex.cur_hierarchy_ := 5000;
                           HierarchicalMutex.prev_hierarchy_ := 10000 |})
    by (vm_compute; reflexivity).
  split; [exact Hrun|]. split; [exact Hhigh|]. split; [exact Hlow|].
  apply (hm_unlock_in_reverse_order_only _ _ _ 1 0 _ Hrun Hhigh eq_refl).
  eexists 2, _. split; [exact Hlow|]. split; [reflexivity|]. simpl. lia.
Defined.

Lemma hm_lock_unlock_restores_witness :
  HierarchicalMutex.lock 1 2 MoreScenarios.hm_three_mutexes_state
    = (HierarchicalMutex.Returned,
       (HierarchicalMutex.lock 1 2 MoreScenarios.hm_three_mutexes_state).2) ∧
  ∃ Σ2 mu,
    HierarchicalMutex.unlock 1 2 (HierarchicalMutex.lock 1 2 MoreScenarios.hm_three_mutexes_state).2
      = (HierarchicalMutex.Returned, Σ2) ∧
    HierarchicalMutex.mutexes MoreScenarios.hm_three_mutexes_state !! 2 = Some mu ∧
    HierarchicalMutex.m_ mu = None ∧
    HierarchicalMutex.mutexes Σ2
      = <[2 := {| HierarchicalMutex.m_ := None;
                  HierarchicalMutex.cur_hierarchy_ := HierarchicalMutex.cur_hierarchy_ mu;
                  HierarchicalMutex.prev_hierarchy_ :=
                    HierarchicalMutex.hierarchy_of MoreScenarios.hm_three_mutexes_state 1 |}]>
          (HierarchicalMutex.mutexes MoreScenarios.hm_three_mutexes_state) ∧
    ∀ tid', HierarchicalMutex.hierarchy_of Σ2 tid'
            = HierarchicalMutex.hierarchy_of MoreScenarios.hm_three_mutexes_state tid'.
Proof.
  assert (Hlock : HierarchicalMutex.lock 1 2 MoreScenarios.hm_three_mutexes_state
                  = (HierarchicalMutex.Returned,
                     (HierarchicalMutex.lock 1 2 MoreScenarios.hm_three_mutexes_state).2))
    by (vm_compute; reflexivity).
  split; [exact Hlock|]. exact (hm_lock_unlock_restores _ 1 2 _ Hlock).
Defined.

Lemma hm_main_prints_once_witness :
  ∃ Σ', HierarchicalMutex.main 1 0 1 2 MoreScenarios.hm_three_mutexes_state
        = ([HierarchicalMutex.mutex_hierarchy_violated], HierarchicalMutex.Returned, Σ') ∧
        HierarchicalMutex.same_locks MoreScenarios.hm_three_mutexes_state Σ'.
Proof.
  apply (hm_main_prints_once MoreScenarios.hm_three_mutexes_state 1 0 1 2
           {| HierarchicalMutex.m_ := None; HierarchicalMutex.cur_hierarchy_ := 10000;
              HierarchicalMutex.prev_hierarchy_ := 0 |}
           {| HierarchicalMutex.m_ := None; HierarchicalMutex.cur_hierarchy_ := 6000;
              HierarchicalMutex.prev_hierarchy_ := 0 |}
           {| HierarchicalMutex.m_ := None; HierarchicalMutex.cur_hierarchy_ := 5000;
              HierarchicalMutex.prev_hierarchy_ := 0 |});
    try (vm_compute; reflexivity); try discriminate; try (simpl; lia).
Defined.

Lemma hm_thread_hierarchy_is_the_lowest_level_held_witness :
  HierarchicalMutex.run MoreScenarios.hm_high_low_locked HierarchicalMutex.init
    = Some (replicate 5 HierarchicalMutex.Returned, MoreScenarios.hm_high_low_locked_state) ∧
  (HierarchicalMutex.hierarchy_of MoreScenarios.hm_high_low_locked_state 1 ≤ 10000
   < HierarchicalMutex.INT_MAX)%Z.
Proof.
  assert (Hrun : HierarchicalMutex.run MoreScenarios.hm_high_low_locked HierarchicalMutex.init
                 = Some (replicate 5 HierarchicalMutex.Returned,
                         MoreScenarios.hm_high_low_locked_state)) by (vm_compute; reflexivity).
  split; [exact Hrun|].
  destruct (hm_thread_hierarchy_is_the_lowest_level_held _ _ _ 1 Hrun) as (_ & Hheld & _).
  apply (Hheld 0 {| HierarchicalMutex.m_ := Some 1; HierarchicalMutex.cur_hierarchy_ := 10000;
                    HierarchicalMutex.prev_hierarchy_ := HierarchicalMutex.INT_MAX |});
    [vm_compute; reflexivity|reflexivity].
Defined.

Section ConcurrentQueueMore.
Import ConcurrentQueue.
Context {T : Type}.
Implicit Types (σ : memory T) (l : list (nat * T)).

(** X12.  The queue, used by one thread: after the constructor (in a
    process whose free store has room for the first node and [mem] more)
    and whatever list of calls of push, try_pop(), try_pop(res),
    wait_and_pop() and wait_and_pop(res), every call gives what a
    first-in first-out list with room for [mem] elements gives: push
    appends at the back, or throws [std::bad_alloc] and changes nothing
    when there is no room; a pop takes the oldest value; on the empty
    queue try_pop() gives a null pointer, try_pop(res) gives false and
    leaves [res] alone, and wait_and_pop waits for ever (with
    [head_mutex_] released), so that it is the last call the thread makes.
    After the calls the queue holds the values of the list in its order,
    both mutexes are free, and the free store has the room of the list. *)
Theorem cq_queue_is_a_fifo_list mem (cs : list (call T)) :
  ∃ σ σ' l',
    ConcurrentQueue_ctor (S mem) = (inl (), σ) ∧
    do_calls cs σ = ((fifo_model cs [] mem).1.1, σ') ∧
    queue_rep σ' l' ∧
    l'.*2 = (fifo_model cs [] mem).1.2 ∧
    mem_avail σ' = (fifo_model cs [] mem).2.
Proof.
  destruct (cq_ctor_rep (T:=T) mem) as (σ & Hctor & Hrep & Hm & _).
  destruct (cq_calls_refine_list cs σ [] Hrep) as (σ' & l' & H1 & H2 & H3 & H4).
  rewrite Hm in H1, H3, H4. by exists σ, σ', l'.
Qed.

(** X13.  For every list [xs] of values that the free store has room for:
    pushed onto a new queue in order and popped as many times, by
    try_pop() or wait_and_pop() in any mix, the pops return the values in
    the order they were pushed; afterwards the queue is empty, the only
    node left is the one [head_] and [tail_] point to, and the free store
    has the room it had. *)
Theorem cq_pops_return_the_pushes_in_order mem (xs : list T) (ps : list (call T)) :
  length xs ≤ mem → length ps = length xs →
  Forall (λ c, c = TryPop ∨ c = WaitAndPop) ps →
  ∃ σ σ',
    ConcurrentQueue_ctor (S mem) = (inl (), σ) ∧
    do_calls ((Push <$> xs) ++ ps) σ
      = (replicate (length xs) (inl Void) ++ ((λ x, inl (Ptr (Some x))) <$> xs), σ') ∧
    queue_rep σ' [] ∧ mem_avail σ' = mem ∧
    ∀ a, is_Some (heap σ' !! a) ↔ a = head_ σ'.
Proof.
  intros Hmem Hlen Hps.
  destruct (cq_ctor_rep (T:=T) mem) as (σ & Hctor & Hrep & Hm & _).
  destruct (cq_calls_refine_list ((Push <$> xs) ++ ps) σ [] Hrep)
    as (σ' & l' & H1 & H2 & H3 & H4).
  rewrite Hm in H1, H3, H4. cbn [fmap list_fmap] in H1, H3, H4.
  assert (Hmod : fifo_model ((Push <$> xs) ++ ps) [] mem
                 = (replicate (length xs) (inl Void) ++ ((λ x, inl (Ptr (Some x))) <$> xs),
                    [], mem)).
  { replace mem with (length xs + (mem - length xs)) at 1 by lia.
    rewrite cq_fifo_model_pushes_then. cbn [app].
    rewrite (cq_fifo_model_pops ps xs _ Hlen Hps). cbn [fst snd].
    do 2 f_equal. lia. }
  rewrite Hmod in H1, H3, H4. cbn [fst snd] in H1, H3, H4.
  apply fmap_nil_inv in H3. subst l'.
  exists σ, σ'. split; [done|]. split; [done|]. split; [done|]. split; [done|].
  intros a. destruct H2 as [Hc (o & Ht) _ _ Hcl _ _ _]. simpl in Hc. split.
  - intros Ha%Hcl. apply list_elem_of_singleton in Ha. congruence.
  - intros ->. rewrite Hc. eauto.
Qed.

(** X14.  The life of a queue used by one thread: constructor, any calls,
    destructor.  The destructor is recursive: the destructor of [head_]
    deletes the first node, whose destructor deletes the second from
    inside, and so on to the node [tail_] points to; it takes one nested
    call for each node that is left, that is one for each value left and
    one more.  On a call stack with room for that many it returns; the
    nodes are given back from the last to the first, afterwards no node is
    allocated and the free store has all the room it had before the
    constructor.  On a call stack with less room the innermost call finds
    none: the stack overflows before any node has been given back, and the
    destructor does not return. *)
Theorem cq_destructor_recurses_once_per_node mem (cs : list (call T)) depth :
  ∃ σ σ' l',
    ConcurrentQueue_ctor (S mem) = (inl (), σ) ∧
    do_calls cs σ = ((fifo_model cs [] mem).1.1, σ') ∧
    queue_rep σ' l' ∧ l'.*2 = (fifo_model cs [] mem).1.2 ∧
    (length l' < depth →
       ∃ σ'', ConcurrentQueue_dtor depth σ' = (inl (), σ'') ∧
              heap σ'' = ∅ ∧
              freed σ'' = freed σ' ++ reverse (l'.*1 ++ [tail_ σ']) ∧
              mem_avail σ'' = S mem) ∧
    (depth ≤ length l' →
       ∃ σ'', ConcurrentQueue_dtor depth σ' = (inr stack_overflow, σ'') ∧
              heap σ'' = heap σ' ∧ freed σ'' = freed σ' ∧ mem_avail σ'' = mem_avail σ').
Proof.
  destruct (cq_ctor_rep (T:=T) mem) as (σ & Hctor & Hrep & Hm & _).
  destruct (cq_calls_refine_list cs σ [] Hrep) as (σ' & l' & H1 & H2 & H3 & H4).
  cbn [fmap list_fmap] in H1, H3, H4. rewrite Hm in H1, H3, H4.
  exists σ, σ', l'. do 4 (split; [done|]). split.
  - intros Hdepth.
    destruct (cq_dtor_rep σ' l' depth H2 Hdepth) as (σ'' & Hd & Hheap & Hfreed & Hmem).
    exists σ''. do 3 (split; [done|]).
    pose proof (cq_fifo_model_room cs [] mem) as Hroom.
    rewrite <-H3, <-H4, length_fmap in Hroom. simpl in Hroom. lia.
  - intros Hdepth. by apply (cq_dtor_overflow σ' l').
Qed.

End ConcurrentQueueMore.

Lemma cq_pops_return_the_pushes_in_order_witness :
  length [1; 2; 3] ≤ 3 ∧
  length ([ConcurrentQueue.TryPop; ConcurrentQueue.WaitAndPop; ConcurrentQueue.TryPop]
            : list (ConcurrentQueue.call nat))
    = length [1; 2; 3] ∧
  Forall (λ c : ConcurrentQueue.call nat,
            c = ConcurrentQueue.TryPop ∨ c = ConcurrentQueue.WaitAndPop)
    [ConcurrentQueue.TryPop; ConcurrentQueue.WaitAndPop; ConcurrentQueue.TryPop] ∧
  ∃ σ σ',
    ConcurrentQueue.ConcurrentQueue_ctor 4 = (inl (), σ) ∧
    ConcurrentQueue.do_calls
        ((ConcurrentQueue.Push <$> [1; 2; 3])
           ++ [ConcurrentQueue.TryPop; ConcurrentQueue.WaitAndPop; ConcurrentQueue.TryPop]) σ
      = (replicate (length [1; 2; 3]) (inl ConcurrentQueue.Void)
           ++ ((λ x, inl (ConcurrentQueue.Ptr (Some x))) <$> [1; 2; 3]), σ') ∧
    ConcurrentQueue.queue_rep σ' [] ∧ ConcurrentQueue.mem_avail σ' = 3 ∧
    ∀ a, is_Some (ConcurrentQueue.heap σ' !! a) ↔ a = ConcurrentQueue.head_ σ'.
Proof.
  assert (Hps : Forall (λ c : ConcurrentQueue.call nat,
                          c = ConcurrentQueue.TryPop ∨ c = ConcurrentQueue.WaitAndPop)
                  [ConcurrentQueue.TryPop; ConcurrentQueue.WaitAndPop; ConcurrentQueue.TryPop])
    by (repeat constructor; auto).
  split; [simpl; lia|]. split; [reflexivity|]. split; [exact Hps|].
  apply (cq_pops_return_the_pushes_in_order 3 [1; 2; 3] _); [simpl; lia|reflexivity|exact Hps].
Defined.

Lemma cq_destructor_recurses_once_per_node_witness :
  (∃ σ σ' σ'',
     ConcurrentQueue.ConcurrentQueue_ctor 4 = (inl (), σ) ∧
     ConcurrentQueue.do_calls (ConcurrentQueue.Push <$> [1; 2; 3]) σ
       = (replicate 3 (inl ConcurrentQueue.Void), σ') ∧
     ConcurrentQueue.ConcurrentQueue_dtor 4 σ' = (inl (), σ'') ∧
     ConcurrentQueue.heap σ'' = ∅ ∧ ConcurrentQueue.mem_avail σ'' = 4) ∧
  (∃ σ σ' σ'',
     ConcurrentQueue.ConcurrentQueue_ctor 4 = (inl (), σ) ∧
     ConcurrentQueue.do_calls (ConcurrentQueue.Push <$> [1; 2; 3]) σ
       = (replicate 3 (inl ConcurrentQueue.Void), σ') ∧
     ConcurrentQueue.ConcurrentQueue_dtor 3 σ' = (inr ConcurrentQueue.stack_overflow, σ'') ∧
     ConcurrentQueue.heap σ'' = ConcurrentQueue.heap σ').
Proof.
  split.
  - destruct (cq_destructor_recurses_once_per_node 3 (ConcurrentQueue.Push <$> [1; 2; 3]) 4)
      as (σ & σ' & l' & Hctor & Hcalls & _ & Hl & Hret & _).
    assert (Hlen : length l' < 4).
    { apply (f_equal length) in Hl. rewrite length_fmap in Hl. simpl in Hl. lia. }
    destruct (Hret Hlen) as (σ'' & Hd & Hheap & _ & Hmem).
    exists σ, σ', σ''. split; [exact Hctor|]. split; [exact Hcalls|].
    split; [exact Hd|]. split; [exact Hheap|exact Hmem].
  - destruct (cq_destructor_recurses_once_per_node 3 (ConcurrentQueue.Push <$> [1; 2; 3]) 3)
      as (σ & σ' & l' & Hctor & Hcalls & _ & Hl & _ & Hover).
    assert (Hlen : 3 ≤ length l').
    { apply (f_equal length) in Hl. rewrite length_fmap in Hl. simpl in Hl. lia. }
    destruct (Hover Hlen) as (σ'' & Hd & Hheap & _).
    exists σ, σ', σ''. split; [exact Hctor|]. split; [exact Hcalls|].
    split; [exact Hd|exact Hheap].
Defined.

Section HazardHelperMore.
Import Hazard.
Context {T : Type}.
Implicit Types (Σ : state T) (σ : memory T) (L : thread T) (k : pc T).

(** X15.  The constructor of [HazardPointerHelper] (lines 20-32), run at
    the first [pop] of a thread while no other thread moves: if slot [i] of
    the table is free (its id is the default id) and every slot before it is
    owned, the thread passes the [i] owned slots without writing to them
    and takes slot [i]: after [i + 2] steps it is at line 75, it owns slot
    [i], whose id is now the id of the thread and whose pointer is as it
    was, and nothing else has changed. *)
Theorem hp_helper_takes_the_first_free_slot tid L σ i x :
  at_pc L = PopHelper → hazard_pointer L = None →
  HazardPointers σ !! i = Some x → hp_id x = None →
  (∀ j, j < i → ∃ y, HazardPointers σ !! j = Some y ∧ is_Some (hp_id y)) →
  steps (i + 2) tid L σ
  = (goto PopLoad (set_helper (Some i) L),
     set_HazardPointers (<[i := {| hp_id := Some tid; hp_p := hp_p x |}]> (HazardPointers σ)) σ).
Proof.
  intros Hpc Hh Hx Hid Hbefore.
  pose proof (hp_find_unowned_first _ 0 i x Hx Hid Hbefore) as Hf. simpl in Hf.
  pose proof (hp_ctor_steps tid (HazardPointers σ) 0 (goto (HelperCtor 0) L) σ
                eq_refl eq_refl) as Hctor.
  rewrite Hf, Nat.sub_0_r in Hctor.
  replace (i + 2) with (1 + S i) by lia.
  rewrite (hp_steps_first _ _ _ _ _ _ (hp_step_PopHelper_None tid L σ Hpc Hh)).
  rewrite Hctor. unfold store_id. rewrite Hx. by destruct L.
Qed.

(** X16.  The end of a thread that owns a slot (the destructor of its
    [HazardPointerHelper], lines 34-37), in every state the process can
    reach: the thread stores the null pointer and then the default id in
    its slot and nothing else; the thread makes no call afterwards; and the
    slot, or a free one before it, is what the constructor of the next
    thread without a slot finds: that thread's first [pop] cannot fail for
    want of a slot. *)
Theorem hp_thread_exit_frees_the_slot sched mem Σ tid i fuel :
  run sched (init mem) = Some Σ →
  at_pc (thread_of Σ tid) = Idle → hazard_pointer (thread_of Σ tid) = Some i → 2 ≤ fuel →
  ∃ Σ' x,
    do_exit fuel tid Σ = Some Σ' ∧
    at_pc (thread_of Σ' tid) = Exited ∧ hazard_pointer (thread_of Σ' tid) = None ∧
    HazardPointers (shared Σ) !! i = Some x ∧ hp_id x = Some tid ∧
    shared Σ' = set_HazardPointers (<[i := {| hp_id := None; hp_p := nullptr |}]>
                                      (HazardPointers (shared Σ))) (shared Σ) ∧
    (∀ tid', tid' ≠ tid → thread_of Σ' tid' = thread_of Σ tid') ∧
    (∀ c, exec (Invoke tid c) Σ' = None) ∧
    ∃ j, j ≤ i ∧ find_unowned (HazardPointers (shared Σ')) 0 = Some j.
Proof.
  intros Hrun Hidle Hh Hfuel.
  assert (Hinv : inv Σ) by (eapply hp_run_inv; [apply hp_init_inv|done]).
  destruct (inv_owner _ Hinv tid i Hh) as (x & Hx & Hid & _).
  destruct fuel as [|[|fuel]]; [lia|lia|].
  assert (Hlt : i < length (HazardPointers (shared Σ))) by (by eapply lookup_lt_Some).
  assert (Hth : ∀ (L : thread T),
            thread_of {| shared := shared Σ; threads := <[tid := L]> (threads Σ) |} tid = L).
  { intros L. unfold thread_of. cbn. by rewrite lookup_insert_eq. }
  destruct (thread_of Σ tid) as [pc0 th0 hp0 r0] eqn:HL. cbn in Hidle, Hh. subst pc0 hp0.
  eexists _, x. split.
  { unfold do_exit, exec. rewrite HL. cbn [at_pc]. unfold finish, set_thread. rewrite Hth.
    cbn [shared threads]. unfold leave_thread.
    cbn [run_thread goto at_pc running step_thread hazard_pointer this ret].
    unfold store_p at 1. rewrite Hx. unfold store_id, set_helper.
    cbn [HazardPointers set_HazardPointers hazard_pointer at_pc this ret running].
    rewrite list_lookup_insert_eq by done.
    cbn [hp_id hp_p]. rewrite list_insert_insert_eq. destruct fuel; reflexivity. }
  unfold thread_of at 1 2. cbn [threads shared]. rewrite !lookup_insert_eq. cbn.
  do 5 (split; [done|]). split; [|split].
  - intros tid' Hne. unfold thread_of. cbn. by rewrite !lookup_insert_ne.
  - intros c. unfold exec, thread_of. cbn. by rewrite lookup_insert_eq.
  - destruct (hp_find_unowned_le (<[i := {| hp_id := None; hp_p := nullptr |}]>
                                    (HazardPointers (shared Σ))) 0 i
                {| hp_id := None; hp_p := nullptr |}) as (j & Hj & Hle); [|done|by exists j].
    by apply list_lookup_insert_eq.
Qed.

End HazardHelperMore.

Lemma hp_helper_takes_the_first_free_slot_witness :
  Hazard.at_pc (Hazard.enter (Hazard.Pop 0) (Hazard.thread_of Scenario.hp_reader_state 3))
    = Hazard.PopHelper ∧
  Hazard.hazard_pointer (Hazard.enter (Hazard.Pop 0) (Hazard.thread_of Scenario.hp_reader_state 3))
    = None ∧
  Hazard.HazardPointers (Hazard.shared Scenario.hp_reader_state) !! 0
    = Some {| Hazard.hp_id := Some 2; Hazard.hp_p := 1 |} ∧
  Hazard.HazardPointers (Hazard.shared Scenario.hp_reader_state) !! 1
    = Some {| Hazard.hp_id := None; Hazard.hp_p := nullptr |} ∧
  Hazard.steps (1 + 2) 3
      (Hazard.enter (Hazard.Pop 0) (Hazard.thread_of Scenario.hp_reader_state 3))
      (Hazard.shared Scenario.hp_reader_state)
  = (Hazard.goto Hazard.PopLoad
       (Hazard.set_helper (Some 1)
          (Hazard.enter (Hazard.Pop 0) (Hazard.thread_of Scenario.hp_reader_state 3))),
     Hazard.set_HazardPointers
       (<[1 := {| Hazard.hp_id := Some 3; Hazard.hp_p := nullptr |}]>
          (Hazard.HazardPointers (Hazard.shared Scenario.hp_reader_state)))
       (Hazard.shared Scenario.hp_reader_state)).
Proof.
  assert (H0 : Hazard.HazardPointers (Hazard.shared Scenario.hp_reader_state) !! 0
               = Some {| Hazard.hp_id := Some 2; Hazard.hp_p := 1 |})
    by (vm_compute; reflexivity).
  assert (H1 : Hazard.HazardPointers (Hazard.shared Scenario.hp_reader_state) !! 1
               = Some {| Hazard.hp_id := None; Hazard.hp_p := nullptr |})
    by (vm_compute; reflexivity).
  split; [reflexivity|]. split; [vm_compute; reflexivity|]. split; [exact H0|].
  split; [exact H1|].
  apply (hp_helper_takes_the_first_free_slot 3 _ _ 1
           {| Hazard.hp_id := None; Hazard.hp_p := nullptr |});
    [reflexivity|vm_compute; reflexivity|exact H1|reflexivity|].
  intros j Hj. assert (j = 0) as -> by lia. eexists. split; [exact H0|]. by eexists.
Defined.

Lemma hp_thread_exit_frees_the_slot_witness :
  Hazard.run Scenario.hp_reader_returns_schedule (Hazard.init 10)
    = Some Scenario.hp_reader_returned_state ∧
  Hazard.at_pc (Hazard.thread_of Scenario.hp_reader_returned_state 2) = Hazard.Idle ∧
  Hazard.hazard_pointer (Hazard.thread_of Scenario.hp_reader_returned_state 2) = Some 0 ∧
  2 ≤ 2 ∧
  ∃ Σ', Hazard.do_exit 2 2 Scenario.hp_reader_returned_state = Some Σ' ∧
    Hazard.at_pc (Hazard.thread_of Σ' 2) = Hazard.Exited ∧
    Hazard.find_unowned (Hazard.HazardPointers (Hazard.shared Σ')) 0 = Some 0.
Proof.
  assert (Hrun : Hazard.run Scenario.hp_reader_returns_schedule (Hazard.init 10)
                 = Some Scenario.hp_reader_returned_state) by (vm_compute; reflexivity).
  assert (Hidle : Hazard.at_pc (Hazard.thread_of Scenario.hp_reader_returned_state 2)
                  = Hazard.Idle) by (vm_compute; reflexivity).
  assert (Hh : Hazard.hazard_pointer (Hazard.thread_of Scenario.hp_reader_returned_state 2)
               = Some 0) by (vm_compute; reflexivity).
  split; [exact Hrun|]. split; [exact Hidle|]. split; [exact Hh|]. split; [lia|].
  destruct (hp_thread_exit_frees_the_slot _ _ _ 2 0 2 Hrun Hidle Hh (le_n 2))
    as (Σ' & x & Hexit & Hpc & _ & _ & _ & _ & _ & _ & j & Hj & Hfind).
  exists Σ'. split; [exact Hexit|]. split; [exact Hpc|].
  assert (j = 0) as -> by lia. exact Hfind.
Defined.

Section ConcurrentQueueThreadsMore.
Import ConcurrentQueue ConcurrentQueueThreads.
Context {T : Type}.
Implicit Types (Σ : state T) (σ : memory T) (L : thread T) (l : list (nat * T)).

(** X17.  The queue with any number of threads, in every state it can
    reach after the constructor, whatever the calls and the interleaving:
    no thread has used a null or dangling pointer; [head_mutex_] is locked
    exactly when a thread is between its lock and its unlock, and there is
    at most one such thread; the same for [tail_mutex_]; every node a
    thread is about to read, write or delete is allocated; and no two
    threads are about to use the same node: push works on the last node,
    the pops on the first node with a value, which is another one, or on a
    node they have taken out. *)
Theorem cqt_threads_never_share_a_node mem Σ0 sched Σ :
  init mem = Some Σ0 → run sched Σ0 = Some Σ →
  (∀ tid, at_pc (thread_of Σ tid) ≠ Fault) ∧
  (head_mutex_ (shared Σ) = true ↔ ∃ tid, holds_head (at_pc (thread_of Σ tid)) = true) ∧
  (∀ t1 t2, holds_head (at_pc (thread_of Σ t1)) = true →
            holds_head (at_pc (thread_of Σ t2)) = true → t1 = t2) ∧
  (tail_mutex_ (shared Σ) = true ↔ ∃ tid, holds_tail (at_pc (thread_of Σ tid)) = true) ∧
  (∀ t1 t2, holds_tail (at_pc (thread_of Σ t1)) = true →
            holds_tail (at_pc (thread_of Σ t2)) = true → t1 = t2) ∧
  (∀ tid a, accesses (at_pc (thread_of Σ tid)) (shared Σ) = Some a →
            is_Some (heap (shared Σ) !! a)) ∧
  (∀ t1 t2 a b, t1 ≠ t2 →
     accesses (at_pc (thread_of Σ t1)) (shared Σ) = Some a →
     accesses (at_pc (thread_of Σ t2)) (shared Σ) = Some b → a ≠ b).
Proof.
  intros Hinit Hrun.
  destruct (cqt_run_inv sched Σ0 Σ (cqt_init_inv mem Σ0 Hinit) Hrun) as (hd & l & n & Hinv).
  split; [|split; [|split; [|split; [|split; [|split]]]]].
  - intros tid Hf. pose proof (inv_pc _ _ _ _ Hinv tid) as Hok. by rewrite Hf in Hok.
  - apply Hinv.
  - apply Hinv.
  - apply Hinv.
  - apply Hinv.
  - intros tid a. by apply cqt_accesses_allocated with (hd := hd) (l := l) (n := n).
  - intros t1 t2 a b. by apply cqt_accesses_disjoint with (hd := hd) (l := l) (n := n).
Qed.

(** X18.  The queue with any number of threads, in every state it can
    reach: the values that line 237 has taken out of the queue, in the
    order in which that happened, followed by the values of the nodes that
    are linked in the queue, are the values that line 167 has put in, in
    the order in which that happened: values leave in the order they came,
    none is lost, none leaves twice.  When no thread is inside a call, the
    memory is that of a queue at rest with these nodes. *)
Theorem cqt_values_leave_in_the_order_they_came mem Σ0 sched Σ :
  init mem = Some Σ0 → run sched Σ0 = Some Σ →
  ∃ hd l,
    chain (heap (shared Σ)) hd (tail_ (shared Σ)) l ∧
    Some <$> pushed Σ = popped Σ ++ (Some <$> l.*2) ∧
    (quiescent Σ → queue_rep (shared Σ) l).
Proof.
  intros Hinit Hrun.
  destruct (cqt_run_inv sched Σ0 Σ (cqt_init_inv mem Σ0 Hinit) Hrun) as (hd & l & n & Hinv).
  exists hd, l. split; [apply Hinv|]. split; [apply Hinv|].
  by apply cqt_quiescent_rep with (hd := hd) (n := n).
Qed.

(** X19.  What a pop gives, in every state the queue can reach: a thread
    that has come back from [try_pop_head] or [wait_pop_head] takes its
    last step; with a node, it returns the value that its [pop_head] took
    out of the queue (for try_pop(res) and wait_and_pop(res) that value was
    assigned to [res], and try_pop(res) returns true) and deletes the node;
    without a node, which happens to try_pop only, it returns the null
    pointer, or false with [res] untouched, and changes nothing. *)
Theorem cqt_pop_returns_what_it_took mem Σ0 sched Σ tid c res a :
  init mem = Some Σ0 → run sched Σ0 = Some Σ →
  at_pc (thread_of Σ tid) = Finish c res a →
  ∃ Σ', exec (Step tid) Σ = Some Σ' ∧
    at_pc (thread_of Σ' tid) = Idle ∧ history Σ' = history Σ ∧
    if decide (a = nullptr)
    then waits c = false ∧ shared Σ' = shared Σ ∧
         ret (thread_of Σ' tid)
           = Some (if with_res c then ReturnedBool false None else ReturnedPtr None)
    else ∃ y, last_pop tid (history Σ) = Some (Some y) ∧
         heap (shared Σ') = delete a (heap (shared Σ)) ∧
         ret (thread_of Σ' tid)
           = Some (match c with
                   | ByTryPop | ByWaitAndPop => ReturnedPtr (Some y)
                   | ByTryPopRes => ReturnedBool true (Some y)
                   | ByWaitAndPopRes => Assigned (Some y)
                   end).
Proof.
  intros Hinit Hrun Hpc.
  destruct (cqt_run_inv sched Σ0 Σ (cqt_init_inv mem Σ0 Hinit) Hrun) as (hd & l & n & Hinv).
  pose proof (inv_pc _ _ _ _ Hinv tid) as Hok. rewrite Hpc in Hok. cbn in Hok.
  destruct (decide (a = nullptr)) as [->|Hne].
  - destruct Hok as [Hw ->].
    assert (Hstep : step_thread tid (thread_of Σ tid) (shared Σ)
                    = Some (leave (if with_res c then ReturnedBool false None
                                   else ReturnedPtr None) (thread_of Σ tid), shared Σ, [])).
    { unfold step_thread. rewrite Hpc.
      destruct c; try done; cbn; unfold perform; cbn; by rewrite ?cqt_delete_null. }
    eexists. cbn [exec]. rewrite Hstep. split; [done|].
    rewrite cqt_thread_of_insert, decide_True by done. cbn. by rewrite app_nil_r.
  - destruct (step_thread tid (thread_of Σ tid) (shared Σ)) as [[[L' σ'] es]|] eqn:Hstep.
    + destruct (cqt_step_Finish _ _ _ _ _ _ _ _ _ _ _ Hinv Hpc Hne Hstep)
        as ((y & Hlast & Hres & ->) & -> & Hheap & _).
      eexists. cbn [exec]. rewrite Hstep. split; [done|].
      rewrite cqt_thread_of_insert, decide_True by done. cbn. rewrite app_nil_r.
      split; [done|]. split; [done|]. exists y. split; [done|]. split; [done|].
      destruct c; cbn in *; rewrite ?Hres by done; try done;
        by rewrite bool_decide_true by done.
    + exfalso. apply cqt_step_None in Hstep; rewrite ?Hpc; try done.
      rewrite Hpc in Hstep. by destruct Hstep as [[[(? & ? & ?)|[? ?]] _]|[[[? ?]|[? ?]] _]].
Qed.

(** X20.  No deadlock between the two mutexes, in every state the queue
    can reach: a thread that holds [tail_mutex_] never waits; a thread
    that holds [head_mutex_] waits for [tail_mutex_] at most (line 242);
    so whenever a thread waits for a mutex, another thread, one that holds
    a mutex, can take its next step. *)
Theorem cqt_no_deadlock mem Σ0 sched Σ :
  init mem = Some Σ0 → run sched Σ0 = Some Σ →
  (∀ tid, holds_tail (at_pc (thread_of Σ tid)) = true → is_Some (exec (Step tid) Σ)) ∧
  (∀ tid, holds_head (at_pc (thread_of Σ tid)) = true →
     is_Some (exec (Step tid) Σ) ∨
     ∃ c, at_pc (thread_of Σ tid) = GetTail242 c ∧ tail_mutex_ (shared Σ) = true) ∧
  (∀ tid, blocked Σ tid →
     ∃ tid', tid' ≠ tid ∧ is_Some (exec (Step tid') Σ) ∧
       (holds_head (at_pc (thread_of Σ tid')) = true ∨
        holds_tail (at_pc (thread_of Σ tid')) = true)).
Proof.
  intros Hinit Hrun.
  destruct (cqt_run_inv sched Σ0 Σ (cqt_init_inv mem Σ0 Hinit) Hrun) as (hd & l & n & Hinv).
  assert (Hex : ∀ tid, step_thread tid (thread_of Σ tid) (shared Σ) ≠ None →
                       is_Some (exec (Step tid) Σ)).
  { intros tid Hs. cbn [exec].
    destruct (step_thread tid (thread_of Σ tid) (shared Σ)) as [[[L' σ'] es]|]; [eauto|done]. }
  assert (Htail : ∀ tid, holds_tail (at_pc (thread_of Σ tid)) = true →
                         is_Some (exec (Step tid) Σ)).
  { intros tid Hh. apply Hex. intros Hs.
    apply cqt_step_None in Hs; [| by destruct (at_pc (thread_of Σ tid))..].
    destruct Hs as [[[(? & ? & E)|[? E]] _]|[[[? E]|[? E]] _]]; by rewrite E in Hh. }
  assert (Hhead : ∀ tid, holds_head (at_pc (thread_of Σ tid)) = true →
     is_Some (exec (Step tid) Σ) ∨
     ∃ c, at_pc (thread_of Σ tid) = GetTail242 c ∧ tail_mutex_ (shared Σ) = true).
  { intros tid Hh.
    destruct (step_thread tid (thread_of Σ tid) (shared Σ)) eqn:Hs;
      [left; apply Hex; by rewrite Hs|].
    apply cqt_step_None in Hs; [| by destruct (at_pc (thread_of Σ tid))..].
    destruct Hs as [[[(? & ? & E)|[c E]] Hm]|[[[? E]|[? E]] _]];
      try (by rewrite E in Hh). right. by exists c. }
  split; [exact Htail|]. split; [exact Hhead|].
  intros tid (Hr & Hw & Hn & Hs).
  apply cqt_step_None in Hs; try done.
  destruct Hs as [[Hpc Hm]|[Hpc Hm]].
  - apply (inv_tail_locked _ _ _ _ Hinv) in Hm as [t Ht]. exists t.
    split; [|split; [by apply Htail|by right]].
    intros ->. destruct Hpc as [(? & ? & E)|[? E]]; by rewrite E in Ht.
  - apply (inv_head_locked _ _ _ _ Hinv) in Hm as [t Ht].
    assert (Hne : t ≠ tid).
    { intros ->. destruct Hpc as [[? E]|[? E]]; by rewrite E in Ht. }
    destruct (Hhead t Ht) as [Hstep|(c & Hc & Hm')].
    + exists t. split; [done|]. split; [done|by left].
    + apply (inv_tail_locked _ _ _ _ Hinv) in Hm' as [t' Ht']. exists t'.
      split; [|split; [by apply Htail|by right]].
      intros ->. destruct Hpc as [[? E]|[? E]]; by rewrite E in Ht'.
Qed.

(** X21.  A notification can be lost.  Thread 2 calls wait_and_pop() on
    the new queue and finds it empty (lines 230-231, [get_tail] has
    returned); before it goes to sleep in [cv_.wait], thread 1 pushes [x]
    and calls [cv_.notify_one()], which finds nobody waiting; then thread 2
    goes to sleep.  No spurious wake-up is part of this.  At the end push
    has returned, the queue holds [x] ([head_] is not [tail_]), both
    mutexes are free, no thread but thread 2 is inside a call, and thread 2
    sleeps until somebody pushes again. *)
Theorem cqt_a_notification_can_be_lost (x : T) mem :
  ∃ Σ0 sched Σ,
    init (2 + mem) = Some Σ0 ∧ run sched Σ0 = Some Σ ∧
    Forall (λ a, ∀ t, a ≠ Wake t) sched ∧
    at_pc (thread_of Σ 2) = Waiting ByWaitAndPop ∧
    (∀ t, t ≠ 2 → at_pc (thread_of Σ t) = Idle) ∧
    ret (thread_of Σ 1) = Some Returned ∧
    pushed Σ = [x] ∧ popped Σ = [] ∧
    head_ (shared Σ) ≠ tail_ (shared Σ) ∧
    head_mutex_ (shared Σ) = false ∧ tail_mutex_ (shared Σ) = false.
Proof.
  eexists _, ([Invoke 2 WaitAndPop] ++ replicate 4 (Step 2)
              ++ [Invoke 1 (Push x)] ++ replicate 6 (Step 1)
              ++ [Notify 1 None; Step 2]), _.
  split; [reflexivity|]. split; [vm_compute; reflexivity|].
  split; [repeat constructor; discriminate|].
  split; [reflexivity|]. split.
  { apply cqt_others_idle. vm_compute. repeat constructor; by right. }
  repeat split; try reflexivity. vm_compute. discriminate.
Qed.

Ltac qstep_perform :=
  repeat progress (
    cbv [perform mbind M_bind mret M_ret fail get set_head_ set_tail_ set_head_mutex_ set_tail_mutex_
         lock_head lock_tail unlock_head unlock_tail load store new_Node deref];
    cbn [head_ tail_ head_mutex_ tail_mutex_ heap brk mem_avail freed v next fst snd]).

Ltac run_step tac :=
  erewrite cqt_run_step;
  [|unfold step_thread, enter, goto; cbn [at_pc ret with_res waits]; qstep_perform; tac; qstep_perform;
   reflexivity].

(** X22.  A call that is not interrupted.  The queue is at rest and no
    thread is inside a call; thread [tid] calls a member function and
    performs its statements one after the other, nobody else moves.  It
    never has to wait for a mutex and comes to rest after at most ten
    statements ([cv_.notify_one()] of push finds nobody to wake).  The
    memory is then the one the call leaves when it is taken as one
    sequential function, and the thread has the result of that function:
    the value returned, [std::bad_alloc] from push, or, for wait_and_pop
    on the empty queue, it sleeps in [cv_.wait].  The other threads are as
    they were. *)
Theorem cqt_alone_is_the_member_function Σ l tid (c : call T) :
  queue_rep (shared Σ) l → quiescent Σ →
  ∃ n last Σ',
    run (Invoke tid c :: replicate n (Step tid) ++ last) Σ = Some Σ' ∧
    n ≤ 10 ∧ (last = [] ∨ last = [Notify tid None]) ∧
    shared Σ' = (do_call c (shared Σ)).2 ∧
    rest_of c (do_call c (shared Σ)).1
      = Some (at_pc (thread_of Σ' tid), ret (thread_of Σ' tid)) ∧
    ∀ t, t ≠ tid → thread_of Σ' t = thread_of Σ t.
Proof.
  intros [Hc (o & Ht) Hnd Hnn Hcl Hdom Hhm Htm] Hq.
  destruct Σ as [σ ths hist]. destruct σ as [hd tl hm tm h b m f].
  cbn [shared head_ tail_ head_mutex_ tail_mutex_ heap brk mem_avail freed] in *. subst hm tm.
  assert (Hidle : ∀ t L0, ths !! t = Some L0 → at_pc L0 = Idle).
  { intros t L0 E. specialize (Hq t). unfold thread_of in Hq. cbn [threads] in Hq.
    by rewrite E in Hq. }
  assert (Hoth : ∀ σ' L' hist' t, t ≠ tid →
            thread_of {| shared := σ'; threads := <[tid := L']> ths; history := hist' |} t
            = thread_of {| shared := {| head_ := hd; tail_ := tl; head_mutex_ := false;
                 tail_mutex_ := false; heap := h; brk := b; mem_avail := m; freed := f |};
                 threads := ths; history := hist |} t).
  { intros σ' L' hist' t Hne. rewrite cqt_thread_of_insert. by rewrite decide_False. }
  destruct c as [x| | | |].
  1: { (* push *)
    destruct m as [|m].
    + exists 1, []. eexists. split.
      { cbn [replicate app]. rewrite cqt_run_invoke by apply Hq.
        run_step idtac. reflexivity. }
      split; [lia|]. split; [by left|].
      split; [reflexivity|]. split; [|by apply Hoth].
      rewrite cqt_thread_of_insert, decide_True by done. reflexivity.
    + assert (Hfresh : h !! b = None).
      { destruct (h !! b) eqn:E; [|done]. assert (b < b) by (apply Hdom; eauto). lia. }
      assert (Hne : b ≠ tl) by (intros ->; congruence).
      exists 6, [Notify tid None]. eexists. split.
      { cbn [replicate app]. rewrite cqt_run_invoke by apply Hq.
        run_step idtac. run_step idtac.
        run_step ltac:(rewrite lookup_insert_ne by done; rewrite Ht; qstep_perform;
                    rewrite lookup_insert_ne by done; rewrite Ht).
        run_step ltac:(rewrite lookup_insert_eq; qstep_perform; rewrite lookup_insert_eq; qstep_perform;
                    rewrite cqt_delete_null).
        run_step idtac. run_step idtac.
        rewrite cqt_run_notify_none by done. reflexivity. }
      split; [lia|]. split; [by right|].
      split; [|split; [|by apply Hoth]].
      * cbn [shared]. unfold do_call, push. qstep_perform.
        rewrite lookup_insert_ne by done. rewrite Ht. qstep_perform.
        rewrite lookup_insert_ne by done. rewrite Ht. qstep_perform.
        rewrite cqt_delete_null. qstep_perform. by rewrite insert_insert_eq.
      * rewrite cqt_thread_of_insert, decide_True by done.
        unfold do_call, push. qstep_perform.
        rewrite lookup_insert_ne by done. rewrite Ht. qstep_perform.
        rewrite lookup_insert_ne by done. rewrite Ht. qstep_perform.
        rewrite cqt_delete_null. qstep_perform. reflexivity. }
  all: destruct l as [|[a x] l]; cbn [chain] in Hc.
  (* the pops on the empty queue *)
  1,3,5,7: subst hd.
  1,2: exists 7, []; eexists; split;
    [cbn [replicate app]; rewrite cqt_run_invoke by apply Hq;
     do 7 run_step ltac:(repeat first [rewrite decide_True by done | rewrite cqt_delete_null]);
     reflexivity|].
  3,4: exists 5, []; eexists; split;
    [cbn [replicate app]; rewrite cqt_run_invoke by apply Hq;
     do 5 run_step ltac:(repeat first [rewrite decide_True by done | rewrite cqt_delete_null]);
     reflexivity|].
  1,2,3,4: (split; [lia|]; split; [by left|];
    rewrite cqt_thread_of_insert, decide_True by done;
    unfold do_call, try_pop, try_pop_res, wait_and_pop, wait_and_pop_res, try_pop_head,
      try_pop_head_res, wait_pop_head, wait_pop_head_res, wait_for_data, get_tail;
    qstep_perform; rewrite !decide_True by done; qstep_perform;
    split; [reflexivity|]; split; [reflexivity|]; by apply Hoth).
  all: destruct Hc as (-> & nx & Ha & Hc);
    cbn [fmap list_fmap fst app] in Hnd, Hnn;
    apply NoDup_cons in Hnd as [Hal Hnd];
    assert (Hat : a ≠ tl) by (intros ->; apply Hal, elem_of_app; right; by left);
    assert (Ha0 : a ≠ nullptr) by (intros E; apply Hnn; rewrite <-E; by left);
    assert (Hdel : delete a (<[a := {| v := Some x; next := nullptr |}]> h) = delete a h)
      by apply delete_insert_eq.
  all: match goal with
       | |- context [Invoke _ TryPop] => exists 9
       | |- context [Invoke _ WaitAndPop] => exists 9
       | |- _ => exists 10
       end; exists []; eexists; split;
    [cbn [replicate app]; rewrite cqt_run_invoke by apply Hq;
     repeat run_step ltac:(repeat (qstep_perform;
       first [ rewrite Ha | rewrite decide_False by done | rewrite lookup_insert_eq
             | rewrite cqt_delete_null
             | rewrite (cq_delete_single a (Some x)) by (done || apply lookup_insert_eq) ]));
     reflexivity|].

  all: (split; [lia|]; split; [by left|];
    rewrite cqt_thread_of_insert, decide_True by done;
    unfold do_call, try_pop, try_pop_res, wait_and_pop, wait_and_pop_res, try_pop_head,
      try_pop_head_res, wait_pop_head, wait_pop_head_res, wait_for_data, get_tail, pop_head;
    repeat (qstep_perform;
            first [ rewrite Ha | rewrite decide_False by done | rewrite lookup_insert_eq
                  | rewrite (cq_delete_single a (Some x)) by (done || apply lookup_insert_eq)
                  | rewrite Hdel ]);
    unfold result_of; rewrite ?bool_decide_eq_true_2 by done;
    split; [reflexivity|]; split; [reflexivity|]; by apply Hoth).
Qed.

End ConcurrentQueueThreadsMore.

Lemma cqt_threads_never_share_a_node_witness :
  ConcurrentQueueThreads.init 3 = Some MoreScenarios.cq_new_state ∧
  ConcurrentQueueThreads.run MoreScenarios.cq_taken MoreScenarios.cq_new_state
    = Some MoreScenarios.cq_taken_state ∧
  (∀ tid, ConcurrentQueueThreads.at_pc
            (ConcurrentQueueThreads.thread_of MoreScenarios.cq_taken_state tid)
          ≠ ConcurrentQueueThreads.Fault) ∧
  is_Some (ConcurrentQueue.heap (ConcurrentQueueThreads.shared MoreScenarios.cq_taken_state) !! 1).
Proof.
  assert (Hinit : ConcurrentQueueThreads.init 3 = Some MoreScenarios.cq_new_state)
    by (vm_compute; reflexivity).
  assert (Hrun : ConcurrentQueueThreads.run MoreScenarios.cq_taken MoreScenarios.cq_new_state
                 = Some MoreScenarios.cq_taken_state) by (vm_compute; reflexivity).
  split; [exact Hinit|]. split; [exact Hrun|].
  destruct (cqt_threads_never_share_a_node _ _ _ _ Hinit Hrun)
    as (Hnf & _ & _ & _ & _ & Halloc & _).
  split; [exact Hnf|]. apply (Halloc 2 1). vm_compute. reflexivity.
Defined.

Lemma cqt_values_leave_in_the_order_they_came_witness :
  ConcurrentQueueThreads.init 3 = Some MoreScenarios.cq_new_state ∧
  ConcurrentQueueThreads.run MoreScenarios.cq_taken MoreScenarios.cq_new_state
    = Some MoreScenarios.cq_taken_state ∧
  ∃ hd l,
    ConcurrentQueue.chain
      (ConcurrentQueue.heap (ConcurrentQueueThreads.shared MoreScenarios.cq_taken_state)) hd
      (ConcurrentQueue.tail_ (ConcurrentQueueThreads.shared MoreScenarios.cq_taken_state)) l ∧
    Some <$> ConcurrentQueueThreads.pushed MoreScenarios.cq_taken_state
      = ConcurrentQueueThreads.popped MoreScenarios.cq_taken_state ++ (Some <$> l.*2) ∧
    (ConcurrentQueueThreads.quiescent MoreScenarios.cq_taken_state →
     ConcurrentQueue.queue_rep (ConcurrentQueueThreads.shared MoreScenarios.cq_taken_state) l).
Proof.
  assert (Hinit : ConcurrentQueueThreads.init 3 = Some MoreScenarios.cq_new_state)
    by (vm_compute; reflexivity).
  assert (Hrun : ConcurrentQueueThreads.run MoreScenarios.cq_taken MoreScenarios.cq_new_state
                 = Some MoreScenarios.cq_taken_state) by (vm_compute; reflexivity).
  split; [exact Hinit|]. split; [exact Hrun|].
  exact (cqt_values_leave_in_the_order_they_came _ _ _ _ Hinit Hrun).
Defined.

Lemma cqt_pop_returns_what_it_took_witness :
  ConcurrentQueueThreads.init 3 = Some MoreScenarios.cq_new_state ∧
  ConcurrentQueueThreads.run MoreScenarios.cq_taken MoreScenarios.cq_new_state
    = Some MoreScenarios.cq_taken_state ∧
  ConcurrentQueueThreads.at_pc (ConcurrentQueueThreads.thread_of MoreScenarios.cq_taken_state 2)
    = ConcurrentQueueThreads.Finish ConcurrentQueueThreads.ByWaitAndPop None 1 ∧
  ∃ Σ', ConcurrentQueueThreads.exec (ConcurrentQueueThreads.Step 2) MoreScenarios.cq_taken_state
        = Some Σ' ∧
    ConcurrentQueueThreads.at_pc (ConcurrentQueueThreads.thread_of Σ' 2)
      = ConcurrentQueueThreads.Idle ∧
    ∃ y, ConcurrentQueueThreads.last_pop 2
           (ConcurrentQueueThreads.history MoreScenarios.cq_taken_state) = Some (Some y) ∧
         ConcurrentQueueThreads.ret (ConcurrentQueueThreads.thread_of Σ' 2)
           = Some (ConcurrentQueueThreads.ReturnedPtr (Some y)).
Proof.
  assert (Hinit : ConcurrentQueueThreads.init 3 = Some MoreScenarios.cq_new_state)
    by (vm_compute; reflexivity).
  assert (Hrun : ConcurrentQueueThreads.run MoreScenarios.cq_taken MoreScenarios.cq_new_state
                 = Some MoreScenarios.cq_taken_state) by (vm_compute; reflexivity).
  assert (Hpc : ConcurrentQueueThreads.at_pc
                  (ConcurrentQueueThreads.thread_of MoreScenarios.cq_taken_state 2)
                = ConcurrentQueueThreads.Finish ConcurrentQueueThreads.ByWaitAndPop None 1)
    by (vm_compute; reflexivity).
  split; [exact Hinit|]. split; [exact Hrun|]. split; [exact Hpc|].
  destruct (cqt_pop_returns_what_it_took _ _ _ _ 2 _ _ _ Hinit Hrun Hpc)
    as (Σ' & Hexec & Hidle & _ & Hres).
  destruct (decide (1 = nullptr)) as [E|_]; [discriminate E|].
  destruct Hres as (y & Hlast & _ & Hret).
  exists Σ'. split; [exact Hexec|]. split; [exact Hidle|]. exists y. split; [exact Hlast|exact Hret].
Defined.

Lemma cqt_no_deadlock_witness :
  ConcurrentQueueThreads.init 3 = Some MoreScenarios.cq_new_state ∧
  ConcurrentQueueThreads.run MoreScenarios.cq_contended MoreScenarios.cq_new_state
    = Some MoreScenarios.cq_contended_state ∧
  ConcurrentQueueThreads.blocked MoreScenarios.cq_contended_state 3 ∧
  ∃ tid', tid' ≠ 3 ∧
    is_Some (ConcurrentQueueThreads.exec (ConcurrentQueueThreads.Step tid')
               MoreScenarios.cq_contended_state) ∧
    (ConcurrentQueueThreads.holds_head
       (ConcurrentQueueThreads.at_pc
          (ConcurrentQueueThreads.thread_of MoreScenarios.cq_contended_state tid')) = true ∨
     ConcurrentQueueThreads.holds_tail
       (ConcurrentQueueThreads.at_pc
          (ConcurrentQueueThreads.thread_of MoreScenarios.cq_contended_state tid')) = true).
Proof.
  assert (Hinit : ConcurrentQueueThreads.init 3 = Some MoreScenarios.cq_new_state)
    by (vm_compute; reflexivity).
  assert (Hrun : ConcurrentQueueThreads.run MoreScenarios.cq_contended MoreScenarios.cq_new_state
                 = Some MoreScenarios.cq_contended_state) by (vm_compute; reflexivity).
  assert (Hb : ConcurrentQueueThreads.blocked MoreScenarios.cq_contended_state 3).
  { split; [vm_compute; reflexivity|]. split; [vm_compute; reflexivity|].
    split; [vm_compute; discriminate|vm_compute; reflexivity]. }
  split; [exact Hinit|]. split; [exact Hrun|]. split; [exact Hb|].
  destruct (cqt_no_deadlock _ _ _ _ Hinit Hrun) as (_ & _ & Hprog). exact (Hprog 3 Hb).
Defined.

Lemma cqt_alone_is_the_member_function_witness :
  ConcurrentQueue.queue_rep (ConcurrentQueueThreads.shared MoreScenarios.cq_new_state) [] ∧
  ConcurrentQueueThreads.quiescent MoreScenarios.cq_new_state ∧
  ∃ n last Σ',
    ConcurrentQueueThreads.run
      (ConcurrentQueueThreads.Invoke 1 (ConcurrentQueue.Push 5)
         :: replicate n (ConcurrentQueueThreads.Step 1) ++ last)
      MoreScenarios.cq_new_state = Some Σ' ∧
    n ≤ 10 ∧ (last = [] ∨ last = [ConcurrentQueueThreads.Notify 1 None]) ∧
    ConcurrentQueueThreads.shared Σ'
      = (ConcurrentQueue.do_call (ConcurrentQueue.Push 5)
           (ConcurrentQueueThreads.shared MoreScenarios.cq_new_state)).2 ∧
    ConcurrentQueueThreads.rest_of (ConcurrentQueue.Push 5)
      (ConcurrentQueue.do_call (ConcurrentQueue.Push 5)
         (ConcurrentQueueThreads.shared MoreScenarios.cq_new_state)).1
      = Some (ConcurrentQueueThreads.at_pc (ConcurrentQueueThreads.thread_of Σ' 1),
              ConcurrentQueueThreads.ret (ConcurrentQueueThreads.thread_of Σ' 1)) ∧
    ∀ t, t ≠ 1 → ConcurrentQueueThreads.thread_of Σ' t
                 = ConcurrentQueueThreads.thread_of MoreScenarios.cq_new_state t.
Proof.
  assert (Hrep : ConcurrentQueue.queue_rep
                   (ConcurrentQueueThreads.shared MoreScenarios.cq_new_state) []).
  { destruct (cq_ctor_rep (T:=nat) 2) as (σ & Hσ & Hrep & _).
    unfold MoreScenarios.cq_new_state. cbn [ConcurrentQueueThreads.shared].
    rewrite Hσ. exact Hrep. }
  assert (Hq : ConcurrentQueueThreads.quiescent MoreScenarios.cq_new_state)
    by (intros t; reflexivity).
  split; [exact Hrep|]. split; [exact Hq|].
  exact (cqt_alone_is_the_member_function _ _ 1 (ConcurrentQueue.Push 5) Hrep Hq).
Defined.
